(* ===== verification/_CoqProject ===== *)
-Q . S2P
Prelude.v
Codec.v
Engine.v
Mvcc.v
View.v
Hlc.v
Resolver.v
Coordinator.v
CoordSpec.v
Txn.v
TxnThm.v
BatchThm.v
RecoveryThm.v
EngineOps.v
Scan.v
History.v
Session.v
Pool.v
Discipline.v
Interleave.v
Router.v
LegacyRegion.v
RaftStore.v
Findings.v
RaftNode.v
Node.v
NodeThm.v
Startup.v
Utf8.v
Client.v
Cli.v
Collector.v
