(* ===== verification/Prelude.v ===== *)
(** * A verification development of the distributed ACID key-value store

    The program is a Rust workspace: a storage crate with multi-version
    concurrency control over the embedded engine Fjall, a Percolator-style
    two-phase-commit coordinator with a hybrid logical clock, a Raft layer with
    a region router, a node that serves both over gRPC, a client library with a
    batch collector, and a command line tool.

    ** The parts and how they interact

<<
    client.rs, kv-cli.rs --gRPC--> service.rs --> coordinator.rs --> lock_resolver.rs
                                       |               |    |              |
                                    server.rs       hlc.rs  +--> reader.rs |
                                       |                            |      |
                        router.rs, node.rs (raft) --> store.rs -> engine.rs (Fjall)
>>

    A client asks for a timestamp, prewrites its mutations (a lock on every key,
    the values under the start timestamp) and commits (a write record under the
    commit timestamp, the lock removed), the first key being the primary that
    decides the fate of the rest.  Readers walk the write records newest first
    and resolve the locks in their way by the state of the primary.

    ** Files

    - [Prelude]: results, machine integers, bytes and their order, big-endian
      encoding, ordered maps as sorted listings, tactics and hint databases.
    - [Codec]: [storage/src/mvcc/key.rs], [mvcc/mod.rs], [lock.rs]: the on-disk
      encodings of versioned keys, write records and locks.
    - [Engine]: [storage/src/engine.rs]: partitions and batches, the interface
      [Fjall] with its laws, programs [prog] over it, their runs [run] and
      weakest preconditions [wp], and an in-memory instance.
    - [Mvcc]: [storage/src/mvcc/reader.rs], the abstract view of a store
      ([write_at], [lock_at], [data_at]) and the specification [snapshot_read].
    - [View]: what batches do to that view, and the store invariant [inv K].
    - [Hlc]: [txn-coordinator/src/hlc.rs].
    - [Resolver]: [txn-coordinator/src/lock_resolver.rs].
    - [Coordinator]: [txn-coordinator/src/coordinator.rs], one definition per
      method and per loop; [CoordSpec] has a weakest precondition for each of
      them, [Txn] the lemmas that compose them.
    - [TxnThm], [BatchThm], [RecoveryThm]: the theorems about transactions.
    - [Scan]: the theorem about range scans.
    - [History]: an abstract multi-version map with atomic transactions, and the
      refinement of whole sequences of client operations to it; [Session]: the
      same with timestamps from the clock, refined to a plain map.
    - [EngineOps]: garbage collection, key listings, region statistics and
      median keys of [engine.rs].
    - [Pool]: concurrent requests as a pool of programs that step one engine call
      at a time, with rely-guarantee rules; [Discipline]: what a class of stores
      has to allow for every coordinator operation to stay in it, as a type
      class, and the operations' proofs against it; [Interleave]: its instances,
      the theorems about interleavings, and two races.
    - [Router]: [raft-engine/src/router.rs]; [LegacyRegion]: the older module
      under [region/]; [RaftStore]: [store.rs]; [RaftNode]: [node.rs] and
      [config.rs].
    - [Node]: [node/src/server.rs] and [service.rs], every gRPC handler;
      [NodeThm]: a node over its life; [Startup]: [storage/src/config.rs],
      [open_with_config], the server's configuration and [node/src/main.rs].
    - [Client]: the methods of [client/src/client.rs]; [Collector]: its batch
      collector; [Utf8]: the text functions of the standard library the command
      line tool prints with; [Cli]: [client/src/bin/kv-cli.rs].
    - [Findings]: concrete runs in which the code does not do what its
      documentation says.

    ** How the code is modelled

    Code that touches storage or the clock is a [prog]: a tree of the engine
    calls it makes, each continued with the answer ([let*] sequences, [let?] is
    the question mark operator with its error conversion).  Rust's [Result] is
    [result]; the variants of every error enum are constructors, and errors are
    kept as values where the node renders them as text.  Bytes are Stdlib bytes, [u64]
    values are [Z] with their range stated and wrap-around written out as a
    release build computes it.  State behind a mutex ([HlcInner], the router's
    maps, the region table) is a record threaded through its critical sections.

    Fjall is not part of the repository.  [Fjall] is its interface over an
    arbitrary world and [FjallLaws F T] what the store relies on: a partition is
    an ordered map, a range iterator sees the partition as of the call, a batch
    applies entirely or not at all, calls may fail only if [F] holds, and the
    clock returns times satisfying [T].  Every theorem quantifies over the
    engine; the laws are shown to hold of the in-memory instance, on which the
    witnesses run.  The RawNode and the protobuf encodings of the raft crate, the
    gRPC channel, the opening of a keyspace, the file system and the TOML and
    address parsers are interfaces in the same way.

    The batch collector is a transition system: its two tasks, channels, timers
    and reply channels, the submissions under way, and the world they share.

    The key encoding has no terminator, so the versions of a key and of a key
    that extends it can interleave ([Findings.prefix_keys_hide_versions]).  The
    transaction theorems are therefore stated for stores all of whose keys are
    drawn from a prefix-free set [K] ([inv K] of [View]), such as keys of one
    length or terminated keys.

    No definition of the transaction code needs fuel: loops run over the
    mutations, the keys, or the items of one range call, and are structural.  The
    decimal printer of [RaftStore] has fuel 20, the number of digits of the
    largest [u64].

    ** What the theorems show

    - Transactions ([TxnThm], [BatchThm]): a committed transaction whose keys were
      unlocked when it prewrote them is visible in every snapshot from its commit
      timestamp on and in none before; an
      undisturbed transaction succeeds and reads back what it wrote; first
      committer wins; a rollback is permanent; the outcome of commit on every
      branch; batched prewrite is all or nothing; batched commit agrees with
      commit; reads refine the abstract snapshot read.
    - Recovery ([RecoveryThm]): expired transactions are rolled back by whoever
      meets them, committed ones rolled forward, heartbeats keep one alive.
    - Whole histories ([History], [Session]): sequences of transactions, reads and
      scans return what an atomic multi-version map returns; and a client that
      takes its timestamps from the clock gets what a plain map would give it, as
      long as the clock's counter fits.  In both, a scan starts at the empty key
      or at a key that no key of the prefix-free set extends: from a proper prefix
      it may skip keys ([Findings.scan_skips_extensions]).
    - Concurrency ([Interleave]): every interleaving of any requests, with I/O
      errors, preserves the store invariant; without deletions a concurrent read
      or scan returns only values that were written; the race between prewrites
      and the race between a commit and a resolver.
    - Scans ([Scan]): a range scan that succeeds returns, in order, the keys of
      the range that have a value in the snapshot, each with that value, except
      that it may leave out proper extensions of a non-empty start key.
    - Storage ([Codec], [Mvcc], [EngineOps]): round trips and order of the
      encodings; the reader computes snapshot reads; which snapshots at or above
      the safe point a collection keeps (all but those whose newest older record
      is a rollback over a live version, which it loses), and that it leaves one
      old version; listings, statistics and median keys.
    - Clock ([Hlc]): packing; monotone and causal timestamps while the counter
      fits in 16 bits; that fewer than 2^16 events cannot overflow it, and that
      the 65537th call of a millisecond repeats the first timestamp.
    - Raft layer ([Router], [LegacyRegion], [RaftStore], [RaftNode]): regions tile
      the key space and splits keep it so; the older router agrees with the one
      in use; the log stays contiguous and overwrites conflicts; a restart loads
      at every index the entry appended last, without the dummy entry and with
      the entries a truncation displaced; entries and hard state are in the engine
      before messages go out, unless a write fails, which the code ignores.
    - Node ([NodeThm], [Startup]): whatever requests it serves, a node keeps one
      region for every key and one region for every Raft group; suggested splits
      succeed; a node starts with the configuration it is given, on the directory
      it names and the Raft log stored there (or panics when the raft crate
      refuses that log), and the engine's settings do not overflow.
    - Client ([Collector], [Cli]): the collector forwards items at most once, in
      order and within its bounds, drops only items nobody waits for, and answers
      every submission within a bounded number of steps, not counting timers that
      elapse with nothing gathered; what
      [kv-cli put] writes [kv-cli get] prints, through all layers, from the next
      millisecond on.

    ** What is not modelled

    The generated protobuf and gRPC code and the argument parsers (generated by
    their crates), the serving loop of tonic, logging, tests and benchmarks.

    ** Plan

    In order: that a read under concurrency returns the newest value committed
    before it when locks do not expire; the life of a Raft group between the
    handlers and [process_ready]; clock updates across two nodes. *)

From stdpp Require Export base list gmap sorting strings.
From Stdlib Require Import ZArith Lia.
From Stdlib Require Import Strings.Byte.

#[global] Open Scope Z_scope.
#[global] Set Default Goal Selector "!".

(** ** Results

    Rust's [Result<A, E>], with the error type first so that [result E]
    reads like the alias every crate of the store uses. *)
Inductive result (E A : Type) : Type :=
| Ok (a : A)
| Err (e : E).
Arguments Ok {E A} a.
Arguments Err {E A} e.

(** [Result::map_err]. *)
Definition map_err {E E' A} (f : E → E') (r : result E A) : result E' A :=
  match r with Ok a => Ok a | Err e => Err (f e) end.

(** [Result::is_err]. *)
Definition is_err {E A} (r : result E A) : bool :=
  match r with Ok _ => false | Err _ => true end.

(** [Option::ok_or]. *)
Definition ok_or {E A} (o : option A) (e : E) : result E A :=
  match o with Some a => Ok a | None => Err e end.

#[export] Instance result_eq_dec {E A} `{!EqDecision E, !EqDecision A} :
  EqDecision (result E A).
Proof. solve_decision. Defined.

(** ** Bytes

    [u8] is the Standard Library's [byte]; a [Vec<u8>] or [&[u8]] is a list
    of them. *)
Abbreviation bytes := (list byte).

#[export] Instance byte_eq_decision : EqDecision byte := byte_eq_dec.
#[export] Instance byte_countable : Countable byte :=
  inj_countable Byte.to_N Byte.of_N Byte.of_to_N.

(** The bytes of a string, [s.into_bytes()] or a byte-string literal. *)
Definition of_str (s : string) : bytes := String.list_byte_of_string s.

Definition b2z (x : byte) : Z := Z.of_N (Byte.to_N x).

(** [z as u8]: truncation to the low eight bits. *)
Definition z2b (z : Z) : byte :=
  match Byte.of_N (Z.to_N (z mod 256)) with Some x => x | None => x00 end.

(** ** Machine integers

    A [u64] is a [Z] in range; the release build the repository ships wraps
    on overflow, so arithmetic is written with its modulus. *)
Definition u64_MAX : Z := 2 ^ 64 - 1.
Definition u64 (z : Z) : Prop := 0 ≤ z < 2 ^ 64.
Definition u32 (z : Z) : Prop := 0 ≤ z < 2 ^ 32.

Definition u64_wrap (z : Z) : Z := z mod 2 ^ 64.
Definition u32_wrap (z : Z) : Z := z mod 2 ^ 32.
Definition u64_add (x y : Z) : Z := u64_wrap (x + y).
Definition u32_add (x y : Z) : Z := u32_wrap (x + y).

(** [!x] on [u64]. *)
Definition u64_not (x : Z) : Z := u64_wrap (Z.lnot x).

#[export] Instance u64_dec z : Decision (u64 z).
Proof. unfold u64; apply _. Defined.
#[export] Instance u32_dec z : Decision (u32 z).
Proof. unfold u32; apply _. Defined.

(** [to_be_bytes] on an integer of [n] bytes. *)
Fixpoint to_be_bytes (n : nat) (z : Z) : bytes :=
  match n with
  | O => []
  | S n' => z2b (z / 256 ^ Z.of_nat n') :: to_be_bytes n' z
  end.

(** [from_be_bytes]. *)
Fixpoint from_be_bytes (l : bytes) : Z :=
  match l with
  | [] => 0
  | x :: l' => b2z x * 256 ^ Z.of_nat (length l') + from_be_bytes l'
  end.

(** ** Lexicographic order on byte strings, [Ord for [u8]] *)
Fixpoint lex_compare (x y : bytes) : comparison :=
  match x, y with
  | [], [] => Eq
  | [], _ :: _ => Lt
  | _ :: _, [] => Gt
  | a :: x', c :: y' =>
      match b2z a ?= b2z c with Eq => lex_compare x' y' | o => o end
  end.

Definition bytes_lt (x y : bytes) : Prop := lex_compare x y = Lt.
Definition bytes_le (x y : bytes) : Prop := lex_compare x y ≠ Gt.

#[export] Instance bytes_lt_dec x y : Decision (bytes_lt x y).
Proof. unfold bytes_lt. solve_decision. Defined.
#[export] Instance bytes_le_dec x y : Decision (bytes_le x y).
Proof. unfold bytes_le. apply _. Defined.

(** The order gets its own scope: the repository compares slices with the
    plain comparison operators. *)
Declare Scope bytes_scope.
Delimit Scope bytes_scope with bytes.
Notation "x < y" := (bytes_lt x y) : bytes_scope.
Notation "x <= y" := (bytes_le x y) : bytes_scope.
Notation "x ≤ y" := (bytes_le x y) : bytes_scope.

(** ** Automation *)
Create HintDb kv discriminated.

(** Split every [decide] and [match] of the goal and the hypotheses, and
    close what is contradictory. *)
Ltac case_all :=
  repeat (case_decide || case_match || simplify_eq/=); try done.

(** ** Lemmas: bytes and machine integers *)
Lemma b2z_range x : 0 ≤ b2z x < 256.
Proof. unfold b2z. pose proof (Byte.to_N_bounded x). lia. Qed.

Lemma z2b_b2z x : z2b (b2z x) = x.
Proof.
  unfold z2b. pose proof (b2z_range x). rewrite Z.mod_small by lia.
  unfold b2z. by rewrite N2Z.id, Byte.of_to_N.
Qed.

Lemma b2z_z2b z : b2z (z2b z) = z mod 256.
Proof.
  unfold z2b. pose proof (Z.mod_pos_bound z 256 ltac:(lia)).
  destruct (Byte.of_N (Z.to_N (z mod 256))) as [x|] eqn:E.
  - apply Byte.to_of_N in E. unfold b2z. lia.
  - apply Byte.of_N_None_iff in E. lia.
Qed.

Lemma b2z_inj x y : b2z x = b2z y → x = y.
Proof. intros E. by rewrite <-(z2b_b2z x), E, z2b_b2z. Qed.

Lemma u64_wrap_id z : u64 z → u64_wrap z = z.
Proof. apply Z.mod_small. Qed.

Lemma u64_wrap_range z : u64 (u64_wrap z).
Proof. by apply Z.mod_pos_bound. Qed.

Lemma u32_wrap_range z : u32 (u32_wrap z).
Proof. by apply Z.mod_pos_bound. Qed.

Lemma u32_wrap_id z : u32 z → u32_wrap z = z.
Proof. apply Z.mod_small. Qed.

Lemma u64_not_spec x : u64 x → u64_not x = u64_MAX - x.
Proof.
  unfold u64, u64_not, u64_wrap, u64_MAX, Z.lnot. intros ?.
  symmetry. apply (Z.mod_unique_pos _ _ (-1)); lia.
Qed.

Lemma u64_not_range x : u64 (u64_not x).
Proof. apply u64_wrap_range. Qed.

Lemma u64_not_involutive x : u64 x → u64_not (u64_not x) = x.
Proof.
  intros H. rewrite (u64_not_spec (u64_not x)) by apply u64_not_range.
  rewrite (u64_not_spec x H). lia.
Qed.

#[export] Hint Resolve b2z_range u64_wrap_range u32_wrap_range u64_not_range : kv.

(** ** Lemmas: big-endian encoding *)
Lemma length_to_be_bytes n z : length (to_be_bytes n z) = n.
Proof. induction n; simpl; auto. Qed.

Lemma pow256_pos n : 0 < 256 ^ Z.of_nat n.
Proof. apply Z.pow_pos_nonneg; lia. Qed.

Lemma pow256_S n : 256 ^ Z.of_nat (S n) = 256 * 256 ^ Z.of_nat n.
Proof. rewrite Nat2Z.inj_succ, Z.pow_succ_r; lia. Qed.

Lemma from_be_bytes_range l : 0 ≤ from_be_bytes l < 256 ^ Z.of_nat (length l).
Proof.
  induction l as [|x l IH]; [simpl; lia|].
  cbn [from_be_bytes length]. rewrite pow256_S. pose proof (b2z_range x). nia.
Qed.

Lemma to_be_bytes_mod n z m :
  (n ≤ m)%nat → to_be_bytes n (z mod 256 ^ Z.of_nat m) = to_be_bytes n z.
Proof.
  revert m. induction n as [|n IH]; intros m Hm; simpl; [done|].
  rewrite IH by lia. f_equal. apply b2z_inj. rewrite !b2z_z2b.
  pose proof (pow256_pos n).
  replace m with (S n + (m - S n))%nat by lia.
  rewrite Nat2Z.inj_add, Z.pow_add_r by lia. rewrite pow256_S.
  set (p := 256 ^ Z.of_nat n) in *. set (q := 256 ^ Z.of_nat (m - S n)).
  replace (256 * p * q) with (p * (256 * q)) by lia.
  pose proof (pow256_pos (m - S n)). fold q in H0.
  rewrite Z.rem_mul_r by lia.
  rewrite Z.add_comm, Z.mul_comm, Z.div_add_l by lia.
  rewrite (Z.div_small (z mod p)) by (apply Z.mod_pos_bound; lia).
  rewrite Z.add_0_r. apply Z.mod_mod_divide. by exists q; lia.
Qed.

Lemma from_to_be_bytes n z :
  from_be_bytes (to_be_bytes n z) = z mod 256 ^ Z.of_nat n.
Proof.
  induction n as [|n IH]; [simpl; by rewrite Z.mod_1_r|].
  cbn [to_be_bytes from_be_bytes]. rewrite IH, length_to_be_bytes, b2z_z2b, pow256_S.
  pose proof (pow256_pos n). rewrite (Z.mul_comm 256), Z.rem_mul_r by lia. lia.
Qed.

Lemma to_from_be_bytes l : to_be_bytes (length l) (from_be_bytes l) = l.
Proof.
  induction l as [|x l IH]; [done|]. cbn [to_be_bytes from_be_bytes length].
  pose proof (from_be_bytes_range l) as R. f_equal.
  - rewrite Z.div_add_l by lia. rewrite (Z.div_small (from_be_bytes l)) by lia.
    by rewrite Z.add_0_r, z2b_b2z.
  - rewrite <-(to_be_bytes_mod _ _ (length l)) by lia.
    rewrite Z.add_comm, Z.mod_add by lia. by rewrite Z.mod_small.
Qed.

Lemma from_to_be_bytes_u64 z : u64 z → from_be_bytes (to_be_bytes 8 z) = z.
Proof. intros. rewrite from_to_be_bytes. by apply Z.mod_small. Qed.

Lemma from_be_bytes_u64 l : length l = 8%nat → u64 (from_be_bytes l).
Proof. intros E. pose proof (from_be_bytes_range l) as H. by rewrite E in H. Qed.

#[export] Hint Resolve from_be_bytes_u64 length_to_be_bytes : kv.

(** ** Lemmas: the byte-string order *)
Lemma lex_compare_refl x : lex_compare x x = Eq.
Proof. induction x; simpl; [done|]. by rewrite Z.compare_refl. Qed.

Lemma lex_compare_eq x y : lex_compare x y = Eq ↔ x = y.
Proof.
  split; [|intros ->; apply lex_compare_refl].
  revert y. induction x as [|a x IH]; intros [|c y]; simpl; try done.
  destruct (Z.compare_spec (b2z a) (b2z c)); try done.
  intros ?. f_equal; [by apply b2z_inj|auto].
Qed.

Lemma lex_compare_antisym x y : lex_compare y x = CompOpp (lex_compare x y).
Proof.
  revert y. induction x as [|a x IH]; intros [|c y]; simpl; try done.
  rewrite (Z.compare_antisym (b2z a) (b2z c)).
  destruct (b2z a ?= b2z c); simpl; auto.
Qed.

Lemma bytes_lt_gt x y : lex_compare x y = Gt ↔ bytes_lt y x.
Proof.
  unfold bytes_lt. rewrite (lex_compare_antisym x y).
  destruct (lex_compare x y); simpl; split; done.
Qed.

Lemma bytes_le_not_lt x y : bytes_le x y ↔ ¬ bytes_lt y x.
Proof. unfold bytes_le. by rewrite bytes_lt_gt. Qed.

#[export] Instance bytes_lt_irrefl : Irreflexive bytes_lt.
Proof. intros x H. unfold bytes_lt in H. by rewrite lex_compare_refl in H. Qed.

#[export] Instance bytes_lt_trans : Transitive bytes_lt.
Proof.
  unfold bytes_lt. intros x. induction x as [|a x IH]; intros [|c y] [|d z]; simpl; try done.
  destruct (Z.compare_spec (b2z a) (b2z c)), (Z.compare_spec (b2z c) (b2z d));
    try done; intros ??;
    destruct (Z.compare_spec (b2z a) (b2z d)); try lia; eauto.
Qed.

#[export] Instance bytes_lt_strict : StrictOrder bytes_lt.
Proof. split; apply _. Qed.

Lemma bytes_trichotomy x y : bytes_lt x y ∨ x = y ∨ bytes_lt y x.
Proof.
  destruct (lex_compare x y) eqn:E; [|by left|].
  - apply lex_compare_eq in E. auto.
  - apply bytes_lt_gt in E. auto.
Qed.

Lemma bytes_le_lt_eq x y : bytes_le x y ↔ bytes_lt x y ∨ x = y.
Proof.
  unfold bytes_le, bytes_lt. rewrite <-(lex_compare_eq x y).
  destruct (lex_compare x y); intuition congruence.
Qed.

#[export] Instance bytes_le_refl : Reflexive bytes_le.
Proof. intros x. apply bytes_le_lt_eq. auto. Qed.

#[export] Instance bytes_le_trans : Transitive bytes_le.
Proof.
  intros x y z. rewrite !bytes_le_lt_eq. intros [H| ->] [H'| ->]; auto.
  left. by transitivity y.
Qed.

#[export] Instance bytes_le_antisymm : AntiSymm (=) bytes_le.
Proof.
  intros x y. rewrite !bytes_le_lt_eq. intros [H|?] [H'|?]; auto.
  by destruct (irreflexivity bytes_lt x); transitivity y.
Qed.

#[export] Instance bytes_le_total : Total bytes_le.
Proof.
  intros x y. rewrite !bytes_le_lt_eq. destruct (bytes_trichotomy x y) as [|[|]]; auto.
Qed.

Lemma bytes_lt_le x y : bytes_lt x y → bytes_le x y.
Proof. rewrite bytes_le_lt_eq. auto. Qed.

Lemma bytes_lt_le_trans x y z : bytes_lt x y → bytes_le y z → bytes_lt x z.
Proof. rewrite bytes_le_lt_eq. intros ? [?|<-]; [by transitivity y|done]. Qed.

Lemma bytes_le_lt_trans x y z : bytes_le x y → bytes_lt y z → bytes_lt x z.
Proof. rewrite bytes_le_lt_eq. intros [?|<-] ?; [by transitivity y|done]. Qed.

Lemma bytes_lt_not_ge x y : bytes_lt x y → ¬ bytes_le y x.
Proof. rewrite bytes_le_not_lt. tauto. Qed.

Lemma bytes_not_lt_ge x y : ¬ bytes_lt x y ↔ bytes_le y x.
Proof. by rewrite bytes_le_not_lt. Qed.

Lemma bytes_le_nil x : bytes_le [] x.
Proof. by destruct x. Qed.

Lemma lex_compare_app p x y : lex_compare (p ++ x) (p ++ y) = lex_compare x y.
Proof. induction p; simpl; [done|]. by rewrite Z.compare_refl. Qed.

(** Two strings, neither a prefix of the other, keep their order whatever is
    appended to them. *)
Lemma lex_compare_app_incomparable x y x' y' :
  ¬ x `prefix_of` y → ¬ y `prefix_of` x →
  lex_compare (x ++ x') (y ++ y') = lex_compare x y.
Proof.
  revert y. induction x as [|a x IH]; intros [|c y] H1 H2; simpl.
  - by destruct H1.
  - destruct H1. apply prefix_nil.
  - destruct H2. apply prefix_nil.
  - destruct (Z.compare_spec (b2z a) (b2z c)) as [E|?|?]; try done.
    apply b2z_inj in E as ->. apply IH; intros ?.
    + by apply H1, prefix_cons.
    + by apply H2, prefix_cons.
Qed.

(** Whatever lies between two strings that start with [p] starts with [p]. *)
Lemma lex_between_prefix p x y e :
  bytes_le (p ++ x) e → bytes_le e (p ++ y) → p `prefix_of` e.
Proof.
  revert e. induction p as [|a p IH]; intros e H1 H2; [apply prefix_nil|].
  destruct e as [|c e]; [by destruct H1|].
  unfold bytes_le in *. simpl in *. rewrite (Z.compare_antisym (b2z a)) in H2.
  destruct (Z.compare_spec (b2z a) (b2z c)) as [E|?|?]; simpl in *; try done.
  apply b2z_inj in E as ->. apply prefix_cons. by apply IH.
Qed.

Lemma lex_compare_be n x y :
  0 ≤ x < 256 ^ Z.of_nat n → 0 ≤ y < 256 ^ Z.of_nat n →
  lex_compare (to_be_bytes n x) (to_be_bytes n y) = (x ?= y).
Proof.
  revert x y. induction n as [|n IH]; intros x y Hx Hy.
  { simpl in *. symmetry. apply Z.compare_eq_iff. lia. }
  cbn [to_be_bytes lex_compare]. rewrite !b2z_z2b. rewrite pow256_S in *.
  pose proof (pow256_pos n) as Hp. set (p := 256 ^ Z.of_nat n) in *.
  rewrite <-(to_be_bytes_mod n x n), <-(to_be_bytes_mod n y n) by lia. fold p.
  rewrite IH by (apply Z.mod_pos_bound; lia).
  pose proof (Z.div_mod x p ltac:(lia)). pose proof (Z.div_mod y p ltac:(lia)).
  pose proof (Z.mod_pos_bound x p Hp). pose proof (Z.mod_pos_bound y p Hp).
  assert (0 ≤ x / p < 256) by (split; [apply Z.div_pos|apply Z.div_lt_upper_bound]; lia).
  assert (0 ≤ y / p < 256) by (split; [apply Z.div_pos|apply Z.div_lt_upper_bound]; lia).
  rewrite !(Z.mod_small (_ / p)) by lia.
  destruct (Z.compare_spec (x / p) (y / p)) as [E|?|?].
  - rewrite E in *.
    destruct (Z.compare_spec (x mod p) (y mod p)), (Z.compare_spec x y); done || lia.
  - symmetry. apply Z.compare_lt_iff. nia.
  - symmetry. apply Z.compare_gt_iff. nia.
Qed.

#[export] Hint Resolve bytes_lt_le bytes_le_nil : kv.

(** ** Lemmas: slices and lists *)

(** [&v[n..n+m]] of a buffer built by appending. *)
Lemma slice_app {A} (x y z : list A) n m :
  length x = n → length y = m → take m (drop n (x ++ y ++ z)) = y.
Proof. intros <- <-. by rewrite drop_app_length, take_app_length. Qed.

(** A sorted list whose elements come from another one, and before which nothing
    of the other is skipped, is a prefix of it. *)
Lemma sorted_prefix {A} (R : relation A) `{!StrictOrder R} (xs ys : list A) :
  StronglySorted R xs → StronglySorted R ys → (∀ x, x ∈ xs → x ∈ ys) →
  (∀ y, y ∈ ys → y ∈ xs ∨ ∀ x, x ∈ xs → R x y) → xs `prefix_of` ys.
Proof.
  intros Hx. revert ys. induction Hx as [|x xs Hxs IH Hx]; intros ys Hy Hsub Hall; [apply prefix_nil|].
  destruct Hy as [|y ys Hys Hy]; [by specialize (Hsub x ltac:(by left)) as ?%elem_of_nil|].
  rewrite Forall_forall in Hx, Hy.
  assert (∀ a b, R a b → R b a → False) as Hasym.
  { intros a b Hab Hba. apply (irreflexivity R a). by transitivity b. }
  assert (x = y) as <-.
  { pose proof (Hsub x ltac:(by left)) as [?|Hin]%elem_of_cons; [done|exfalso].
    destruct (Hall y ltac:(by left)) as [[->|Hyx]%elem_of_cons|Hlt].
    - by apply (irreflexivity R x), Hy.
    - by apply (Hasym x y); [apply Hx|apply Hy].
    - by apply (Hasym x y); [apply Hlt; left|apply Hy]. }
  apply prefix_cons, IH; [done|..].
  - intros z Hz. destruct (proj1 (elem_of_cons _ _ _) (Hsub z ltac:(by right))) as [->|?]; [|done].
    by destruct (irreflexivity R x (Hx x Hz)).
  - intros z Hz. destruct (Hall z ltac:(by right)) as [[->|?]%elem_of_cons|Hlt]; [|by left|].
    + by destruct (irreflexivity R x (Hy x Hz)).
    + right. intros w Hw. apply Hlt. by right.
Qed.
