(* ===== verification/Codec.v ===== *)
(** * On-disk formats of the storage crate

    [crates/storage/src/mvcc/key.rs] (versioned keys), [mvcc/mod.rs] (operation
    tags and write records) and [lock.rs] (locks).  Every value the store keeps
    in the LOCK and WRITE partitions, and every key of the DEFAULT and WRITE
    partitions, goes through one of these encoders.  The lemmas are the round
    trips, the order the key encoding induces, and the two facts the MVCC scans
    rest on: versions of one key sort newest first, and nothing that is not
    prefix-related to a key sorts between two of its versions. *)

From stdpp Require Import base list gmap strings.
From Stdlib Require Import ZArith Lia Strings.Byte.
From S2P Require Import Prelude.

(** ** Versioned keys: [mvcc/key.rs] *)
Inductive KeyError : Type := TooShort.

Definition KeyEncoder_encode (user_key : bytes) (ts : Z) : bytes :=
  user_key ++ to_be_bytes 8 (u64_not ts).

Definition KeyEncoder_decode (encoded : bytes) : result KeyError (bytes * Z) :=
  if decide (length encoded < 8)%nat then Err TooShort
  else
    let split_idx := (length encoded - 8)%nat in
    let user_key := take split_idx encoded in
    let inverted_ts := from_be_bytes (drop split_idx encoded) in
    Ok (user_key, u64_not inverted_ts).

(** ** Operation tags and write records: [mvcc/mod.rs] *)
Inductive OpType : Type := Put | Delete | Rollback.

#[export] Instance OpType_eq_dec : EqDecision OpType.
Proof. solve_decision. Defined.

(** [op as u8]: the discriminants of the enum. *)
Definition OpType_as_u8 (op : OpType) : Z :=
  match op with Put => 0 | Delete => 1 | Rollback => 2 end.

Record WriteRecord : Type := WriteRecord_new { wr_start_ts : Z; wr_op : OpType }.

#[export] Instance WriteRecord_eq_dec : EqDecision WriteRecord.
Proof. solve_decision. Defined.

Definition WriteRecord_to_bytes (r : WriteRecord) : bytes :=
  z2b (OpType_as_u8 (wr_op r)) :: to_be_bytes 8 (wr_start_ts r).

Definition WriteRecord_from_bytes (bs : bytes) : option WriteRecord :=
  if decide (length bs < 9)%nat then None
  else
    let start_ts := from_be_bytes (take 8 (drop 1 bs)) in
    match b2z <$> bs !! 0%nat with
    | Some 0 => Some (WriteRecord_new start_ts Put)
    | Some 1 => Some (WriteRecord_new start_ts Delete)
    | Some 2 => Some (WriteRecord_new start_ts Rollback)
    | _ => None
    end.

(** ** Locks: [lock.rs] *)
Inductive LockError : Type := DecodeError (msg : string).

Record Lock : Type := Lock_new {
  lk_primary_key : bytes;
  lk_start_ts : Z;
  lk_ttl : Z;
  lk_op : OpType
}.

Definition Lock_to_bytes (l : Lock) : bytes :=
  z2b (OpType_as_u8 (lk_op l))
  :: to_be_bytes 8 (lk_start_ts l)
  ++ to_be_bytes 8 (lk_ttl l)
  ++ to_be_bytes 4 (u32_wrap (Z.of_nat (length (lk_primary_key l))))
  ++ lk_primary_key l.

Definition Lock_from_bytes (bs : bytes) : result LockError Lock :=
  if decide (length bs < 21)%nat then Err (DecodeError "Payload too short")
  else
    let rest op :=
      let start_ts := from_be_bytes (take 8 (drop 1 bs)) in
      let ttl := from_be_bytes (take 8 (drop 9 bs)) in
      let primary_len := Z.to_nat (from_be_bytes (take 4 (drop 17 bs))) in
      if decide (length bs < 21 + primary_len)%nat
      then Err (DecodeError "Truncated primary key bytes")
      else Ok (Lock_new (take primary_len (drop 21 bs)) start_ts ttl op) in
    match b2z <$> bs !! 0%nat with
    | Some 0 => rest Put
    | Some 1 => rest Delete
    | _ => Err (DecodeError "Invalid OpType byte")
    end.

(** ** Lemmas: versioned keys *)
Lemma length_KeyEncoder_encode k ts : length (KeyEncoder_encode k ts) = (length k + 8)%nat.
Proof. unfold KeyEncoder_encode. by rewrite length_app, length_to_be_bytes. Qed.

Lemma KeyEncoder_decode_encode k ts :
  u64 ts → KeyEncoder_decode (KeyEncoder_encode k ts) = Ok (k, ts).
Proof.
  intros Hts. unfold KeyEncoder_decode. rewrite length_KeyEncoder_encode.
  rewrite decide_False by lia. replace (length k + 8 - 8)%nat with (length k) by lia.
  unfold KeyEncoder_encode. rewrite take_app_length, drop_app_length.
  rewrite from_to_be_bytes_u64 by auto with kv. by rewrite u64_not_involutive.
Qed.

Lemma KeyEncoder_encode_decode e k ts :
  KeyEncoder_decode e = Ok (k, ts) → e = KeyEncoder_encode k ts ∧ u64 ts.
Proof.
  unfold KeyEncoder_decode, KeyEncoder_encode. case_decide as Hl; [done|].
  intros [= <- <-]. split; [|apply u64_not_range].
  assert (length (drop (length e - 8) e) = 8%nat) as E by (rewrite length_drop; lia).
  rewrite u64_not_involutive by auto with kv.
  pose proof (to_from_be_bytes (drop (length e - 8) e)) as T. rewrite E in T.
  by rewrite T, take_drop.
Qed.

Lemma KeyEncoder_decode_iff e k ts :
  u64 ts → KeyEncoder_decode e = Ok (k, ts) ↔ e = KeyEncoder_encode k ts.
Proof.
  intros. split; [by intros [? _]%KeyEncoder_encode_decode|].
  intros ->. by apply KeyEncoder_decode_encode.
Qed.

Lemma KeyEncoder_decode_err e :
  KeyEncoder_decode e = Err TooShort ↔ (length e < 8)%nat.
Proof. unfold KeyEncoder_decode. case_decide; naive_solver. Qed.

Lemma KeyEncoder_encode_inj k ts k' ts' :
  u64 ts → u64 ts' → KeyEncoder_encode k ts = KeyEncoder_encode k' ts' →
  k = k' ∧ ts = ts'.
Proof.
  intros H H' E. apply (f_equal KeyEncoder_decode) in E.
  rewrite !KeyEncoder_decode_encode in E by done. by simplify_eq.
Qed.

Lemma KeyEncoder_encode_compare k t1 t2 :
  u64 t1 → u64 t2 →
  lex_compare (KeyEncoder_encode k t1) (KeyEncoder_encode k t2) = (t2 ?= t1).
Proof.
  intros H1 H2. unfold KeyEncoder_encode.
  rewrite lex_compare_app, lex_compare_be by apply u64_not_range.
  rewrite !u64_not_spec by done.
  destruct (Z.compare_spec (u64_MAX - t1) (u64_MAX - t2)), (Z.compare_spec t2 t1); done || lia.
Qed.

Lemma KeyEncoder_encode_le k t1 t2 :
  u64 t1 → u64 t2 →
  bytes_le (KeyEncoder_encode k t1) (KeyEncoder_encode k t2) ↔ t2 ≤ t1.
Proof.
  intros. unfold bytes_le. rewrite KeyEncoder_encode_compare by done.
  by rewrite Z.compare_le_iff.
Qed.

Lemma KeyEncoder_encode_lt k t1 t2 :
  u64 t1 → u64 t2 →
  bytes_lt (KeyEncoder_encode k t1) (KeyEncoder_encode k t2) ↔ t2 < t1.
Proof.
  intros. unfold bytes_lt. rewrite KeyEncoder_encode_compare by done.
  by rewrite Z.compare_lt_iff.
Qed.

(** ** Lemmas: write records and locks *)
Lemma WriteRecord_from_to r :
  u64 (wr_start_ts r) → WriteRecord_from_bytes (WriteRecord_to_bytes r) = Some r.
Proof.
  intros Hts. unfold WriteRecord_from_bytes, WriteRecord_to_bytes.
  set (A := to_be_bytes 8 (wr_start_ts r)).
  assert (length A = 8%nat) as HA by apply length_to_be_bytes.
  rewrite decide_False by (simpl; lia). rewrite skipn_cons, drop_0.
  rewrite take_ge by lia. subst A. rewrite from_to_be_bytes_u64 by done.
  cbn. rewrite b2z_z2b. by destruct r as [ts []].
Qed.

Lemma WriteRecord_from_bytes_u64 bs r :
  WriteRecord_from_bytes bs = Some r → u64 (wr_start_ts r).
Proof.
  unfold WriteRecord_from_bytes. case_decide as Hl; [done|].
  assert (u64 (from_be_bytes (take 8 (drop 1 bs)))) as Hu.
  { apply from_be_bytes_u64. rewrite length_take, length_drop. lia. }
  intros H. by repeat case_match; simplify_eq.
Qed.

Lemma Lock_from_to l rest :
  u64 (lk_start_ts l) → u64 (lk_ttl l) → u32 (Z.of_nat (length (lk_primary_key l))) →
  lk_op l ≠ Rollback →
  Lock_from_bytes (Lock_to_bytes l ++ rest) = Ok l.
Proof.
  destruct l as [pk ts ttl op]; unfold Lock_from_bytes, Lock_to_bytes.
  cbn [lk_primary_key lk_start_ts lk_ttl lk_op].
  intros Hts Httl Hpk Hop. rewrite u32_wrap_id by done.
  set (A := to_be_bytes 8 ts). set (B := to_be_bytes 8 ttl).
  set (C := to_be_bytes 4 (Z.of_nat (length pk))). set (o := z2b (OpType_as_u8 op)).
  rewrite <-app_comm_cons.
  assert (length A = 8 ∧ length B = 8 ∧ length C = 4)%nat as (HA & HB & HC)
    by (subst A B C; by rewrite !length_to_be_bytes).
  assert (take 8 (drop 1 (o :: (A ++ B ++ C ++ pk) ++ rest)) = A) as ->
    by (rewrite <-!app_assoc; apply (slice_app [o]); done).
  assert (take 8 (drop 9 (o :: (A ++ B ++ C ++ pk) ++ rest)) = B) as ->
    by (rewrite <-!app_assoc; apply (slice_app (o :: A)); simpl; lia).
  assert (take 4 (drop 17 (o :: (A ++ B ++ C ++ pk) ++ rest)) = C) as ->.
  { replace (o :: (A ++ B ++ C ++ pk) ++ rest) with ((o :: A ++ B) ++ C ++ pk ++ rest)
      by (rewrite <-?app_comm_cons, <-?app_assoc; done). apply slice_app; simpl; rewrite ?length_app; lia. }
  assert (from_be_bytes C = Z.of_nat (length pk)) as ->
    by (subst C; rewrite from_to_be_bytes; by apply Z.mod_small).
  rewrite Nat2Z.id. subst A B. rewrite !from_to_be_bytes_u64 by done.
  replace (o :: (to_be_bytes 8 ts ++ to_be_bytes 8 ttl ++ C ++ pk) ++ rest)
    with ((o :: to_be_bytes 8 ts ++ to_be_bytes 8 ttl ++ C) ++ pk ++ rest)
    by (rewrite <-?app_comm_cons, <-?app_assoc; done).
  rewrite slice_app by (simpl; rewrite ?length_app; lia).
  rewrite !length_app. cbn [length]. rewrite !length_app.
  rewrite !decide_False by lia. cbn. subst o. rewrite b2z_z2b. by destruct op.
Qed.

Lemma Lock_from_bytes_wf bs l :
  Lock_from_bytes bs = Ok l →
  u64 (lk_start_ts l) ∧ u64 (lk_ttl l) ∧ lk_op l ≠ Rollback ∧
  u32 (Z.of_nat (length (lk_primary_key l))).
Proof.
  unfold Lock_from_bytes. case_decide as Hl; [done|].
  assert (u64 (from_be_bytes (take 8 (drop 1 bs)))).
  { apply from_be_bytes_u64. rewrite length_take, length_drop. lia. }
  assert (u64 (from_be_bytes (take 8 (drop 9 bs)))).
  { apply from_be_bytes_u64. rewrite length_take, length_drop. lia. }
  assert (u32 (from_be_bytes (take 4 (drop 17 bs)))) as [H1 H2].
  { pose proof (from_be_bytes_range (take 4 (drop 17 bs))) as R.
    rewrite length_take, length_drop in R.
    by replace (4 `min` (length bs - 17))%nat with 4%nat in R by lia. }
  intros Hdec.
  assert (∀ op, (if decide (length bs < 21 + Z.to_nat (from_be_bytes (take 4 (drop 17 bs))))%nat
     then Err (DecodeError "Truncated primary key bytes")
     else Ok (Lock_new (take (Z.to_nat (from_be_bytes (take 4 (drop 17 bs)))) (drop 21 bs))
        (from_be_bytes (take 8 (drop 1 bs))) (from_be_bytes (take 8 (drop 9 bs))) op)) = Ok l →
     u64 (lk_start_ts l) ∧ u64 (lk_ttl l) ∧ lk_op l = op ∧
     u32 (Z.of_nat (length (lk_primary_key l)))) as K.
  { intros op. case_decide; [done|]. intros [= <-]. simpl. split_and!; try done.
    unfold u32. rewrite length_take. lia. }
  repeat case_match; try done; apply K in Hdec as (? & ? & -> & ?); done.
Qed.

(** ** Truncated records *)
Lemma Lock_to_bytes_length l : length (Lock_to_bytes l) = (21 + length (lk_primary_key l))%nat.
Proof. unfold Lock_to_bytes. cbn [length]. rewrite !length_app, !length_to_be_bytes. lia. Qed.

(** The length field sits at bytes 17 to 20. *)
Lemma Lock_to_bytes_len_field l :
  u32 (Z.of_nat (length (lk_primary_key l))) →
  from_be_bytes (take 4 (drop 17 (Lock_to_bytes l))) = Z.of_nat (length (lk_primary_key l)).
Proof.
  intros Hpk. unfold Lock_to_bytes. rewrite u32_wrap_id by done.
  set (A := to_be_bytes 8 (lk_start_ts l)). set (B := to_be_bytes 8 (lk_ttl l)).
  set (C := to_be_bytes 4 (Z.of_nat (length (lk_primary_key l)))).
  assert (length A = 8 ∧ length B = 8 ∧ length C = 4)%nat as (HA & HB & HC)
    by (subst A B C; by rewrite !length_to_be_bytes).
  replace (z2b (OpType_as_u8 (lk_op l)) :: A ++ B ++ C ++ lk_primary_key l)
    with ((z2b (OpType_as_u8 (lk_op l)) :: A ++ B) ++ C ++ lk_primary_key l)
    by (rewrite <-?app_comm_cons, <-?app_assoc; done).
  rewrite slice_app by (simpl; rewrite ?length_app; lia).
  subst C. rewrite from_to_be_bytes. by apply Z.mod_small.
Qed.

Lemma Lock_from_bytes_truncated l n :
  u32 (Z.of_nat (length (lk_primary_key l))) → (n < length (Lock_to_bytes l))%nat →
  ∃ e, Lock_from_bytes (take n (Lock_to_bytes l)) = Err e.
Proof.
  intros Hpk Hn. rewrite Lock_to_bytes_length in Hn.
  pose proof (Lock_to_bytes_length l) as Hlen. unfold Lock_from_bytes.
  case_decide as D; [by eexists|]. rewrite length_take in D.
  assert (take 4 (drop 17 (take n (Lock_to_bytes l))) = take 4 (drop 17 (Lock_to_bytes l))) as ->.
  { rewrite skipn_firstn_comm, take_take. f_equal. lia. }
  rewrite Lock_to_bytes_len_field, Nat2Z.id by done. rewrite length_take.
  cbn zeta. rewrite !decide_True by lia.
  destruct (b2z <$> _) as [[|[[]| |]|]|]; by eexists.
Qed.

(** ** Theorems *)

(** C33: the versioned-key codec is a bijection between pairs of a user key and
    a 64-bit timestamp and byte strings of at least 8 bytes; shorter strings,
    and only those, are rejected with [TooShort]. *)
Theorem key_codec_bijective e k ts :
  u64 ts →
  (KeyEncoder_decode e = Ok (k, ts) ↔ e = KeyEncoder_encode k ts) ∧
  (KeyEncoder_decode e = Err TooShort ↔ (length e < 8)%nat) ∧
  (∀ k' ts', KeyEncoder_decode e = Ok (k', ts') → u64 ts').
Proof.
  intros Hts. split_and!.
  - by apply KeyEncoder_decode_iff.
  - apply KeyEncoder_decode_err.
  - by intros k' ts' [_ ?]%KeyEncoder_encode_decode.
Qed.

Lemma key_codec_bijective_witness :
  KeyEncoder_decode (KeyEncoder_encode (of_str "account:1001") 1718000000) =
  Ok (of_str "account:1001", 1718000000).
Proof.
  destruct (key_codec_bijective (KeyEncoder_encode (of_str "account:1001") 1718000000)
    (of_str "account:1001") 1718000000) as [[_ H] _]; [done|]. by apply H.
Defined.

(** C34: in the byte order of the engine the versions of one key sort newest
    first, and two keys of which neither is a prefix of the other sort by
    their user keys whatever their timestamps. *)
Theorem key_order k ts k' ts' :
  u64 ts → u64 ts' →
  lex_compare (KeyEncoder_encode k ts) (KeyEncoder_encode k ts') = (ts' ?= ts) ∧
  (¬ k `prefix_of` k' → ¬ k' `prefix_of` k →
   lex_compare (KeyEncoder_encode k ts) (KeyEncoder_encode k' ts') = lex_compare k k').
Proof.
  intros. split; [by apply KeyEncoder_encode_compare|].
  intros. by apply lex_compare_app_incomparable.
Qed.

Lemma key_order_witness :
  lex_compare (KeyEncoder_encode (of_str "account:1001") 200)
    (KeyEncoder_encode (of_str "account:1001") 100) = Lt.
Proof.
  destruct (key_order (of_str "account:1001") 200 (of_str "x") 100) as [H _]; [done..|]. apply H.
Defined.

(** C35: the two record formats round trip, and reject what they cannot
    represent: a write record and a lock decode to what was encoded, a lock
    with the operation [Rollback] and every truncated lock are errors. *)
Theorem record_codecs r l n :
  u64 (wr_start_ts r) → u64 (lk_start_ts l) → u64 (lk_ttl l) →
  u32 (Z.of_nat (length (lk_primary_key l))) → (n < length (Lock_to_bytes l))%nat →
  WriteRecord_from_bytes (WriteRecord_to_bytes r) = Some r ∧
  (lk_op l ≠ Rollback → Lock_from_bytes (Lock_to_bytes l) = Ok l) ∧
  (lk_op l = Rollback →
   Lock_from_bytes (Lock_to_bytes l) = Err (DecodeError "Invalid OpType byte")) ∧
  ∃ e, Lock_from_bytes (take n (Lock_to_bytes l)) = Err e.
Proof.
  intros Hr Hts Httl Hpk Hn. split_and!.
  - by apply WriteRecord_from_to.
  - intros. rewrite <-(app_nil_r (Lock_to_bytes l)). by apply Lock_from_to.
  - intros Hop. pose proof (Lock_to_bytes_length l). unfold Lock_from_bytes.
    rewrite decide_False by lia. unfold Lock_to_bytes at 5. cbn. by rewrite Hop.
  - by apply Lock_from_bytes_truncated.
Qed.

Lemma record_codecs_witness :
  ∃ e, Lock_from_bytes (take 21 (Lock_to_bytes (Lock_new (of_str "k") 5 3000 Put))) = Err e.
Proof.
  apply (record_codecs (WriteRecord_new 5 Put) (Lock_new (of_str "k") 5 3000 Put) 21);
    vm_compute; done || lia.
Defined.
