(* ===== verification/Engine.v ===== *)
(** * The storage engine as an effect interface

    The store keeps its data in Fjall, a third-party embedded key-value engine
    opened by [StorageEngine] ([crates/storage/src/engine.rs]), and reads the
    time of day from the operating system.  Code that uses them is a [prog]: a
    tree of the calls it makes, each continued with the answer.  What an answer
    may be is not fixed here: [Fjall] is the interface of an engine over some
    world [W], and [FjallLaws] states what the store relies on, as Fjall
    documents it:

    - a partition is an ordered map; [get] and [range] read it,
    - a [Batch] is applied atomically: after [commit] returns [Ok] every
      operation of it is visible, in order; after an error either none or all
      of them are (a failed acknowledgement does not say which),
    - any call may fail with an I/O error; the proposition [F] says whether the
      engine at hand may ([F := True]) or is reliable ([F := False]),
    - the predicate [T] bounds what the clock reads ([λ _, True]: anything).

    [wp] is the weakest precondition of a [prog] over all answers the laws
    allow, and [wp_adequate] turns a [wp] into a statement about running the
    program on any engine that obeys the laws.  [Mem] is such an engine. *)

From stdpp Require Import base list gmap sorting strings.
From Stdlib Require Import ZArith Lia Strings.Byte.
From S2P Require Import Prelude Codec.

(** ** Partitions and batches: [engine.rs] *)
Inductive Partition : Type := PARTITION_DEFAULT | PARTITION_LOCK | PARTITION_WRITE.

#[export] Instance Partition_eq_dec : EqDecision Partition.
Proof. solve_decision. Defined.

(** The contents of the three partitions of a [StorageEngine]. *)
Record Store : Type := mkStore {
  s_default : gmap bytes bytes;
  s_lock : gmap bytes bytes;
  s_write : gmap bytes bytes
}.

Definition part (p : Partition) (s : Store) : gmap bytes bytes :=
  match p with
  | PARTITION_DEFAULT => s_default s
  | PARTITION_LOCK => s_lock s
  | PARTITION_WRITE => s_write s
  end.

Definition set_part (p : Partition) (m : gmap bytes bytes) (s : Store) : Store :=
  match p with
  | PARTITION_DEFAULT => mkStore m (s_lock s) (s_write s)
  | PARTITION_LOCK => mkStore (s_default s) m (s_write s)
  | PARTITION_WRITE => mkStore (s_default s) (s_lock s) m
  end.

(** [batch.insert(p, k, v)] and [batch.remove(p, k)], staged in order. *)
Inductive BatchOp : Type :=
| BInsert (p : Partition) (k v : bytes)
| BRemove (p : Partition) (k : bytes).

Abbreviation Batch := (list BatchOp).

Definition apply_op (o : BatchOp) (s : Store) : Store :=
  match o with
  | BInsert p k v => set_part p (<[k:=v]> (part p s)) s
  | BRemove p k => set_part p (delete k (part p s)) s
  end.

Fixpoint apply_batch (b : Batch) (s : Store) : Store :=
  match b with
  | [] => s
  | o :: b' => apply_batch b' (apply_op o s)
  end.

(** The entries of a partition in key order, and those from a key on. *)
Definition entry_le (x y : bytes * bytes) : Prop := bytes_le x.1 y.1.
#[export] Instance entry_le_dec x y : Decision (entry_le x y).
Proof. unfold entry_le. apply _. Defined.

Definition entries_of (m : gmap bytes bytes) : list (bytes * bytes) :=
  merge_sort entry_le (map_to_list m).

Definition range_from (m : gmap bytes bytes) (from : bytes) : list (bytes * bytes) :=
  filter (λ e, bytes_le from e.1) (entries_of m).

(** ** Errors

    [fjall::Error] is opaque to the store: it is only wrapped and passed on. *)
Class FjallErr : Type := fjall_Error : Type.
#[global] Typeclasses Transparent FjallErr.

Section Progs.
Context {FE : FjallErr}.

(** [storage::StorageError]. *)
Inductive StorageError : Type :=
| StorageError_Fjall (e : fjall_Error)
| StorageError_MissingPartition (name : string).

(** ** Programs

    The calls of the code that leave it: a point lookup, a range scan (each
    item may be an error), the commit of a batch, and the time of day
    ([SystemTime::now().duration_since(UNIX_EPOCH)], [None] when the clock is
    before the epoch). *)
Inductive prog (A : Type) : Type :=
| Ret (a : A)
| PGet (p : Partition) (k : bytes) (κ : result fjall_Error (option bytes) → prog A)
| PRange (p : Partition) (from : bytes)
    (κ : list (result fjall_Error (bytes * bytes)) → prog A)
| PCommit (b : Batch) (κ : result fjall_Error unit → prog A)
| PTime (κ : option Z → prog A).

End Progs.
Arguments Ret {FE A} a.
Arguments PGet {FE A} p k κ.
Arguments PRange {FE A} p from κ.
Arguments PCommit {FE A} b κ.
Arguments PTime {FE A} κ.

Fixpoint prog_bind {FE : FjallErr} {A B} (m : prog A) (f : A → prog B) : prog B :=
  match m with
  | Ret a => f a
  | PGet p k κ => PGet p k (λ r, prog_bind (κ r) f)
  | PRange p from κ => PRange p from (λ r, prog_bind (κ r) f)
  | PCommit b κ => PCommit b (λ r, prog_bind (κ r) f)
  | PTime κ => PTime (λ t, prog_bind (κ t) f)
  end.

(** [m?] after converting the error with [f] (Rust's [From] or [map_err]). *)
Definition prog_try {FE : FjallErr} {E E' A B} (f : E → E') (m : prog (result E A))
    (k : A → prog (result E' B)) : prog (result E' B) :=
  prog_bind m (λ r, match r with Ok a => k a | Err e => Ret (Err (f e)) end).

Declare Scope prog_scope.
Delimit Scope prog_scope with prog.
Notation "'let*' x := m 'in' k" := (prog_bind m (λ x, k))
  (at level 10, x name, k at level 200) : prog_scope.
Notation "'let?' x := m 'via' f 'in' k" := (prog_try f m (λ x, k))
  (at level 10, x name, k at level 200) : prog_scope.
#[global] Open Scope prog_scope.

(** The primitive calls as programs. *)
Definition pget {FE : FjallErr} (p : Partition) (k : bytes) :
    prog (result fjall_Error (option bytes)) := PGet p k Ret.
Definition prange {FE : FjallErr} (p : Partition) (from : bytes) :
    prog (list (result fjall_Error (bytes * bytes))) := PRange p from Ret.
(** [partition.iter()]: the scan with no lower bound. *)
Definition piter {FE : FjallErr} (p : Partition) :
    prog (list (result fjall_Error (bytes * bytes))) := prange p [].

(** [StorageEngine::commit_batch]. *)
Definition StorageEngine_commit_batch {FE : FjallErr} (b : Batch) :
    prog (result StorageError unit) :=
  let? _ := PCommit b Ret via StorageError_Fjall in Ret (Ok tt).

(** [SystemTime::now().duration_since(UNIX_EPOCH).unwrap_or_default()
    .as_millis() as u64]. *)
Definition millis_of (d : option Z) : Z :=
  match d with Some ms => u64_wrap ms | None => 0 end.
Definition now_millis {FE : FjallErr} : prog Z := PTime (λ d, Ret (millis_of d)).

(** ** Engines *)
Class Fjall (FE : FjallErr) (W : Type) : Type := {
  fj_get : Partition → bytes → W → result fjall_Error (option bytes) * W;
  fj_range : Partition → bytes → W → list (result fjall_Error (bytes * bytes)) * W;
  fj_commit : Batch → W → result fjall_Error unit * W;
  fj_time : W → option Z * W
}.

Fixpoint run {FE : FjallErr} {W} `{!Fjall FE W} {A} (m : prog A) (w : W) : A * W :=
  match m with
  | Ret a => (a, w)
  | PGet p k κ => let '(r, w') := fj_get p k w in run (κ r) w'
  | PRange p from κ => let '(r, w') := fj_range p from w in run (κ r) w'
  | PCommit b κ => let '(r, w') := fj_commit b w in run (κ r) w'
  | PTime κ => let '(t, w') := fj_time w in run (κ t) w'
  end.

(** What an iterator yields: the entries in order, up to a first error. *)
Inductive yields {FE : FjallErr} (F : Prop) :
    list (result fjall_Error (bytes * bytes)) → list (bytes * bytes) → Prop :=
| yields_nil : yields F [] []
| yields_ok x its l : yields F its l → yields F (Ok x :: its) (x :: l)
| yields_err e its l : F → yields F (Err e :: its) l.

Class FjallLaws {FE : FjallErr} (F : Prop) (T : Z → Prop) (W : Type) `{!Fjall FE W} (view : W → Store) : Prop := {
  fj_get_law p k w : let '(r, w') := fj_get p k w in
    view w' = view w ∧ (r = Ok (part p (view w) !! k) ∨ F ∧ ∃ e, r = Err e);
  fj_range_law p from w : let '(r, w') := fj_range p from w in
    view w' = view w ∧ yields F r (range_from (part p (view w)) from);
  fj_commit_law b w : let '(r, w') := fj_commit b w in
    (r = Ok tt ∧ view w' = apply_batch b (view w)) ∨
    (F ∧ (∃ e, r = Err e) ∧ (view w' = view w ∨ view w' = apply_batch b (view w)));
  fj_time_law w : let '(t, w') := fj_time w in
    view w' = view w ∧ T (millis_of t)
}.

(** ** Weakest preconditions *)
Fixpoint wp {FE : FjallErr} (F : Prop) (T : Z → Prop) {A} (m : prog A) (Q : A → Store → Prop) (s : Store) : Prop :=
  match m with
  | Ret a => Q a s
  | PGet p k κ =>
      wp F T (κ (Ok (part p s !! k))) Q s ∧ (F → ∀ e, wp F T (κ (Err e)) Q s)
  | PRange p from κ =>
      ∀ its, yields F its (range_from (part p s) from) → wp F T (κ its) Q s
  | PCommit b κ =>
      wp F T (κ (Ok tt)) Q (apply_batch b s) ∧
      (F → ∀ e, wp F T (κ (Err e)) Q s ∧ wp F T (κ (Err e)) Q (apply_batch b s))
  | PTime κ => ∀ t, T (millis_of t) → wp F T (κ t) Q s
  end.

(** ** Lemmas: sorted entries *)
#[export] Instance entry_le_trans : Transitive entry_le.
Proof. intros x y z. apply bytes_le_trans. Qed.
#[export] Instance entry_le_total : Total entry_le.
Proof. intros x y. apply bytes_le_total. Qed.

Lemma elem_of_entries_of m k v : (k, v) ∈ entries_of m ↔ m !! k = Some v.
Proof. unfold entries_of. by rewrite merge_sort_Permutation, elem_of_map_to_list. Qed.

Lemma NoDup_entries_of m : NoDup (entries_of m).*1.
Proof. unfold entries_of. rewrite merge_sort_Permutation. apply NoDup_fst_map_to_list. Qed.

Definition entry_lt (x y : bytes * bytes) : Prop := bytes_lt x.1 y.1.

(** A list of entries in key order without repeated keys is strictly
    increasing. *)
Lemma StronglySorted_entry_lt (l : list (bytes * bytes)) :
  StronglySorted entry_le l → NoDup l.*1 → StronglySorted entry_lt l.
Proof.
  induction 1 as [|x l Hs IH Hx]; intros Hnd; [constructor|].
  apply NoDup_cons in Hnd as [Hni Hnd]. constructor; [by apply IH|].
  rewrite Forall_forall in Hx |- *. intros y Hy.
  destruct (proj1 (bytes_le_lt_eq _ _) (Hx y Hy)) as [?|E]; [done|].
  destruct Hni. rewrite E. by apply list_elem_of_fmap_2.
Qed.

Lemma StronglySorted_entries_of m : StronglySorted entry_lt (entries_of m).
Proof.
  apply StronglySorted_entry_lt; [|apply NoDup_entries_of].
  apply StronglySorted_merge_sort; apply _.
Qed.

Lemma StronglySorted_filter {A} (R : relation A) (P : A → Prop) `{!∀ x, Decision (P x)} l :
  StronglySorted R l → StronglySorted R (filter P l).
Proof.
  induction 1 as [|x l Hs IH Hx]; [constructor|].
  rewrite filter_cons. case_decide; [|done]. constructor; [done|].
  rewrite Forall_forall in Hx |- *. intros y [_ Hy]%list_elem_of_filter. auto.
Qed.

Lemma elem_of_range_from m from k v :
  (k, v) ∈ range_from m from ↔ m !! k = Some v ∧ bytes_le from k.
Proof.
  unfold range_from. rewrite list_elem_of_filter, elem_of_entries_of. simpl. tauto.
Qed.

Lemma StronglySorted_range_from m from : StronglySorted entry_lt (range_from m from).
Proof. apply StronglySorted_filter, StronglySorted_entries_of. Qed.

Lemma range_from_nil m : range_from m [] = entries_of m.
Proof.
  unfold range_from. induction (entries_of m) as [|x l IH]; [done|].
  rewrite filter_cons, decide_True by auto with kv. by rewrite IH.
Qed.

(** ** Lemmas: batches *)
Lemma part_set_part p q m s :
  part p (set_part q m s) = if decide (p = q) then m else part p s.
Proof. by destruct p, q. Qed.

Lemma apply_batch_app b1 b2 s :
  apply_batch (b1 ++ b2) s = apply_batch b2 (apply_batch b1 s).
Proof. revert s. induction b1; simpl; auto. Qed.

(** ** Lemmas: programs *)
Section Wp.
Context {FE : FjallErr} (F : Prop) (T : Z → Prop).

Lemma wp_mono {A} (m : prog A) (Q Q' : A → Store → Prop) s :
  (∀ a s', Q a s' → Q' a s') → wp F T m Q s → wp F T m Q' s.
Proof.
  intros HQ. revert s. induction m as [a|p k κ IH|p f κ IH|b κ IH|κ IH]; intros s; simpl.
  - auto.
  - intros [H1 H2]. split; eauto.
  - eauto.
  - intros [H1 H2]. split; [eauto|]. intros HF e. destruct (H2 HF e). eauto.
  - eauto.
Qed.

Lemma wp_bind {A B} (m : prog A) (f : A → prog B) Q s :
  wp F T m (λ a s', wp F T (f a) Q s') s → wp F T (prog_bind m f) Q s.
Proof.
  revert s. induction m as [a|p k κ IH|p g κ IH|b κ IH|κ IH]; intros s; simpl.
  - done.
  - intros [H1 H2]. split; auto.
  - auto.
  - intros [H1 H2]. split; [auto|]. intros HF e. destruct (H2 HF e). auto.
  - auto.
Qed.

Lemma wp_conj {A} (m : prog A) (Q Q' : A → Store → Prop) s :
  wp F T m Q s → wp F T m Q' s → wp F T m (λ a s', Q a s' ∧ Q' a s') s.
Proof.
  revert s. induction m as [a|p k κ IH|p f κ IH|b κ IH|κ IH]; intros s; simpl.
  - auto.
  - intros [??] [??]; split; auto.
  - intros H1 H2 its Hy. auto.
  - intros [? H1] [? H2]; split; [auto|]. intros HF e.
    destruct (H1 HF e), (H2 HF e). split; auto.
  - intros H1 H2 t Ht. auto.
Qed.

(** Running a program on an engine that obeys the laws ends in a state its
    weakest precondition describes. *)
Lemma wp_adequate {W} `{!Fjall FE W} (view : W → Store) (L : FjallLaws F T W view)
    {A} (m : prog A) Q w :
  wp F T m Q (view w) → Q (run m w).1 (view (run m w).2).
Proof.
  revert w. induction m as [a|p k κ IH|p f κ IH|b κ IH|κ IH]; intros w; simpl.
  - done.
  - intros [H1 H2]. pose proof (fj_get_law p k w) as G.
    destruct (fj_get p k w) as [r w'], G as [E [->|[HF [e ->]]]];
      apply IH; rewrite E; auto.
  - intros H. pose proof (fj_range_law p f w) as G.
    destruct (fj_range p f w) as [r w'], G as [E Hy]. apply IH. rewrite E. auto.
  - intros [H1 H2]. pose proof (fj_commit_law b w) as G.
    destruct (fj_commit b w) as [r w'].
    destruct G as [[-> E]|(HF & [e ->] & [E|E])]; apply IH; rewrite E; auto;
      by apply (H2 HF e).
  - intros H. pose proof (fj_time_law w) as G.
    destruct (fj_time w) as [t w'], G as [E Ht]. apply IH. rewrite E. auto.
Qed.

Lemma run_wp {W} `{!Fjall FE W} (view : W → Store) (L : FjallLaws F T W view)
    {A} (m : prog A) Q w r w' :
  run m w = (r, w') → wp F T m Q (view w) → Q r (view w').
Proof. intros E H. apply (wp_adequate view L) in H. by rewrite E in H. Qed.

Lemma wp_try {E E' A B} (f : E → E') (m : prog (result E A)) (k : A → prog (result E' B)) Q s :
  wp F T m (λ r s', match r with Ok a => wp F T (k a) Q s' | Err e => Q (Err (f e)) s' end) s →
  wp F T (prog_try f m k) Q s.
Proof.
  intros H. apply wp_bind. eapply wp_mono, H. by intros [a|e] s'.
Qed.

Lemma wp_pget p k Q s :
  Q (Ok (part p s !! k)) s → (F → ∀ e, Q (Err e) s) → wp F T (pget p k) Q s.
Proof. by split. Qed.

Lemma wp_prange p from Q s :
  (∀ its, yields F its (range_from (part p s) from) → Q its s) → wp F T (prange p from) Q s.
Proof. done. Qed.

Lemma wp_ret {A} (a : A) (Q : A → Store → Prop) s : Q a s → wp F T (Ret a) Q s.
Proof. done. Qed.

Lemma wp_now Q s : (∀ t, u64 t → T t → Q t s) → wp F T now_millis Q s.
Proof.
  intros H t Ht. simpl. apply H; [|done]. destruct t; [apply u64_wrap_range|done].
Qed.
End Wp.

(** Running a sequence of programs. *)
Lemma run_bind {FE : FjallErr} {W} `{!Fjall FE W} {A B} (m : prog A) (f : A → prog B) (w : W) :
  run (prog_bind m f) w = let '(a, w') := run m w in run (f a) w'.
Proof.
  revert w. induction m as [a|p k κ IH|p from κ IH|b κ IH|κ IH]; intros w; simpl; [done|..].
  - destruct (fj_get p k w) as [r w']. apply IH.
  - destruct (fj_range p from w) as [r w']. apply IH.
  - destruct (fj_commit b w) as [r w']. apply IH.
  - destruct (fj_time w) as [r w']. apply IH.
Qed.

(** The outcome of a run, by its result. *)
Lemma run_result {FE : FjallErr} {W} `{!Fjall FE W} {A} (m : prog A) (w : W) r :
  (run m w).1 = r → run m w = (r, (run m w).2).
Proof. intros <-. by destruct (run m w). Qed.

(** ** A concrete engine

    An in-memory engine that never fails, with a clock that stands at [c]. *)
#[export] Instance Mem_err : FjallErr := Empty_set.
Definition Mem (c : Z) : Fjall Mem_err Store := {|
  fj_get p k s := (Ok (part p s !! k), s);
  fj_range p from s := (Ok <$> range_from (part p s) from, s);
  fj_commit b s := (Ok tt, apply_batch b s);
  fj_time s := (Some c, s)
|}.

Lemma yields_all {FE : FjallErr} F l : yields F (Ok <$> l) l.
Proof. induction l; csimpl; by constructor. Qed.

Lemma Mem_laws F (T : Z → Prop) c :
  T (u64_wrap c) → @FjallLaws Mem_err F T Store (Mem c) id.
Proof. intros. split; simpl; intros; auto using yields_all. Qed.
