(* ===== verification/Mvcc.v ===== *)
(** * MVCC reads: [crates/storage/src/mvcc/reader.rs]

    The reader, the abstract multi-version view of a store (which records,
    locks and values it holds), the well-formedness of a store, and the lemma
    that makes every scan of the code correct: from [encode k ts] on, the WRITE
    partition starts with the versions of [k] at or before [ts], newest first,
    when no other key of the partition is prefix-related to [k].  The reader is
    shown to implement the relational specification [snapshot_read]. *)

From stdpp Require Import base list gmap sorting strings.
From Stdlib Require Import ZArith Lia Strings.Byte.
From S2P Require Import Prelude Codec Engine.

(** ** The reader *)
Section Reader.
Context {FE : FjallErr}.

Inductive MvccError : Type :=
| MvccError_Engine (e : StorageError)
| MvccError_Fjall (e : fjall_Error)
| KeyIsLocked (primary_key : bytes) (lock_ts : Z)
| CorruptedState.

(** The loop over [write_p.range(seek_key..)]. *)
Fixpoint MvccReader_get_loop (user_key : bytes) (read_ts : Z)
    (items : list (result fjall_Error (bytes * bytes))) :
    prog (result MvccError (option bytes)) :=
  match items with
  | [] => Ret (Ok None)
  | Err e :: _ => Ret (Err (MvccError_Fjall e))
  | Ok (enc_key, write_bytes) :: rest =>
      match KeyEncoder_decode enc_key with
      | Err _ => Ret (Err CorruptedState)
      | Ok (curr_user_key, commit_ts) =>
          if decide (curr_user_key = user_key) then
            if decide (commit_ts ≤ read_ts) then
              match WriteRecord_from_bytes write_bytes with
              | None => Ret (Err CorruptedState)
              | Some write_rec =>
                  match wr_op write_rec with
                  | Put =>
                      let data_key := KeyEncoder_encode user_key (wr_start_ts write_rec) in
                      let? value := pget PARTITION_DEFAULT data_key via MvccError_Fjall in
                      Ret (match value with
                           | Some v => Ok (Some v)
                           | None => Err CorruptedState
                           end)
                  | Delete => Ret (Ok None)
                  | Rollback => MvccReader_get_loop user_key read_ts rest
                  end
              end
            else MvccReader_get_loop user_key read_ts rest
          else Ret (Ok None)
      end
  end.

Definition MvccReader_get (user_key : bytes) (read_ts : Z) :
    prog (result MvccError (option bytes)) :=
  let? lock_bytes := pget PARTITION_LOCK user_key via MvccError_Fjall in
  let scan :=
    let* items := prange PARTITION_WRITE (KeyEncoder_encode user_key read_ts) in
    MvccReader_get_loop user_key read_ts items in
  match lock_bytes with
  | Some lb =>
      match Lock_from_bytes lb with
      | Err _ => Ret (Err CorruptedState)
      | Ok lock =>
          if decide (lk_start_ts lock ≤ read_ts)
          then Ret (Err (KeyIsLocked (lk_primary_key lock) (lk_start_ts lock)))
          else scan
      end
  | None => scan
  end.
End Reader.

(** ** The abstract view of a store *)

(** The write record of [k] at commit timestamp [c]. *)
Definition write_at (s : Store) (k : bytes) (c : Z) : option WriteRecord :=
  s_write s !! KeyEncoder_encode k c ≫= WriteRecord_from_bytes.

(** The lock on [k]. *)
Definition lock_at (s : Store) (k : bytes) : option Lock :=
  s_lock s !! k ≫= λ v, match Lock_from_bytes v with Ok l => Some l | Err _ => None end.

(** The value written for [k] by the transaction that started at [ts]. *)
Definition data_at (s : Store) (k : bytes) (ts : Z) : option bytes :=
  s_default s !! KeyEncoder_encode k ts.

(** Every stored record decodes: what the operations preserve. *)
Record wf_store (s : Store) : Prop := {
  wf_write e v : s_write s !! e = Some v →
    (8 ≤ length e)%nat ∧ is_Some (WriteRecord_from_bytes v);
  wf_lock k v : s_lock s !! k = Some v → ∃ l, Lock_from_bytes v = Ok l
}.

(** No key of the WRITE partition other than [k] is a prefix of [k] or has [k]
    as a prefix.  The key encoding has no terminator, so without this the
    versions of two keys can interleave. *)
Definition isolated (s : Store) (k : bytes) : Prop :=
  ∀ k' c, is_Some (s_write s !! KeyEncoder_encode k' c) → u64 c →
    k' = k ∨ (¬ k `prefix_of` k' ∧ ¬ k' `prefix_of` k).

(** [c] is the newest committed version of [k] at or before [ts]. *)
Definition newest (s : Store) (k : bytes) (ts c : Z) (r : WriteRecord) : Prop :=
  u64 c ∧ c ≤ ts ∧ write_at s k c = Some r ∧ wr_op r ≠ Rollback ∧
  ∀ c' r', u64 c' → c' ≤ ts → write_at s k c' = Some r' → wr_op r' ≠ Rollback → c' ≤ c.

Definition unlocked_at (s : Store) (k : bytes) (ts : Z) : Prop :=
  ∀ l, lock_at s k = Some l → ts < lk_start_ts l.

(** What a snapshot read promises: the lock in the way, or the value of the
    newest committed version, skipping rolled-back transactions. *)
Inductive snapshot_read {FE : FjallErr} (s : Store) (k : bytes) (ts : Z) :
    result MvccError (option bytes) → Prop :=
| SR_locked l : lock_at s k = Some l → lk_start_ts l ≤ ts →
    snapshot_read s k ts (Err (KeyIsLocked (lk_primary_key l) (lk_start_ts l)))
| SR_absent : unlocked_at s k ts → (∀ c r, ¬ newest s k ts c r) →
    snapshot_read s k ts (Ok None)
| SR_deleted c r : unlocked_at s k ts → newest s k ts c r → wr_op r = Delete →
    snapshot_read s k ts (Ok None)
| SR_value c r v : unlocked_at s k ts → newest s k ts c r → wr_op r = Put →
    data_at s k (wr_start_ts r) = Some v →
    snapshot_read s k ts (Ok (Some v))
| SR_missing c r : unlocked_at s k ts → newest s k ts c r → wr_op r = Put →
    data_at s k (wr_start_ts r) = None →
    snapshot_read s k ts (Err CorruptedState).

(** An error that only reports an I/O failure of the engine. *)
Definition mvcc_io {FE : FjallErr} {A} (r : result MvccError A) : Prop :=
  ∃ e, r = Err (MvccError_Fjall e).

(** ** Versions of a key *)

(** The versions at the head of a scan: what the loops of the code visit
    before they meet another key. *)
Fixpoint key_run (k : bytes) (l : list (bytes * bytes)) : list (Z * bytes) :=
  match l with
  | [] => []
  | (e, v) :: l' =>
      match KeyEncoder_decode e with
      | Ok (k', c) => if decide (k' = k) then (c, v) :: key_run k l' else []
      | Err _ => []
      end
  end.

Definition versions (s : Store) (k : bytes) (ts : Z) : list (Z * bytes) :=
  key_run k (range_from (s_write s) (KeyEncoder_encode k ts)).

Lemma key_run_sound k l c v :
  (c, v) ∈ key_run k l → (KeyEncoder_encode k c, v) ∈ l ∧ u64 c.
Proof.
  induction l as [|[e w] l IH]; simpl; [set_solver|].
  destruct (KeyEncoder_decode e) as [[k' c']|] eqn:E; [|set_solver].
  apply KeyEncoder_encode_decode in E as [-> Hc]. case_decide; subst; [|set_solver].
  rewrite elem_of_cons. intros [[= <- <-]|H]; [by split; [left|]|].
  destruct (IH H). split; [by right|done].
Qed.

Lemma key_run_complete k ts l c v :
  StronglySorted entry_lt l →
  (∀ e w, (e, w) ∈ l → bytes_le (KeyEncoder_encode k ts) e ∧
     ∃ k' c', e = KeyEncoder_encode k' c' ∧ u64 c' ∧
       (k' = k ∨ (¬ k `prefix_of` k' ∧ ¬ k' `prefix_of` k))) →
  u64 c → (KeyEncoder_encode k c, v) ∈ l → (c, v) ∈ key_run k l.
Proof.
  intros Hs Hl Hc. induction Hs as [|[e w] l Hs IH Hx]; [set_solver|].
  rewrite elem_of_cons. destruct (Hl e w) as (Hle & k' & c' & -> & Hc' & Hk').
  { by left. }
  cbn [key_run]. rewrite KeyEncoder_decode_encode by done.
  intros [[= E ->]|Hin].
  - apply KeyEncoder_encode_inj in E as [-> ->]; [|done..].
    rewrite decide_True by done. by left.
  - rewrite Forall_forall in Hx. pose proof (bytes_lt_le _ _ (Hx _ Hin)) as Hlt.
    pose proof (lex_between_prefix _ _ _ _ Hle Hlt) as Hp.
    assert (k' = k) as ->.
    { destruct Hk' as [?|[H1 H2]]; [done|].
      destruct (prefix_weak_total k k' _ Hp (prefix_app_r _ _ _ (reflexivity k'))); done. }
    rewrite decide_True by done. right. apply IH; [|done].
    intros e' w' ?. apply (Hl e' w'). by right.
Qed.

Definition newer (x y : Z * bytes) : Prop := y.1 < x.1.

Lemma key_run_sorted k l :
  StronglySorted entry_lt l → StronglySorted newer (key_run k l).
Proof.
  induction 1 as [|[e w] l Hs IH Hx]; simpl; [constructor|].
  destruct (KeyEncoder_decode e) as [[k' c]|] eqn:E; [|constructor].
  apply KeyEncoder_encode_decode in E as [-> Hc]. case_decide; subst; [|constructor].
  constructor; [done|]. rewrite Forall_forall in Hx. rewrite Forall_forall.
  intros [c' v'] [Hin Hc']%key_run_sound. apply Hx in Hin.
  by apply KeyEncoder_encode_lt in Hin.
Qed.

Section Versions.
Context (s : Store) (k : bytes) (ts : Z).

Lemma elem_of_versions c v :
  wf_store s → isolated s k → u64 ts →
  (c, v) ∈ versions s k ts ↔
  u64 c ∧ c ≤ ts ∧ s_write s !! KeyEncoder_encode k c = Some v.
Proof.
  intros Hwf Hiso Hts. unfold versions. split.
  - intros [[Hin Hle]%elem_of_range_from Hc]%key_run_sound.
    by apply KeyEncoder_encode_le in Hle.
  - intros (Hc & Hle & Hw). apply (key_run_complete k ts); try done.
    + apply StronglySorted_range_from.
    + intros e w [He ?]%elem_of_range_from. split; [done|].
      destruct (KeyEncoder_decode e) as [[k' c']|[]] eqn:E.
      * apply KeyEncoder_encode_decode in E as [-> ?]. exists k', c'.
        split_and!; [done..|]. by apply (Hiso k' c').
      * apply KeyEncoder_decode_err in E. apply (wf_write _ Hwf) in He. lia.
    + apply elem_of_range_from. split; [done|]. by apply KeyEncoder_encode_le.
Qed.

Lemma versions_sorted : StronglySorted newer (versions s k ts).
Proof. apply key_run_sorted, StronglySorted_range_from. Qed.

(** The same set of versions, with the records decoded. *)
Lemma write_at_versions c r :
  wf_store s → isolated s k → u64 ts → u64 c → c ≤ ts →
  write_at s k c = Some r ↔
  ∃ v, (c, v) ∈ versions s k ts ∧ WriteRecord_from_bytes v = Some r.
Proof.
  intros. unfold write_at. rewrite bind_Some.
  split; intros (v & H' & ?); exists v; (split; [|done]).
  - by apply elem_of_versions.
  - by apply elem_of_versions in H' as (? & ? & ?).
Qed.
End Versions.

(** ** The reader implements [snapshot_read] *)
Section ReaderSpec.
Context {FE : FjallErr} (F : Prop) (T : Z → Prop).

(** The reader's loop as a function of the versions it visits. *)
Fixpoint read_versions (s : Store) (k : bytes) (vs : list (Z * bytes)) :
    result MvccError (option bytes) :=
  match vs with
  | [] => Ok None
  | (_, v) :: vs' =>
      match WriteRecord_from_bytes v with
      | None => Err CorruptedState
      | Some r =>
          match wr_op r with
          | Put => match data_at s k (wr_start_ts r) with
                   | Some x => Ok (Some x) | None => Err CorruptedState end
          | Delete => Ok None
          | Rollback => read_versions s k vs'
          end
      end
  end.

Lemma wp_MvccReader_get_loop s k ts its l :
  yields F its l →
  (∀ e v, (e, v) ∈ l → (8 ≤ length e)%nat) →
  (∀ c v, (c, v) ∈ key_run k l → c ≤ ts) →
  wp F T (MvccReader_get_loop k ts its)
    (λ r s', s' = s ∧ (r = read_versions s k (key_run k l) ∨ F ∧ mvcc_io r)) s.
Proof.
  intros Hy Hl Hts. induction Hy as [|[e v] its l Hy IH|e its l HF]; cbn [MvccReader_get_loop].
  - simpl. auto.
  - cbn [key_run] in *. destruct (KeyEncoder_decode e) as [[k' c]|[]] eqn:E.
    2:{ apply KeyEncoder_decode_err in E. specialize (Hl e v ltac:(by left)). lia. }
    case_decide as Hk; [|simpl; auto]. rewrite decide_True by (apply (Hts c v); by left).
    cbn [read_versions]. destruct (WriteRecord_from_bytes v) as [r|]; [|simpl; auto].
    destruct (wr_op r); [|simpl; auto|].
    + simpl. unfold data_at. subst.
      destruct (s_default s !! _); simpl; split_and?; eauto; intros; split; eauto;
        right; split; eauto; by eexists.
    + apply IH; intros; [eapply Hl|eapply Hts]; right; eassumption.
  - simpl. split; [done|]. right. split; [done|]. by eexists.
Qed.

Lemma wp_MvccReader_get s k ts :
  wf_store s → u64 ts →
  wp F T (MvccReader_get k ts)
    (λ r s', s' = s ∧
       (match lock_at s k with
        | Some l => if decide (lk_start_ts l ≤ ts)
                    then r = Err (KeyIsLocked (lk_primary_key l) (lk_start_ts l))
                    else r = read_versions s k (versions s k ts)
        | None => r = read_versions s k (versions s k ts)
        end ∨ F ∧ mvcc_io r)) s.
Proof.
  intros Hwf Hts. unfold MvccReader_get, lock_at. apply wp_try. simpl.
  split; [|intros HF e; split; [done|]; right; split; [done|]; by eexists].
  assert (wp F T (let* items := prange PARTITION_WRITE (KeyEncoder_encode k ts) in
                MvccReader_get_loop k ts items)
    (λ r s', s' = s ∧ (r = read_versions s k (versions s k ts) ∨ F ∧ mvcc_io r)) s) as Hscan.
  { apply wp_bind. simpl. intros its Hy. eapply wp_MvccReader_get_loop; [done|..].
    - intros e v [He _]%elem_of_range_from. by apply (wf_write _ Hwf) in He as [? _].
    - intros c v [[_ Hle]%elem_of_range_from Hc]%key_run_sound.
      by apply KeyEncoder_encode_le in Hle. }
  destruct (s_lock s !! k) as [v|] eqn:Hv; simpl; [|done].
  destruct (wf_lock _ Hwf k v Hv) as [l ->]. case_decide; simpl; [by auto|done].
Qed.

(** The first live version of a sorted run is the newest. *)
Lemma read_versions_spec s k ts vs :
  (∀ c v, (c, v) ∈ vs → is_Some (WriteRecord_from_bytes v)) →
  StronglySorted newer vs →
  (∀ c r, u64 c ∧ c ≤ ts ∧ write_at s k c = Some r ∧ wr_op r ≠ Rollback ↔
     wr_op r ≠ Rollback ∧ ∃ v, (c, v) ∈ vs ∧ WriteRecord_from_bytes v = Some r) →
  unlocked_at s k ts →
  snapshot_read s k ts (read_versions s k vs).
Proof.
  intros Hdec Hs Hvs Hun.
  (* [all] is the whole set of versions; [vs] is what is left of it, the rest
     having been rolled back. *)
  induction Hs as [|[c v] vs Hs IH Hx]; cbn [read_versions].
  { apply SR_absent; [done|]. intros c r (Hc & Hle & Hw & Hop & _).
    destruct (proj1 (Hvs c r)) as (_ & v & Hv & _); [done|]. set_solver. }
  destruct (Hdec c v) as [r Hr]; [by left|]. rewrite Hr.
  assert (wr_op r ≠ Rollback → newest s k ts c r) as Hnew.
  { intros Hop. destruct (proj2 (Hvs c r)) as (Hc & Hle & Hw & _).
    { split; [done|]. exists v. split; [by left|done]. }
    split_and!; try done. intros c' r' Hc' Hle' Hw' Hop'.
    destruct (proj1 (Hvs c' r')) as (_ & v' & Hv' & _); [done|].
    apply elem_of_cons in Hv' as [[= -> _]|Hv']; [done|].
    rewrite Forall_forall in Hx. apply Hx in Hv'. unfold newer in Hv'. simpl in Hv'. lia. }
  destruct (wr_op r) eqn:Hop.
  - destruct (data_at s k (wr_start_ts r)) as [x|] eqn:Hd.
    + by apply (SR_value _ _ _ c r); [|apply Hnew|..].
    + by apply (SR_missing _ _ _ c r); [|apply Hnew|..].
  - by apply (SR_deleted _ _ _ c r); [|apply Hnew|].
  - apply IH.
    + intros c' v' ?. apply (Hdec c' v'). by right.
    + intros c' r'. rewrite Hvs. split; intros (Hop' & v' & Hv' & Hr'); split; try done.
      * apply elem_of_cons in Hv' as [[= -> ->]|Hv']; [congruence|eauto].
      * exists v'. split; [by right|done].
Qed.

Lemma snapshot_read_versions s k ts :
  wf_store s → isolated s k → u64 ts → unlocked_at s k ts →
  snapshot_read s k ts (read_versions s k (versions s k ts)).
Proof.
  intros Hwf Hiso Hts Hun. apply read_versions_spec; [|apply versions_sorted| |done].
  - intros c v (_ & _ & Hv)%elem_of_versions; [|done..]. by apply (wf_write _ Hwf) in Hv as [_ ?].
  - intros c r. split.
    + intros (Hc & Hle & Hw & Hop). split; [done|]. by apply (write_at_versions s k ts).
    + intros (Hop & v & Hv & Hr). pose proof Hv as (Hc & Hle & ?)%elem_of_versions; [|done..].
      split_and!; try done. apply (write_at_versions s k ts); eauto.
Qed.

Lemma wp_MvccReader_get_snapshot s k ts :
  wf_store s → isolated s k → u64 ts →
  wp F T (MvccReader_get k ts)
    (λ r s', s' = s ∧ (snapshot_read s k ts r ∨ F ∧ mvcc_io r)) s.
Proof.
  intros Hwf Hiso Hts. eapply wp_mono, wp_MvccReader_get; [|done..].
  intros r s' [-> [H|H]]; split; auto. left.
  destruct (lock_at s k) as [l|] eqn:Hl.
  - case_decide; subst; [by apply SR_locked|].
    apply snapshot_read_versions; try done. intros l' ?. simplify_eq. lia.
  - subst. apply snapshot_read_versions; try done. intros l' ?. simplify_eq.
Qed.

(** A snapshot read has one outcome. *)
Lemma newest_unique s k ts c r c' r' :
  newest s k ts c r → newest s k ts c' r' → c = c' ∧ r = r'.
Proof.
  intros (? & ? & Hw & ? & Hmax) (? & ? & Hw' & ? & Hmax').
  assert (c = c') as <- by (apply Z.le_antisymm; eauto). split; congruence.
Qed.

Lemma snapshot_read_functional s k ts r r' :
  snapshot_read s k ts r → snapshot_read s k ts r' → r = r'.
Proof.
  intros H H'.
  destruct H as [l Hl Hle|Hu Hn|c w Hu Hn Ho|c w v Hu Hn Ho Hd|c w Hu Hn Ho Hd],
    H' as [l' Hl' Hle'|Hu' Hn'|c' w' Hu' Hn' Ho'|c' w' v' Hu' Hn' Ho' Hd'|c' w' Hu' Hn' Ho' Hd'];
    try congruence;
    try (by destruct (Hn _ _ Hn')); try (by destruct (Hn' _ _ Hn));
    try (by specialize (Hu _ Hl'); lia); try (by specialize (Hu' _ Hl); lia);
    destruct (newest_unique _ _ _ _ _ _ _ Hn Hn') as [-> ->]; congruence.
Qed.
End ReaderSpec.

(** ** Stores that look the same to a snapshot *)

(** [k] reads the same in both stores up to [ts]: the same lock, the same
    committed versions, the same values behind them. *)
Record same_upto (ts : Z) (s s' : Store) (k : bytes) : Prop := {
  su_lock : lock_at s' k = lock_at s k;
  su_write c r : u64 c → c ≤ ts → wr_op r ≠ Rollback →
    write_at s' k c = Some r ↔ write_at s k c = Some r;
  su_data c r : u64 c → c ≤ ts → write_at s k c = Some r → wr_op r ≠ Rollback →
    data_at s' k (wr_start_ts r) = data_at s k (wr_start_ts r)
}.

Lemma newest_same_upto ts s s' k c r :
  same_upto ts s s' k → newest s' k ts c r ↔ newest s k ts c r.
Proof.
  intros Hs. unfold newest. split; intros (Hc & Hle & Hw & Hop & Hmax);
    (split_and!; [done|done|by apply (su_write _ _ _ _ Hs)|done|]);
    intros c' r' Hc' Hle' Hw' Hop'; apply (Hmax c' r'); try done; by apply (su_write _ _ _ _ Hs).
Qed.

Lemma snapshot_read_same_upto {FE : FjallErr} ts s s' k r :
  same_upto ts s s' k → snapshot_read s k ts r → snapshot_read s' k ts r.
Proof.
  intros Hs. assert (unlocked_at s k ts → unlocked_at s' k ts) as Hu.
  { intros H l. rewrite (su_lock _ _ _ _ Hs). apply H. }
  intros [l Hl Hle|Hun Hno|c w Hun Hn Ho|c w v Hun Hn Ho Hv|c w Hun Hn Ho Hv].
  - apply SR_locked; [by rewrite (su_lock _ _ _ _ Hs)|done].
  - apply SR_absent; [auto|]. intros c w Hn%(newest_same_upto _ _ _ _ _ _ Hs). by eapply Hno.
  - by apply (SR_deleted _ _ _ c w); [auto|apply (newest_same_upto _ _ _ _ _ _ Hs)|].
  - apply (SR_value _ _ _ c w); [auto|by apply (newest_same_upto _ _ _ _ _ _ Hs)|done|].
    destruct Hn as (? & ? & ? & ? & _). by rewrite (su_data _ _ _ _ Hs c w).
  - apply (SR_missing _ _ _ c w); [auto|by apply (newest_same_upto _ _ _ _ _ _ Hs)|done|].
    destruct Hn as (? & ? & ? & ? & _). by rewrite (su_data _ _ _ _ Hs c w).
Qed.

(** ** Theorem *)

(** C12: the MVCC reader computes snapshot reads: on an engine that does not
    fail, its result is the one [snapshot_read] describes and no other (the
    lock in the way, or the value of the newest version at or before the
    timestamp that is not a rollback), and it never changes the store. *)
Theorem reader_computes_snapshot {FE : FjallErr} T {W} `{!Fjall FE W} (view : W → Store)
    (L : FjallLaws False T W view) k ts w r :
  wf_store (view w) → isolated (view w) k → u64 ts →
  ((run (MvccReader_get k ts) w).1 = r ↔ snapshot_read (view w) k ts r) ∧
  view (run (MvccReader_get k ts) w).2 = view w.
Proof.
  intros Hwf Hiso Hts.
  destruct (wp_adequate False T view L _ _ _ (wp_MvccReader_get_snapshot False T (view w) k ts Hwf Hiso Hts))
    as [Hv [Hsr|[[] _]]].
  split; [|done]. split; [by intros <-|]. intros Hr. by eapply snapshot_read_functional.
Qed.

(** A store with two versions of one key and a rollback between them. *)
Definition ex_versions : Store :=
  let rec c ts op := (KeyEncoder_encode (of_str "k") c, WriteRecord_to_bytes (WriteRecord_new ts op)) in
  mkStore
    (list_to_map [(KeyEncoder_encode (of_str "k") 10, of_str "old");
                  (KeyEncoder_encode (of_str "k") 30, of_str "new")])
    ∅
    (list_to_map [rec 15 10 Put; rec 20 20 Rollback; rec 35 30 Put]).

Lemma ex_versions_write e v :
  s_write ex_versions !! e = Some v →
  (∃ c, u64 c ∧ e = KeyEncoder_encode (of_str "k") c) ∧ is_Some (WriteRecord_from_bytes v).
Proof.
  intros H%elem_of_entries_of.
  assert (entries_of (s_write ex_versions) =
    (λ x : Z * WriteRecord, (KeyEncoder_encode (of_str "k") x.1, WriteRecord_to_bytes x.2)) <$>
    [(35, WriteRecord_new 30 Put); (20, WriteRecord_new 20 Rollback); (15, WriteRecord_new 10 Put)])
    as E by by vm_compute.
  rewrite E in H. clear E. apply list_elem_of_fmap in H as ([c r] & [= -> ->] & H).
  assert (u64 c ∧ u64 (wr_start_ts r)) as [Hc Hr].
  { rewrite !elem_of_cons, elem_of_nil in H. unfold u64. naive_solver lia. }
  split; [by exists c|]. rewrite WriteRecord_from_to by done. by eexists.
Qed.

Lemma reader_computes_snapshot_witness :
  snapshot_read ex_versions (of_str "k") 25 (@Ok (@MvccError Mem_err) _ (Some (of_str "old"))).
Proof.
  apply (reader_computes_snapshot (λ _, True) (Fjall0 := Mem 0) id (Mem_laws False (λ _, True) 0 I)
    (of_str "k") 25 ex_versions).
  - split; [|done]. intros e v [(c & _ & ->) ?]%ex_versions_write.
    rewrite length_KeyEncoder_encode. split; [lia|done].
  - intros k' c [v [(c' & Hc' & E) _]%ex_versions_write] Hc. left.
    by apply KeyEncoder_encode_inj in E as [-> _].
  - done.
  - by vm_compute.
Defined.
