(* ===== verification/View.v ===== *)
(** * Batches seen through the abstract view

    The transaction code changes a store with four kinds of batch operation:
    insert a write record, insert or remove a lock, insert a value.  This file
    gives their effect on [write_at], [lock_at] and [data_at], and the
    invariant [inv K] of a store all of whose keys are drawn from a
    prefix-free set [K], which each of them preserves. *)

From stdpp Require Import base list gmap sorting strings.
From Stdlib Require Import ZArith Lia Strings.Byte.
From S2P Require Import Prelude Codec Engine Mvcc.

Abbreviation ins_write k c r :=
  (BInsert PARTITION_WRITE (KeyEncoder_encode k c) (WriteRecord_to_bytes r)).
Abbreviation ins_lock k l := (BInsert PARTITION_LOCK k (Lock_to_bytes l)).
Abbreviation rem_lock k := (BRemove PARTITION_LOCK k).
Abbreviation ins_data k ts v :=
  (BInsert PARTITION_DEFAULT (KeyEncoder_encode k ts) v).

(** A lock the code can write and read back. *)
Definition wf_lock_val (l : Lock) : Prop :=
  u64 (lk_start_ts l) ∧ u64 (lk_ttl l) ∧ u32 (Z.of_nat (length (lk_primary_key l))) ∧
  lk_op l ≠ Rollback.

(** ** Effect on the view *)
Section Effects.
Context (s : Store).

Lemma write_at_ins_write k c r k' c' :
  u64 c → u64 c' → u64 (wr_start_ts r) →
  write_at (apply_op (ins_write k c r) s) k' c' =
  if decide (k' = k ∧ c' = c) then Some r else write_at s k' c'.
Proof.
  intros Hc Hc' Hr. unfold write_at. simpl. case_decide as D.
  - destruct D as [-> ->]. rewrite lookup_insert_eq. simpl. by apply WriteRecord_from_to.
  - rewrite lookup_insert_ne; [done|]. intros E. apply D.
    by apply KeyEncoder_encode_inj in E as [-> ->].
Qed.

Lemma lock_at_ins_lock k l k' :
  wf_lock_val l →
  lock_at (apply_op (ins_lock k l) s) k' = if decide (k' = k) then Some l else lock_at s k'.
Proof.
  intros (? & ? & ? & ?). unfold lock_at. simpl. case_decide as D.
  - subst. rewrite lookup_insert_eq. simpl.
    by rewrite <-(app_nil_r (Lock_to_bytes l)), Lock_from_to.
  - by rewrite lookup_insert_ne.
Qed.

Lemma lock_at_rem_lock k k' :
  lock_at (apply_op (rem_lock k) s) k' = if decide (k' = k) then None else lock_at s k'.
Proof.
  unfold lock_at. simpl. case_decide as D.
  - subst. by rewrite lookup_delete_eq.
  - by rewrite lookup_delete_ne.
Qed.

Lemma data_at_ins_data k ts v k' ts' :
  u64 ts → u64 ts' →
  data_at (apply_op (ins_data k ts v) s) k' ts' =
  if decide (k' = k ∧ ts' = ts) then Some v else data_at s k' ts'.
Proof.
  intros. unfold data_at. simpl. case_decide as D.
  - destruct D as [-> ->]. by rewrite lookup_insert_eq.
  - rewrite lookup_insert_ne; [done|]. intros E. apply D.
    by apply KeyEncoder_encode_inj in E as [-> ->].
Qed.

Lemma lock_at_ins_write k c r k' : lock_at (apply_op (ins_write k c r) s) k' = lock_at s k'.
Proof. done. Qed.
Lemma lock_at_ins_data k ts v k' : lock_at (apply_op (ins_data k ts v) s) k' = lock_at s k'.
Proof. done. Qed.
Lemma write_at_ins_lock k l k' c : write_at (apply_op (ins_lock k l) s) k' c = write_at s k' c.
Proof. done. Qed.
Lemma write_at_rem_lock k k' c : write_at (apply_op (rem_lock k) s) k' c = write_at s k' c.
Proof. done. Qed.
Lemma write_at_ins_data k ts v k' c : write_at (apply_op (ins_data k ts v) s) k' c = write_at s k' c.
Proof. done. Qed.
Lemma data_at_ins_lock k l k' ts : data_at (apply_op (ins_lock k l) s) k' ts = data_at s k' ts.
Proof. done. Qed.
Lemma data_at_rem_lock k k' ts : data_at (apply_op (rem_lock k) s) k' ts = data_at s k' ts.
Proof. done. Qed.
Lemma data_at_ins_write k c r k' ts : data_at (apply_op (ins_write k c r) s) k' ts = data_at s k' ts.
Proof. done. Qed.

Lemma wf_lock_val_lock_at k l : lock_at s k = Some l → wf_lock_val l.
Proof.
  unfold lock_at. rewrite bind_Some. intros (v & _ & H).
  destruct (Lock_from_bytes v) eqn:E; simplify_eq.
  apply Lock_from_bytes_wf in E as (? & ? & ? & ?). done.
Qed.

Lemma write_at_u64 k c r : write_at s k c = Some r → u64 (wr_start_ts r).
Proof.
  unfold write_at. rewrite bind_Some. intros (v & _ & H).
  by apply WriteRecord_from_bytes_u64 in H.
Qed.
End Effects.

Create Rewrite HintDb view.
#[export] Hint Rewrite lock_at_ins_write lock_at_ins_data write_at_ins_lock write_at_rem_lock
  write_at_ins_data data_at_ins_lock data_at_rem_lock data_at_ins_write lock_at_rem_lock : view.
#[export] Hint Rewrite write_at_ins_write lock_at_ins_lock data_at_ins_data
  using (solve [auto with kv]) : view.

(** Unfold batches and rewrite lookups in the stores they produce. *)
Ltac view_simpl := cbn [apply_batch] in *; autorewrite with view in *.

(** ** The invariant *)

(** No key of the set is a proper prefix of another. *)
Definition prefix_free (K : bytes → Prop) : Prop :=
  ∀ k k', K k → K k' → k `prefix_of` k' → k = k'.

(** Keys of one length are prefix-free. *)
Lemma prefix_free_length n : prefix_free (λ k, length k = n).
Proof.
  intros k k' <- Hk' [x ->]. rewrite length_app in Hk'.
  assert (x = []) as -> by (apply length_zero_iff_nil; lia). by rewrite app_nil_r.
Qed.

Record inv (K : bytes → Prop) (s : Store) : Prop := {
  inv_wf : wf_store s;
  inv_write_keys k c : u64 c → is_Some (s_write s !! KeyEncoder_encode k c) → K k;
  inv_lock_keys k l : lock_at s k = Some l → K k ∧ K (lk_primary_key l)
}.

Lemma inv_isolated K s k : prefix_free K → inv K s → K k → isolated s k.
Proof.
  intros Hp Hi Hk k' c Hw Hc. pose proof (inv_write_keys _ _ Hi _ _ Hc Hw) as Hk'.
  destruct (decide (k' = k)); [by left|right].
  split; intros ?; [destruct (Hp k k')|destruct (Hp k' k)]; auto.
Qed.

Lemma inv_empty K : inv K (mkStore ∅ ∅ ∅).
Proof.
  split; [split|..]; simpl; intros *; try by rewrite lookup_empty.
  unfold lock_at. cbn [s_lock]. by rewrite lookup_empty.
Qed.

Lemma inv_ins_write K s k c r :
  inv K s → K k → u64 c → u64 (wr_start_ts r) → inv K (apply_op (ins_write k c r) s).
Proof.
  intros [[Hw Hl] Hwk Hlk] Hk Hc Hr. split; [split|..]; simpl; [|done| |done].
  - intros e v. rewrite lookup_insert_Some. intros [[<- <-]|[_ ?]]; [|eauto].
    rewrite length_KeyEncoder_encode. split; [lia|].
    rewrite WriteRecord_from_to by done. by eexists.
  - intros k' c' Hc'. destruct (decide (KeyEncoder_encode k c = KeyEncoder_encode k' c')) as [E|E].
    + by apply KeyEncoder_encode_inj in E as [-> _].
    + rewrite lookup_insert_ne by done. by apply Hwk.
Qed.

Lemma inv_rem_lock K s k : inv K s → inv K (apply_op (rem_lock k) s).
Proof.
  intros [[Hw Hl] Hwk Hlk]. split; [split|..]; simpl; [done| |done|].
  - intros k' v [_ ?]%lookup_delete_Some. eauto.
  - intros k' l. change (lock_at (apply_op (rem_lock k) s) k' = Some l → K k' ∧ K (lk_primary_key l)).
    rewrite lock_at_rem_lock. case_decide; [done|apply Hlk].
Qed.

Lemma inv_ins_lock K s k l :
  inv K s → wf_lock_val l → K k → K (lk_primary_key l) → inv K (apply_op (ins_lock k l) s).
Proof.
  intros [[Hw Hl] Hwk Hlk] Hv Hk Hp. split; [split|..]; simpl; [done| |done|].
  - intros k' v. rewrite lookup_insert_Some. intros [[<- <-]|[_ ?]]; [|eauto].
    exists l. destruct Hv as (? & ? & ? & ?).
    by rewrite <-(app_nil_r (Lock_to_bytes l)), Lock_from_to.
  - intros k' l'. change (lock_at (apply_op (ins_lock k l) s) k' = Some l' → K k' ∧ K (lk_primary_key l')).
    rewrite lock_at_ins_lock by done. case_decide; [|apply Hlk]. intros [= <-]. by subst.
Qed.

Lemma inv_ins_data K s k ts v : inv K s → inv K (apply_op (ins_data k ts v) s).
Proof. intros [[Hw Hl] Hwk Hlk]. split; [split|..]; done. Qed.

#[export] Hint Resolve inv_ins_write inv_rem_lock inv_ins_lock inv_ins_data : kv.
