(* ===== verification/Hlc.v ===== *)
(** * Hybrid logical clock: [crates/txn-coordinator/src/hlc.rs]

    Timestamps pack 48 bits of milliseconds over a 16-bit counter.  The clock's
    state sits behind one mutex, so each operation is a state transition given
    the physical time it read.  The theorems: the packing is a round trip and
    an order embedding while both parts fit; along any sequence of local
    events and received messages that keeps the counter within 16 bits the
    issued timestamps strictly increase and dominate every message received;
    fewer than 2^16 events cannot overflow the counter; and exactly what the
    clock issues within one millisecond, past the overflow included. *)

From stdpp Require Import base list gmap sorting.
From Stdlib Require Import ZArith Lia.
From S2P Require Import Prelude Codec Engine.

Record Timestamp : Type := mkTimestamp { ts_physical : Z; ts_logical : Z }.

(** [(self.physical << 16) | (self.logical as u64 & 0xFFFF)]: the shift drops
    what leaves the 64 bits. *)
Definition Timestamp_encode (t : Timestamp) : Z :=
  Z.lor (u64_wrap (Z.shiftl (ts_physical t) 16)) (Z.land (ts_logical t) 0xFFFF).

Definition Timestamp_decode (ts : Z) : Timestamp :=
  mkTimestamp (Z.shiftr ts 16) (Z.land ts 0xFFFF).

(** The contents of the mutex. *)
Record HlcInner : Type := mkHlcInner { latest_physical : Z; logical : Z }.

Definition HybridLogicalClock_new {FE : FjallErr} : prog HlcInner :=
  let* now_ms := now_millis in Ret (mkHlcInner now_ms 0).

(** The critical section of [now], given the time read before it. *)
Definition hlc_now_at (physical_now : Z) (inner : HlcInner) : Z * HlcInner :=
  let inner' :=
    if decide (latest_physical inner < physical_now)
    then mkHlcInner physical_now 0
    else mkHlcInner (latest_physical inner) (u32_add (logical inner) 1) in
  (Timestamp_encode (mkTimestamp (latest_physical inner') (logical inner')), inner').

Definition HybridLogicalClock_now {FE : FjallErr} (inner : HlcInner) : prog (Z * HlcInner) :=
  let* physical_now := now_millis in Ret (hlc_now_at physical_now inner).

(** The critical section of [update]. *)
Definition hlc_update_at (physical_now remote_ts : Z) (inner : HlcInner) : HlcInner :=
  let remote := Timestamp_decode remote_ts in
  let max_physical :=
    Z.max (Z.max physical_now (latest_physical inner)) (ts_physical remote) in
  let logical' :=
    if decide (max_physical = latest_physical inner ∧ max_physical = ts_physical remote)
    then u32_add (Z.max (logical inner) (ts_logical remote)) 1
    else if decide (max_physical = latest_physical inner)
    then u32_add (logical inner) 1
    else if decide (max_physical = ts_physical remote)
    then u32_add (ts_logical remote) 1
    else 0 in
  mkHlcInner max_physical logical'.

Definition HybridLogicalClock_update {FE : FjallErr} (remote_ts : Z) (inner : HlcInner) :
    prog HlcInner :=
  let* physical_now := now_millis in Ret (hlc_update_at physical_now remote_ts inner).

(** ** Runs of a clock *)

(** Both parts fit the packed layout. *)
Definition hlc_ok (i : HlcInner) : Prop :=
  0 ≤ latest_physical i < 2 ^ 48 ∧ 0 ≤ logical i < 2 ^ 16.

(** The timestamp a state stands for. *)
Definition hlc_ts (i : HlcInner) : Z :=
  Timestamp_encode (mkTimestamp (latest_physical i) (logical i)).

(** [hlc_run i ev j]: from [i] the clock processes the events [ev] and ends in
    [j]; an issued timestamp is [inl], a received one [inr]. *)
Inductive hlc_run : HlcInner → list (Z + Z) → HlcInner → Prop :=
| hlc_run_nil i : hlc_run i [] i
| hlc_run_now i pn ts i' ev j :
    u64 pn → hlc_now_at pn i = (ts, i') → hlc_ok i' → hlc_run i' ev j →
    hlc_run i (inl ts :: ev) j
| hlc_run_update i pn remote ev j :
    u64 pn → u64 remote → hlc_ok (hlc_update_at pn remote i) →
    hlc_run (hlc_update_at pn remote i) ev j →
    hlc_run i (inr remote :: ev) j.

Definition issued (ev : list (Z + Z)) : list Z :=
  omap (λ x, match x with inl t => Some t | inr _ => None end) ev.

(** [n] successive calls of [now] with the given clock readings. *)
Fixpoint hlc_nows (pns : list Z) (i : HlcInner) : list Z * HlcInner :=
  match pns with
  | [] => ([], i)
  | pn :: pns' =>
      let '(t, i') := hlc_now_at pn i in
      let '(l, j) := hlc_nows pns' i' in (t :: l, j)
  end.

(** ** Lemmas *)
Lemma Timestamp_encode_fits p l :
  0 ≤ p < 2 ^ 48 → 0 ≤ l < 2 ^ 16 →
  Timestamp_encode (mkTimestamp p l) = p * 2 ^ 16 + l.
Proof.
  intros Hp Hl. unfold Timestamp_encode. simpl.
  rewrite Z.shiftl_mul_pow2 by lia. rewrite u64_wrap_id by (unfold u64; lia).
  change 0xFFFF with (Z.ones 16). rewrite Z.land_ones, Z.mod_small by lia.
  assert (Z.land (p * 2 ^ 16) l = 0) as Hdisj.
  { apply Z.bits_inj'. intros n Hn.
    rewrite Z.land_spec, Z.bits_0, <-Z.shiftl_mul_pow2, Z.shiftl_spec by lia.
    destruct (decide (n < 16)); [by rewrite Z.testbit_neg_r by lia|].
    destruct (decide (l = 0)) as [->|]; [by rewrite Z.bits_0, andb_false_r|].
    rewrite (Z.bits_above_log2 l n), andb_false_r; [done|lia|].
    apply Z.log2_lt_pow2; [lia|].
    eapply Z.lt_le_trans; [apply Hl|apply Z.pow_le_mono_r; lia]. }
  by rewrite <-Z.lxor_lor, <-Z.add_nocarry_lxor.
Qed.

Lemma Timestamp_decode_fits p l :
  0 ≤ p < 2 ^ 48 → 0 ≤ l < 2 ^ 16 →
  Timestamp_decode (p * 2 ^ 16 + l) = mkTimestamp p l.
Proof.
  intros Hp Hl. unfold Timestamp_decode. f_equal.
  - rewrite Z.shiftr_div_pow2 by lia. rewrite Z.div_add_l by lia.
    rewrite (Z.div_small l) by lia. lia.
  - change 0xFFFF with (Z.ones 16). rewrite Z.land_ones by lia.
    rewrite Z.add_comm, Z.mod_add by lia. by apply Z.mod_small.
Qed.

Lemma Timestamp_decode_split ts :
  u64 ts → 0 ≤ ts_physical (Timestamp_decode ts) < 2 ^ 48 ∧
  0 ≤ ts_logical (Timestamp_decode ts) < 2 ^ 16 ∧
  ts = ts_physical (Timestamp_decode ts) * 2 ^ 16 + ts_logical (Timestamp_decode ts).
Proof.
  unfold u64. intros H. simpl. rewrite Z.shiftr_div_pow2 by lia.
  change 0xFFFF with (Z.ones 16). rewrite Z.land_ones by lia.
  pose proof (Z.div_mod ts (2 ^ 16) ltac:(lia)). pose proof (Z.mod_pos_bound ts (2 ^ 16)).
  split_and!; lia.
Qed.

Lemma hlc_ts_ok i : hlc_ok i → hlc_ts i = latest_physical i * 2 ^ 16 + logical i.
Proof. intros [??]. by apply Timestamp_encode_fits. Qed.

Lemma u32_add_small x : 0 ≤ x < 2 ^ 17 → u32_add x 1 = x + 1.
Proof. intros. apply u32_wrap_id. unfold u32. lia. Qed.

(** Each event moves the clock strictly forward, past what it received. *)
Lemma hlc_now_at_advances pn i ts i' :
  hlc_ok i → hlc_now_at pn i = (ts, i') → hlc_ok i' →
  ts = hlc_ts i' ∧ hlc_ts i < hlc_ts i'.
Proof.
  unfold hlc_now_at. intros Hi [= <- <-] Hi'. split; [done|].
  rewrite !hlc_ts_ok by done. destruct Hi as [??].
  case_decide; simpl in *; [lia|]. rewrite u32_add_small by lia. lia.
Qed.

Lemma hlc_update_at_advances pn remote i :
  u64 remote → hlc_ok i → hlc_ok (hlc_update_at pn remote i) →
  hlc_ts i < hlc_ts (hlc_update_at pn remote i) ∧
  remote < hlc_ts (hlc_update_at pn remote i).
Proof.
  intros Hr Hi Hi'. rewrite !hlc_ts_ok by done.
  destruct (Timestamp_decode_split remote Hr) as (H1 & H2 & H3). destruct Hi as [??].
  clear Hi'. unfold hlc_update_at. cbn zeta.
  set (rp := ts_physical (Timestamp_decode remote)) in *.
  set (rl := ts_logical (Timestamp_decode remote)) in *. cbn [latest_physical logical].
  repeat case_decide; rewrite ?u32_add_small by lia; lia.
Qed.

Lemma hlc_run_increasing i ev j :
  hlc_ok i → hlc_run i ev j →
  hlc_ok j ∧ StronglySorted Z.lt (issued ev) ∧
  Forall (λ t, hlc_ts i < t ≤ hlc_ts j) (issued ev) ∧ hlc_ts i ≤ hlc_ts j.
Proof.
  intros Hi Hr. induction Hr as [i|i pn ts i' ev j Hpn Hnow Hi' Hr IH|i pn rm ev j Hpn Hrm Hi' Hr IH].
  - csimpl. split_and!; try done. constructor.
  - destruct (hlc_now_at_advances _ _ _ _ Hi Hnow Hi') as [-> Hlt].
    destruct (IH Hi') as (Hj & Hs & Hf & Hle). csimpl.
    split_and!; try done; [| |lia].
    + constructor; [done|]. eapply Forall_impl; [done|]. simpl. lia.
    + constructor; [lia|]. eapply Forall_impl; [done|]. simpl. lia.
  - destruct (hlc_update_at_advances pn _ _ Hrm Hi Hi') as [Hlt _].
    destruct (IH Hi') as (Hj & Hs & Hf & Hle). csimpl.
    split_and!; try done; [|lia]. eapply Forall_impl; [done|]. simpl. lia.
Qed.

Lemma hlc_run_app i ev ev' j :
  hlc_run i (ev ++ ev') j → ∃ i', hlc_run i ev i' ∧ hlc_run i' ev' j.
Proof.
  remember (ev ++ ev') as l eqn:E. intros Hr. revert ev E.
  induction Hr as [i|i pn ts i' l j Hpn Hnow Hi' Hr IH|i pn rm l j Hpn Hrm Hi' Hr IH];
    intros [|x ev] E; simplify_eq/=; eauto using hlc_run.
  - destruct (IH ev eq_refl) as (k & ? & ?). eauto using hlc_run.
  - destruct (IH ev eq_refl) as (k & ? & ?). eauto using hlc_run.
Qed.

(** A call keeps the parts within the layout while the counter has room. *)
Lemma hlc_now_at_fits pn i ts i' :
  hlc_ok i → 0 ≤ pn < 2 ^ 48 → logical i + 1 < 2 ^ 16 → hlc_now_at pn i = (ts, i') →
  hlc_ok i' ∧ logical i' ≤ logical i + 1.
Proof.
  unfold hlc_now_at, hlc_ok. intros Hi Hpn Hl [= _ <-]. case_decide; simpl; [lia|].
  rewrite u32_add_small by lia. lia.
Qed.

Lemma hlc_nows_run pns i :
  hlc_ok i → Forall (λ pn, 0 ≤ pn < 2 ^ 48) pns →
  logical i + Z.of_nat (length pns) < 2 ^ 16 →
  hlc_run i (inl <$> (hlc_nows pns i).1) (hlc_nows pns i).2.
Proof.
  revert i. induction pns as [|pn pns IH]; intros i Hi Hf Hb; cbn [hlc_nows]; [constructor|].
  apply Forall_cons in Hf as [Hpn Hf].
  cbn [length] in Hb. destruct (hlc_now_at pn i) as [t i'] eqn:E.
  destruct (hlc_now_at_fits pn i t i' Hi Hpn ltac:(lia) E) as [Hi' Hl'].
  specialize (IH i' Hi' Hf ltac:(lia)). destruct (hlc_nows pns i') as [l j]. csimpl.
  eapply hlc_run_now; eauto. unfold u64. lia.
Qed.

(** A call that does not see the physical clock move only counts. *)
Lemma hlc_now_at_stale p l pn :
  pn ≤ p → hlc_now_at pn (mkHlcInner p l) =
    (Timestamp_encode (mkTimestamp p (u32_add l 1)), mkHlcInner p (u32_add l 1)).
Proof. intros. unfold hlc_now_at. cbn [latest_physical]. by rewrite decide_False by lia. Qed.

(** The packed counter is the counter modulo [2^16]. *)
Lemma Timestamp_encode_counter p l :
  0 ≤ p < 2 ^ 48 → 0 ≤ l → Timestamp_encode (mkTimestamp p l) = p * 2 ^ 16 + l mod 2 ^ 16.
Proof.
  intros Hp Hl. pose proof (Z.mod_pos_bound l (2 ^ 16) ltac:(lia)).
  rewrite <-(Timestamp_encode_fits p (l mod 2 ^ 16)) by lia. unfold Timestamp_encode.
  cbn [ts_physical ts_logical]. change 0xFFFF with (Z.ones 16).
  by rewrite !Z.land_ones, Zmod_mod by lia.
Qed.

Lemma hlc_nows_stale p pns l :
  0 ≤ p < 2 ^ 48 → Forall (λ x, x ≤ p) pns → 0 ≤ l → l + Z.of_nat (length pns) < 2 ^ 32 →
  length (hlc_nows pns (mkHlcInner p l)).1 = length pns ∧
  ∀ j, (j < length pns)%nat →
    (hlc_nows pns (mkHlcInner p l)).1 !! j = Some (p * 2 ^ 16 + (l + 1 + Z.of_nat j) mod 2 ^ 16).
Proof.
  intros Hp Hf. revert l. induction Hf as [|pn pns Hpn Hf IH]; intros l Hl Hn.
  { split; [done|]. intros j Hj. by apply Nat.nlt_0_r in Hj. }
  cbn [length] in *. cbn [hlc_nows]. rewrite hlc_now_at_stale by done.
  assert (u32_add l 1 = l + 1) as -> by (apply u32_wrap_id; unfold u32; lia).
  destruct (IH (l + 1) ltac:(lia) ltac:(lia)) as [Hlen Hat].
  destruct (hlc_nows pns (mkHlcInner p (l + 1))) as [ts i]. cbn [fst] in *.
  split; [cbn; by rewrite Hlen|]. intros [|j] Hj; cbn [lookup list_lookup].
  - rewrite Timestamp_encode_counter by lia. by rewrite Z.add_0_r.
  - rewrite Hat by lia. do 3 f_equal. lia.
Qed.

(** ** Theorems *)

(** Packing and unpacking a timestamp are inverse on every 64-bit value
    and on every pair that fits, and packed timestamps compare like their
    (physical, logical) pairs. *)
Theorem timestamp_packing ts p l p' l' :
  u64 ts → 0 ≤ p < 2 ^ 48 → 0 ≤ l < 2 ^ 16 → 0 ≤ p' < 2 ^ 48 → 0 ≤ l' < 2 ^ 16 →
  Timestamp_encode (Timestamp_decode ts) = ts ∧
  Timestamp_decode (Timestamp_encode (mkTimestamp p l)) = mkTimestamp p l ∧
  (Timestamp_encode (mkTimestamp p l) < Timestamp_encode (mkTimestamp p' l') ↔
   p < p' ∨ p = p' ∧ l < l').
Proof.
  intros Hts Hp Hl Hp' Hl'. rewrite !Timestamp_encode_fits by done. split_and!.
  - destruct (Timestamp_decode_split ts Hts) as (Hq & Hm & E).
    destruct (Timestamp_decode ts) as [q m]. simpl in *. by rewrite Timestamp_encode_fits.
  - by apply Timestamp_decode_fits.
  - lia.
Qed.

Lemma timestamp_packing_witness :
  Timestamp_decode (Timestamp_encode (mkTimestamp 1718000000 7)) = mkTimestamp 1718000000 7.
Proof. apply (timestamp_packing 0 1718000000 7 0 0); done. Defined.

(** C36: along any interleaving of local calls and received timestamps that
    keeps the counter within its 16 bits, the issued timestamps strictly
    increase, and every timestamp issued after a message was received is above
    the message's. *)
Theorem hlc_monotone_and_causal i ev j :
  hlc_ok i → hlc_run i ev j →
  StronglySorted Z.lt (issued ev) ∧
  ∀ ev1 remote ev2, ev = ev1 ++ inr remote :: ev2 → Forall (λ t, remote < t) (issued ev2).
Proof.
  intros Hi Hr. split; [by apply (hlc_run_increasing i ev j)|].
  intros ev1 remote ev2 ->. apply hlc_run_app in Hr as (i' & Hr1 & Hr2).
  destruct (hlc_run_increasing _ _ _ Hi Hr1) as (Hi' & _).
  inversion Hr2 as [| |? pn ? ? ? Hpn Hrm Hok Hr3]; subst.
  destruct (hlc_update_at_advances pn _ _ Hrm Hi' Hok) as [_ Hlt].
  destruct (hlc_run_increasing _ _ _ Hok Hr3) as (_ & _ & Hf & _).
  eapply Forall_impl; [done|]. simpl. lia.
Qed.

Lemma hlc_monotone_and_causal_witness :
  StronglySorted Z.lt [65536000; 65536001; 131072001].
Proof.
  apply (hlc_monotone_and_causal (mkHlcInner 999 5) [inl 65536000; inl 65536001; inr 131071999; inl 131072001]
    (mkHlcInner 2000 1)).
  - done.
  - apply (hlc_run_now _ 1000 _ (mkHlcInner 1000 0)); [done|by vm_compute|done|].
    apply (hlc_run_now _ 1000 _ (mkHlcInner 1000 1)); [done|by vm_compute|done|].
    apply (hlc_run_update _ 2000); [done|done|done|].
    apply (hlc_run_now _ 1500 _ (mkHlcInner 2000 1)); [done|by vm_compute|done|].
    apply hlc_run_nil.
Defined.

(** Fewer than [2^16] calls of [now] cannot exhaust the counter, however
    the physical clock behaves: their timestamps strictly increase. *)
Theorem hlc_burst_increasing pns i :
  hlc_ok i → Forall (λ pn, 0 ≤ pn < 2 ^ 48) pns →
  logical i + Z.of_nat (length pns) < 2 ^ 16 →
  StronglySorted Z.lt (hlc_nows pns i).1.
Proof.
  intros Hi Hf Hb. pose proof (hlc_nows_run pns i Hi Hf Hb) as Hr.
  apply hlc_run_increasing in Hr as (_ & Hs & _); [|done].
  assert (issued (inl <$> (hlc_nows pns i).1) = (hlc_nows pns i).1) as E; [|by rewrite E in Hs].
  generalize (hlc_nows pns i).1. intros l. unfold issued. induction l as [|t l IH]; csimpl; [done|].
  by rewrite IH.
Qed.

Lemma hlc_burst_increasing_witness :
  StronglySorted Z.lt (hlc_nows [1000; 900; 1000; 1001] (mkHlcInner 1000 0)).1.
Proof.
  apply hlc_burst_increasing; [done| |done]. by repeat constructor.
Defined.

(** C37: what the clock issues within one millisecond, exactly: call number [j],
    counted from 0, while the physical clock reads a new millisecond [pn] first
    and nothing later than [pn] after that, issues [pn] with the counter [j]
    modulo [2^16].  So the first [2^16] calls increase strictly, and the next
    one, and every later one, repeats the timestamp issued [2^16] calls before
    (as long as the 32-bit counter itself does not overflow). *)
Theorem hlc_burst_wraps pn rest i :
  0 ≤ pn < 2 ^ 48 → latest_physical i < pn → Forall (λ x, x ≤ pn) rest →
  Z.of_nat (length rest) < 2 ^ 32 →
  let issued := (hlc_nows (pn :: rest) i).1 in
  length issued = S (length rest) ∧
  ∀ j, (j ≤ length rest)%nat → issued !! j = Some (pn * 2 ^ 16 + Z.of_nat j mod 2 ^ 16).
Proof.
  intros Hpn Hi Hf Hn. cbn [hlc_nows]. unfold hlc_now_at at 1 2. rewrite decide_True by done.
  cbn [latest_physical logical].
  destruct (hlc_nows_stale pn rest 0 Hpn Hf ltac:(lia) ltac:(lia)) as [Hl Hat].
  destruct (hlc_nows rest (mkHlcInner pn 0)) as [l i']. cbn [fst] in *. split; [cbn; by rewrite Hl|].
  intros [|j] Hj; cbn [lookup list_lookup].
  - by rewrite Timestamp_encode_counter by lia.
  - rewrite Hat by lia. do 3 f_equal. lia.
Qed.

(** 65537 calls in a millisecond: the last repeats the first. *)
Lemma hlc_burst_wraps_witness :
  let issued := (hlc_nows (1000 :: replicate (Z.to_nat (2 ^ 16)) 1000) (mkHlcInner 999 7)).1 in
  issued !! 0%nat = Some 65536000 ∧ issued !! 1%nat = Some 65536001 ∧
  issued !! Z.to_nat (2 ^ 16) = Some 65536000.
Proof.
  destruct (hlc_burst_wraps 1000 (replicate (Z.to_nat (2 ^ 16)) 1000) (mkHlcInner 999 7)) as [_ H].
  - lia.
  - cbn. lia.
  - apply Forall_replicate. lia.
  - rewrite length_replicate, Z2Nat.id by lia. lia.
  - rewrite length_replicate in H. split_and!.
    + exact (H 0%nat ltac:(lia)).
    + exact (H 1%nat ltac:(lia)).
    + rewrite H, Z2Nat.id by lia. done.
Defined.
