(* ===== verification/Resolver.v ===== *)
(** * Percolator lock resolution: [crates/txn-coordinator/src/lock_resolver.rs]

    A transaction's fate is decided by its primary key: a write record with its
    start timestamp says it committed (and when) or was rolled back; failing
    that, a live lock says it is pending and an expired one is rolled back on
    the spot.  [txn_status] and [resolved] specify the two operations over the
    abstract view; the code is shown to implement them on any engine, and to
    leave the store unchanged or fully updated when the engine fails. *)

From stdpp Require Import base list gmap sorting strings.
From Stdlib Require Import ZArith Lia Strings.Byte.
From S2P Require Import Prelude Codec Engine Mvcc View.

Section Resolver.
Context {FE : FjallErr}.

Inductive LockResolverError : Type :=
| LRE_Storage (e : StorageError)
| LRE_Fjall (e : fjall_Error)
| LRE_Mvcc (e : MvccError)
| LockActiveNotExpired.

Inductive TxnStatus : Type :=
| Committed (commit_ts : Z)
| RolledBack
| Locked (ttl : Z).

(** The scan of the primary key's records: [Some] status when the loop returns
    one, [None] when it runs out. *)
Fixpoint check_txn_status_loop (primary_key : bytes) (start_ts : Z)
    (items : list (result fjall_Error (bytes * bytes))) :
    result LockResolverError (option TxnStatus) :=
  match items with
  | [] => Ok None
  | Err e :: _ => Err (LRE_Fjall e)
  | Ok (enc_key, write_bytes) :: rest =>
      match KeyEncoder_decode enc_key with
      | Err _ => Err (LRE_Mvcc CorruptedState)
      | Ok (curr_user_key, commit_ts) =>
          if decide (curr_user_key = primary_key) then
            match WriteRecord_from_bytes write_bytes with
            | Some record =>
                if decide (wr_start_ts record = start_ts) then
                  match wr_op record with
                  | Put | Delete => Ok (Some (Committed commit_ts))
                  | Rollback => Ok (Some RolledBack)
                  end
                else check_txn_status_loop primary_key start_ts rest
            | None => check_txn_status_loop primary_key start_ts rest
            end
          else Ok None
      end
  end.

Definition LockResolver_check_txn_status (primary_key : bytes) (start_ts : Z) :
    prog (result LockResolverError TxnStatus) :=
  let* items := prange PARTITION_WRITE (KeyEncoder_encode primary_key u64_MAX) in
  match check_txn_status_loop primary_key start_ts items with
  | Err e => Ret (Err e)
  | Ok (Some status) => Ret (Ok status)
  | Ok None =>
      let? lock_bytes := pget PARTITION_LOCK primary_key via LRE_Fjall in
      match lock_bytes with
      | Some lb =>
          match Lock_from_bytes lb with
          | Ok lock =>
              if decide (lk_start_ts lock = start_ts) then
                let start_phys := Z.shiftr start_ts 16 in
                let* now_phys := now_millis in
                if decide (u64_add start_phys (lk_ttl lock) < now_phys) then
                  let? _ := StorageEngine_commit_batch
                    [BInsert PARTITION_WRITE (KeyEncoder_encode primary_key start_ts)
                       (WriteRecord_to_bytes (WriteRecord_new start_ts Rollback));
                     BRemove PARTITION_LOCK primary_key] via LRE_Storage in
                  Ret (Ok RolledBack)
                else Ret (Ok (Locked (lk_ttl lock)))
              else Ret (Ok RolledBack)
          | Err _ => Ret (Ok RolledBack)
          end
      | None => Ret (Ok RolledBack)
      end
  end.

Definition LockResolver_resolve_lock (key : bytes) (lock : Lock) :
    prog (result LockResolverError unit) :=
  let? status := LockResolver_check_txn_status (lk_primary_key lock) (lk_start_ts lock)
    via (λ e, e) in
  match status with
  | Committed commit_ts =>
      let? _ := StorageEngine_commit_batch
        [BInsert PARTITION_WRITE (KeyEncoder_encode key commit_ts)
           (WriteRecord_to_bytes (WriteRecord_new (lk_start_ts lock) (lk_op lock)));
         BRemove PARTITION_LOCK key] via LRE_Storage in
      Ret (Ok tt)
  | RolledBack =>
      let? _ := StorageEngine_commit_batch
        [BInsert PARTITION_WRITE (KeyEncoder_encode key (lk_start_ts lock))
           (WriteRecord_to_bytes (WriteRecord_new (lk_start_ts lock) Rollback));
         BRemove PARTITION_LOCK key] via LRE_Storage in
      Ret (Ok tt)
  | Locked _ =>
      let start_phys := Z.shiftr (lk_start_ts lock) 16 in
      let* now_phys := now_millis in
      if decide (u64_add start_phys (lk_ttl lock) < now_phys) then
        let? _ := StorageEngine_commit_batch
          [BInsert PARTITION_WRITE (KeyEncoder_encode key (lk_start_ts lock))
             (WriteRecord_to_bytes (WriteRecord_new (lk_start_ts lock) Rollback));
           BRemove PARTITION_LOCK key] via LRE_Storage in
        Ret (Ok tt)
      else Ret (Err LockActiveNotExpired)
  end.
End Resolver.

(** ** Specification *)

(** [c] is the newest record of [k] left by the transaction of [ts]. *)
Definition txn_record (s : Store) (k : bytes) (ts c : Z) (r : WriteRecord) : Prop :=
  u64 c ∧ write_at s k c = Some r ∧ wr_start_ts r = ts ∧
  ∀ c' r', u64 c' → write_at s k c' = Some r' → wr_start_ts r' = ts → c' ≤ c.

Definition no_txn_record (s : Store) (k : bytes) (ts : Z) : Prop :=
  ∀ c r, u64 c → write_at s k c = Some r → wr_start_ts r ≠ ts.

(** The lock of transaction [ts] with time to live [ttl] has expired at [now]. *)
Definition expired (ts ttl now : Z) : Prop := u64_add (Z.shiftr ts 16) ttl < now.

#[export] Instance expired_dec ts ttl now : Decision (expired ts ttl now).
Proof. unfold expired. apply _. Defined.

(** A permanent rollback record in place of the lock. *)
Definition rollback_key (k : bytes) (ts : Z) (s : Store) : Store :=
  apply_batch [ins_write k ts (WriteRecord_new ts Rollback); rem_lock k] s.

(** A commit record in place of the lock. *)
Definition commit_key (k : bytes) (ts c : Z) (op : OpType) (s : Store) : Store :=
  apply_batch [ins_write k c (WriteRecord_new ts op); rem_lock k] s.

(** The status of the transaction that started at [ts] with primary key [pk],
    and the store after asking for it; [T] is what the clock may read. *)
Inductive txn_status (T : Z → Prop) (s : Store) (pk : bytes) (ts : Z) :
    TxnStatus → Store → Prop :=
| TS_committed c r : txn_record s pk ts c r → wr_op r ≠ Rollback →
    txn_status T s pk ts (Committed c) s
| TS_rolled_back c r : txn_record s pk ts c r → wr_op r = Rollback →
    txn_status T s pk ts RolledBack s
| TS_expired l now : no_txn_record s pk ts → lock_at s pk = Some l → lk_start_ts l = ts →
    T now → expired ts (lk_ttl l) now →
    txn_status T s pk ts RolledBack (rollback_key pk ts s)
| TS_locked l now : no_txn_record s pk ts → lock_at s pk = Some l → lk_start_ts l = ts →
    T now → ¬ expired ts (lk_ttl l) now →
    txn_status T s pk ts (Locked (lk_ttl l)) s
| TS_gone : no_txn_record s pk ts → (∀ l, lock_at s pk = Some l → lk_start_ts l ≠ ts) →
    txn_status T s pk ts RolledBack s.

(** [resolved T s k l ok s']: resolving lock [l] on [k] succeeds or finds the
    lock active, and leaves [s']. *)
Inductive resolved (T : Z → Prop) (s : Store) (k : bytes) (l : Lock) : bool → Store → Prop :=
| RS_forward c s1 : txn_status T s (lk_primary_key l) (lk_start_ts l) (Committed c) s1 →
    resolved T s k l true (commit_key k (lk_start_ts l) c (lk_op l) s1)
| RS_back s1 : txn_status T s (lk_primary_key l) (lk_start_ts l) RolledBack s1 →
    resolved T s k l true (rollback_key k (lk_start_ts l) s1)
| RS_expired ttl s1 now :
    txn_status T s (lk_primary_key l) (lk_start_ts l) (Locked ttl) s1 →
    T now → expired (lk_start_ts l) (lk_ttl l) now →
    resolved T s k l true (rollback_key k (lk_start_ts l) s1)
| RS_active ttl s1 now :
    txn_status T s (lk_primary_key l) (lk_start_ts l) (Locked ttl) s1 →
    T now → ¬ expired (lk_start_ts l) (lk_ttl l) now →
    resolved T s k l false s1.

(** Asking for a status changes nothing, or rolls the primary key back in
    place of the transaction's own lock. *)
Definition maybe_expire (s : Store) (pk : bytes) (ts : Z) (s' : Store) : Prop :=
  s' = s ∨ ∃ l, lock_at s pk = Some l ∧ lk_start_ts l = ts ∧ s' = rollback_key pk ts s.

(** Errors that only report an I/O failure. *)
Definition storage_io {FE : FjallErr} (e : StorageError) : Prop := ∃ x, e = StorageError_Fjall x.
Definition lre_io {FE : FjallErr} {A} (r : result LockResolverError A) : Prop :=
  (∃ e, r = Err (LRE_Fjall e)) ∨ (∃ e, r = Err (LRE_Storage e) ∧ storage_io e).

(** ** Proofs *)
Section ResolverSpec.
Context {FE : FjallErr} (F : Prop) (T : Z → Prop).

Lemma wp_commit_batch b Q s :
  Q (Ok tt) (apply_batch b s) →
  (F → ∀ e, storage_io e → Q (Err e) s ∧ Q (Err e) (apply_batch b s)) →
  wp F T (StorageEngine_commit_batch b) Q s.
Proof.
  intros H1 H2. simpl. split; [done|]. intros HF e.
  apply (H2 HF (StorageError_Fjall e)). by eexists.
Qed.

(** The status loop as a function of the versions. *)
Fixpoint find_txn (ts : Z) (vs : list (Z * bytes)) : option (Z * WriteRecord) :=
  match vs with
  | [] => None
  | (c, v) :: vs' =>
      match WriteRecord_from_bytes v with
      | Some r => if decide (wr_start_ts r = ts) then Some (c, r) else find_txn ts vs'
      | None => find_txn ts vs'
      end
  end.

Definition status_of (r : Z * WriteRecord) : TxnStatus :=
  if decide (wr_op r.2 = Rollback) then RolledBack else Committed r.1.

Lemma check_txn_status_loop_spec pk ts its l :
  yields F its l → (∀ e v, (e, v) ∈ l → (8 ≤ length e)%nat) →
  check_txn_status_loop pk ts its = Ok (status_of <$> find_txn ts (key_run pk l)) ∨
  F ∧ ∃ e, check_txn_status_loop pk ts its = Err (LRE_Fjall e).
Proof.
  intros Hy Hl. induction Hy as [|[e v] its l Hy IH|e its l HF].
  - by left.
  - cbn [check_txn_status_loop key_run]. destruct (KeyEncoder_decode e) as [[k' c]|[]] eqn:E.
    2:{ apply KeyEncoder_decode_err in E. specialize (Hl e v ltac:(by left)). lia. }
    case_decide; [|by left]. cbn [find_txn].
    destruct IH as [IH|IH]; [intros; eapply Hl; by right| |].
    + destruct (WriteRecord_from_bytes v) as [r|]; [|by left]. case_decide; [|by left].
      left. unfold status_of. simpl. by destruct (wr_op r).
    + destruct (WriteRecord_from_bytes v) as [r|]; [|by right]. case_decide; [|by right].
      left. unfold status_of. simpl. by destruct (wr_op r).
  - right. split; [done|]. by eexists.
Qed.

Lemma find_txn_Some ts vs c r :
  find_txn ts vs = Some (c, r) → StronglySorted newer vs →
  wr_start_ts r = ts ∧ (∃ v, (c, v) ∈ vs ∧ WriteRecord_from_bytes v = Some r) ∧
  ∀ c' v' r', (c', v') ∈ vs → WriteRecord_from_bytes v' = Some r' → wr_start_ts r' = ts → c' ≤ c.
Proof.
  intros Hf Hs. induction Hs as [|[c0 v0] vs Hs IH Hx]; simpl in Hf; [done|].
  destruct (WriteRecord_from_bytes v0) as [r0|] eqn:Hr0; [case_decide as D|].
  - simplify_eq. split_and!; [done|exists v0; split; [by left|done]|].
    intros c' v' r' [[= -> ->]|Hin]%elem_of_cons _ _; [done|].
    rewrite Forall_forall in Hx. apply Hx in Hin. unfold newer in Hin. simpl in Hin. lia.
  - destruct (IH Hf) as (H1 & (v & Hv & Hr) & H3). split_and!; [done|exists v; split; [by right|done]|].
    intros c' v' r' [[= -> ->]|Hin]%elem_of_cons Hr' Hts; [congruence|eauto].
  - destruct (IH Hf) as (H1 & (v & Hv & Hr) & H3). split_and!; [done|exists v; split; [by right|done]|].
    intros c' v' r' [[= -> ->]|Hin]%elem_of_cons Hr' Hts; [congruence|eauto].
Qed.

Lemma find_txn_None ts vs :
  find_txn ts vs = None →
  ∀ c v r, (c, v) ∈ vs → WriteRecord_from_bytes v = Some r → wr_start_ts r ≠ ts.
Proof.
  induction vs as [|[c0 v0] vs IH]; simpl; [set_solver|].
  intros Hf c v r [[= -> ->]|Hin]%elem_of_cons Hr.
  - rewrite Hr in Hf. by case_decide.
  - destruct (WriteRecord_from_bytes v0); [case_decide|]; try done; eauto.
Qed.

Lemma u64_MAX_u64 : u64 u64_MAX.
Proof. done. Qed.

Lemma find_txn_record s k ts :
  wf_store s → isolated s k →
  match find_txn ts (versions s k u64_MAX) with
  | Some (c, r) => txn_record s k ts c r
  | None => no_txn_record s k ts
  end.
Proof.
  intros Hwf Hiso.
  assert (∀ c, u64 c → c ≤ u64_MAX) as Hmax by (unfold u64, u64_MAX; lia).
  destruct (find_txn ts (versions s k u64_MAX)) as [[c r]|] eqn:E.
  - apply find_txn_Some in E as (H1 & (v & Hv & Hr) & H3); [|apply versions_sorted].
    pose proof Hv as (Hc & _ & _)%elem_of_versions; [|done..].
    split_and!; [done| |done|].
    + apply (write_at_versions s k u64_MAX); eauto using u64_MAX_u64.
    + intros c' r' Hc' Hw Hts.
      apply (write_at_versions s k u64_MAX) in Hw as (v' & ? & ?); eauto using u64_MAX_u64.
  - intros c r Hc Hw.
    apply (write_at_versions s k u64_MAX) in Hw as (v' & ? & ?); eauto using u64_MAX_u64.
    eapply find_txn_None; eauto.
Qed.

Lemma lre_io_fjall {A} e : @lre_io FE A (Err (LRE_Fjall e)).
Proof. left. by eexists. Qed.
Lemma lre_io_storage {A} e : storage_io e → @lre_io FE A (Err (LRE_Storage e)).
Proof. right. by eexists. Qed.
Hint Resolve lre_io_fjall lre_io_storage : core.

Lemma wp_check_txn_status s pk ts :
  wf_store s → isolated s pk →
  wp F T (LockResolver_check_txn_status pk ts)
    (λ r s', (∃ st, r = Ok st ∧ txn_status T s pk ts st s') ∨
             (F ∧ lre_io r ∧ maybe_expire s pk ts s')) s.
Proof.
  intros Hwf Hiso. unfold maybe_expire. apply wp_bind, wp_prange. intros its Hy.
  pose proof (find_txn_record s pk ts Hwf Hiso) as Hrec. unfold versions in Hrec.
  destruct (check_txn_status_loop_spec pk ts its _ Hy) as [->|[HF [e ->]]].
  { intros e v [He _]%elem_of_range_from. by apply (wf_write _ Hwf) in He as [? _]. }
  2:{ simpl. right. auto. }
  destruct (find_txn ts _) as [[c r]|].
  { simpl. left. unfold status_of. simpl. case_decide; eexists; (split; [done|]).
    - by eapply TS_rolled_back.
    - by eapply TS_committed. }
  cbn [fmap option_fmap option_map]. apply wp_try, wp_pget; [|intros HF e; right; auto].
  cbn [part]. destruct (s_lock s !! pk) as [v|] eqn:Hv.
  2:{ left. eexists. split; [done|]. apply TS_gone; [done|]. unfold lock_at. by rewrite Hv. }
  destruct (wf_lock _ Hwf _ _ Hv) as [l Hl]. rewrite Hl.
  assert (lock_at s pk = Some l) as Hat by (unfold lock_at; by rewrite Hv; simpl; rewrite Hl).
  case_decide as D.
  2:{ left. eexists. split; [done|]. apply TS_gone; [done|]. intros ? ?. by simplify_eq. }
  apply wp_bind, wp_now. intros t Ht HT. case_decide.
  - apply wp_try, wp_commit_batch.
    + simpl. left. eexists. split; [done|]. by eapply TS_expired.
    + intros HF e He. split; right; split_and!; eauto.
  - simpl. left. eexists. split; [done|]. by eapply TS_locked.
Qed.

Lemma rollback_key_wp k ts (Q : result LockResolverError unit → Store → Prop) s :
  Q (Ok tt) (rollback_key k ts s) →
  (F → ∀ e, lre_io e → Q e s ∧ Q e (rollback_key k ts s)) →
  wp F T (let? _ := StorageEngine_commit_batch
            [ins_write k ts (WriteRecord_new ts Rollback); rem_lock k] via LRE_Storage in
          Ret (Ok tt)) Q s.
Proof.
  intros H1 H2. apply wp_try, wp_commit_batch; [done|].
  intros HF e He. apply (H2 HF). auto.
Qed.

(** What an I/O failure during resolution can leave behind: the primary may
    have expired, and the key may have been rolled back or forward. *)
Definition resolve_partial (s : Store) (k : bytes) (l : Lock) (s' : Store) : Prop :=
  ∃ s1, maybe_expire s (lk_primary_key l) (lk_start_ts l) s1 ∧
    (s' = s1 ∨ s' = rollback_key k (lk_start_ts l) s1 ∨
     ∃ c, u64 c ∧ s' = commit_key k (lk_start_ts l) c (lk_op l) s1).

Lemma txn_status_store s pk ts st s' :
  txn_status T s pk ts st s' → maybe_expire s pk ts s'.
Proof. unfold maybe_expire. destruct 1; eauto. Qed.

Lemma txn_status_committed s pk ts c s' :
  txn_status T s pk ts (Committed c) s' →
  s' = s ∧ ∃ r, txn_record s pk ts c r ∧ wr_op r ≠ Rollback.
Proof. intros H. inv H. eauto. Qed.

Lemma wp_resolve_lock s k l :
  wf_store s → isolated s (lk_primary_key l) →
  wp F T (LockResolver_resolve_lock k l)
    (λ r s', (r = Ok tt ∧ resolved T s k l true s') ∨
             (r = Err LockActiveNotExpired ∧ resolved T s k l false s') ∨
             (F ∧ lre_io r ∧ resolve_partial s k l s')) s.
Proof.
  intros Hwf Hiso. apply wp_try. eapply wp_mono, wp_check_txn_status; [|done..].
  intros r s1 [(st & -> & Hst)|(HF & Hio & Hs1)].
  2:{ destruct Hio as [[e ->]|(e & -> & He)]; right; right; (split; [done|]);
        (split; [auto|]); exists s1; auto. }
  pose proof (txn_status_store _ _ _ _ _ Hst) as Hs1.
  destruct st as [c| |ttl].
  - apply wp_try, wp_commit_batch.
    + simpl. left. split; [done|]. by eapply RS_forward.
    + apply txn_status_committed in Hst as (-> & r & (Hc & _) & _). intros HF e He. unfold resolve_partial, commit_key.
      split; right; right; split_and!; eauto 10.
  - apply rollback_key_wp; [left; by split; [|eapply RS_back]|].
    intros HF e He. unfold resolve_partial. split; right; right; split_and!; eauto 10.
  - apply wp_bind, wp_now. intros t Ht HT. case_decide.
    + apply rollback_key_wp; [left; by split; [|eapply RS_expired]|].
      intros HF e He. unfold resolve_partial. split; right; right; split_and!; eauto 10.
    + simpl. right. left. split; [done|]. by eapply RS_active.
Qed.
End ResolverSpec.
