(* ===== verification/Coordinator.v ===== *)
(** * The transaction coordinator: [crates/txn-coordinator/src/coordinator.rs]

    Two-phase commit over the MVCC store: reads that resolve the locks in
    their way, prewrite, commit, rollback, heartbeat, range scan, and the
    batched variants the client's collector uses. *)

From stdpp Require Import base list gmap sorting strings.
From Stdlib Require Import ZArith Lia Strings.Byte.
From S2P Require Import Prelude Codec Engine Mvcc View Hlc Resolver.

Section Coordinator.
Context {FE : FjallErr}.

Inductive TxnError : Type :=
| TxnError_Storage (e : StorageError)
| TxnError_Fjall (e : fjall_Error)
| TxnError_Mvcc (e : MvccError)
| TxnError_LockResolver (e : LockResolverError)
| WriteConflict (key : bytes) (start_ts : Z)
| KeyLocked (key : bytes)
| TxnClosed
| TransactionRolledBack.

Inductive Mutation : Type :=
| Mutation_Put (key value : bytes)
| Mutation_Delete (key : bytes).

Definition Mutation_key (m : Mutation) : bytes :=
  match m with Mutation_Put key _ => key | Mutation_Delete key => key end.

Definition Mutation_op_type (m : Mutation) : OpType :=
  match m with Mutation_Put _ _ => Put | Mutation_Delete _ => Delete end.

(** [begin]: the clock's state is threaded through. *)
Definition Coordinator_begin (hlc : HlcInner) : prog (Z * HlcInner) :=
  HybridLogicalClock_now hlc.

Definition Coordinator_check_txn_status (primary_key : bytes) (start_ts : Z) :
    prog (result TxnError TxnStatus) :=
  let* r := LockResolver_check_txn_status primary_key start_ts in
  Ret (map_err TxnError_LockResolver r).

Definition Coordinator_heartbeat (primary_key : bytes) (start_ts new_ttl : Z) :
    prog (result TxnError Z) :=
  let? lock_bytes := pget PARTITION_LOCK primary_key via TxnError_Fjall in
  match lock_bytes with
  | Some lb =>
      match Lock_from_bytes lb with
      | Err _ => Ret (Err (TxnError_Mvcc CorruptedState))
      | Ok lock =>
          if decide (lk_start_ts lock = start_ts) then
            let lock := Lock_new (lk_primary_key lock) (lk_start_ts lock) new_ttl (lk_op lock) in
            let? _ := StorageEngine_commit_batch
              [BInsert PARTITION_LOCK primary_key (Lock_to_bytes lock)] via TxnError_Storage in
            Ret (Ok (lk_ttl lock))
          else Ret (Err TransactionRolledBack)
      end
  | None => Ret (Err TransactionRolledBack)
  end.

Definition Coordinator_get (user_key : bytes) (read_ts : Z) :
    prog (result TxnError (option bytes)) :=
  let* r := MvccReader_get user_key read_ts in
  match r with
  | Ok val => Ret (Ok val)
  | Err (KeyIsLocked primary_key lock_ts) =>
      let lock := Lock_new primary_key lock_ts 3000 Put in
      let* rr := LockResolver_resolve_lock user_key lock in
      match rr with
      | Ok _ =>
          let? v := MvccReader_get user_key read_ts via TxnError_Mvcc in Ret (Ok v)
      | Err _ => Ret (Err (KeyLocked user_key))
      end
  | Err e => Ret (Err (TxnError_Mvcc e))
  end.

(** The loop of [scan]; [results] is in order. *)
Fixpoint Coordinator_scan_loop (start_key end_key : bytes) (limit read_ts : Z)
    (items : list (result fjall_Error (bytes * bytes)))
    (last_seen_user_key : option bytes) (results : list (bytes * bytes)) :
    prog (result TxnError (list (bytes * bytes))) :=
  match items with
  | [] => Ret (Ok results)
  | Err e :: _ => Ret (Err (TxnError_Fjall e))
  | Ok (enc_key, _) :: rest =>
      match KeyEncoder_decode enc_key with
      | Err _ => Ret (Err (TxnError_Mvcc CorruptedState))
      | Ok (user_key, _) =>
          if decide (start_key ≠ [] ∧ bytes_lt user_key start_key) then
            Coordinator_scan_loop start_key end_key limit read_ts rest last_seen_user_key results
          else if decide (end_key ≠ [] ∧ bytes_le end_key user_key) then
            Ret (Ok results)
          else if decide (last_seen_user_key = Some user_key) then
            Coordinator_scan_loop start_key end_key limit read_ts rest last_seen_user_key results
          else
            let? value := Coordinator_get user_key read_ts via (λ e, e) in
            match value with
            | Some value =>
                let results := results ++ [(user_key, value)] in
                if decide (0 < limit ∧ limit ≤ Z.of_nat (length results)) then Ret (Ok results)
                else Coordinator_scan_loop start_key end_key limit read_ts rest
                       (Some user_key) results
            | None =>
                Coordinator_scan_loop start_key end_key limit read_ts rest
                  (Some user_key) results
            end
      end
  end.

Definition Coordinator_scan (start_key end_key : bytes) (limit read_ts : Z) :
    prog (result TxnError (list (bytes * bytes))) :=
  let seek_key := match start_key with [] => [] | _ => KeyEncoder_encode start_key read_ts end in
  let* items := prange PARTITION_WRITE seek_key in
  Coordinator_scan_loop start_key end_key limit read_ts items None [].

(** Step 1 of a prewrite, written out in both variants: the scan for write
    conflicts and permanent rollback records. *)
Fixpoint prewrite_check_loop (key : bytes) (start_ts : Z)
    (items : list (result fjall_Error (bytes * bytes))) : result TxnError unit :=
  match items with
  | [] => Ok tt
  | Err e :: _ => Err (TxnError_Fjall e)
  | Ok (enc_key, write_bytes) :: rest =>
      match KeyEncoder_decode enc_key with
      | Err _ => Err (TxnError_Mvcc CorruptedState)
      | Ok (curr_user_key, commit_ts) =>
          if decide (curr_user_key = key) then
            let conflict :=
              if decide (start_ts ≤ commit_ts) then Err (WriteConflict key start_ts)
              else prewrite_check_loop key start_ts rest in
            match WriteRecord_from_bytes write_bytes with
            | Some rec =>
                if decide (wr_start_ts rec = start_ts ∧ wr_op rec = Rollback)
                then Err TransactionRolledBack else conflict
            | None => conflict
            end
          else Ok tt
      end
  end.

Definition prewrite_check (key : bytes) (start_ts : Z) : prog (result TxnError unit) :=
  let* items := prange PARTITION_WRITE (KeyEncoder_encode key u64_MAX) in
  Ret (prewrite_check_loop key start_ts items).

(** Step 3: the value, if any, and the lock. *)
Definition prewrite_ops (start_ts : Z) (primary_key : bytes) (lock_ttl : Z) (m : Mutation) : Batch :=
  (match m with
   | Mutation_Put key value =>
       [BInsert PARTITION_DEFAULT (KeyEncoder_encode key start_ts) value]
   | Mutation_Delete _ => []
   end) ++
  [BInsert PARTITION_LOCK (Mutation_key m)
     (Lock_to_bytes (Lock_new primary_key start_ts lock_ttl (Mutation_op_type m)))].

(** Step 2 of [prewrite]: resolve another transaction's lock and look again. *)
Definition prewrite_unlock (key : bytes) (start_ts : Z) : prog (result TxnError unit) :=
  let? existing_lock := pget PARTITION_LOCK key via TxnError_Fjall in
  match existing_lock with
  | None => Ret (Ok tt)
  | Some existing_lock_bytes =>
      match Lock_from_bytes existing_lock_bytes with
      | Err _ => Ret (Err (TxnError_Mvcc CorruptedState))
      | Ok lock =>
          if decide (lk_start_ts lock ≠ start_ts) then
            let* r := LockResolver_resolve_lock key lock in
            if is_err r then Ret (Err (KeyLocked key))
            else
              let? still_locked := pget PARTITION_LOCK key via TxnError_Fjall in
              match still_locked with
              | None => Ret (Ok tt)
              | Some still_locked =>
                  match Lock_from_bytes still_locked with
                  | Err _ => Ret (Err (TxnError_Mvcc CorruptedState))
                  | Ok l => if decide (lk_start_ts l ≠ start_ts)
                            then Ret (Err (KeyLocked key)) else Ret (Ok tt)
                  end
              end
          else Ret (Ok tt)
      end
  end.

(** The loop of [prewrite]: one batch per mutation. *)
Fixpoint prewrite_loop (start_ts : Z) (primary_key : bytes) (lock_ttl : Z)
    (mutations : list Mutation) : prog (result TxnError unit) :=
  match mutations with
  | [] => Ret (Ok tt)
  | mutation :: rest =>
      let key := Mutation_key mutation in
      let? _ := prewrite_check key start_ts via (λ e, e) in
      let? _ := prewrite_unlock key start_ts via (λ e, e) in
      let? _ := StorageEngine_commit_batch
        (prewrite_ops start_ts primary_key lock_ttl mutation) via TxnError_Storage in
      prewrite_loop start_ts primary_key lock_ttl rest
  end.

Definition Coordinator_prewrite (start_ts : Z) (mutations : list Mutation)
    (primary_key : bytes) (lock_ttl : Z) : prog (result TxnError unit) :=
  match mutations with
  | [] => Ret (Ok tt)
  | _ => prewrite_loop start_ts primary_key lock_ttl mutations
  end.

(** Step 2 of [commit]: secondaries whose lock is gone or not ours are skipped. *)
Fixpoint commit_secondaries (start_ts commit_ts : Z) (keys : list bytes) :
    prog (result TxnError unit) :=
  match keys with
  | [] => Ret (Ok tt)
  | key :: rest =>
      let? lock_bytes := pget PARTITION_LOCK key via TxnError_Fjall in
      match lock_bytes with
      | Some lb =>
          match Lock_from_bytes lb with
          | Ok lock =>
              if decide (lk_start_ts lock = start_ts) then
                let? _ := StorageEngine_commit_batch
                  [BInsert PARTITION_WRITE (KeyEncoder_encode key commit_ts)
                     (WriteRecord_to_bytes (WriteRecord_new start_ts (lk_op lock)));
                   BRemove PARTITION_LOCK key] via TxnError_Storage in
                commit_secondaries start_ts commit_ts rest
              else commit_secondaries start_ts commit_ts rest
          | Err _ => commit_secondaries start_ts commit_ts rest
          end
      | None => commit_secondaries start_ts commit_ts rest
      end
  end.

Definition Coordinator_commit (start_ts commit_ts : Z) (keys : list bytes) :
    prog (result TxnError unit) :=
  match keys with
  | [] => Ret (Ok tt)
  | primary_key :: secondaries =>
      let? lock_bytes := pget PARTITION_LOCK primary_key via TxnError_Fjall in
      match lock_bytes with
      | Some lb =>
          match Lock_from_bytes lb with
          | Err _ => Ret (Err (TxnError_Mvcc CorruptedState))
          | Ok lock =>
              if decide (lk_start_ts lock = start_ts) then
                let? _ := StorageEngine_commit_batch
                  [BInsert PARTITION_WRITE (KeyEncoder_encode primary_key commit_ts)
                     (WriteRecord_to_bytes (WriteRecord_new start_ts (lk_op lock)));
                   BRemove PARTITION_LOCK primary_key] via TxnError_Storage in
                commit_secondaries start_ts commit_ts secondaries
              else Ret (Err TransactionRolledBack)
          end
      | None => Ret (Err TransactionRolledBack)
      end
  end.

Fixpoint Coordinator_rollback (start_ts : Z) (keys : list bytes) : prog (result TxnError unit) :=
  match keys with
  | [] => Ret (Ok tt)
  | key :: rest =>
      let? lock_bytes := pget PARTITION_LOCK key via TxnError_Fjall in
      let remove :=
        match lock_bytes with
        | Some lb =>
            match Lock_from_bytes lb with
            | Ok lock => if decide (lk_start_ts lock = start_ts)
                         then [BRemove PARTITION_LOCK key] else []
            | Err _ => []
            end
        | None => []
        end in
      let? _ := StorageEngine_commit_batch
        (remove ++ [BInsert PARTITION_WRITE (KeyEncoder_encode key start_ts)
                      (WriteRecord_to_bytes (WriteRecord_new start_ts Rollback))])
        via TxnError_Storage in
      Coordinator_rollback start_ts rest
  end.

(** Step 2 of [batch_prewrite]: resolve, without looking again. *)
Definition batch_prewrite_unlock (key : bytes) (start_ts : Z) : prog (result TxnError unit) :=
  let? existing_lock := pget PARTITION_LOCK key via TxnError_Fjall in
  match existing_lock with
  | None => Ret (Ok tt)
  | Some existing_lock_bytes =>
      match Lock_from_bytes existing_lock_bytes with
      | Err _ => Ret (Err (TxnError_Mvcc CorruptedState))
      | Ok lock =>
          if decide (lk_start_ts lock ≠ start_ts) then
            let* r := LockResolver_resolve_lock key lock in
            if is_err r then Ret (Err (KeyLocked key)) else Ret (Ok tt)
          else Ret (Ok tt)
      end
  end.

(** The loop of [batch_prewrite]: stages everything into one batch. *)
Fixpoint batch_prewrite_loop (start_ts : Z) (primary_key : bytes) (lock_ttl : Z)
    (mutations : list Mutation) (batch : Batch) : prog (result TxnError Batch) :=
  match mutations with
  | [] => Ret (Ok batch)
  | mutation :: rest =>
      let key := Mutation_key mutation in
      let? _ := prewrite_check key start_ts via (λ e, e) in
      let? _ := batch_prewrite_unlock key start_ts via (λ e, e) in
      batch_prewrite_loop start_ts primary_key lock_ttl rest
        (batch ++ prewrite_ops start_ts primary_key lock_ttl mutation)
  end.

Definition Coordinator_batch_prewrite (start_ts : Z) (mutations : list Mutation)
    (primary_key : bytes) (lock_ttl : Z) : prog (result TxnError unit) :=
  match mutations with
  | [] => Ret (Ok tt)
  | _ =>
      let? batch := batch_prewrite_loop start_ts primary_key lock_ttl mutations []
        via (λ e, e) in
      let? _ := StorageEngine_commit_batch batch via TxnError_Storage in
      Ret (Ok tt)
  end.

(** The loop of [batch_commit]. *)
Fixpoint batch_commit_loop (start_ts commit_ts : Z) (keys : list bytes) (batch : Batch) :
    prog (result TxnError Batch) :=
  match keys with
  | [] => Ret (Ok batch)
  | key :: rest =>
      let? lock_bytes := pget PARTITION_LOCK key via TxnError_Fjall in
      match lock_bytes with
      | Some lb =>
          match Lock_from_bytes lb with
          | Err _ => Ret (Err (TxnError_Mvcc CorruptedState))
          | Ok lock =>
              if decide (lk_start_ts lock = start_ts) then
                batch_commit_loop start_ts commit_ts rest
                  (batch ++
                   [BInsert PARTITION_WRITE (KeyEncoder_encode key commit_ts)
                      (WriteRecord_to_bytes (WriteRecord_new start_ts (lk_op lock)));
                    BRemove PARTITION_LOCK key])
              else batch_commit_loop start_ts commit_ts rest batch
          end
      | None => batch_commit_loop start_ts commit_ts rest batch
      end
  end.

Definition Coordinator_batch_commit (start_ts commit_ts : Z) (keys : list bytes) :
    prog (result TxnError unit) :=
  match keys with
  | [] => Ret (Ok tt)
  | _ =>
      let? batch := batch_commit_loop start_ts commit_ts keys [] via (λ e, e) in
      let? _ := StorageEngine_commit_batch batch via TxnError_Storage in
      Ret (Ok tt)
  end.
End Coordinator.
