(* ===== verification/CoordSpec.v ===== *)
(** * What each coordinator operation does

    For every operation of [Coordinator.v], the possible results and the store
    it leaves, over any engine that obeys the Fjall laws and any prefix-free
    key set.  The statements are weakest preconditions; the transaction-level
    theorems in [Txn.v] run them. *)

From stdpp Require Import base list gmap sorting strings.
From Stdlib Require Import ZArith Lia Strings.Byte.
From S2P Require Import Prelude Codec Engine Mvcc View Hlc Resolver Coordinator.

(** ** Specification *)

(** Nothing at or after [ts] was written to [k], and [ts] was not rolled back
    there. *)
Definition no_conflict (s : Store) (k : bytes) (ts : Z) : Prop :=
  ∀ c r, u64 c → write_at s k c = Some r →
    c < ts ∧ ¬ (wr_start_ts r = ts ∧ wr_op r = Rollback).

(** A version of [k] committed at or after [ts]. *)
Definition newer_version (s : Store) (k : bytes) (ts : Z) : Prop :=
  ∃ c r, u64 c ∧ write_at s k c = Some r ∧ ts ≤ c.

(** A permanent rollback record of [ts] on [k]. *)
Definition rolled_back (s : Store) (k : bytes) (ts : Z) : Prop :=
  ∃ c r, u64 c ∧ write_at s k c = Some r ∧ wr_start_ts r = ts ∧ wr_op r = Rollback.

(** [k] carries no lock of another transaction. *)
Definition free_for (s : Store) (k : bytes) (ts : Z) : Prop :=
  ∀ l, lock_at s k = Some l → lk_start_ts l = ts.

(** Clearing [k] for transaction [ts]: nothing to do, or another transaction's
    lock resolved. *)
Definition cleared (T : Z → Prop) (s : Store) (k : bytes) (ts : Z) (s' : Store) : Prop :=
  (free_for s k ts ∧ s' = s) ∨
  ∃ l, lock_at s k = Some l ∧ lk_start_ts l ≠ ts ∧ resolved T s k l true s'.

(** A successful prewrite, mutation by mutation. *)
Inductive prewritten (T : Z → Prop) (ts : Z) (pk : bytes) (ttl : Z) :
    list Mutation → Store → Store → Prop :=
| PW_nil s : prewritten T ts pk ttl [] s s
| PW_cons m ms s s1 s2 :
    no_conflict s (Mutation_key m) ts →
    cleared T s (Mutation_key m) ts s1 →
    prewritten T ts pk ttl ms (apply_batch (prewrite_ops ts pk ttl m) s1) s2 →
    prewritten T ts pk ttl (m :: ms) s s2.

(** The checks of a batched prewrite: every key cleared, nothing written yet. *)
Inductive checked (T : Z → Prop) (ts : Z) : list Mutation → Store → Store → Prop :=
| CK_nil s : checked T ts [] s s
| CK_cons m ms s s1 s2 :
    no_conflict s (Mutation_key m) ts →
    cleared T s (Mutation_key m) ts s1 →
    checked T ts ms s1 s2 →
    checked T ts (m :: ms) s s2.

(** The arguments of a prewrite that the code can store. *)
Definition prewrite_args (K : bytes → Prop) (ts : Z) (pk : bytes) (ttl : Z) (ms : list Mutation) : Prop :=
  u64 ts ∧ u64 ttl ∧ u32 (Z.of_nat (length pk)) ∧ K pk ∧ Forall (λ m, K (Mutation_key m)) ms.

(** [s'] differs from [s] only in what belongs to transactions other than
    [ts]: values are kept, no lock appears, and [ts] keeps its locks. *)
Definition foreign_only (ts : Z) (s s' : Store) : Prop :=
  s_default s' = s_default s ∧
  (∀ k l, lock_at s' k = Some l → lock_at s k = Some l) ∧
  (∀ k l, lock_at s k = Some l → lk_start_ts l = ts → lock_at s' k = Some l).

(** Committing one key: nothing happens unless the transaction holds it. *)
Definition commit_one (ts c : Z) (k : bytes) (s : Store) : Store :=
  match lock_at s k with
  | Some l => if decide (lk_start_ts l = ts) then commit_key k ts c (lk_op l) s else s
  | None => s
  end.

(** The transaction holds the lock on [k]. *)
Definition holds (s : Store) (k : bytes) (ts : Z) : Prop :=
  ∃ l, lock_at s k = Some l ∧ lk_start_ts l = ts.

Fixpoint commit_all (ts c : Z) (ks : list bytes) (s : Store) : Store :=
  match ks with
  | [] => s
  | k :: ks' => commit_all ts c ks' (commit_one ts c k s)
  end.

(** Rolling back one key. *)
Definition rollback_one (ts : Z) (k : bytes) (s : Store) : Store :=
  match lock_at s k with
  | Some l => if decide (lk_start_ts l = ts)
              then apply_batch [rem_lock k; ins_write k ts (WriteRecord_new ts Rollback)] s
              else apply_op (ins_write k ts (WriteRecord_new ts Rollback)) s
  | None => apply_op (ins_write k ts (WriteRecord_new ts Rollback)) s
  end.

Fixpoint rollback_all (ts : Z) (ks : list bytes) (s : Store) : Store :=
  match ks with
  | [] => s
  | k :: ks' => rollback_all ts ks' (rollback_one ts k s)
  end.

(** What [batch_commit] stages for one key. *)
Definition commit_ops (ts c : Z) (s : Store) (k : bytes) : Batch :=
  match lock_at s k with
  | Some l => if decide (lk_start_ts l = ts)
              then [ins_write k c (WriteRecord_new ts (lk_op l)); rem_lock k] else []
  | None => []
  end.

(** The lock a reader passes to the resolver: it knows the primary key and the
    start timestamp, and makes up the rest. *)
Definition reader_lock (l : Lock) : Lock :=
  Lock_new (lk_primary_key l) (lk_start_ts l) 3000 Put.

(** What a read through the coordinator returns and leaves: the snapshot when
    no lock is in the way; otherwise the lock is resolved and the snapshot of
    the resolved store is read, unless the lock is active. *)
Inductive coord_read {FE : FjallErr} (T : Z → Prop) (s : Store) (k : bytes) (ts : Z) :
    result TxnError (option bytes) → Store → Prop :=
| CR_clear rr : unlocked_at s k ts → snapshot_read s k ts rr →
    coord_read T s k ts (map_err TxnError_Mvcc rr) s
| CR_resolved l rr s' : lock_at s k = Some l → lk_start_ts l ≤ ts →
    resolved T s k (reader_lock l) true s' → snapshot_read s' k ts rr →
    coord_read T s k ts (map_err TxnError_Mvcc rr) s'
| CR_blocked l s' : lock_at s k = Some l → lk_start_ts l ≤ ts →
    resolved T s k (reader_lock l) false s' →
    coord_read T s k ts (Err (KeyLocked k)) s'.

Definition txn_io {FE : FjallErr} {A} (r : result TxnError A) : Prop :=
  (∃ e, r = Err (TxnError_Fjall e)) ∨ (∃ e, r = Err (TxnError_Storage e) ∧ storage_io e) ∨
  (∃ e, r = Err (TxnError_Mvcc (MvccError_Fjall e))).

(** ** Lemmas *)
Lemma commit_key_lock ts c op k s k' :
  lock_at (commit_key k ts c op s) k' = if decide (k' = k) then None else lock_at s k'.
Proof. unfold commit_key. by view_simpl. Qed.

Lemma rollback_key_lock k ts s k' :
  lock_at (rollback_key k ts s) k' = if decide (k' = k) then None else lock_at s k'.
Proof. unfold rollback_key. by view_simpl. Qed.

Lemma inv_rollback_key K s k ts : inv K s → K k → u64 ts → inv K (rollback_key k ts s).
Proof. intros. unfold rollback_key. cbn [apply_batch]. by apply inv_rem_lock, inv_ins_write. Qed.

Lemma inv_commit_key K s k ts c op :
  inv K s → K k → u64 ts → u64 c → inv K (commit_key k ts c op s).
Proof. intros. unfold commit_key. cbn [apply_batch]. by apply inv_rem_lock, inv_ins_write. Qed.

Lemma inv_maybe_expire K s pk ts s' :
  inv K s → K pk → u64 ts → maybe_expire s pk ts s' → inv K s'.
Proof. intros Hi Hk Hts [->|(l & _ & _ & ->)]; [done|by apply inv_rollback_key]. Qed.

#[export] Instance foreign_only_preorder ts : PreOrder (foreign_only ts).
Proof.
  split; [by intros s|]. intros s1 s2 s3 (H1 & H2 & H3) (H1' & H2' & H3').
  split_and!; [congruence|eauto|eauto].
Qed.

Lemma foreign_only_maybe_expire ts s pk ts' s' :
  maybe_expire s pk ts' s' → ts' ≠ ts → foreign_only ts s s'.
Proof.
  intros [->|(l & Hl & <- & ->)] Hne; [done|]. split_and!; [done|..]; intros k l'.
  - rewrite rollback_key_lock. by case_decide.
  - rewrite rollback_key_lock. intros Hl' ?. case_decide; [congruence|done].
Qed.

Lemma foreign_only_rollback_key ts k ts' s :
  (∀ l, lock_at s k = Some l → lk_start_ts l ≠ ts) → foreign_only ts s (rollback_key k ts' s).
Proof.
  intros Hk. split_and!; [done|..]; intros k' l'; rewrite rollback_key_lock; case_decide;
    try done. intros ??. subst. by destruct (Hk l').
Qed.

Lemma foreign_only_commit_key ts k ts' c op s :
  (∀ l, lock_at s k = Some l → lk_start_ts l ≠ ts) → foreign_only ts s (commit_key k ts' c op s).
Proof.
  intros Hk. split_and!; [done|..]; intros k' l'; rewrite commit_key_lock; case_decide;
    try done. intros ??. subst. by destruct (Hk l').
Qed.

Lemma resolve_partial_foreign ts s k l s' :
  lock_at s k = Some l → lk_start_ts l ≠ ts → resolve_partial s k l s' → foreign_only ts s s'.
Proof.
  intros Hl Hne (s1 & He & H).
  pose proof (foreign_only_maybe_expire _ _ _ _ _ He Hne) as Hf.
  assert (∀ l', lock_at s1 k = Some l' → lk_start_ts l' ≠ ts) as Hk.
  { intros l' Hl'. apply Hf in Hl'. congruence. }
  etrans; [done|]. destruct H as [->|[->|(c & _ & ->)]];
    [done|by apply foreign_only_rollback_key|by apply foreign_only_commit_key].
Qed.

Lemma resolved_partial T s k l ok s' : resolved T s k l ok s' → resolve_partial s k l s'.
Proof.
  intros [c s1 Hst|s1 Hst|ttl s1 now Hst ? ?|ttl s1 now Hst ? ?]; exists s1;
    (split; [by eapply txn_status_store|auto]).
  apply txn_status_committed in Hst as (-> & r & (Hc & _) & _). eauto.
Qed.

Lemma resolved_unlocks T s k l s' : resolved T s k l true s' → lock_at s' k = None.
Proof.
  intros H. inv H; rewrite ?commit_key_lock, ?rollback_key_lock; by rewrite decide_True.
Qed.

Lemma resolve_partial_inv' K s k l s' :
  inv K s → K k → K (lk_primary_key l) → u64 (lk_start_ts l) →
  resolve_partial s k l s' → inv K s'.
Proof.
  intros Hi Hk Hp Hts (s1 & He & H). assert (inv K s1) as Hi1 by eauto using inv_maybe_expire.
  destruct H as [->|[->|(c & Hc & ->)]]; auto using inv_rollback_key, inv_commit_key.
Qed.

Lemma resolve_partial_inv K s k l s' :
  inv K s → lock_at s k = Some l → resolve_partial s k l s' → inv K s'.
Proof.
  intros Hi Hl. pose proof (inv_lock_keys _ _ Hi _ _ Hl) as [Hk Hp].
  apply wf_lock_val_lock_at in Hl as (Hts & _). by eapply resolve_partial_inv'.
Qed.

Lemma cleared_foreign T s k ts s' : cleared T s k ts s' → foreign_only ts s s'.
Proof.
  intros [[_ ->]|(l & Hl & Hne & Hr)]; [done|].
  eauto using resolve_partial_foreign, resolved_partial.
Qed.

Lemma cleared_inv T K s k ts s' : inv K s → cleared T s k ts s' → inv K s'.
Proof.
  intros Hi [[_ ->]|(l & Hl & Hne & Hr)]; [done|].
  eauto using resolve_partial_inv, resolved_partial.
Qed.

Lemma cleared_free T s k ts s' : cleared T s k ts s' → free_for s' k ts.
Proof.
  intros [[? ->]|(l & Hl & Hne & Hr)]; [done|].
  apply resolved_unlocks in Hr. intros l'. by rewrite Hr.
Qed.

Section Wp.
Context {FE : FjallErr} (F : Prop) (T : Z → Prop) (K : bytes → Prop) (HK : prefix_free K).

Lemma txn_io_fjall {A} e : @txn_io FE A (Err (TxnError_Fjall e)).
Proof. left. by eexists. Qed.
Lemma txn_io_storage {A} e : storage_io e → @txn_io FE A (Err (TxnError_Storage e)).
Proof. right. left. by eexists. Qed.
Lemma txn_io_mvcc {A} e : @txn_io FE A (Err (TxnError_Mvcc (MvccError_Fjall e))).
Proof. right. right. by eexists. Qed.
Hint Resolve txn_io_fjall txn_io_storage txn_io_mvcc : core.

Lemma txn_io_err {A} (r : result TxnError A) : txn_io r → ∃ e, r = Err e.
Proof. intros [[? ->]|[(? & -> & _)|[? ->]]]; eauto. Qed.

(** *** The conflict check *)
Fixpoint check_versions (k : bytes) (ts : Z) (vs : list (Z * bytes)) : result TxnError unit :=
  match vs with
  | [] => Ok tt
  | (c, v) :: vs' =>
      match WriteRecord_from_bytes v with
      | Some r =>
          if decide (wr_start_ts r = ts ∧ wr_op r = Rollback) then Err TransactionRolledBack
          else if decide (ts ≤ c) then Err (WriteConflict k ts) else check_versions k ts vs'
      | None => if decide (ts ≤ c) then Err (WriteConflict k ts) else check_versions k ts vs'
      end
  end.

Lemma prewrite_check_loop_spec k ts its l :
  yields F its l → (∀ e v, (e, v) ∈ l → (8 ≤ length e)%nat) →
  prewrite_check_loop k ts its = check_versions k ts (key_run k l) ∨
  F ∧ ∃ e, prewrite_check_loop k ts its = Err (TxnError_Fjall e).
Proof.
  intros Hy Hl. induction Hy as [|[e v] its l Hy IH|e its l HF].
  - by left.
  - cbn [prewrite_check_loop key_run]. destruct (KeyEncoder_decode e) as [[k' c]|[]] eqn:E.
    2:{ apply KeyEncoder_decode_err in E. specialize (Hl e v ltac:(by left)). lia. }
    case_decide; [|by left]. cbn [check_versions].
    destruct IH as [->|[HF IH]]; [intros; eapply Hl; by right|by left|].
    destruct (WriteRecord_from_bytes v); repeat case_decide; auto.
  - right. split; [done|]. by eexists.
Qed.

Lemma check_versions_spec k ts vs :
  (∀ c v, (c, v) ∈ vs → is_Some (WriteRecord_from_bytes v)) →
  match check_versions k ts vs with
  | Ok _ => ∀ c v r, (c, v) ∈ vs → WriteRecord_from_bytes v = Some r →
      c < ts ∧ ¬ (wr_start_ts r = ts ∧ wr_op r = Rollback)
  | Err TransactionRolledBack =>
      ∃ c v r, (c, v) ∈ vs ∧ WriteRecord_from_bytes v = Some r ∧
        wr_start_ts r = ts ∧ wr_op r = Rollback
  | Err (WriteConflict k' ts') => k' = k ∧ ts' = ts ∧
      ∃ c v r, (c, v) ∈ vs ∧ WriteRecord_from_bytes v = Some r ∧ ts ≤ c
  | Err _ => False
  end.
Proof.
  induction vs as [|[c v] vs IH]; intros Hdec; simpl.
  { intros c v r H. by apply elem_of_nil in H. }
  destruct (Hdec c v) as [r Hr]; [by left|]. rewrite Hr.
  case_decide as D1; [by exists c, v, r; split; [left|]|].
  case_decide as D2; [split_and!; try done; by exists c, v, r; split; [left|]|].
  specialize (IH ltac:(intros; eapply Hdec; by right)).
  destruct (check_versions k ts vs) as [[]|[]]; try done.
  - intros c' v' r' [[= -> ->]|Hin]%elem_of_cons Hr'; [|eauto].
    simplify_eq. split; [lia|done].
  - destruct IH as (-> & -> & c' & v' & r' & ? & ?). split_and!; try done.
    exists c', v', r'. split; [by right|done].
  - destruct IH as (c' & v' & r' & ? & ?). exists c', v', r'. split; [by right|done].
Qed.

Definition check_outcome (s : Store) (k : bytes) (ts : Z) (r : result TxnError unit) : Prop :=
  (r = Ok tt ∧ no_conflict s k ts) ∨
  (r = Err TransactionRolledBack ∧ rolled_back s k ts) ∨
  (r = Err (WriteConflict k ts) ∧ newer_version s k ts).

Lemma check_versions_outcome s k ts :
  wf_store s → isolated s k →
  check_outcome s k ts (check_versions k ts (versions s k u64_MAX)).
Proof.
  intros Hwf Hiso. pose proof u64_MAX_u64 as Hm.
  assert (∀ c, u64 c → c ≤ u64_MAX) as Hmax by (unfold u64, u64_MAX; lia).
  assert (∀ c v, (c, v) ∈ versions s k u64_MAX →
    u64 c ∧ write_at s k c = WriteRecord_from_bytes v ∧ is_Some (WriteRecord_from_bytes v)) as Hv.
  { intros c v (Hc & _ & Hw)%elem_of_versions; [|done..].
    split_and!; [done|unfold write_at; by rewrite Hw|by apply (wf_write _ Hwf) in Hw as [_ ?]]. }
  pose proof (check_versions_spec k ts (versions s k u64_MAX)) as Hs.
  specialize (Hs ltac:(intros c v Hcv; by apply Hv in Hcv as (_ & _ & ?))).
  unfold check_outcome. destruct (check_versions k ts (versions s k u64_MAX)) as [[]|[]]; try done.
  - left. split; [done|]. intros c r Hc Hw.
    apply (write_at_versions s k u64_MAX) in Hw as (v & Hin & Hr); eauto.
  - destruct Hs as (-> & -> & c & v & r & Hin & Hr & Hle). right. right. split; [done|].
    destruct (Hv _ _ Hin) as (Hc & Hw & _). exists c, r. split_and!; [done|by rewrite Hw|done].
  - destruct Hs as (c & v & r & Hin & Hr & Hts). right. left. split; [done|].
    destruct (Hv _ _ Hin) as (Hc & Hw & _). exists c, r. split_and!; [done|by rewrite Hw|apply Hts..].
Qed.

Lemma wp_prewrite_check s k ts :
  inv K s → K k →
  wp F T (prewrite_check k ts)
    (λ r s', s' = s ∧ (check_outcome s k ts r ∨ F ∧ txn_io r)) s.
Proof.
  intros Hi Hk. pose proof (inv_wf _ _ Hi) as Hwf.
  pose proof (inv_isolated _ _ _ HK Hi Hk) as Hiso.
  apply wp_bind, wp_prange. intros its Hy. apply wp_ret. split; [done|].
  destruct (prewrite_check_loop_spec k ts its _ Hy) as [->|[HF [e ->]]]; [| |right; auto].
  - intros e v [He _]%elem_of_range_from. by apply (wf_write _ Hwf) in He as [? _].
  - left. by apply check_versions_outcome.
Qed.

(** *** Clearing a key *)
Lemma lock_bytes_at s k v :
  inv K s → s_lock s !! k = Some v → ∃ l, Lock_from_bytes v = Ok l ∧ lock_at s k = Some l.
Proof.
  intros Hi Hv. destruct (wf_lock _ (inv_wf _ _ Hi) _ _ Hv) as [l Hl].
  exists l. split; [done|]. unfold lock_at. rewrite Hv. simpl. by rewrite Hl.
Qed.

Lemma lock_none_at s k : s_lock s !! k = None → lock_at s k = None.
Proof. unfold lock_at. by intros ->. Qed.

Lemma lock_at_none_bytes s k : inv K s → lock_at s k = None → s_lock s !! k = None.
Proof.
  intros Hi Hl. destruct (s_lock s !! k) as [v|] eqn:E; [|done].
  by destruct (lock_bytes_at _ _ _ Hi E) as (l & _ & ?); simplify_eq.
Qed.

(** A failure to clear: the lock in the way is active, or the engine failed;
    only other transactions are affected. *)
Definition clear_failed (s : Store) (k : bytes) (ts : Z) (r : result TxnError unit) (s' : Store) : Prop :=
  foreign_only ts s s' ∧ inv K s' ∧
  ((r = Err (KeyLocked k) ∧
    ∃ l, lock_at s k = Some l ∧ lk_start_ts l ≠ ts ∧ (resolved T s k l false s' ∨ F)) ∨
   F ∧ txn_io r).

Lemma clear_failed_err s k ts r s' : clear_failed s k ts r s' → ∃ e, r = Err e.
Proof. intros (_ & _ & [[-> _]|(_ & ?%txn_io_err)]); eauto. Qed.

Lemma wp_resolve_foreign s k l ts (Q : result LockResolverError unit → Store → Prop) :
  inv K s → lock_at s k = Some l → lk_start_ts l ≠ ts →
  (∀ s', cleared T s k ts s' → inv K s' → lock_at s' k = None → Q (Ok tt) s') →
  (∀ e s', clear_failed s k ts (Err (KeyLocked k)) s' → Q (Err e) s') →
  wp F T (LockResolver_resolve_lock k l) Q s.
Proof.
  intros Hi Hl Hne H1 H2.
  pose proof (inv_lock_keys _ _ Hi _ _ Hl) as [Hk Hp].
  eapply wp_mono, wp_resolve_lock; [|apply (inv_wf _ _ Hi)|by eapply inv_isolated].
  intros r s' [(-> & Hr)|[(-> & Hr)|(HF & Hio & Hr)]].
  - assert (cleared T s k ts s') as Hc by (right; eauto).
    apply H1; [done|by eapply cleared_inv|by eapply resolved_unlocks].
  - pose proof (resolved_partial _ _ _ _ _ _ Hr) as Hp'.
    apply H2. split_and!; eauto using resolve_partial_foreign, resolve_partial_inv. eauto 10.
  - assert (clear_failed s k ts (Err (KeyLocked k)) s') as Hcf.
    { split_and!; eauto using resolve_partial_foreign, resolve_partial_inv. eauto 10. }
    destruct Hio as [[e ->]|(e & -> & _)]; auto.
Qed.

Lemma wp_batch_prewrite_unlock s k ts :
  inv K s →
  wp F T (batch_prewrite_unlock k ts)
    (λ r s', (r = Ok tt ∧ cleared T s k ts s' ∧ inv K s') ∨ clear_failed s k ts r s') s.
Proof.
  intros Hi. apply wp_try, wp_pget.
  2:{ intros HF e. right. split_and!; [done|done|]. eauto. }
  cbn [part]. destruct (s_lock s !! k) as [v|] eqn:Hv.
  2:{ apply wp_ret. left. split_and!; [done| |done]. left. split; [|done].
      intros l Hl. by rewrite (lock_none_at _ _ Hv) in Hl. }
  destruct (lock_bytes_at _ _ _ Hi Hv) as (l & -> & Hl). case_decide as D.
  - apply wp_bind, (wp_resolve_foreign s k l ts); try done.
    + intros s' Hc Hi' _. apply wp_ret. auto.
    + intros e s' Hcf. apply wp_ret. auto.
  - apply wp_ret. left. split_and!; [done| |done]. left. split; [|done].
    intros l' Hl'. rewrite Hl in Hl'. by injection Hl' as <-.
Qed.

Lemma wp_prewrite_unlock s k ts :
  inv K s →
  wp F T (prewrite_unlock k ts)
    (λ r s', (r = Ok tt ∧ cleared T s k ts s' ∧ inv K s') ∨ clear_failed s k ts r s') s.
Proof.
  intros Hi. apply wp_try, wp_pget.
  2:{ intros HF e. right. split_and!; [done|done|]. eauto. }
  cbn [part]. destruct (s_lock s !! k) as [v|] eqn:Hv.
  2:{ apply wp_ret. left. split_and!; [done| |done]. left. split; [|done].
      intros l Hl. by rewrite (lock_none_at _ _ Hv) in Hl. }
  destruct (lock_bytes_at _ _ _ Hi Hv) as (l & -> & Hl). case_decide as D.
  - apply wp_bind, (wp_resolve_foreign s k l ts); try done.
    + intros s' Hc Hi' Hn. cbn [is_err]. apply wp_try, wp_pget.
      * cbn [part]. rewrite (lock_at_none_bytes s' k Hi' Hn). apply wp_ret. auto.
      * intros HF e. right. split_and!; [by eapply cleared_foreign|done|]. eauto.
    + intros e s' Hcf. apply wp_ret. auto.
  - apply wp_ret. left. split_and!; [done| |done]. left. split; [|done].
    intros l' Hl'. rewrite Hl in Hl'. by injection Hl' as <-.
Qed.

(** *** Prewrite *)
Lemma inv_prewrite_ops s ts pk ttl m :
  inv K s → u64 ts → u64 ttl → u32 (Z.of_nat (length pk)) → K pk → K (Mutation_key m) →
  inv K (apply_batch (prewrite_ops ts pk ttl m) s).
Proof.
  intros. assert (wf_lock_val (Lock_new pk ts ttl (Mutation_op_type m)))
    by (by split_and!; destruct m).
  destruct m; cbn [prewrite_ops app apply_batch Mutation_key Mutation_op_type] in *;
    apply inv_ins_lock; try done; by apply inv_ins_data.
Qed.

(** Why a mutation was refused, and what was left in the store. *)
Definition prewrite_error (ts : Z) (s : Store) (m : Mutation) (r : result TxnError unit) (s' : Store) : Prop :=
  let k := Mutation_key m in
  (r = Err TransactionRolledBack ∧ rolled_back s k ts ∧ s' = s) ∨
  (r = Err (WriteConflict k ts) ∧ newer_version s k ts ∧ s' = s) ∨
  clear_failed s k ts r s' ∨ (F ∧ txn_io r).

Lemma wp_prewrite_loop ts pk ttl ms s :
  inv K s → prewrite_args K ts pk ttl ms →
  wp F T (prewrite_loop ts pk ttl ms)
    (λ r s', inv K s' ∧
       ((r = Ok tt ∧ prewritten T ts pk ttl ms s s') ∨
        ∃ ms1 m ms2 s1, ms = ms1 ++ m :: ms2 ∧ prewritten T ts pk ttl ms1 s s1 ∧
          prewrite_error ts s1 m r s')) s.
Proof.
  intros Hi (Hts & Httl & Hpl & Hpk & Hms). revert s Hi.
  induction Hms as [|m ms Hm Hms IH]; intros s Hi; cbn [prewrite_loop].
  { apply wp_ret. split; [done|]. left. split; [done|constructor]. }
  assert (∀ r s', inv K s' → prewrite_error ts s m r s' → inv K s' ∧
    (r = Ok tt ∧ prewritten T ts pk ttl (m :: ms) s s' ∨
     ∃ ms1 m' ms2 s1, m :: ms = ms1 ++ m' :: ms2 ∧ prewritten T ts pk ttl ms1 s s1 ∧
       prewrite_error ts s1 m' r s')) as Herr.
  { intros r s' ??. split; [done|]. right. exists [], m, ms, s. split_and!; try done. constructor. }
  apply wp_try. eapply wp_mono, wp_prewrite_check; [|done..].
  intros r ? [-> [[(-> & Hnc)|[(-> & Hrb)|(-> & Hnv)]]|(HF & Hio)]].
  2:{ apply Herr; [done|]. left. auto. }
  2:{ apply Herr; [done|]. right. left. auto. }
  2:{ destruct (txn_io_err _ Hio) as [e ->]. apply Herr; [done|]. right. right. right. auto. }
  apply wp_try. eapply wp_mono, wp_prewrite_unlock; [|done].
  intros r s1 [(-> & Hc & Hi1)|Hcf].
  2:{ destruct (clear_failed_err _ _ _ _ _ Hcf) as [e ->].
      apply Herr; [apply Hcf|]. right. right. auto. }
  pose proof (inv_prewrite_ops s1 ts pk ttl m Hi1 Hts Httl Hpl Hpk Hm) as Hi2.
  apply wp_try, wp_commit_batch.
  - eapply wp_mono, (IH _ Hi2). intros r s' [Hi' [(-> & Hpw)|(ms1 & m' & ms2 & s2 & -> & Hpw & He)]].
    + split; [done|]. left. split; [done|]. by eapply PW_cons.
    + split; [done|]. right. exists (m :: ms1), m', ms2, s2. split_and!; try done.
      by eapply PW_cons.
  - intros HF e He. split; (apply Herr; [done|]); right; right; right; auto.
Qed.

Lemma wp_batch_prewrite_loop ts pk ttl ms s b :
  inv K s → prewrite_args K ts pk ttl ms →
  wp F T (batch_prewrite_loop ts pk ttl ms b)
    (λ r s', inv K s' ∧
       ((r = Ok (b ++ (ms ≫= prewrite_ops ts pk ttl)) ∧ checked T ts ms s s') ∨
        (∃ e, r = Err e) ∧ foreign_only ts s s')) s.
Proof.
  intros Hi (Hts & Httl & Hpl & Hpk & Hms). revert s b Hi.
  induction Hms as [|m ms Hm Hms IH]; intros s b Hi; cbn [batch_prewrite_loop].
  { apply wp_ret. split; [done|]. left. split; [|constructor]. csimpl. by rewrite app_nil_r. }
  apply wp_try. eapply wp_mono, wp_prewrite_check; [|done..].
  intros r ? [-> [[(-> & Hnc)|[(-> & Hrb)|(-> & Hnv)]]|(HF & Hio)]].
  2:{ split; [done|]. right. split; [by eexists|done]. }
  2:{ split; [done|]. right. split; [by eexists|done]. }
  2:{ destruct (txn_io_err _ Hio) as [e ->]. split; [done|]. right. split; [by eexists|done]. }
  apply wp_try. eapply wp_mono, wp_batch_prewrite_unlock; [|done].
  intros r s1 [(-> & Hc & Hi1)|Hcf].
  2:{ destruct (clear_failed_err _ _ _ _ _ Hcf) as [e ->], Hcf as (? & ? & _).
      split; [done|]. right. split; [by eexists|done]. }
  eapply wp_mono, IH; [|done]. intros r s' [Hi' [(-> & Hck)|(He & Hf)]]; (split; [done|]).
  - left. split; [|by eapply CK_cons]. csimpl. by rewrite <-app_assoc.
  - right. split; [done|]. etrans; [by eapply cleared_foreign|done].
Qed.

(** *** Commit, rollback, heartbeat *)
Lemma inv_commit_one s ts c k :
  inv K s → u64 ts → u64 c → inv K (commit_one ts c k s).
Proof.
  intros Hi ??. unfold commit_one. destruct (lock_at s k) as [l|] eqn:Hl; [|done].
  apply (inv_lock_keys _ _ Hi) in Hl as [??]. case_decide; auto using inv_commit_key.
Qed.

Lemma inv_rollback_one s ts k : inv K s → u64 ts → K k → inv K (rollback_one ts k s).
Proof.
  intros Hi ??. unfold rollback_one. repeat case_match; cbn [apply_batch];
    auto using inv_ins_write, inv_rem_lock.
Qed.

Lemma wp_commit_secondaries ts c ks s :
  inv K s → u64 ts → u64 c →
  wp F T (commit_secondaries ts c ks)
    (λ r s', inv K s' ∧ ((r = Ok tt ∧ s' = commit_all ts c ks s) ∨
       (F ∧ txn_io r ∧ ∃ n, s' = commit_all ts c (take n ks) s))) s.
Proof.
  intros Hi Hts Hc. revert s Hi. induction ks as [|k ks IH]; intros s Hi; cbn [commit_secondaries].
  { apply wp_ret. auto. }
  assert (wp F T (commit_secondaries ts c ks) (λ r s', inv K s' ∧
    ((r = Ok tt ∧ s' = commit_all ts c (k :: ks) s) ∨
     (F ∧ txn_io r ∧ ∃ n, s' = commit_all ts c (take n (k :: ks)) s)))
    (commit_one ts c k s)) as Hrest.
  { eapply wp_mono, IH; [|by apply inv_commit_one].
    intros r s' [Hi' [[-> ->]|(HF & Hio & n & ->)]]; (split; [done|]); [by left|right].
    split_and!; [done..|]. by exists (S n). }
  apply wp_try, wp_pget.
  2:{ intros HF e. split; [done|]. right. split_and!; [done|auto|]. by exists 0%nat. }
  cbn [part]. unfold commit_one in Hrest. destruct (s_lock s !! k) as [v|] eqn:Hv.
  2:{ by rewrite (lock_none_at _ _ Hv) in Hrest. }
  destruct (lock_bytes_at _ _ _ Hi Hv) as (l & -> & Hl).
  rewrite Hl in Hrest. case_decide as D; [|done].
  pose proof (inv_lock_keys _ _ Hi _ _ Hl) as [Hk _].
  apply wp_try, wp_commit_batch; [done|]. intros HF e He.
  split; (split; [by try apply (inv_commit_key K s k ts c (lk_op l))|]); right;
    (split_and!; [done|auto|]); [by exists 0%nat|exists 1%nat].
  cbn [take commit_all]. rewrite take_0. cbn [commit_all].
  unfold commit_one. rewrite Hl. by rewrite decide_True.
Qed.

Lemma wp_commit ts c k ks s :
  inv K s → u64 ts → u64 c →
  wp F T (Coordinator_commit ts c (k :: ks))
    (λ r s', inv K s' ∧
       ((r = Ok tt ∧ holds s k ts ∧ s' = commit_all ts c (k :: ks) s) ∨
        (r = Err TransactionRolledBack ∧ ¬ holds s k ts ∧ s' = s) ∨
        (F ∧ txn_io r ∧ ∃ n, s' = commit_all ts c (take n (k :: ks)) s))) s.
Proof.
  intros Hi Hts Hc. cbn [Coordinator_commit]. apply wp_try, wp_pget.
  2:{ intros HF e. split; [done|]. right. right. split_and!; [done|auto|]. by exists 0%nat. }
  cbn [part]. destruct (s_lock s !! k) as [v|] eqn:Hv.
  2:{ apply wp_ret. split; [done|]. right. left. split_and!; [done| |done].
      intros (l & Hl & _). by rewrite (lock_none_at _ _ Hv) in Hl. }
  destruct (lock_bytes_at _ _ _ Hi Hv) as (l & -> & Hl). case_decide as D.
  2:{ apply wp_ret. split; [done|]. right. left. split_and!; [done| |done].
      intros (l' & Hl' & ?). by simplify_eq. }
  pose proof (inv_lock_keys _ _ Hi _ _ Hl) as [Hk _].
  pose proof (inv_commit_key K s k ts c (lk_op l) Hi Hk Hts Hc) as Hi1.
  assert (commit_one ts c k s = commit_key k ts c (lk_op l) s) as Hone.
  { unfold commit_one. rewrite Hl. by rewrite decide_True. }
  apply wp_try, wp_commit_batch.
  - eapply wp_mono, wp_commit_secondaries; [|done..].
    intros r s' [Hi' [[-> ->]|(HF & Hio & n & ->)]]; (split; [done|]).
    + left. split_and!; [done|by exists l|]. cbn [commit_all]. by rewrite Hone.
    + right. right. split_and!; [done..|]. exists (S n). cbn [take commit_all]. by rewrite Hone.
  - intros HF e He. split; (split; [done|]); right; right; (split_and!; [done|auto|]);
      [by exists 0%nat|exists 1%nat]. cbn [take commit_all]. rewrite take_0. cbn [commit_all].
    by rewrite Hone.
Qed.

Lemma wp_rollback ts ks s :
  inv K s → u64 ts → Forall K ks →
  wp F T (Coordinator_rollback ts ks)
    (λ r s', inv K s' ∧ ((r = Ok tt ∧ s' = rollback_all ts ks s) ∨
       (F ∧ txn_io r ∧ ∃ n, s' = rollback_all ts (take n ks) s))) s.
Proof.
  intros Hi Hts Hks. revert s Hi.
  induction Hks as [|k ks Hk Hks IH]; intros s Hi; cbn [Coordinator_rollback].
  { apply wp_ret. auto. }
  apply wp_try, wp_pget.
  2:{ intros HF e. split; [done|]. right. split_and!; [done|auto|]. by exists 0%nat. }
  assert (∀ b, apply_batch b s = rollback_one ts k s →
    wp F T (let? _ := StorageEngine_commit_batch b via TxnError_Storage in
            Coordinator_rollback ts ks)
      (λ r s', inv K s' ∧ ((r = Ok tt ∧ s' = rollback_all ts (k :: ks) s) ∨
         (F ∧ txn_io r ∧ ∃ n, s' = rollback_all ts (take n (k :: ks)) s))) s) as Hgo.
  { intros b Hb. apply wp_try, wp_commit_batch; rewrite Hb.
    - eapply wp_mono, IH; [|by apply inv_rollback_one].
      intros r s' [Hi' [[-> ->]|(HF & Hio & n & ->)]]; (split; [done|]); [by left|right].
      split_and!; [done..|]. by exists (S n).
    - intros HF e He. split; (split; [by try apply inv_rollback_one|]); right;
        (split_and!; [done|auto|]); [by exists 0%nat|by exists 1%nat]. }
  cbn [part]. unfold rollback_one in Hgo. destruct (s_lock s !! k) as [v|] eqn:Hv.
  2:{ rewrite (lock_none_at _ _ Hv) in Hgo. by apply Hgo. }
  destruct (lock_bytes_at _ _ _ Hi Hv) as (l & -> & Hl).
  rewrite Hl in Hgo. case_decide; by apply Hgo.
Qed.

Lemma wp_batch_commit_loop ts c ks s b :
  inv K s →
  wp F T (batch_commit_loop ts c ks b)
    (λ r s', s' = s ∧ (r = Ok (b ++ (ks ≫= commit_ops ts c s)) ∨ F ∧ txn_io r)) s.
Proof.
  intros Hi. revert b. induction ks as [|k ks IH]; intros b; cbn [batch_commit_loop].
  { apply wp_ret. split; [done|]. left. csimpl. by rewrite app_nil_r. }
  apply wp_try, wp_pget; [|intros HF e; auto].
  cbn [part]. csimpl. unfold commit_ops at 1. destruct (s_lock s !! k) as [v|] eqn:Hv.
  2:{ by rewrite (lock_none_at _ _ Hv). }
  destruct (lock_bytes_at _ _ _ Hi Hv) as (l & -> & Hl). rewrite Hl.
  case_decide; [|done]. by rewrite app_assoc.
Qed.

Lemma wp_batch_commit ts c ks s :
  inv K s →
  wp F T (Coordinator_batch_commit ts c ks)
    (λ r s', (r = Ok tt ∧ s' = apply_batch (ks ≫= commit_ops ts c s) s) ∨
             (F ∧ txn_io r ∧ (s' = s ∨ s' = apply_batch (ks ≫= commit_ops ts c s) s))) s.
Proof.
  intros Hi. unfold Coordinator_batch_commit. destruct ks as [|k ks]; [apply wp_ret; auto|].
  apply wp_try. eapply wp_mono, wp_batch_commit_loop; [|done].
  intros r s' [-> [->|(HF & Hio)]].
  - apply wp_try, wp_commit_batch; [by left|]. intros HF e He. split; right; auto.
  - destruct (txn_io_err _ Hio) as [e ->]. right. split_and!; auto.
    by destruct Hio as [[? [= ->]]|[(? & [= ->] & ?)|[? [= ->]]]]; auto.
Qed.

Lemma wp_heartbeat pk ts ttl s :
  inv K s →
  wp F T (Coordinator_heartbeat pk ts ttl)
    (λ r s', match lock_at s pk with
             | Some l => if decide (lk_start_ts l = ts)
                         then r = Ok ttl ∧
                              s' = apply_op (ins_lock pk (Lock_new (lk_primary_key l) ts ttl (lk_op l))) s
                         else r = Err TransactionRolledBack ∧ s' = s
             | None => r = Err TransactionRolledBack ∧ s' = s
             end ∨ F ∧ txn_io r) s.
Proof.
  intros Hi. apply wp_try, wp_pget; [|intros HF e; auto].
  cbn [part]. destruct (s_lock s !! pk) as [v|] eqn:Hv.
  2:{ rewrite (lock_none_at _ _ Hv). apply wp_ret. auto. }
  destruct (lock_bytes_at _ _ _ Hi Hv) as (l & -> & Hl). rewrite Hl.
  case_decide as D; [|apply wp_ret; auto]. subst ts.
  apply wp_try, wp_commit_batch; [simpl; auto|]. intros HF e He. split; right; auto.
Qed.

(** *** Reads *)
Lemma wp_get k ts s :
  inv K s → K k → u64 ts →
  wp F T (Coordinator_get k ts)
    (λ r s', inv K s' ∧ (coord_read T s k ts r s' ∨
       F ∧ (txn_io r ∨ r = Err (KeyLocked k)))) s.
Proof.
  intros Hi Hk Hts. pose proof (inv_wf _ _ Hi) as Hwf.
  pose proof (inv_isolated _ _ _ HK Hi Hk) as Hiso. unfold Coordinator_get.
  apply wp_bind. eapply wp_mono, wp_MvccReader_get_snapshot; [|done..].
  intros rr ? [-> [Hrd|(HF & e & ->)]]; [|apply wp_ret; auto 10].
  destruct Hrd as [l Hl Hle|Hu Hn|c r Hu Hn Ho|c r v Hu Hn Ho Hd|c r Hu Hn Ho Hd];
    try (apply wp_ret; split; [done|]; left).
  2:{ apply (CR_clear _ _ _ _ (Ok None)); [done|]. by apply SR_absent. }
  2:{ apply (CR_clear _ _ _ _ (Ok None)); [done|]. by eapply SR_deleted. }
  2:{ apply (CR_clear _ _ _ _ (Ok (Some v))); [done|]. by eapply SR_value. }
  2:{ apply (CR_clear _ _ _ _ (Err CorruptedState)); [done|]. by eapply SR_missing. }
  pose proof (inv_lock_keys _ _ Hi _ _ Hl) as [_ Hp].
  pose proof (wf_lock_val_lock_at _ _ _ Hl) as (Hlts & _).
  assert (∀ s', resolve_partial s k (reader_lock l) s' → inv K s') as Hinv.
  { intros s'. by apply (resolve_partial_inv' K s k (reader_lock l)). }
  change (Lock_new (lk_primary_key l) (lk_start_ts l) 3000 Put) with (reader_lock l).
  apply wp_bind. eapply wp_mono, wp_resolve_lock; [|done|by eapply inv_isolated].
  intros r s' [(-> & Hr)|[(-> & Hr)|(HF & Hio & Hr)]].
  - assert (inv K s') as Hi' by eauto using resolved_partial.
    apply wp_try. eapply wp_mono, wp_MvccReader_get_snapshot;
      [|apply (inv_wf _ _ Hi')|by eapply inv_isolated|done].
    intros rr ? [-> [Hrd|(HF & e & ->)]].
    + assert (inv K s' ∧ (coord_read T s k ts (map_err TxnError_Mvcc rr) s' ∨
        F ∧ (txn_io (map_err TxnError_Mvcc rr) ∨ map_err TxnError_Mvcc rr = Err (KeyLocked k)))) as Hdone.
      { split; [done|]. left. by eapply CR_resolved. }
      by destruct rr.
    + split; [done|]. right. auto.
  - apply wp_ret. split; [eauto using resolved_partial|]. left. by eapply CR_blocked.
  - destruct Hio as [[e ->]|(e & -> & _)]; apply wp_ret; auto.
Qed.
End Wp.
