(* ===== verification/Txn.v ===== *)
(** * Transactions: what a sequence of coordinator steps leaves in the store

    The store after a successful prewrite, after a commit, after a rollback,
    as a function of the locks, records and values before it: the lemmas the
    theorems of [TxnThm] rest on. *)

From stdpp Require Import base list gmap sorting strings.
From Stdlib Require Import ZArith Lia Strings.Byte.
From S2P Require Import Prelude Codec Engine Mvcc View Hlc Resolver Coordinator CoordSpec.

(** The value a mutation leaves behind. *)
Definition Mutation_value (m : Mutation) : option bytes :=
  match m with Mutation_Put _ v => Some v | Mutation_Delete _ => None end.

(** [s'] is [s] after the commit at [c] of the locks transaction [ts] holds on
    [ks]: they are gone, and a commit record with the lock's operation is in
    their place. *)
Definition commits (ts c : Z) (ks : list bytes) (s s' : Store) : Prop :=
  s_default s' = s_default s ∧
  (∀ k, lock_at s' k =
     match lock_at s k with
     | Some l => if decide (k ∈ ks ∧ lk_start_ts l = ts) then None else Some l
     | None => None
     end) ∧
  (∀ k c', u64 c' → write_at s' k c' =
     match lock_at s k with
     | Some l => if decide (k ∈ ks ∧ c' = c ∧ lk_start_ts l = ts)
                 then Some (WriteRecord_new ts (lk_op l)) else write_at s k c'
     | None => write_at s k c'
     end).

(** ** What a successful prewrite leaves *)
Lemma prewrite_ops_lock ts pk ttl m s k :
  u64 ts → u64 ttl → u32 (Z.of_nat (length pk)) →
  lock_at (apply_batch (prewrite_ops ts pk ttl m) s) k =
  if decide (k = Mutation_key m) then Some (Lock_new pk ts ttl (Mutation_op_type m))
  else lock_at s k.
Proof.
  intros. assert (wf_lock_val (Lock_new pk ts ttl (Mutation_op_type m)))
    by (by split_and!; destruct m).
  destruct m; cbn [prewrite_ops app apply_batch Mutation_key Mutation_op_type] in *;
    by rewrite lock_at_ins_lock.
Qed.

Lemma prewrite_ops_write ts pk ttl m s :
  s_write (apply_batch (prewrite_ops ts pk ttl m) s) = s_write s.
Proof. by destruct m. Qed.

Lemma prewrite_ops_data ts pk ttl m s k ts' :
  u64 ts → u64 ts' →
  data_at (apply_batch (prewrite_ops ts pk ttl m) s) k ts' =
  if decide (k = Mutation_key m ∧ ts' = ts)
  then match m with Mutation_Put _ v => Some v | Mutation_Delete _ => data_at s k ts' end
  else data_at s k ts'.
Proof.
  intros. destruct m; cbn [prewrite_ops app apply_batch Mutation_key] in *;
    rewrite data_at_ins_lock; [by rewrite data_at_ins_data|by case_decide].
Qed.

Section Prewritten.
Context (T : Z → Prop) (ts : Z) (pk : bytes) (ttl : Z).
Context (Hts : u64 ts) (Httl : u64 ttl) (Hpk : u32 (Z.of_nat (length pk))).

(** The locks and values of keys not touched again survive. *)
Lemma prewritten_keeps ms s s' k :
  prewritten T ts pk ttl ms s s' → k ∉ Mutation_key <$> ms →
  (∀ l, lock_at s k = Some l → lk_start_ts l = ts → lock_at s' k = Some l) ∧
  (∀ ts', u64 ts' → data_at s' k ts' = data_at s k ts').
Proof.
  induction 1 as [s|m ms s s1 s2 Hnc Hc Hpw IH]; intros Hk; [by auto|].
  csimpl in Hk. apply not_elem_of_cons in Hk as [Hne Hk].
  destruct (IH Hk) as [IHl IHd]. destruct (cleared_foreign _ _ _ _ _ Hc) as (Hd & _ & Hlk). split.
  - intros l Hl Hlts. apply IHl; [|done]. rewrite prewrite_ops_lock by done.
    rewrite decide_False by done. auto.
  - intros ts' Hts'. rewrite IHd by done. rewrite prewrite_ops_data by done.
    rewrite decide_False by tauto. unfold data_at. by rewrite Hd.
Qed.

Lemma prewritten_holds ms s s' m :
  prewritten T ts pk ttl ms s s' → NoDup (Mutation_key <$> ms) → m ∈ ms →
  lock_at s' (Mutation_key m) = Some (Lock_new pk ts ttl (Mutation_op_type m)) ∧
  ∀ k v, m = Mutation_Put k v → data_at s' k ts = Some v.
Proof.
  induction 1 as [s|m' ms s s1 s2 Hnc Hc Hpw IH]; intros Hnd Hm; [by apply elem_of_nil in Hm|].
  csimpl in Hnd. apply NoDup_cons in Hnd as [Hni Hnd].
  apply elem_of_cons in Hm as [->|Hm]; [|by apply IH].
  destruct (prewritten_keeps _ _ _ _ Hpw Hni) as [Hl Hd]. split.
  - apply Hl; [|done]. rewrite prewrite_ops_lock by done. by rewrite decide_True.
  - intros k v ->. cbn [Mutation_key] in Hd. rewrite Hd by done.
    rewrite prewrite_ops_data by done. by rewrite decide_True.
Qed.

(** A transaction keeps the locks it has, and ends up holding every key. *)
Lemma prewritten_keeps_own ms s s' k :
  prewritten T ts pk ttl ms s s' → holds s k ts → holds s' k ts.
Proof.
  induction 1 as [s|m ms s s1 s2 Hnc Hc Hpw IH]; [done|]. intros (l & Hl & El). apply IH.
  unfold holds. rewrite prewrite_ops_lock by done. case_decide; [by eexists|].
  exists l. split; [|done]. by apply (cleared_foreign _ _ _ _ _ Hc).
Qed.

Lemma prewritten_own ms s s' k :
  prewritten T ts pk ttl ms s s' → k ∈ Mutation_key <$> ms → holds s' k ts.
Proof.
  induction 1 as [s|m ms s s1 s2 Hnc Hc Hpw IH]; csimpl; [by intros ?%elem_of_nil|].
  intros [->|Hk]%elem_of_cons; [|by apply IH]. eapply prewritten_keeps_own; [done|].
  unfold holds. rewrite prewrite_ops_lock, decide_True by done. by eexists.
Qed.

(** Values of other transactions are kept. *)
Lemma prewritten_data_other ms s s' k ts' :
  prewritten T ts pk ttl ms s s' → u64 ts' → ts' ≠ ts → data_at s' k ts' = data_at s k ts'.
Proof.
  intros Hpw Hts' Hne. induction Hpw as [s|m ms s s1 s2 Hnc Hc Hpw IH]; [done|].
  rewrite IH, prewrite_ops_data by done. rewrite decide_False by tauto.
  destruct (cleared_foreign _ _ _ _ _ Hc) as (Hd & _). unfold data_at. by rewrite Hd.
Qed.

(** When no other transaction holds a key, a prewrite only adds its own locks
    and values. *)
Lemma prewritten_unlocked ms s s' :
  prewritten T ts pk ttl ms s s' → (∀ m, m ∈ ms → free_for s (Mutation_key m) ts) →
  s_write s' = s_write s ∧
  (∀ m, m ∈ ms → no_conflict s (Mutation_key m) ts) ∧
  (∀ k, k ∉ Mutation_key <$> ms → lock_at s' k = lock_at s k).
Proof.
  induction 1 as [s|m ms s s1 s2 Hnc Hc Hpw IH]; intros Hfree.
  { split_and!; [done| |done]. intros m Hm. by apply elem_of_nil in Hm. }
  destruct Hc as [[_ ->]|(l & Hl & Hne & _)].
  2:{ destruct Hne. apply (Hfree m); [by left|done]. }
  destruct IH as (Hw & Hncs & Hlk).
  { intros m' Hm' l. rewrite prewrite_ops_lock by done. case_decide; [by intros [= <-]|].
    apply (Hfree m'). by right. }
  rewrite prewrite_ops_write in Hw. split_and!; [done|..].
  - intros m' [->|Hm']%elem_of_cons; [done|]. intros c r Hc Hr. apply (Hncs m' Hm' c r Hc).
    unfold write_at. by rewrite prewrite_ops_write.
  - intros k Hk. csimpl in Hk. apply not_elem_of_cons in Hk as [Hne Hk].
    rewrite Hlk by done. rewrite prewrite_ops_lock by done. by rewrite decide_False.
Qed.
End Prewritten.

(** ** What a commit leaves *)
Lemma commit_one_view ts c k s :
  u64 ts → u64 c →
  s_default (commit_one ts c k s) = s_default s ∧
  (∀ k', lock_at (commit_one ts c k s) k' =
     match lock_at s k' with
     | Some l => if decide (k' = k ∧ lk_start_ts l = ts) then None else Some l
     | None => None
     end) ∧
  (∀ k' c', u64 c' → write_at (commit_one ts c k s) k' c' =
     match lock_at s k' with
     | Some l => if decide (k' = k ∧ c' = c ∧ lk_start_ts l = ts)
                 then Some (WriteRecord_new ts (lk_op l)) else write_at s k' c'
     | None => write_at s k' c'
     end).
Proof.
  intros Hts Hc. unfold commit_one. destruct (lock_at s k) as [l|] eqn:Hl.
  2:{ split_and!; [done|intros k'|intros k' c' _]; destruct (lock_at s k') as [l'|] eqn:Hl';
        try done; (rewrite decide_False; [done|]); intuition congruence. }
  case_decide as D.
  2:{ split_and!; [done|intros k'|intros k' c' _]; destruct (lock_at s k') as [l'|] eqn:Hl';
        try done; (rewrite decide_False; [done|]); intuition congruence. }
  split_and!; [done|..]; intros k'.
  - rewrite commit_key_lock. destruct (decide (k' = k)) as [->|].
    + by rewrite Hl, decide_True.
    + destruct (lock_at s k'); [|done]. by rewrite decide_False by tauto.
  - intros c' Hc'. unfold commit_key. cbn [apply_batch]. rewrite write_at_rem_lock.
    rewrite write_at_ins_write by done. destruct (decide (k' = k)) as [->|].
    + rewrite Hl. destruct (decide (c' = c)); [by rewrite !decide_True|by rewrite !decide_False by tauto].
    + rewrite decide_False by tauto. destruct (lock_at s k'); [|done].
      by rewrite decide_False by tauto.
Qed.

Lemma commit_all_view ts c ks s :
  u64 ts → u64 c → commits ts c ks s (commit_all ts c ks s).
Proof.
  intros Hts Hc. revert s. induction ks as [|k0 ks IH]; intros s; cbn [commit_all].
  { split_and!; [done|intros k|intros k c' _]; destruct (lock_at s k); try done;
      rewrite decide_False; try done; by intros [?%elem_of_nil ?]. }
  destruct (IH (commit_one ts c k0 s)) as (Hd & Hl & Hw).
  destruct (commit_one_view ts c k0 s Hts Hc) as (Hd1 & Hl1 & Hw1). split_and!.
  - congruence.
  - intros k. rewrite Hl, Hl1. destruct (lock_at s k) as [l|]; [|done].
    repeat case_decide; set_solver.
  - intros k c' Hc'. rewrite Hw, Hl1, Hw1 by done. destruct (lock_at s k) as [l|]; [|done].
    repeat case_decide; set_solver.
Qed.

(** ** Visibility of a committed transaction *)
Section Visibility.
Context (T : Z → Prop) (ts c ttl : Z) (pk : bytes) (ms : list Mutation) (s s1 : Store).
Context (Hts : u64 ts) (Httl : u64 ttl) (Hc : u64 c) (Hpk : u32 (Z.of_nat (length pk))).
Context (Hle : ts ≤ c) (Hnd : NoDup (Mutation_key <$> ms)).
Context (Hfree : ∀ m, m ∈ ms → lock_at s (Mutation_key m) = None).
Context (Hfresh : ∀ m, m ∈ ms → no_txn_record s (Mutation_key m) ts).
Context (Hpw : prewritten T ts pk ttl ms s s1).

Let s2 := commit_all ts c (Mutation_key <$> ms) s1.

Lemma committed_free_for m : m ∈ ms → free_for s (Mutation_key m) ts.
Proof. intros Hm l. by rewrite (Hfree m Hm). Qed.

Lemma committed_write m :
  m ∈ ms → ∀ c', u64 c' → write_at s2 (Mutation_key m) c' =
    if decide (c' = c) then Some (WriteRecord_new ts (Mutation_op_type m))
    else write_at s (Mutation_key m) c'.
Proof.
  intros Hm c' Hc'.
  destruct (prewritten_holds T ts pk ttl Hts Httl Hpk ms s s1 m Hpw Hnd Hm) as [Hl _].
  destruct (prewritten_unlocked T ts pk ttl Hts Httl Hpk ms s s1 Hpw committed_free_for) as (Hw & _).
  destruct (commit_all_view ts c (Mutation_key <$> ms) s1 Hts Hc) as (_ & _ & Hcw).
  unfold s2. rewrite Hcw, Hl by done. cbn [lk_start_ts lk_op].
  assert (Mutation_key m ∈ Mutation_key <$> ms) by by apply list_elem_of_fmap_2.
  unfold write_at. rewrite Hw. repeat case_decide; try done; tauto.
Qed.

Lemma committed_unlocked m : m ∈ ms → lock_at s2 (Mutation_key m) = None.
Proof.
  intros Hm.
  destruct (prewritten_holds T ts pk ttl Hts Httl Hpk ms s s1 m Hpw Hnd Hm) as [Hl _].
  destruct (commit_all_view ts c (Mutation_key <$> ms) s1 Hts Hc) as (_ & Hcl & _).
  unfold s2. rewrite Hcl, Hl. rewrite decide_True; [done|].
  split; [by apply list_elem_of_fmap_2|done].
Qed.

Lemma committed_other k :
  k ∉ Mutation_key <$> ms →
  lock_at s2 k = lock_at s k ∧ (∀ c', u64 c' → write_at s2 k c' = write_at s k c') ∧
  (∀ ts', u64 ts' → data_at s2 k ts' = data_at s k ts').
Proof.
  intros Hk.
  destruct (prewritten_unlocked T ts pk ttl Hts Httl Hpk ms s s1 Hpw committed_free_for)
    as (Hw & _ & Hl).
  destruct (prewritten_keeps T ts pk ttl Hts Httl Hpk ms s s1 k Hpw Hk) as [_ Hd].
  destruct (commit_all_view ts c (Mutation_key <$> ms) s1 Hts Hc) as (Hcd & Hcl & Hcw).
  unfold s2. split_and!.
  - rewrite Hcl, Hl by done. destruct (lock_at s k); [|done]. by rewrite decide_False by tauto.
  - intros c' Hc'. rewrite Hcw, Hl by done. unfold write_at. rewrite Hw.
    destruct (lock_at s k); [|done]. by rewrite decide_False by tauto.
  - intros ts' Hts'. rewrite <-Hd by done. unfold data_at. by rewrite Hcd.
Qed.

(** Values of other transactions on the same keys are kept. *)
Lemma committed_data_other m ts' :
  m ∈ ms → u64 ts' → ts' ≠ ts → data_at s2 (Mutation_key m) ts' = data_at s (Mutation_key m) ts'.
Proof.
  intros _ Hts' Hne.
  destruct (commit_all_view ts c (Mutation_key <$> ms) s1 Hts Hc) as (Hcd & _).
  rewrite <-(prewritten_data_other T ts pk ttl Hts ms s s1) by done.
  unfold s2, data_at. by rewrite Hcd.
Qed.

(** From the commit timestamp on, every key reads as the transaction wrote it. *)
Lemma committed_visible {FE : FjallErr} m rts :
  m ∈ ms → c ≤ rts → snapshot_read s2 (Mutation_key m) rts (Ok (Mutation_value m)).
Proof.
  intros Hm Hrts.
  destruct (prewritten_unlocked T ts pk ttl Hts Httl Hpk ms s s1 Hpw committed_free_for)
    as (_ & Hnc & _).
  assert (unlocked_at s2 (Mutation_key m) rts) as Hun.
  { intros l. by rewrite committed_unlocked. }
  assert (newest s2 (Mutation_key m) rts c (WriteRecord_new ts (Mutation_op_type m))) as Hnew.
  { split_and!; [done|done| | |].
    - rewrite committed_write by done. by rewrite decide_True.
    - by destruct m.
    - intros c' r' Hc' _. rewrite committed_write by done. case_decide; [lia|].
      intros Hr _. apply (Hnc m Hm) in Hr as [? _]; [lia|done]. }
  destruct m as [k v|k]; cbn [Mutation_value].
  - apply (SR_value _ _ _ c (WriteRecord_new ts Put)); try done.
    destruct (prewritten_holds T ts pk ttl Hts Httl Hpk ms s s1 _ Hpw Hnd Hm) as [_ Hd].
    destruct (commit_all_view ts c (Mutation_key <$> ms) s1 Hts Hc) as (Hcd & _).
    unfold s2, data_at. rewrite Hcd. by apply Hd.
  - by apply (SR_deleted _ _ _ c (WriteRecord_new ts Delete)).
Qed.

(** Before it, no snapshot changes. *)
Lemma committed_invisible_before {FE : FjallErr} k rts r :
  rts < c → snapshot_read s k rts r → snapshot_read s2 k rts r.
Proof.
  intros Hrts. apply snapshot_read_same_upto.
  destruct (decide (k ∈ Mutation_key <$> ms)) as [(m & -> & Hm)%list_elem_of_fmap|Hk].
  - split.
    + by rewrite committed_unlocked, (Hfree m Hm).
    + intros c' r' Hc' Hlt _. rewrite committed_write by done. by rewrite decide_False by lia.
    + intros c' r' Hc' _ Hr' _. apply committed_data_other; [done|by eapply write_at_u64|].
      by apply (Hfresh m Hm c').
  - destruct (committed_other k Hk) as (Hl & Hw & Hd). split; [done|by intros; rewrite Hw|].
    intros c' r' Hc' _ Hr' _. apply Hd. by eapply write_at_u64.
Qed.
End Visibility.

(** ** Monotonicity of the write history *)

(** Records are never removed by the transaction code: only added or replaced. *)
Definition writes_grow (s s' : Store) : Prop :=
  ∀ k c, u64 c → is_Some (write_at s k c) → is_Some (write_at s' k c).

#[export] Instance writes_grow_preorder : PreOrder writes_grow.
Proof. split; [by intros s k c|]. intros s1 s2 s3 H1 H2 k c Hc ?. auto. Qed.

Lemma writes_grow_ins k c r s :
  u64 c → u64 (wr_start_ts r) → writes_grow s (apply_op (ins_write k c r) s).
Proof.
  intros Hc Hr k' c' Hc' H. rewrite write_at_ins_write by done. by case_decide.
Qed.

Lemma writes_grow_rollback_key k ts s : u64 ts → writes_grow s (rollback_key k ts s).
Proof. intros Hts. by apply (writes_grow_ins k ts (WriteRecord_new ts Rollback)). Qed.

Lemma writes_grow_commit_key k ts c op s :
  u64 ts → u64 c → writes_grow s (commit_key k ts c op s).
Proof. intros Hts Hc. by apply (writes_grow_ins k c (WriteRecord_new ts op)). Qed.

Lemma writes_grow_cleared T s k ts s' : cleared T s k ts s' → writes_grow s s'.
Proof.
  intros [[_ ->]|(l & Hl & _ & Hr)]; [done|].
  apply wf_lock_val_lock_at in Hl as (Hts & _).
  apply resolved_partial in Hr as (s1 & He & H).
  transitivity s1.
  - destruct He as [->|(l' & _ & _ & ->)]; [done|by apply writes_grow_rollback_key].
  - destruct H as [->|[->|(c & Hc & ->)]];
      [done|by apply writes_grow_rollback_key|by apply writes_grow_commit_key].
Qed.

Lemma prewritten_no_newer T ts pk ttl ms s s' m c :
  prewritten T ts pk ttl ms s s' → m ∈ ms → u64 c → is_Some (write_at s (Mutation_key m) c) → c < ts.
Proof.
  intros Hpw Hm Hc. revert Hm.
  induction Hpw as [s|m' ms s s1 s2 Hnc Hcl Hpw IH]; intros Hm; [by apply elem_of_nil in Hm|].
  intros [r Hr]. apply elem_of_cons in Hm as [->|Hm].
  - by apply Hnc in Hr as [? _].
  - apply IH; [done|]. unfold write_at. rewrite prewrite_ops_write.
    eapply writes_grow_cleared; eauto.
Qed.

(** ** Rollback *)
Lemma rollback_one_view ts k s :
  u64 ts →
  (∀ k', lock_at (rollback_one ts k s) k' =
     match lock_at s k' with
     | Some l => if decide (k' = k ∧ lk_start_ts l = ts) then None else Some l
     | None => None
     end) ∧
  (∀ k' c, u64 c → write_at (rollback_one ts k s) k' c =
     if decide (k' = k ∧ c = ts) then Some (WriteRecord_new ts Rollback) else write_at s k' c).
Proof.
  intros Hts. unfold rollback_one. split.
  - intros k'. destruct (lock_at s k) as [l|] eqn:Hl; [case_decide|]; cbn [apply_batch];
      rewrite lock_at_ins_write, ?lock_at_rem_lock;
      destruct (decide (k' = k)) as [->|]; rewrite ?Hl; try done;
      try (by rewrite decide_True); try (by rewrite decide_False by tauto);
      destruct (lock_at s k'); try done; by rewrite decide_False by tauto.
  - intros k' c Hc. destruct (lock_at s k) as [l|]; [case_decide|]; cbn [apply_batch];
      rewrite write_at_ins_write by done; by case_decide.
Qed.

Lemma rollback_all_view ts ks s :
  u64 ts →
  (∀ k l, k ∈ ks → lock_at (rollback_all ts ks s) k = Some l → lk_start_ts l ≠ ts) ∧
  (∀ k l, lock_at (rollback_all ts ks s) k = Some l → lock_at s k = Some l) ∧
  (∀ k c, u64 c → write_at (rollback_all ts ks s) k c =
     if decide (k ∈ ks ∧ c = ts) then Some (WriteRecord_new ts Rollback) else write_at s k c).
Proof.
  intros Hts. revert s. induction ks as [|k0 ks IH]; intros s; cbn [rollback_all].
  { split_and!; [by intros k l ?%elem_of_nil|done|]. intros k c _. rewrite decide_False; [done|].
    by intros [?%elem_of_nil _]. }
  destruct (IH (rollback_one ts k0 s)) as (H1 & H2 & H3).
  destruct (rollback_one_view ts k0 s Hts) as (Hl & Hw). split_and!.
  - intros k l [->|Hk]%elem_of_cons Hkl; [|eauto]. apply H2 in Hkl. rewrite Hl in Hkl.
    destruct (lock_at s k0); [|done]. case_decide as D; [done|]. simplify_eq. tauto.
  - intros k l Hkl%H2. rewrite Hl in Hkl. destruct (lock_at s k); [|done]. by case_decide.
  - intros k c Hc. rewrite H3, Hw by done. repeat case_decide; set_solver.
Qed.

(** ** Batched and plain commit *)
Lemma commit_ops_one ts c k s : apply_batch (commit_ops ts c s k) s = commit_one ts c k s.
Proof.
  unfold commit_ops, commit_one. destruct (lock_at s k); [|done]. by case_decide.
Qed.

Lemma commit_all_batch ts c ks s :
  u64 ts → u64 c → NoDup ks → apply_batch (ks ≫= commit_ops ts c s) s = commit_all ts c ks s.
Proof.
  intros Hts Hc Hnd. revert s. induction Hnd as [|k ks Hk Hnd IH]; intros s; csimpl; [done|].
  rewrite apply_batch_app, commit_ops_one, <-IH. f_equal.
  destruct (commit_one_view ts c k s Hts Hc) as (_ & Hl & _).
  clear IH Hnd. induction ks as [|k' ks IH]; csimpl; [done|].
  apply not_elem_of_cons in Hk as [Hne Hk]. rewrite IH by done. f_equal.
  unfold commit_ops. rewrite Hl. destruct (lock_at s k'); [|done].
  by rewrite (decide_False (P := k' = k ∧ _)) by naive_solver.
Qed.
