(* ===== verification/TxnThm.v ===== *)
(** * Transactions: the theorems about the coordinator

    Whole client calls run on any engine that obeys [FjallLaws]: visibility and
    atomicity of two-phase commit, conflicts, rollback, batched variants, and
    recovery of the locks a crashed client left.  Each theorem is followed by
    its use on the in-memory engine. *)

From stdpp Require Import base list gmap sorting strings.
From Stdlib Require Import ZArith Lia Strings.Byte.
From S2P Require Import Prelude Codec Engine Mvcc View Hlc Resolver Coordinator CoordSpec Txn.

(** ** A concrete run

    Two keys of one byte on an in-memory engine whose clock stands at 0. *)
Definition one_byte (k : bytes) : Prop := length k = 1%nat.
Definition key_a : bytes := of_str "a".
Definition key_b : bytes := of_str "b".
Definition ex_mutations : list Mutation := [Mutation_Put key_a (of_str "1"); Mutation_Delete key_b].
Definition empty_store : Store := mkStore ∅ ∅ ∅.
Definition ex_prewrite : prog (result (@TxnError Mem_err) unit) :=
  Coordinator_prewrite 65536 ex_mutations key_a 3000.
Definition ex_prewritten : Store := (@run _ _ (Mem 0) _ ex_prewrite empty_store).2.
Definition ex_commit : prog (result (@TxnError Mem_err) unit) :=
  Coordinator_commit 65536 65537 (Mutation_key <$> ex_mutations).
Definition ex_committed : Store := (@run _ _ (Mem 0) _ ex_commit ex_prewritten).2.

(** ** Theorems *)
Section Theorems.
Context {FE : FjallErr} (F : Prop) (T : Z → Prop).
Context {W : Type} `{!Fjall FE W} (view : W → Store) (L : FjallLaws F T W view).
Context (K : bytes → Prop) (HK : prefix_free K).

Lemma run_prewrite ts ms pk ttl w r w' :
  inv K (view w) → prewrite_args K ts pk ttl ms →
  run (Coordinator_prewrite ts ms pk ttl) w = (r, w') →
  inv K (view w') ∧
  ((r = Ok tt ∧ prewritten T ts pk ttl ms (view w) (view w')) ∨
   ∃ ms1 m ms2 s1, ms = ms1 ++ m :: ms2 ∧ prewritten T ts pk ttl ms1 (view w) s1 ∧
     prewrite_error F T K ts s1 m r (view w')).
Proof.
  intros Hi Ha Hr.
  assert (Coordinator_prewrite ts ms pk ttl = prewrite_loop ts pk ttl ms) as E by by destruct ms.
  rewrite E in Hr. exact (run_wp F T view L _ _ _ _ _ Hr (wp_prewrite_loop F T K HK _ _ _ _ _ Hi Ha)).
Qed.

Lemma run_commit ts c k ks w r w' :
  inv K (view w) → u64 ts → u64 c →
  run (Coordinator_commit ts c (k :: ks)) w = (r, w') →
  inv K (view w') ∧
  ((r = Ok tt ∧ holds (view w) k ts ∧ view w' = commit_all ts c (k :: ks) (view w)) ∨
   (r = Err TransactionRolledBack ∧ ¬ holds (view w) k ts ∧ view w' = view w) ∨
   (F ∧ txn_io r ∧ ∃ n, view w' = commit_all ts c (take n (k :: ks)) (view w))).
Proof.
  intros Hi Hts Hc Hr. exact (run_wp F T view L _ _ _ _ _ Hr (wp_commit F T K ts c k ks _ Hi Hts Hc)).
Qed.

Lemma run_get k ts w r w' :
  inv K (view w) → K k → u64 ts → run (Coordinator_get k ts) w = (r, w') →
  inv K (view w') ∧ (coord_read T (view w) k ts r (view w') ∨
    F ∧ (txn_io r ∨ r = Err (KeyLocked k))).
Proof.
  intros Hi Hk Hts Hr. exact (run_wp F T view L _ _ _ _ _ Hr (wp_get F T K HK k ts _ Hi Hk Hts)).
Qed.

Lemma run_prewrite_ok ts ms pk ttl w w' :
  inv K (view w) → prewrite_args K ts pk ttl ms →
  run (Coordinator_prewrite ts ms pk ttl) w = (Ok tt, w') →
  inv K (view w') ∧ prewritten T ts pk ttl ms (view w) (view w').
Proof.
  intros Hi Ha Hr. destruct (run_prewrite _ _ _ _ _ _ _ Hi Ha Hr) as [Hi' [(_ & ?)|Hbad]]; [done|].
  destruct Hbad as (? & m & ? & s1 & _ & _ & [(? & _)|[(? & _)|[Hcf|(_ & Hio)]]]); try done.
  - by apply clear_failed_err in Hcf as [? ?].
  - by apply txn_io_err in Hio as [? ?].
Qed.

Lemma run_commit_ok ts c ks w w' :
  inv K (view w) → u64 ts → u64 c →
  run (Coordinator_commit ts c ks) w = (Ok tt, w') →
  inv K (view w') ∧ view w' = commit_all ts c ks (view w).
Proof.
  intros Hi Hts Hc Hr. destruct ks as [|k ks]; [by injection Hr as <-|].
  destruct (run_commit _ _ _ _ _ _ _ Hi Hts Hc Hr) as [? [(_ & _ & ?)|[(? & _)|(_ & Hio & _)]]];
    [done..|]. by apply txn_io_err in Hio as [? ?].
Qed.

(** C3: a transaction on distinct keys that were not locked and carried no record
    of the transaction before its prewrite: once prewrite and commit have both
    returned [Ok], every key it wrote reads as written in every snapshot from the
    commit timestamp on, and every snapshot before it reads exactly as it did
    before the transaction, whatever I/O errors other calls met.  (A prewrite that
    meets a lock may roll it forward to a record above the commit timestamp; that
    case is left out here.) *)
Theorem transaction_atomic_visibility ts c ms pk ttl w w1 w2 :
  inv K (view w) → prewrite_args K ts pk ttl ms → u64 c → ts ≤ c →
  NoDup (Mutation_key <$> ms) →
  (∀ m, m ∈ ms → lock_at (view w) (Mutation_key m) = None ∧
     no_txn_record (view w) (Mutation_key m) ts) →
  run (Coordinator_prewrite ts ms pk ttl) w = (Ok tt, w1) →
  run (Coordinator_commit ts c (Mutation_key <$> ms)) w1 = (Ok tt, w2) →
  (∀ m rts, m ∈ ms → c ≤ rts →
     snapshot_read (view w2) (Mutation_key m) rts (Ok (Mutation_value m))) ∧
  (∀ k rts r, rts < c → snapshot_read (view w) k rts r → snapshot_read (view w2) k rts r).
Proof.
  intros Hi Ha Hc Hle Hnd Hkeys Hr1 Hr2. pose proof Ha as (Hts & Httl & Hpl & _).
  destruct (run_prewrite_ok _ _ _ _ _ _ Hi Ha Hr1) as [Hi1 Hpw].
  destruct (run_commit_ok _ _ _ _ _ Hi1 Hts Hc Hr2) as [_ ->].
  split; intros.
  - eapply (committed_visible T); eauto; intros; by apply Hkeys.
  - eapply (committed_invisible_before T); eauto; intros; by apply Hkeys.
Qed.

(** C13: a prewrite that returns [Ok] holds every key of the transaction: its
    lock names the primary key, start timestamp, time to live and operation,
    the value of a put is stored under the start timestamp, and no value of
    another transaction is touched. *)
Theorem prewrite_locks_keys ts ms pk ttl w w' :
  inv K (view w) → prewrite_args K ts pk ttl ms → NoDup (Mutation_key <$> ms) →
  run (Coordinator_prewrite ts ms pk ttl) w = (Ok tt, w') →
  inv K (view w') ∧
  (∀ m, m ∈ ms →
     lock_at (view w') (Mutation_key m) = Some (Lock_new pk ts ttl (Mutation_op_type m)) ∧
     ∀ k v, m = Mutation_Put k v → data_at (view w') k ts = Some v) ∧
  (∀ k ts', u64 ts' → ts' ≠ ts → data_at (view w') k ts' = data_at (view w) k ts').
Proof.
  intros Hi Ha Hnd Hr. pose proof Ha as (Hts & Httl & Hpl & _).
  destruct (run_prewrite_ok _ _ _ _ _ _ Hi Ha Hr) as [Hi' Hpw]. split_and!; [done| |].
  - intros m Hm. by apply (prewritten_holds T ts pk ttl Hts Httl Hpl ms (view w)).
  - intros. by apply (prewritten_data_other T ts pk ttl Hts ms).
Qed.

(** C7: first committer wins: once a transaction that held [k] has committed
    at [c], no transaction that started at or before [c] can prewrite [k]. *)
Theorem first_committer_wins ts c ks k ts' ms pk ttl w w1 w2 r :
  inv K (view w) → u64 ts → u64 c → k ∈ ks → holds (view w) k ts →
  run (Coordinator_commit ts c ks) w = (Ok tt, w1) →
  prewrite_args K ts' pk ttl ms → k ∈ Mutation_key <$> ms → ts' ≤ c →
  run (Coordinator_prewrite ts' ms pk ttl) w1 = (r, w2) →
  ∃ e, r = Err e.
Proof.
  intros Hi Hts Hc Hk (l & Hl & El) Hr1 Ha Hm Hle Hr2. destruct r as [[]|e]; [|eauto].
  destruct (run_commit_ok _ _ _ _ _ Hi Hts Hc Hr1) as [Hi1 E].
  destruct (run_prewrite_ok _ _ _ _ _ _ Hi1 Ha Hr2) as [_ Hpw].
  apply list_elem_of_fmap in Hm as (m & -> & Hm).
  destruct (commit_all_view ts c ks (view w) Hts Hc) as (_ & _ & Hw).
  assert (c < ts'); [|lia]. eapply prewritten_no_newer; [done..|].
  rewrite E, Hw, Hl, decide_True by done. by eexists.
Qed.

(** C14: what a commit does, on every path: it succeeds only while the
    transaction still holds the primary key, and then replaces every lock the
    transaction holds by a commit record; without the primary lock it fails
    with [TransactionRolledBack] and changes nothing; an I/O failure leaves a
    prefix of the keys committed. *)
Theorem commit_outcome ts c k ks w r w' :
  inv K (view w) → u64 ts → u64 c →
  run (Coordinator_commit ts c (k :: ks)) w = (r, w') →
  inv K (view w') ∧
  ((r = Ok tt ∧ holds (view w) k ts ∧ commits ts c (k :: ks) (view w) (view w')) ∨
   (r = Err TransactionRolledBack ∧ ¬ holds (view w) k ts ∧ view w' = view w) ∨
   (F ∧ txn_io r ∧ ∃ n, commits ts c (take n (k :: ks)) (view w) (view w'))).
Proof.
  intros Hi Hts Hc Hr.
  destruct (run_commit _ _ _ _ _ _ _ Hi Hts Hc Hr) as [Hi' [(-> & Hh & E)|[Hn|(HF & Hio & n & E)]]];
    (split; [exact Hi'|]); try rewrite E.
  - left. auto using commit_all_view.
  - auto.
  - right. right. eauto using commit_all_view.
Qed.

Lemma run_rollback_ok ts ks w w' :
  inv K (view w) → u64 ts → Forall K ks →
  run (Coordinator_rollback ts ks) w = (Ok tt, w') →
  inv K (view w') ∧ view w' = rollback_all ts ks (view w).
Proof.
  intros Hi Hts Hks Hr.
  destruct (run_wp F T view L _ _ _ _ _ Hr (wp_rollback F T K ts ks _ Hi Hts Hks))
    as [Hi' [(_ & E)|(_ & Hio & _)]]; [done|]. by apply txn_io_err in Hio as [? ?].
Qed.

Lemma rollback_all_not_holds ts ks s k :
  u64 ts → k ∈ ks → ¬ holds (rollback_all ts ks s) k ts.
Proof. intros Hts Hk (l & Hl & El). by eapply (rollback_all_view ts ks s Hts). Qed.

(** C15: a rollback is permanent: after it, committing the transaction fails
    without changing the store, and prewriting any of its keys again fails. *)
Theorem rollback_permanent ts ks k w w1 :
  inv K (view w) → u64 ts → Forall K ks → k ∈ ks →
  run (Coordinator_rollback ts ks) w = (Ok tt, w1) →
  (∀ c ks' r w2, u64 c → run (Coordinator_commit ts c (k :: ks')) w1 = (r, w2) →
     (r = Err TransactionRolledBack ∧ view w2 = view w1) ∨
     F ∧ txn_io r ∧ ∃ n, view w2 = commit_all ts c (take n (k :: ks')) (view w1)) ∧
  (∀ ms pk ttl r w2, prewrite_args K ts pk ttl ms → k ∈ Mutation_key <$> ms →
     run (Coordinator_prewrite ts ms pk ttl) w1 = (r, w2) → ∃ e, r = Err e).
Proof.
  intros Hi Hts Hks Hk Hr. destruct (run_rollback_ok _ _ _ _ Hi Hts Hks Hr) as [Hi1 E]. split.
  - intros c ks' r w2 Hc Hr2.
    destruct (run_commit _ _ _ _ _ _ _ Hi1 Hts Hc Hr2) as [_ [(_ & Hh & _)|[(? & _ & ?)|?]]]; auto.
    rewrite E in Hh. by apply rollback_all_not_holds in Hh.
  - intros ms pk ttl r w2 Ha Hm Hr2. destruct r as [[]|e]; [|eauto].
    destruct (run_prewrite_ok _ _ _ _ _ _ Hi1 Ha Hr2) as [_ Hpw].
    apply list_elem_of_fmap in Hm as (m & -> & Hm).
    destruct (rollback_all_view ts ks (view w) Hts) as (_ & _ & Hw).
    assert (ts < ts); [|lia]. eapply prewritten_no_newer; [done..|].
    rewrite E, Hw, decide_True by done. by eexists.
Qed.

(** C10: a read through the coordinator refines the snapshot specification: the
    value of the newest committed version, after the lock in its way has been
    rolled forward or back, [KeyLocked] while that lock is active, and on an
    engine that fails an I/O error or [KeyLocked]. *)
Theorem get_refines_snapshot k ts w r w' :
  inv K (view w) → K k → u64 ts → run (Coordinator_get k ts) w = (r, w') →
  inv K (view w') ∧ (coord_read T (view w) k ts r (view w') ∨
    F ∧ (txn_io r ∨ r = Err (KeyLocked k))).
Proof. apply run_get. Qed.
End Theorems.

Lemma ex_args : prewrite_args one_byte 65536 key_a 3000 ex_mutations.
Proof. unfold prewrite_args, u64, u32, one_byte. split_and!; try done. by repeat constructor. Qed.
Lemma ex_keys_nodup : NoDup (Mutation_key <$> ex_mutations).
Proof. apply (bool_decide_unpack _). by vm_compute. Qed.
Lemma ex_laws c : @FjallLaws Mem_err False (λ t, t = u64_wrap c) Store (Mem c) id.
Proof. by apply Mem_laws. Qed.
Lemma ex_fresh k ts : lock_at empty_store k = None ∧ no_txn_record empty_store k ts.
Proof. done. Qed.

Lemma transaction_atomic_visibility_witness :
  snapshot_read ex_committed key_a 70000 (@Ok (@MvccError Mem_err) _ (Some (of_str "1"))).
Proof.
  apply (transaction_atomic_visibility False (λ t, t = u64_wrap 0) id (ex_laws 0) one_byte
    (prefix_free_length 1) 65536 65537 ex_mutations key_a 3000 empty_store ex_prewritten
    ex_committed) with (m := Mutation_Put key_a (of_str "1")).
  - apply inv_empty.
  - apply ex_args.
  - done.
  - done.
  - apply ex_keys_nodup.
  - intros. apply ex_fresh.
  - apply run_result. by vm_compute.
  - apply run_result. by vm_compute.
  - by left.
  - done.
Defined.

Lemma prewrite_locks_keys_witness :
  lock_at ex_prewritten key_b = Some (Lock_new key_a 65536 3000 Delete).
Proof.
  refine (proj1 (proj1 (proj2 (prewrite_locks_keys False (λ t, t = u64_wrap 0) id (ex_laws 0)
    one_byte (prefix_free_length 1) 65536 ex_mutations key_a 3000 empty_store ex_prewritten
    (inv_empty _) ex_args ex_keys_nodup _)) (Mutation_Delete key_b) _)).
  - apply run_result. by vm_compute.
  - apply list_elem_of_lookup. by exists 1%nat.
Defined.

Lemma ex_prewritten_inv : inv one_byte ex_prewritten.
Proof.
  apply (run_prewrite_ok False (λ t, t = u64_wrap 0) id (ex_laws 0)
    one_byte (prefix_free_length 1) 65536 ex_mutations key_a 3000 empty_store ex_prewritten
    (inv_empty _) ex_args). apply run_result. by vm_compute.
Qed.

Lemma ex_holds k : k = key_a ∨ k = key_b → holds ex_prewritten k 65536.
Proof.
  unfold holds. intros [-> | ->];
    [exists (Lock_new key_a 65536 3000 Put)|exists (Lock_new key_a 65536 3000 Delete)];
    (split; [by vm_compute|done]).
Qed.

Lemma first_committer_wins_witness :
  ∃ e, (@run _ _ (Mem 0) _ (Coordinator_prewrite 65530 [Mutation_Put key_b []] key_b 3000)
    ex_committed).1 = Err e.
Proof.
  eapply (first_committer_wins False (λ t, t = u64_wrap 0) id (ex_laws 0) one_byte
    (prefix_free_length 1) 65536 65537 [key_a; key_b] key_b 65530 [Mutation_Put key_b []] key_b 3000
    ex_prewritten ex_committed _ _ ex_prewritten_inv).
  - done.
  - done.
  - set_solver.
  - apply ex_holds. by right.
  - apply run_result. by vm_compute.
  - unfold prewrite_args, u64, u32, one_byte. split_and!; try done. by repeat constructor.
  - set_solver.
  - done.
  - apply run_result. reflexivity.
Defined.

Lemma commit_outcome_witness :
  lock_at ex_committed key_a = None ∧
  write_at ex_committed key_b 65537 = Some (WriteRecord_new 65536 Delete).
Proof.
  destruct (commit_outcome False (λ t, t = u64_wrap 0) id (ex_laws 0) one_byte
    65536 65537 key_a [key_b] ex_prewritten (Ok tt) ex_committed ex_prewritten_inv)
    as [_ [(_ & _ & _ & Hl & Hw)|[(? & _)|([] & _)]]].
  - done.
  - done.
  - apply run_result. by vm_compute.
  - rewrite Hl, (Hw key_b) by done. by vm_compute.
  - done.
Defined.

Lemma rollback_permanent_witness :
  let w1 := (@run _ _ (Mem 0) _ (Coordinator_rollback 65536 [key_a; key_b]) ex_prewritten).2 in
  ∃ e, (@run _ _ (Mem 0) _ ex_prewrite w1).1 = Err e.
Proof.
  intros w1.
  eapply (rollback_permanent False (λ t, t = u64_wrap 0) id (ex_laws 0) one_byte
    (prefix_free_length 1) 65536 [key_a; key_b] key_a ex_prewritten w1 ex_prewritten_inv).
  - done.
  - by repeat constructor.
  - set_solver.
  - apply run_result. by vm_compute.
  - apply ex_args.
  - by left.
  - apply run_result. reflexivity.
Defined.

Lemma get_refines_snapshot_witness :
  coord_read (λ t, t = u64_wrap 0) ex_committed key_a 70000
    (Ok (Some (of_str "1"))) (@run _ _ (Mem 0) _ (Coordinator_get key_a 70000) ex_committed).2.
Proof.
  destruct (get_refines_snapshot False (λ t, t = u64_wrap 0) id (ex_laws 0) one_byte
    (prefix_free_length 1) key_a 70000 ex_committed (Ok (Some (of_str "1")))
    (@run _ _ (Mem 0) _ (Coordinator_get key_a 70000) ex_committed).2) as [_ [H|[[] _]]].
  - apply (run_commit_ok False (λ t, t = u64_wrap 0) id (ex_laws 0) one_byte 65536 65537
      (Mutation_key <$> ex_mutations) ex_prewritten); [apply ex_prewritten_inv|done|done|].
    apply run_result. by vm_compute.
  - done.
  - done.
  - apply run_result. by vm_compute.
  - exact H.
Defined.

(** ** On an engine that does not fail *)
Section Reliable.
Context {FE : FjallErr} (T : Z → Prop).
Context {W : Type} `{!Fjall FE W} (view : W → Store) (L : FjallLaws False T W view).
Context (K : bytes → Prop) (HK : prefix_free K).

(** A prewrite succeeds when no lock and no conflicting record is in its way. *)
Lemma run_prewrite_free ts ms pk ttl w :
  inv K (view w) → prewrite_args K ts pk ttl ms →
  (∀ m, m ∈ ms → lock_at (view w) (Mutation_key m) = None ∧
     no_conflict (view w) (Mutation_key m) ts) →
  ∃ w', run (Coordinator_prewrite ts ms pk ttl) w = (Ok tt, w').
Proof.
  intros Hi Ha Hfree. destruct (run (Coordinator_prewrite ts ms pk ttl) w) as [r w'] eqn:Hr.
  pose proof Ha as (Hts & Httl & Hpl & _).
  destruct (run_prewrite False T view L K HK _ _ _ _ _ _ _ Hi Ha Hr)
    as [_ [(-> & _)|(ms1 & m & ms2 & s1 & -> & Hpw & Herr)]]; [eauto|exfalso].
  assert (∀ m', m' ∈ ms1 → free_for (view w) (Mutation_key m') ts) as Hff.
  { intros m' Hm' l Hl. destruct (Hfree m') as [Hn _]; [set_solver|]. by rewrite Hn in Hl. }
  destruct (prewritten_unlocked T ts pk ttl Hts Httl Hpl _ _ _ Hpw Hff) as (Ew & _ & Hlk).
  destruct (Hfree m) as [Hn Hnc]; [set_solver|].
  assert (∀ c, write_at s1 (Mutation_key m) c = write_at (view w) (Mutation_key m) c) as Hw.
  { intros c. unfold write_at. by rewrite Ew. }
  destruct Herr as [(_ & (c & rr & Hc & Hrr & ? & ?) & _)|[(_ & (c & rr & Hc & Hrr & ?) & _)|[Hcf|[[] _]]]].
  - rewrite Hw in Hrr. by destruct (Hnc _ _ Hc Hrr) as [_ []].
  - rewrite Hw in Hrr. destruct (Hnc _ _ Hc Hrr) as [? _]. lia.
  - destruct Hcf as (_ & _ & [(_ & l & Hl & Hne & _)|[[] _]]). apply Hne.
    destruct (decide (Mutation_key m ∈ Mutation_key <$> ms1)) as [Hin|Hni].
    + destruct (prewritten_own T ts pk ttl Hts Httl Hpl _ _ _ _ Hpw Hin) as (l' & Hl' & ?).
      rewrite Hl' in Hl. by injection Hl as <-.
    + by rewrite (Hlk _ Hni), Hn in Hl.
Qed.

(** An undisturbed transaction runs to completion. *)
(** The commit of a prewritten transaction succeeds. *)
Lemma run_commit_prewritten ts c ms pk ttl w w1 :
  inv K (view w1) → prewrite_args K ts pk ttl ms → u64 c → NoDup (Mutation_key <$> ms) →
  prewritten T ts pk ttl ms (view w) (view w1) →
  ∃ w2, run (Coordinator_commit ts c (Mutation_key <$> ms)) w1 = (Ok tt, w2).
Proof.
  intros Hi1 (Hts & Httl & Hpl & _) Hc Hnd Hpw. destruct ms as [|m ms]; [by eexists|].
  destruct (run (Coordinator_commit ts c (Mutation_key <$> m :: ms)) w1) as [r w2] eqn:Hr2.
  destruct (run_commit False T view L K _ _ _ _ _ _ _ Hi1 Hts Hc Hr2)
    as [_ [(-> & _)|[(_ & [] & _)|[[] _]]]]; [eauto|].
  eapply (prewritten_own T ts pk ttl); [done..|]. by left.
Qed.

Lemma run_transaction ts c ms pk ttl w :
  inv K (view w) → prewrite_args K ts pk ttl ms → u64 c → ts ≤ c →
  NoDup (Mutation_key <$> ms) →
  (∀ m, m ∈ ms → lock_at (view w) (Mutation_key m) = None ∧
     no_conflict (view w) (Mutation_key m) ts) →
  ∃ w1 w2, run (Coordinator_prewrite ts ms pk ttl) w = (Ok tt, w1) ∧
    run (Coordinator_commit ts c (Mutation_key <$> ms)) w1 = (Ok tt, w2) ∧
    ∀ m rts w3, m ∈ ms → u64 rts → c ≤ rts → view w3 = view w2 →
      (run (Coordinator_get (Mutation_key m) rts) w3).1 = Ok (Mutation_value m).
Proof.
  intros Hi Ha Hc Hle Hnd Hfree. pose proof Ha as (Hts & Httl & Hpl & _ & HKs).
  assert (∀ m, m ∈ ms → lock_at (view w) (Mutation_key m) = None) as Hnl by (intros; by apply Hfree).
  destruct (run_prewrite_free _ _ _ _ _ Hi Ha Hfree) as [w1 Hr1].
  destruct (run_prewrite_ok False T view L K HK _ _ _ _ _ _ Hi Ha Hr1) as [Hi1 Hpw].
  destruct (run_commit_prewritten ts c ms pk ttl w w1 Hi1 Ha Hc Hnd Hpw) as [w2 Hr2].
  destruct (run_commit_ok False T view L K _ _ _ _ _ Hi1 Hts Hc Hr2) as [Hi2 E2].
  exists w1, w2. split_and!; [done..|]. intros m rts w3 Hm Hrts Hcr Ev.
  destruct (run (Coordinator_get (Mutation_key m) rts) w3) as [r w4] eqn:Hr3. cbn.
  assert (lock_at (view w2) (Mutation_key m) = None) as Hun.
  { rewrite E2. by apply (committed_unlocked T ts c ttl pk ms (view w)). }
  assert (snapshot_read (view w2) (Mutation_key m) rts (Ok (Mutation_value m))) as Hsr.
  { rewrite E2. apply (committed_visible T ts c ttl pk ms (view w)); done. }
  destruct (run_get False T view L K HK _ _ _ _ _ (eq_ind_r _ Hi2 Ev)
    (proj1 (Forall_forall _ _) HKs m Hm) Hrts Hr3)
    as [_ [Hcr3|[[] _]]]. rewrite Ev in Hcr3.
  destruct Hcr3 as [rr _ Hrr|l rr s' Hl _ _ _|l s' Hl _ _]; [|by rewrite Hun in Hl..].
  by rewrite (snapshot_read_functional _ _ _ _ _ Hrr Hsr).
Qed.

(** C4: the life of an undisturbed transaction: when no key it writes is
    locked or was written at or after its start, prewrite succeeds, commit
    succeeds, and every read at or after the commit timestamp returns what was
    written ([None] for a deleted key). *)
Theorem transaction_roundtrip ts c ms pk ttl w :
  inv K (view w) → prewrite_args K ts pk ttl ms → u64 c → ts ≤ c →
  NoDup (Mutation_key <$> ms) →
  (∀ m, m ∈ ms → lock_at (view w) (Mutation_key m) = None ∧
     no_conflict (view w) (Mutation_key m) ts) →
  ∃ w1 w2, run (Coordinator_prewrite ts ms pk ttl) w = (Ok tt, w1) ∧
    run (Coordinator_commit ts c (Mutation_key <$> ms)) w1 = (Ok tt, w2) ∧
    ∀ m rts, m ∈ ms → u64 rts → c ≤ rts →
      (run (Coordinator_get (Mutation_key m) rts) w2).1 = Ok (Mutation_value m).
Proof.
  intros Hi Ha Hc Hle Hnd Hfree.
  destruct (run_transaction ts c ms pk ttl w Hi Ha Hc Hle Hnd Hfree) as (w1 & w2 & ? & ? & Hget).
  exists w1, w2. split_and!; [done..|]. intros. by apply Hget.
Qed.
End Reliable.

Lemma transaction_roundtrip_witness :
  ∃ w1 w2, @run _ _ (Mem 0) _ ex_prewrite empty_store = (Ok tt, w1) ∧
    @run _ _ (Mem 0) _ ex_commit w1 = (Ok tt, w2) ∧
    ∀ m rts, m ∈ ex_mutations → u64 rts → 65537 ≤ rts →
      (@run _ _ (Mem 0) _ (Coordinator_get (Mutation_key m) rts) w2).1 = Ok (Mutation_value m).
Proof.
  apply (transaction_roundtrip (λ t, t = u64_wrap 0) id (ex_laws 0) one_byte
    (prefix_free_length 1) 65536 65537 ex_mutations key_a 3000 empty_store).
  - apply inv_empty.
  - apply ex_args.
  - done.
  - done.
  - apply ex_keys_nodup.
  - done.
Defined.
