(* ===== verification/BatchThm.v ===== *)
(** * Batched prewrite and commit

    [batch_prewrite] is all or nothing on the transaction's own keys, and
    [batch_commit] leaves the store [commit] leaves. *)

From stdpp Require Import base list gmap sorting strings.
From Stdlib Require Import ZArith Lia Strings.Byte.
From S2P Require Import Prelude Codec Engine Mvcc View Hlc Resolver Coordinator CoordSpec Txn TxnThm.

(** Every key of [ms] carries the transaction's lock, and every value is stored. *)
Definition all_locked (ts : Z) (pk : bytes) (ttl : Z) (ms : list Mutation) (s : Store) : Prop :=
  ∀ m, m ∈ ms →
    lock_at s (Mutation_key m) = Some (Lock_new pk ts ttl (Mutation_op_type m)) ∧
    ∀ k v, m = Mutation_Put k v → data_at s k ts = Some v.

(** The checks only resolve other transactions' locks. *)
Lemma checked_foreign T ts ms s s' : checked T ts ms s s' → foreign_only ts s s'.
Proof.
  induction 1 as [|m ms s s1 s2 _ Hc _ IH]; [done|]. etrans; [|exact IH].
  by eapply cleared_foreign.
Qed.

Section Staged.
Context (ts : Z) (pk : bytes) (ttl : Z).
Context (Hts : u64 ts) (Httl : u64 ttl) (Hpk : u32 (Z.of_nat (length pk))).
Abbreviation staged ms s := (apply_batch (ms ≫= prewrite_ops ts pk ttl) s).

Lemma staged_other ms s k :
  k ∉ Mutation_key <$> ms →
  lock_at (staged ms s) k = lock_at s k ∧
  ∀ ts', u64 ts' → data_at (staged ms s) k ts' = data_at s k ts'.
Proof.
  revert s. induction ms as [|m ms IH]; intros s; csimpl; [done|].
  intros [Hne Hk]%not_elem_of_cons. rewrite apply_batch_app.
  destruct (IH (apply_batch (prewrite_ops ts pk ttl m) s) Hk) as [-> Hd]. split.
  - rewrite prewrite_ops_lock by done. by rewrite decide_False.
  - intros ts' Hts'. rewrite Hd, prewrite_ops_data by done. by rewrite decide_False by tauto.
Qed.

Lemma staged_locked ms s : NoDup (Mutation_key <$> ms) → all_locked ts pk ttl ms (staged ms s).
Proof.
  revert s. induction ms as [|m ms IH]; intros s; csimpl; [by intros _ m ?%elem_of_nil|].
  intros [Hni Hnd]%NoDup_cons m' [->|Hm]%elem_of_cons; rewrite apply_batch_app; [|by apply IH].
  destruct (staged_other ms (apply_batch (prewrite_ops ts pk ttl m) s) _ Hni) as [-> Hd]. split.
  - rewrite prewrite_ops_lock by done. by rewrite decide_True.
  - intros k v ->. cbn [Mutation_key] in Hd. rewrite Hd, prewrite_ops_data by done.
    by rewrite decide_True.
Qed.

Lemma staged_inv K ms s :
  inv K s → K pk → Forall (λ m, K (Mutation_key m)) ms → inv K (staged ms s).
Proof.
  intros Hi HKpk Hms. revert s Hi. induction Hms as [|m ms Hm Hms IH]; intros s Hi; csimpl; [done|].
  rewrite apply_batch_app. apply IH. by apply inv_prewrite_ops.
Qed.
End Staged.

Section Theorems.
Context {FE : FjallErr} (F : Prop) (T : Z → Prop).
Context {W : Type} `{!Fjall FE W} (view : W → Store) (L : FjallLaws F T W view).
Context (K : bytes → Prop) (HK : prefix_free K).

Lemma wp_batch_prewrite ts pk ttl ms s :
  inv K s → prewrite_args K ts pk ttl ms → NoDup (Mutation_key <$> ms) →
  wp F T (Coordinator_batch_prewrite ts ms pk ttl)
    (λ r s', inv K s' ∧
       ((r = Ok tt ∧ all_locked ts pk ttl ms s' ∧ ∃ s1, checked T ts ms s s1) ∨
        (∃ e, r = Err e) ∧ (foreign_only ts s s' ∨ F ∧ all_locked ts pk ttl ms s'))) s.
Proof.
  intros Hi Ha Hnd. pose proof Ha as (Hts & Httl & Hpl & HKpk & Hms).
  unfold Coordinator_batch_prewrite. destruct ms as [|m ms].
  { apply wp_ret. split; [done|]. left. split_and!; [done|by intros m ?%elem_of_nil|].
    eexists. constructor. }
  apply wp_try. eapply wp_mono, wp_batch_prewrite_loop; [|done..].
  intros r s' [Hi' [(-> & Hck)|([e ->] & Hfo)]].
  2:{ split; [done|]. right. eauto. }
  cbn [app]. apply wp_try, wp_commit_batch.
  - apply wp_ret. split; [by apply staged_inv|]. left. split_and!; [done|by apply staged_locked|eauto].
  - intros HF e _. split; (split; [try done; by apply staged_inv|]); right; (split; [by eexists|]).
    + left. by eapply checked_foreign.
    + right. split; [done|]. by apply staged_locked.
Qed.

(** C16: a batched prewrite is all or nothing: on success every key is locked
    and every value stored; on an error the transaction has gained no lock and
    written no value, unless the engine failed while it made the whole batch
    durable. *)
Theorem batch_prewrite_atomic ts ms pk ttl w r w' :
  inv K (view w) → prewrite_args K ts pk ttl ms → NoDup (Mutation_key <$> ms) →
  run (Coordinator_batch_prewrite ts ms pk ttl) w = (r, w') →
  inv K (view w') ∧
  ((r = Ok tt ∧ all_locked ts pk ttl ms (view w') ∧ ∃ s1, checked T ts ms (view w) s1) ∨
   (∃ e, r = Err e) ∧
     (foreign_only ts (view w) (view w') ∨ F ∧ all_locked ts pk ttl ms (view w'))).
Proof.
  intros Hi Ha Hnd Hr.
  exact (run_wp F T view L _ _ _ _ _ Hr (wp_batch_prewrite ts pk ttl ms _ Hi Ha Hnd)).
Qed.
End Theorems.

Lemma batch_prewrite_atomic_witness :
  all_locked 65536 key_a 3000 ex_mutations
    (@run _ _ (Mem 0) _ (Coordinator_batch_prewrite 65536 ex_mutations key_a 3000) empty_store).2.
Proof.
  destruct (batch_prewrite_atomic False (λ t, t = u64_wrap 0) id (ex_laws 0) one_byte
    (prefix_free_length 1) 65536 ex_mutations key_a 3000 empty_store (Ok tt)
    (@run _ _ (Mem 0) _ (Coordinator_batch_prewrite 65536 ex_mutations key_a 3000) empty_store).2
    (inv_empty _) ex_args ex_keys_nodup) as [_ [(_ & H & _)|([e He] & _)]].
  - apply run_result. by vm_compute.
  - exact H.
  - done.
Defined.

(** ** On an engine that does not fail *)
Section Reliable.
Context {FE : FjallErr} (T : Z → Prop).
Context {W : Type} `{!Fjall FE W} (view : W → Store) (L : FjallLaws False T W view).
Context (K : bytes → Prop).

(** C17: the batched commit implements the plain one: while the transaction
    holds its primary key both return [Ok] and leave the same store. *)
Theorem batch_commit_agrees ts c k ks w :
  inv K (view w) → u64 ts → u64 c → NoDup (k :: ks) → holds (view w) k ts →
  (run (Coordinator_batch_commit ts c (k :: ks)) w).1 = Ok tt ∧
  (run (Coordinator_commit ts c (k :: ks)) w).1 = Ok tt ∧
  view (run (Coordinator_batch_commit ts c (k :: ks)) w).2 =
  view (run (Coordinator_commit ts c (k :: ks)) w).2.
Proof.
  intros Hi Hts Hc Hnd Hh.
  destruct (wp_adequate False T view L _ _ _ (wp_batch_commit False T K ts c (k :: ks) _ Hi))
    as [(-> & ->)|[[] _]].
  destruct (wp_adequate False T view L _ _ _ (wp_commit False T K ts c k ks _ Hi Hts Hc))
    as [_ [(-> & _ & ->)|[(_ & Hn & _)|[[] _]]]]; [|done].
  split_and!; [done..|]. by apply commit_all_batch.
Qed.
End Reliable.

Lemma batch_commit_agrees_witness :
  (@run _ _ (Mem 0) _ (Coordinator_batch_commit 65536 65537 [key_a; key_b]) ex_prewritten).2 =
  ex_committed.
Proof.
  apply (batch_commit_agrees (λ t, t = u64_wrap 0) id (ex_laws 0) one_byte 65536 65537 key_a [key_b]
    ex_prewritten).
  - apply ex_prewritten_inv.
  - done.
  - done.
  - apply ex_keys_nodup.
  - apply ex_holds. by left.
Defined.
