(* ===== verification/RecoveryThm.v ===== *)
(** * Recovery: transactions whose client is gone

    What a read or a status check does with the locks of a transaction that
    crashed before or after its commit point, and how a heartbeat keeps a live
    one going. *)

From stdpp Require Import base list gmap sorting strings.
From Stdlib Require Import ZArith Lia Strings.Byte.
From S2P Require Import Prelude Codec Engine Mvcc View Hlc Resolver Coordinator CoordSpec Txn TxnThm.

(** Transaction [ts] is undecided: its primary key carries its lock, with time
    to live [ttl], and no record. *)
Definition undecided (s : Store) (pk : bytes) (ts ttl : Z) : Prop :=
  no_txn_record s pk ts ∧ ∃ lp, lock_at s pk = Some lp ∧ lk_start_ts lp = ts ∧ lk_ttl lp = ttl.

Section Status.
Context (T : Z → Prop) (s : Store) (pk : bytes) (ts ttl : Z) (Hu : undecided s pk ts ttl).

Lemma txn_status_undecided st s' :
  txn_status T s pk ts st s' →
  (∃ now, T now ∧ expired ts ttl now ∧ st = RolledBack ∧ s' = rollback_key pk ts s) ∨
  (∃ now, T now ∧ ¬ expired ts ttl now ∧ st = Locked ttl ∧ s' = s).
Proof.
  destruct Hu as (Hno & lp & Hlp & E & Ettl).
  intros [c r (Hc & Hr & ? & _) _|c r (Hc & Hr & ? & _) _|l now _ Hl _ ? He|l now _ Hl _ ? He|_ Hl].
  - by destruct (Hno c r Hc Hr).
  - by destruct (Hno c r Hc Hr).
  - rewrite Hlp in Hl. simplify_eq. left. by eexists.
  - rewrite Hlp in Hl. simplify_eq. right. by eexists.
  - by destruct (Hl lp Hlp).
Qed.

Lemma resolved_expired k l ok s' :
  (∀ now, T now → expired ts ttl now) → lk_primary_key l = pk → lk_start_ts l = ts →
  resolved T s k l ok s' → ok = true ∧ s' = rollback_key k ts (rollback_key pk ts s).
Proof.
  intros Hexp Epk Ets Hr.
  destruct Hr as [c s1 Hs|s1 Hs|ttl' s1 now Hs|ttl' s1 now Hs]; rewrite Epk, Ets in Hs;
    rewrite ?Ets; apply txn_status_undecided in Hs as [(n & Hn & He & ? & ->)|(n & Hn & He & ? & ->)];
    try done; by destruct (He (Hexp n Hn)).
Qed.
End Status.

Lemma txn_record_unique s pk ts c r c' r' :
  txn_record s pk ts c r → txn_record s pk ts c' r' → c = c' ∧ r = r'.
Proof.
  intros (Hc & Hr & Es & Hmax) (Hc' & Hr' & Es' & Hmax').
  assert (c = c') as <- by (pose proof (Hmax _ _ Hc' Hr' Es'); pose proof (Hmax' _ _ Hc Hr Es); lia).
  rewrite Hr in Hr'. by injection Hr'.
Qed.

Lemma resolved_committed T s k l c r ok s' :
  txn_record s (lk_primary_key l) (lk_start_ts l) c r → wr_op r ≠ Rollback →
  resolved T s k l ok s' → ok = true ∧ s' = commit_key k (lk_start_ts l) c (lk_op l) s.
Proof.
  intros Hrec Hop Hres.
  assert (∀ st s1, txn_status T s (lk_primary_key l) (lk_start_ts l) st s1 →
    st = Committed c ∧ s1 = s) as Hst.
  { pose proof Hrec as (Hc & Hr & Es & _).
    intros st s1 [c1 r1 Hrec1 _|c1 r1 Hrec1 Ho|l' now Hno|l' now Hno|Hno _];
      [by destruct (txn_record_unique _ _ _ _ _ _ _ Hrec Hrec1) as [<- _]| |by destruct (Hno c r)..].
    by destruct (txn_record_unique _ _ _ _ _ _ _ Hrec Hrec1) as [_ <-]. }
  destruct Hres as [c1 s1 Hs|s1 Hs|ttl' s1 now Hs|ttl' s1 now Hs]; apply Hst in Hs as [? ->];
    by simplify_eq.
Qed.

Lemma rollback_key_rolled_back k ts s k' :
  u64 ts → k' = k ∨ rolled_back s k' ts → rolled_back (rollback_key k ts s) k' ts.
Proof.
  intros Hts H. unfold rolled_back, rollback_key. cbn [apply_batch].
  destruct (decide (k' = k)) as [->|Hne].
  - exists ts, (WriteRecord_new ts Rollback). split_and!; try done.
    view_simpl. by rewrite decide_True.
  - destruct H as [?|(c & r & Hc & Hr & Hst & Hop)]; [done|]. exists c, r. split_and!; try done.
    view_simpl; [|done..]. by rewrite decide_False by tauto.
Qed.

Section Reliable.
Context {FE : FjallErr} (T : Z → Prop).
Context {W : Type} `{!Fjall FE W} (view : W → Store) (L : FjallLaws False T W view).
Context (K : bytes → Prop) (HK : prefix_free K).

(** C8: a read that meets a lock of a transaction whose primary lock has
    expired is not blocked: it rolls both keys back, for good, and returns the
    snapshot value; the crashed transaction can no longer commit. *)
Theorem orphan_lock_recovery k l ttl rts w r w' :
  inv K (view w) → K k → u64 rts →
  lock_at (view w) k = Some l → lk_start_ts l ≤ rts →
  undecided (view w) (lk_primary_key l) (lk_start_ts l) ttl →
  (∀ now, T now → expired (lk_start_ts l) ttl now) →
  run (Coordinator_get k rts) w = (r, w') →
  (∃ r', r = map_err TxnError_Mvcc r' ∧ snapshot_read (view w') k rts r') ∧
  (∀ k', k' = k ∨ k' = lk_primary_key l →
     lock_at (view w') k' = None ∧ rolled_back (view w') k' (lk_start_ts l)) ∧
  (∀ c ks, u64 c →
     (run (Coordinator_commit (lk_start_ts l) c (lk_primary_key l :: ks)) w').1 =
       Err TransactionRolledBack).
Proof.
  intros Hi Hk Hrts Hl Hle Hu Hexp Hr.
  pose proof (wf_lock_val_lock_at _ _ _ Hl) as (Hts & _).
  destruct (run_get False T view L K HK _ _ _ _ _ Hi Hk Hrts Hr) as [Hi' [Hcr|[[] _]]].
  assert (view w' = rollback_key k (lk_start_ts l) (rollback_key (lk_primary_key l) (lk_start_ts l) (view w)) ∧
    ∃ r', r = map_err TxnError_Mvcc r' ∧ snapshot_read (view w') k rts r') as [E Hsr].
  { revert Hcr. generalize (view w'). intros s' Hcr.
    destruct Hcr as [rr Hun _|l' rr s' Hl' _ Hres Hsr|l' s' Hl' _ Hres].
    - apply Hun in Hl. lia.
    - rewrite Hl in Hl'. injection Hl' as <-.
      apply (resolved_expired T _ _ _ _ Hu) in Hres as [_ ->]; eauto.
    - rewrite Hl in Hl'. injection Hl' as <-.
      by apply (resolved_expired T _ _ _ _ Hu) in Hres as [? _]. }
  assert (∀ k', k' = k ∨ k' = lk_primary_key l →
     lock_at (view w') k' = None ∧ rolled_back (view w') k' (lk_start_ts l)) as Hgone.
  { intros k' Hk'. rewrite E. split.
    - rewrite !rollback_key_lock. repeat case_decide; tauto.
    - apply rollback_key_rolled_back; [done|].
      destruct Hk' as [-> | ->]; [by left|right]. apply rollback_key_rolled_back; auto. }
  split_and!; [done..|]. intros c ks Hc.
  destruct (run (Coordinator_commit (lk_start_ts l) c (lk_primary_key l :: ks)) w') as [rc w2] eqn:Hrc.
  destruct (run_commit False T view L K _ _ _ _ _ _ _ Hi' Hts Hc Hrc)
    as [_ [(_ & (lx & Hlx & _) & _)|[(-> & _)|[[] _]]]]; [|done].
  destruct (Hgone (lk_primary_key l)) as [Hn _]; [by right|]. by rewrite Hn in Hlx.
Qed.

(** C9: the commit record on the primary key is the commit point: a read at or
    after the commit timestamp that meets the lock of a secondary put rolls it
    forward and returns the transaction's value, and never blocks. *)
Theorem committed_primary_rolls_forward k l c rp v rts w r w' :
  inv K (view w) → K k → u64 rts →
  lock_at (view w) k = Some l → lk_op l = Put → data_at (view w) k (lk_start_ts l) = Some v →
  txn_record (view w) (lk_primary_key l) (lk_start_ts l) c rp → wr_op rp ≠ Rollback →
  (∀ c' r', u64 c' → write_at (view w) k c' = Some r' → c' < c) →
  lk_start_ts l ≤ rts → c ≤ rts →
  run (Coordinator_get k rts) w = (r, w') →
  r = Ok (Some v) ∧ lock_at (view w') k = None ∧
  write_at (view w') k c = Some (WriteRecord_new (lk_start_ts l) Put).
Proof.
  intros Hi Hk Hrts Hl Hop Hd Hrec Hrop Hnew Hle Hcr Hr.
  pose proof (wf_lock_val_lock_at _ _ _ Hl) as (Hts & _). pose proof Hrec as (Hc & _).
  destruct (run_get False T view L K HK _ _ _ _ _ Hi Hk Hrts Hr) as [Hi' [Hcrd|[[] _]]].
  set (s' := commit_key k (lk_start_ts l) c Put (view w)).
  assert (∀ k' c', u64 c' → write_at s' k' c' =
    if decide (k' = k ∧ c' = c) then Some (WriteRecord_new (lk_start_ts l) Put)
    else write_at (view w) k' c') as Hw.
  { intros. unfold s', commit_key. cbn [apply_batch].
    by rewrite write_at_rem_lock, write_at_ins_write. }
  assert (lock_at s' k = None) as Hlk.
  { unfold s'. by rewrite commit_key_lock, decide_True. }
  assert (snapshot_read s' k rts (Ok (Some v))) as Hsr.
  { apply (SR_value _ _ _ c (WriteRecord_new (lk_start_ts l) Put)); try done.
    - intros l'. by rewrite Hlk.
    - split_and!; try done; [by rewrite Hw, decide_True|]. intros c' r' Hc' _. rewrite Hw by done.
      case_decide; [lia|]. intros Hr' _. apply Hnew in Hr'; [lia|done]. }
  assert (view w' = s' ∧ r = Ok (Some v)) as [-> ->].
  { revert Hcrd. generalize (view w'). intros s2 Hcrd.
    destruct Hcrd as [rr Hun _|l' rr s2 Hl' _ Hres Hsr'|l' s2 Hl' _ Hres];
      [apply Hun in Hl; lia|..]; rewrite Hl in Hl'; injection Hl' as <-.
    - apply (resolved_committed T (view w) k (reader_lock l) c rp) in Hres as [_ ->]; [|done..].
      split; [done|]. by rewrite (snapshot_read_functional _ _ _ _ _ Hsr' Hsr).
    - by apply (resolved_committed T (view w) k (reader_lock l) c rp) in Hres as [? _]. }
  split_and!; [done..|]. by rewrite Hw, decide_True.
Qed.
End Reliable.

(** ** On any engine *)
Section Theorems.
Context {FE : FjallErr} (F : Prop) (T : Z → Prop).
Context {W : Type} `{!Fjall FE W} (view : W → Store) (L : FjallLaws F T W view).
Context (K : bytes → Prop) (HK : prefix_free K).

(** C30: the status check refines its specification: it reports the outcome
    recorded by the newest record of the transaction on the primary key; an
    undecided transaction is [Locked] until its time to live has passed, and
    is then rolled back by the check; a transaction without record or lock is
    [RolledBack]. *)
Theorem check_txn_status_refines pk ts w r w' :
  inv K (view w) → K pk →
  run (LockResolver_check_txn_status pk ts) w = (r, w') →
  (∃ st, r = Ok st ∧ txn_status T (view w) pk ts st (view w')) ∨
  (F ∧ lre_io r ∧ maybe_expire (view w) pk ts (view w')).
Proof.
  intros Hi Hk Hr.
  exact (run_wp F T view L _ _ _ _ _ Hr (wp_check_txn_status F T _ pk ts (inv_wf _ _ Hi)
    (inv_isolated _ _ _ HK Hi Hk))).
Qed.

(** C31: resolving a lock refines its specification: the key is rolled forward
    at the primary's commit timestamp, or rolled back, or left alone with
    [LockActiveNotExpired] while the transaction may still be running. *)
Theorem resolve_lock_refines k l w r w' :
  inv K (view w) → K (lk_primary_key l) →
  run (LockResolver_resolve_lock k l) w = (r, w') →
  (r = Ok tt ∧ resolved T (view w) k l true (view w') ∧ lock_at (view w') k = None) ∨
  (r = Err LockActiveNotExpired ∧ resolved T (view w) k l false (view w')) ∨
  (F ∧ lre_io r ∧ resolve_partial (view w) k l (view w')).
Proof.
  intros Hi Hk Hr.
  destruct (run_wp F T view L _ _ _ _ _ Hr (wp_resolve_lock F T _ k l (inv_wf _ _ Hi)
    (inv_isolated _ _ _ HK Hi Hk))) as [(-> & Hres)|[?|?]]; auto.
  left. eauto using resolved_unlocks.
Qed.

(** C32: a heartbeat keeps a running transaction alive: it replaces the primary
    lock's time to live, and a status check that finds that time not yet past
    reports [Locked] with it and leaves the store alone. *)
Theorem heartbeat_keeps_alive pk ts ttl ttl' w w1 r w2 :
  inv K (view w) → K pk → u64 ttl' → undecided (view w) pk ts ttl →
  run (Coordinator_heartbeat pk ts ttl') w = (Ok ttl', w1) →
  (∀ now, T now → ¬ expired ts ttl' now) →
  run (LockResolver_check_txn_status pk ts) w1 = (r, w2) →
  undecided (view w1) pk ts ttl' ∧
  ((r = Ok (Locked ttl') ∧ view w2 = view w1) ∨ F ∧ lre_io r).
Proof.
  intros Hi Hk Httl Hu Hr Hexp Hr2. pose proof Hu as (Hno & lp & Hlp & E & _).
  pose proof (wf_lock_val_lock_at _ _ _ Hlp) as (Hts & _ & Hlen & Hop).
  pose proof (inv_lock_keys _ _ Hi _ _ Hlp) as [_ HKp].
  pose proof (run_wp F T view L _ _ _ _ _ Hr (wp_heartbeat F T K pk ts ttl' _ Hi)) as Hhb.
  cbn beta in Hhb. rewrite Hlp, decide_True in Hhb by done.
  destruct Hhb as [[_ E1]|[_ Hio]]; [|by apply txn_io_err in Hio as [? ?]].
  assert (wf_lock_val (Lock_new (lk_primary_key lp) ts ttl' (lk_op lp))) as Hwf.
  { rewrite <-E. by split_and!. }
  assert (undecided (view w1) pk ts ttl') as Hu1.
  { rewrite E1. split.
    - intros c r' Hc. rewrite write_at_ins_lock. by apply Hno.
    - eexists. rewrite lock_at_ins_lock, decide_True by done. by split_and!. }
  split; [done|].
  assert (inv K (view w1)) as Hi1 by (rewrite E1; by apply inv_ins_lock).
  destruct (run_wp F T view L _ _ _ _ _ Hr2 (wp_check_txn_status F T _ pk ts (inv_wf _ _ Hi1)
    (inv_isolated _ _ _ HK Hi1 Hk))) as [(st & -> & Hst)|(? & ? & _)]; [left|by right].
  destruct (txn_status_undecided T _ _ _ _ Hu1 _ _ Hst) as [(n & Hn & He & _)|(n & _ & _ & -> & ->)];
    [|done]. by destruct (Hexp n Hn).
Qed.
End Theorems.

(** ** Concrete runs *)

(** The secondary of the transaction of [TxnThm] is read at 10 seconds, long
    after the primary's 3000 ms have passed. *)
Definition ex_late_read : result (@TxnError Mem_err) (option bytes) * Store :=
  @run _ _ (Mem 10000) _ (Coordinator_get key_b 700000000) ex_prewritten.

Lemma ex_undecided : undecided ex_prewritten key_a 65536 3000.
Proof.
  split; [by intros c r _|]. exists (Lock_new key_a 65536 3000 Put). by vm_compute.
Qed.

Lemma orphan_lock_recovery_witness :
  lock_at ex_late_read.2 key_a = None ∧ rolled_back ex_late_read.2 key_a 65536.
Proof.
  apply (orphan_lock_recovery (λ t, t = u64_wrap 10000) id (ex_laws 10000) one_byte
    (prefix_free_length 1) key_b (Lock_new key_a 65536 3000 Delete) 3000 700000000 ex_prewritten
    ex_late_read.1 ex_late_read.2 ex_prewritten_inv).
  - done.
  - done.
  - by vm_compute.
  - done.
  - apply ex_undecided.
  - intros now ->. by vm_compute.
  - apply surjective_pairing.
  - by right.
Defined.

(** The client crashes after the commit of the primary: only [key_a] of a
    transaction that put both keys is committed. *)
Definition ex_two_puts : list Mutation := [Mutation_Put key_a (of_str "1"); Mutation_Put key_b (of_str "2")].
Definition ex_two_locked : Store :=
  (@run _ _ (Mem 0) _ (Coordinator_prewrite (FE := Mem_err) 65536 ex_two_puts key_a 3000)
    empty_store).2.
Definition ex_crashed : Store :=
  (@run _ _ (Mem 0) _ (Coordinator_commit (FE := Mem_err) 65536 65537 [key_a]) ex_two_locked).2.

Lemma ex_crashed_inv : inv one_byte ex_crashed.
Proof.
  apply (run_commit_ok False (λ t, t = u64_wrap 0) id (ex_laws 0) one_byte 65536 65537 [key_a]
    ex_two_locked ex_crashed); [|done|done|apply run_result; by vm_compute].
  apply (run_prewrite_ok False (λ t, t = u64_wrap 0) id (ex_laws 0) one_byte
    (prefix_free_length 1) 65536 ex_two_puts key_a 3000 empty_store
    ex_two_locked).
  - apply inv_empty.
  - unfold prewrite_args, u64, u32, one_byte. split_and!; try done. by repeat constructor.
  - apply run_result. by vm_compute.
Qed.

Lemma ex_crashed_write k c r :
  u64 c → write_at ex_crashed k c = Some r →
  k = key_a ∧ c = 65537 ∧ r = WriteRecord_new 65536 Put.
Proof.
  assert (entries_of (s_write ex_crashed) = [(KeyEncoder_encode key_a 65537,
    WriteRecord_to_bytes (WriteRecord_new 65536 Put))]) as E by by vm_compute.
  intros Hc. unfold write_at. intros (v & Hv & Hr)%bind_Some.
  apply elem_of_entries_of in Hv. rewrite E in Hv.
  apply list_elem_of_singleton in Hv. clear E.
  assert (u64 65537) as Hc' by done.
  destruct (KeyEncoder_encode_inj k c key_a 65537 Hc Hc' (f_equal fst Hv)) as [-> ->].
  apply (f_equal snd) in Hv. cbn [snd] in Hv. rewrite Hv, WriteRecord_from_to in Hr by done.
  by injection Hr.
Qed.

Lemma committed_primary_rolls_forward_witness :
  (@run _ _ (Mem 0) _ (Coordinator_get key_b 70000) ex_crashed).1 = Ok (Some (of_str "2")).
Proof.
  apply (committed_primary_rolls_forward (λ t, t = u64_wrap 0) id (ex_laws 0) one_byte
    (prefix_free_length 1) key_b (Lock_new key_a 65536 3000 Put) 65537 (WriteRecord_new 65536 Put)
    (of_str "2") 70000 ex_crashed _ (@run _ _ (Mem 0) _ (Coordinator_get key_b 70000) ex_crashed).2
    ex_crashed_inv).
  - done.
  - done.
  - by vm_compute.
  - done.
  - by vm_compute.
  - split_and!; [done|by vm_compute|done|].
    intros c' r' Hc' Hr' _. apply ex_crashed_write in Hr' as (_ & -> & _); done.
  - done.
  - intros c' r' Hc' Hr'. apply ex_crashed_write in Hr' as (? & _); done.
  - done.
  - done.
  - apply surjective_pairing.
Defined.

Lemma check_txn_status_refines_witness :
  txn_status (λ t, t = u64_wrap 10000) ex_prewritten key_a 65536 RolledBack
    (@run _ _ (Mem 10000) _ (LockResolver_check_txn_status key_a 65536) ex_prewritten).2.
Proof.
  destruct (check_txn_status_refines False (λ t, t = u64_wrap 10000) id (ex_laws 10000) one_byte
    (prefix_free_length 1) key_a 65536 ex_prewritten (Ok RolledBack)
    (@run _ _ (Mem 10000) _ (LockResolver_check_txn_status key_a 65536) ex_prewritten).2
    ex_prewritten_inv) as [(st & E & H)|[[] _]].
  - done.
  - apply run_result. by vm_compute.
  - injection E as <-. exact H.
Defined.

Lemma resolve_lock_refines_witness :
  lock_at (@run _ _ (Mem 0) _ (LockResolver_resolve_lock key_b (Lock_new key_a 65536 3000 Put))
    ex_crashed).2 key_b = None.
Proof.
  destruct (resolve_lock_refines False (λ t, t = u64_wrap 0) id (ex_laws 0) one_byte
    (prefix_free_length 1) key_b (Lock_new key_a 65536 3000 Put) ex_crashed (Ok tt)
    (@run _ _ (Mem 0) _ (LockResolver_resolve_lock key_b (Lock_new key_a 65536 3000 Put))
      ex_crashed).2 ex_crashed_inv) as [(_ & _ & H)|[(? & _)|[[] _]]].
  - done.
  - apply run_result. by vm_compute.
  - exact H.
  - done.
Defined.

Lemma heartbeat_keeps_alive_witness :
  (@run _ _ (Mem 10000) _ (LockResolver_check_txn_status key_a 65536)
    (@run _ _ (Mem 10000) _ (Coordinator_heartbeat (FE := Mem_err) key_a 65536 20000)
      ex_prewritten).2).1 = Ok (Locked 20000).
Proof.
  set (w1 := (@run _ _ (Mem 10000) _ (Coordinator_heartbeat key_a 65536 20000) ex_prewritten).2).
  destruct (heartbeat_keeps_alive False (λ t, t = u64_wrap 10000) id (ex_laws 10000) one_byte
    (prefix_free_length 1) key_a 65536 3000 20000 ex_prewritten w1
    (@run _ _ (Mem 10000) _ (LockResolver_check_txn_status key_a 65536) w1).1
    (@run _ _ (Mem 10000) _ (LockResolver_check_txn_status key_a 65536) w1).2 ex_prewritten_inv)
    as [_ [[H _]|[[] _]]].
  - done.
  - done.
  - apply ex_undecided.
  - apply run_result. by vm_compute.
  - intros now ->. by vm_compute.
  - apply surjective_pairing.
  - exact H.
Defined.
