(* ===== verification/EngineOps.v ===== *)
(** * Engine maintenance: garbage collection, key ranges and region statistics

    The operations of [crates/storage/src/engine.rs] that walk the whole WRITE
    partition: [gc_keys_older_than], [get_keys_in_range],
    [calculate_region_stats] and [find_median_key].  The theorems: collecting
    old versions keeps a key's snapshots at or above the safe point unless its
    newest old record is a rollback over a committed version, and then deletes
    the live version; it leaves at most one version of a key below the safe
    point; the key listing is the sorted set of
    keys with a version in the range; the statistics count those keys; and a
    median key splits a range into two non-empty parts. *)

From stdpp Require Import base list gmap sorting strings.
From Stdlib Require Import ZArith Lia Strings.Byte.
From S2P Require Import Prelude Codec Engine Mvcc View Hlc Resolver.

Section EngineOps.
Context {FE : FjallErr}.
Abbreviation items := (list (result fjall_Error (bytes * bytes))).

(** ** [gc_keys_older_than] *)
Fixpoint gc_loop (safe_point_ts : Z) (its : items) (last_user_key : option bytes)
    (seen_below_safe_point : bool) (batch : Batch) (gc_count : nat) :
    result StorageError (Batch * nat) :=
  match its with
  | [] => Ok (batch, gc_count)
  | Err e :: _ => Err (StorageError_Fjall e)
  | Ok (enc_key, write_bytes) :: rest =>
      match KeyEncoder_decode enc_key with
      | Err _ => gc_loop safe_point_ts rest last_user_key seen_below_safe_point batch gc_count
      | Ok (user_key, commit_ts) =>
          let same := bool_decide (last_user_key = Some user_key) in
          let last_user_key := if same then last_user_key else Some user_key in
          let seen_below_safe_point := if same then seen_below_safe_point else false in
          if decide (commit_ts < safe_point_ts) then
            if seen_below_safe_point then
              gc_loop safe_point_ts rest last_user_key seen_below_safe_point
                (batch ++ BRemove PARTITION_WRITE enc_key ::
                   match WriteRecord_from_bytes write_bytes with
                   | Some record =>
                       [BRemove PARTITION_DEFAULT
                          (KeyEncoder_encode user_key (wr_start_ts record))]
                   | None => []
                   end) (S gc_count)
            else gc_loop safe_point_ts rest last_user_key true batch gc_count
          else gc_loop safe_point_ts rest last_user_key seen_below_safe_point batch gc_count
      end
  end.

Definition StorageEngine_gc_keys_older_than (safe_point_ts : Z) :
    prog (result StorageError nat) :=
  let* its := piter PARTITION_WRITE in
  match gc_loop safe_point_ts its None false [] 0 with
  | Err e => Ret (Err e)
  | Ok (batch, gc_count) =>
      if decide (0 < gc_count)%nat then
        let? _ := StorageEngine_commit_batch batch via (λ e, e) in Ret (Ok gc_count)
      else Ret (Ok gc_count)
  end.

(** ** [get_keys_in_range] *)

(** The two bounds, as every scan over a range tests them. *)
Definition out_of_range (start_key end_key user_key : bytes) : Prop :=
  (start_key ≠ [] ∧ bytes_lt user_key start_key) ∨ (end_key ≠ [] ∧ bytes_le end_key user_key).
#[export] Instance out_of_range_dec s e k : Decision (out_of_range s e k).
Proof. unfold out_of_range. apply _. Defined.

Fixpoint get_keys_loop (start_key end_key : bytes) (its : items)
    (last_seen : option bytes) (keys : list bytes) : result StorageError (list bytes) :=
  match its with
  | [] => Ok keys
  | Err e :: _ => Err (StorageError_Fjall e)
  | Ok (enc_key, _) :: rest =>
      match KeyEncoder_decode enc_key with
      | Err _ => get_keys_loop start_key end_key rest last_seen keys
      | Ok (user_key, _) =>
          if decide (out_of_range start_key end_key user_key) then
            get_keys_loop start_key end_key rest last_seen keys
          else if decide (last_seen ≠ Some user_key) then
            get_keys_loop start_key end_key rest (Some user_key) (keys ++ [user_key])
          else get_keys_loop start_key end_key rest last_seen keys
      end
  end.

(** [Vec::dedup]: drops an element equal to the one kept before it. *)
Fixpoint vec_dedup (l : list bytes) : list bytes :=
  match l with
  | [] => []
  | x :: l' =>
      match vec_dedup l' with
      | [] => [x]
      | y :: r => if decide (x = y) then y :: r else x :: y :: r
      end
  end.

Definition StorageEngine_get_keys_in_range (start_key end_key : bytes) :
    prog (result StorageError (list bytes)) :=
  let* its := piter PARTITION_WRITE in
  Ret (match get_keys_loop start_key end_key its None [] with
       | Err e => Err e
       | Ok keys => Ok (vec_dedup (merge_sort bytes_le keys))
       end).

(** ** [calculate_region_stats] *)
Fixpoint region_stats_loop (start_key end_key : bytes) (its : items)
    (last_seen : option bytes) (key_count total_bytes : Z) : result StorageError (Z * Z) :=
  match its with
  | [] => Ok (key_count, total_bytes)
  | Err e :: _ => Err (StorageError_Fjall e)
  | Ok (enc_key, val_bytes) :: rest =>
      match KeyEncoder_decode enc_key with
      | Err _ => region_stats_loop start_key end_key rest last_seen key_count total_bytes
      | Ok (user_key, _) =>
          if decide (out_of_range start_key end_key user_key) then
            region_stats_loop start_key end_key rest last_seen key_count total_bytes
          else
            let total_bytes := u64_add total_bytes
              (u64_add (Z.of_nat (length enc_key)) (Z.of_nat (length val_bytes))) in
            if decide (last_seen ≠ Some user_key) then
              region_stats_loop start_key end_key rest (Some user_key)
                (u64_add key_count 1) total_bytes
            else region_stats_loop start_key end_key rest last_seen key_count total_bytes
      end
  end.

Definition StorageEngine_calculate_region_stats (start_key end_key : bytes) :
    prog (result StorageError (Z * Z)) :=
  let* its := piter PARTITION_WRITE in
  Ret (region_stats_loop start_key end_key its None 0 0).

(** ** [find_median_key] *)
Definition StorageEngine_find_median_key (start_key end_key : bytes) :
    prog (result StorageError (option bytes)) :=
  let? keys := StorageEngine_get_keys_in_range start_key end_key via (λ e, e) in
  if decide (length keys < 2)%nat then Ret (Ok None)
  else Ret (Ok (keys !! (length keys / 2)%nat)).
End EngineOps.

(** ** Specification *)

(** A collected version: its key, commit timestamp and record. *)
Record victim : Type := mkVictim { v_key : bytes; v_ts : Z; v_record : bytes }.

Definition victim_ops (v : victim) : Batch :=
  BRemove PARTITION_WRITE (KeyEncoder_encode (v_key v) (v_ts v)) ::
  match WriteRecord_from_bytes (v_record v) with
  | Some r => [BRemove PARTITION_DEFAULT (KeyEncoder_encode (v_key v) (wr_start_ts r))]
  | None => []
  end.

(** What the collector picks from the entries of the WRITE partition. *)
Fixpoint victims (sp : Z) (l : list (bytes * bytes)) (last : option bytes) (seen : bool) :
    list victim :=
  match l with
  | [] => []
  | (e, v) :: l' =>
      match KeyEncoder_decode e with
      | Err _ => victims sp l' last seen
      | Ok (k, c) =>
          let seen := if bool_decide (last = Some k) then seen else false in
          if decide (c < sp) then
            if seen then mkVictim k c v :: victims sp l' (Some k) true
            else victims sp l' (Some k) true
          else victims sp l' (Some k) seen
      end
  end.

(** The store after collecting [vs]. *)
Definition collect (vs : list victim) (s : Store) : Store := apply_batch (vs ≫= victim_ops) s.

Definition store_victims (sp : Z) (s : Store) : list victim :=
  victims sp (entries_of (s_write s)) None false.

(** The case the collector gets wrong: the newest record of [k] below the safe
    point is a rollback, and there is a committed version below it. *)
Definition shadowed (s : Store) (k : bytes) (sp : Z) : Prop :=
  ∃ c r c' r', u64 c ∧ c < sp ∧ write_at s k c = Some r ∧ wr_op r = Rollback ∧
    (∀ c2 r2, u64 c2 → c2 < sp → write_at s k c2 = Some r2 → c2 ≤ c) ∧
    u64 c' ∧ c' < c ∧ write_at s k c' = Some r' ∧ wr_op r' ≠ Rollback.

(** A version committed from the safe point up to [ts]. *)
Definition covered (s : Store) (k : bytes) (sp ts : Z) : Prop :=
  ∃ c r, u64 c ∧ sp ≤ c ≤ ts ∧ write_at s k c = Some r ∧ wr_op r ≠ Rollback.

(** No transaction left two records on [k]. *)
Definition one_record (s : Store) (k : bytes) : Prop :=
  ∀ c r c' r', u64 c → u64 c' → write_at s k c = Some r → write_at s k c' = Some r' →
    wr_start_ts r = wr_start_ts r' → c = c'.

(** ** The collector *)
Lemma gc_loop_spec {FE : FjallErr} F sp its l last seen b n :
  yields F its l →
  gc_loop sp its last seen b n =
    Ok (b ++ (victims sp l last seen ≫= victim_ops),
        (n + length (victims sp l last seen))%nat) ∨
  F ∧ ∃ e, gc_loop sp its last seen b n = Err (StorageError_Fjall e).
Proof.
  intros Hy. revert last seen b n.
  induction Hy as [|[e v] its l Hy IH|e its l HF]; intros last seen b n; cbn [gc_loop victims].
  - left. csimpl. by rewrite app_nil_r, Nat.add_0_r.
  - destruct (KeyEncoder_decode e) as [[k c]|] eqn:E; [|apply IH].
    apply KeyEncoder_encode_decode in E as [-> _].
    assert ((if bool_decide (last = Some k) then last else Some k) = Some k) as ->
      by (case_bool_decide; auto).
    destruct (decide (c < sp)); [|apply IH].
    destruct (if bool_decide (last = Some k) then seen else false); [|apply IH].
    csimpl. destruct (IH (Some k) true (b ++ victim_ops (mkVictim k c v)) (S n)) as [IH'|[HF IH']].
    + left. unfold victim_ops at 1 in IH'. cbn [v_key v_ts v_record] in IH'. rewrite IH'.
      f_equal. f_equal; [by rewrite <-app_assoc|lia].
    + right. by split.
  - right. split; [done|]. by eexists.
Qed.

(** Keys without a common prefix keep their versions together. *)
Lemma versions_contiguous K k c1 k' c' c2 :
  prefix_free K → K k → K k' →
  bytes_le (KeyEncoder_encode k c1) (KeyEncoder_encode k' c') →
  bytes_le (KeyEncoder_encode k' c') (KeyEncoder_encode k c2) → k' = k.
Proof.
  intros HK Hk Hk' H1 H2. pose proof (lex_between_prefix _ _ _ _ H1 H2) as Hp.
  destruct (prefix_weak_total k k' (KeyEncoder_encode k' c')) as [?|?]; [done|by eexists|..].
  - symmetry. by apply HK.
  - by apply HK.
Qed.

(** A victim is an entry below the safe point with a newer version of its key,
    also below the safe point, before it. *)
Lemma victims_sound sp pre l last seen v :
  StronglySorted entry_lt (pre ++ l) →
  (seen = true → ∃ k c w, last = Some k ∧ (KeyEncoder_encode k c, w) ∈ pre ∧ u64 c ∧ c < sp) →
  v ∈ victims sp l last seen →
  (KeyEncoder_encode (v_key v) (v_ts v), v_record v) ∈ l ∧ u64 (v_ts v) ∧ v_ts v < sp ∧
  ∃ c w, (KeyEncoder_encode (v_key v) c, w) ∈ pre ++ l ∧ u64 c ∧ v_ts v < c < sp.
Proof.
  revert pre last seen. induction l as [|[e w] l IH]; intros pre last seen Hs Hseen Hv;
    cbn [victims] in Hv; [by apply elem_of_nil in Hv|].
  assert (StronglySorted entry_lt ((pre ++ [(e, w)]) ++ l)) as Hs' by by rewrite <-app_assoc.
  assert (∀ last' seen', 
    (seen' = true → ∃ k c w', last' = Some k ∧
       (KeyEncoder_encode k c, w') ∈ pre ++ [(e, w)] ∧ u64 c ∧ c < sp) →
    v ∈ victims sp l last' seen' →
    (KeyEncoder_encode (v_key v) (v_ts v), v_record v) ∈ (e, w) :: l ∧ u64 (v_ts v) ∧ v_ts v < sp ∧
    ∃ c w', (KeyEncoder_encode (v_key v) c, w') ∈ pre ++ (e, w) :: l ∧ u64 c ∧ v_ts v < c < sp) as IH'.
  { intros last' seen' Hseen' Hv'. destruct (IH _ _ _ Hs' Hseen' Hv') as (? & ? & ? & c & w' & Hin & ?).
    split_and!; [by right|done..|]. exists c, w'. by rewrite <-app_assoc in Hin. }
  destruct (KeyEncoder_decode e) as [[k c]|] eqn:E.
  2:{ apply (IH' last seen); [|done]. intros Ht. destruct (Hseen Ht) as (k0 & c0 & w0 & ? & ? & ?).
      exists k0, c0, w0. rewrite elem_of_app. auto. }
  apply KeyEncoder_encode_decode in E as [-> Hc].
  assert (bool_decide (last = Some k) = true → seen = true → ∃ c0 w0,
    (KeyEncoder_encode k c0, w0) ∈ pre ∧ u64 c0 ∧ c < c0 < sp) as Hpred.
  { intros Hl%bool_decide_eq_true Ht. destruct (Hseen Ht) as (k0 & c0 & w0 & E & Hin & Hc0 & ?).
    rewrite Hl in E. injection E as <-. exists c0, w0. split_and!; try done.
    apply (KeyEncoder_encode_lt k c0 c); [done..|].
    apply (StronglySorted_app_1_elem_of _ _ _ (_, w0) (_, w) Hs); [done|by left]. }
  case_decide as Hsp.
  - pose proof (IH' (Some k) true) as IH2. specialize (IH2 ltac:(intros _; exists k, c, w;
      rewrite elem_of_app, list_elem_of_singleton; auto)).
    destruct (bool_decide (last = Some k)); [|by apply IH2]. destruct seen; [|by apply IH2].
    apply elem_of_cons in Hv as [->|Hv]; [|by apply IH2]. cbn [v_key v_ts v_record].
    destruct (Hpred eq_refl eq_refl) as (c0 & w0 & Hin & ? & ?).
    split_and!; [by left|done|done|]. exists c0, w0. rewrite elem_of_app. auto.
  - apply (IH' (Some k) (if bool_decide (last = Some k) then seen else false)); [|done].
    intros Ht. destruct (bool_decide (last = Some k)) eqn:B; [|done].
    destruct (Hpred eq_refl Ht) as (c0 & w0 & ? & ? & ?). exists k, c0, w0.
    rewrite elem_of_app. split_and!; try done; [by left|lia].
Qed.

(** In a sorted listing an entry between two versions of a key is one of its
    versions. *)
Lemma between_versions K pre k1 c1 x l k0 c0 w0 c2 w2 :
  prefix_free K → K k0 → K k1 →
  StronglySorted entry_lt (pre ++ (KeyEncoder_encode k1 c1, x) :: l) →
  (KeyEncoder_encode k0 c0, w0) ∈ pre → (KeyEncoder_encode k0 c2, w2) ∈ l → k1 = k0.
Proof.
  intros HK Hk0 Hk1 Hs Hp Hl. apply (versions_contiguous K k0 c0 k1 c1 c2); try done;
    apply bytes_lt_le.
  - apply (StronglySorted_app_1_elem_of _ _ _ (_, w0) (_, x) Hs); [done|by left].
  - assert (StronglySorted entry_lt ((pre ++ [(KeyEncoder_encode k1 c1, x)]) ++ l)) as Hs'
      by by rewrite <-app_assoc.
    apply (StronglySorted_app_1_elem_of _ _ _ (_, x) (_, w2) Hs'); [|done].
    rewrite elem_of_app, list_elem_of_singleton. by right.
Qed.

(** Every entry below the safe point with a newer version below it is a
    victim, when no key is a prefix of another. *)
Lemma victims_complete K sp pre l last seen k c w c' w' :
  prefix_free K →
  (∀ e w, (e, w) ∈ pre ++ l → ∃ k c, K k ∧ u64 c ∧ e = KeyEncoder_encode k c) →
  StronglySorted entry_lt (pre ++ l) →
  (∀ k0 c0 w0 c1 w1, (KeyEncoder_encode k0 c0, w0) ∈ pre → u64 c0 → c0 < sp →
     (KeyEncoder_encode k0 c1, w1) ∈ l → last = Some k0 ∧ seen = true) →
  (KeyEncoder_encode k c, w) ∈ l → u64 c → u64 c' → c < c' < sp →
  (KeyEncoder_encode k c', w') ∈ pre ++ l → mkVictim k c w ∈ victims sp l last seen.
Proof.
  intros HK. revert pre last seen. induction l as [|[e x] l IH];
    intros pre last seen Hkeys Hs Hinv Hin Hc Hc' Hlt Hin'; [by apply elem_of_nil in Hin|].
  destruct (Hkeys e x) as (k1 & c1 & Hk1 & Hc1 & ->); [rewrite elem_of_app; by right; left|].
  cbn [victims]. rewrite KeyEncoder_decode_encode by done.
  assert (StronglySorted entry_lt ((pre ++ [(KeyEncoder_encode k1 c1, x)]) ++ l)) as Hs'
    by by rewrite <-app_assoc.
  (* what was seen before, when the head is a version of the same key *)
  assert (∀ c0 w0, (KeyEncoder_encode k1 c0, w0) ∈ pre → u64 c0 → c0 < sp →
    (if bool_decide (last = Some k1) then seen else false) = true ∧ c1 < c0) as Hhead.
  { intros c0 w0 Hp Hc0 Hsp0. destruct (Hinv k1 c0 w0 c1 x) as [-> ->]; [done..|by left|].
    rewrite bool_decide_true by done. split; [done|].
    apply (KeyEncoder_encode_lt k1); [done..|].
    apply (StronglySorted_app_1_elem_of _ _ _ (_, w0) (_, x) Hs); [done|by left]. }
  (* the invariant for the rest of the list *)
  assert (∀ k0 c0 w0 c2 w2,
    (KeyEncoder_encode k0 c0, w0) ∈ pre ++ [(KeyEncoder_encode k1 c1, x)] → u64 c0 → c0 < sp →
    (KeyEncoder_encode k0 c2, w2) ∈ l → k0 = k1 ∧ c1 < sp) as Hnext.
  { intros k0 c0 w0 c2 w2 Hp Hc0 Hsp0 Hl.
    rewrite elem_of_app, list_elem_of_singleton in Hp. destruct Hp as [Hp|E].
    - assert (K k0) as Hk0.
      { destruct (Hkeys (KeyEncoder_encode k0 c0) w0) as (k2 & c3 & ? & ? & E);
          [rewrite elem_of_app; by left|]. by apply KeyEncoder_encode_inj in E as [-> _]. }
      assert (k1 = k0) as -> by exact (between_versions K pre k1 c1 x l k0 c0 w0 c2 w2 HK Hk0 Hk1 Hs Hp Hl).
      destruct (Hhead c0 w0) as [_ ?]; [done..|]. split; [done|lia].
    - injection E as E _. apply KeyEncoder_encode_inj in E as [-> ->]; auto. }
  apply elem_of_cons in Hin as [E|Hin].
  - injection E as E ->. apply KeyEncoder_encode_inj in E as [-> ->]; [|done..].
    rewrite decide_True by lia. assert ((KeyEncoder_encode k1 c', w') ∈ pre) as Hp.
    { rewrite elem_of_app, elem_of_cons in Hin'. destruct Hin' as [?|[E|Hl]]; [done|..].
      - injection E as E _. apply KeyEncoder_encode_inj in E as [_ ?]; [lia|done..].
      - assert (c' < c1); [|lia]. apply (KeyEncoder_encode_lt k1); [done..|].
        apply (StronglySorted_app_1_elem_of _ _ _ (_, x) (_, w') Hs'); [|done].
        rewrite elem_of_app, list_elem_of_singleton. by right. }
    destruct (Hhead _ _ Hp) as [-> _]; [done|lia|]. by left.
  - assert (∀ seen', (c1 < sp → seen' = true) → mkVictim k c w ∈ victims sp l (Some k1) seen') as IH'.
    { intros seen' Hseen'. apply (IH (pre ++ [(KeyEncoder_encode k1 c1, x)])); try done.
      - intros e' w2 He. apply (Hkeys e' w2). by rewrite <-app_assoc in He.
      - intros k0 c0 w0 c2 w2 Hp Hc0 Hsp0 Hl.
        destruct (Hnext _ _ _ _ _ Hp Hc0 Hsp0 Hl) as [-> ?]. auto.
      - by rewrite <-app_assoc. }
    destruct (decide (c1 < sp)); [|by apply IH'].
    destruct (if bool_decide _ then seen else false); [right|]; by apply IH'.
Qed.

(** ** The store after a collection *)
#[export] Instance BatchOp_eq_dec : EqDecision BatchOp.
Proof. solve_decision. Defined.

Lemma removes_lookup b s p k :
  Forall (λ o, ∃ q k', o = BRemove q k') b →
  part p (apply_batch b s) !! k = if decide (BRemove p k ∈ b) then None else part p s !! k.
Proof.
  intros Hb. revert s. induction Hb as [|o b [q [k' ->]] Hb IH]; intros s; [done|].
  cbn [apply_batch apply_op]. rewrite IH, part_set_part.
  destruct (decide (BRemove p k ∈ b)) as [Hin|Hni].
  - rewrite decide_True; [done|]. by right.
  - destruct (decide (BRemove q k' = BRemove p k)) as [[= -> ->]|Hne].
    + rewrite decide_True by done. rewrite lookup_delete_eq, decide_True; [done|]. by left.
    + rewrite (decide_False (P := _ ∈ _)) by (rewrite elem_of_cons; naive_solver).
      case_decide as D; [|done]. subst q. apply lookup_delete_ne. naive_solver.
Qed.

Lemma victim_ops_remove v : Forall (λ o, ∃ q k', o = BRemove q k') (victim_ops v).
Proof. unfold victim_ops. destruct (WriteRecord_from_bytes _); repeat constructor; eauto. Qed.

Lemma collect_ops_remove vs : Forall (λ o, ∃ q k', o = BRemove q k') (vs ≫= victim_ops).
Proof.
  induction vs as [|v vs IH]; [done|]. rewrite bind_cons. apply Forall_app.
  auto using victim_ops_remove.
Qed.

Lemma collect_lookup vs s p k :
  part p (collect vs s) !! k =
  if decide (BRemove p k ∈ vs ≫= victim_ops) then None else part p s !! k.
Proof.
  apply removes_lookup, collect_ops_remove.
Qed.

Lemma collect_lock vs s k : lock_at (collect vs s) k = lock_at s k.
Proof.
  unfold lock_at. pose proof (collect_lookup vs s PARTITION_LOCK k) as E. cbn [part] in E. rewrite E.
  rewrite decide_False; [done|]. rewrite list_elem_of_bind. intros (v & Hin & _).
  unfold victim_ops in Hin. rewrite elem_of_cons in Hin.
  destruct Hin as [?|Hin]; [done|]. destruct (WriteRecord_from_bytes _); set_solver.
Qed.

Section Collect.
Context (vs : list victim) (s : Store) (Hvs : ∀ v, v ∈ vs → u64 (v_ts v)).

Lemma remove_write_victim k c :
  u64 c → BRemove PARTITION_WRITE (KeyEncoder_encode k c) ∈ vs ≫= victim_ops ↔
  ∃ v, v ∈ vs ∧ v_key v = k ∧ v_ts v = c.
Proof.
  intros Hc. rewrite list_elem_of_bind. unfold victim_ops. split.
  - intros (v & Hin & Hv). exists v. rewrite elem_of_cons in Hin. destruct Hin as [E|Hin].
    + injection E as E. by apply KeyEncoder_encode_inj in E as [-> ->]; auto.
    + destruct (WriteRecord_from_bytes _); set_solver.
  - intros (v & Hv & <- & <-). exists v. split; [by left|done].
Qed.

Lemma remove_data_victim k ts :
  u64 ts → BRemove PARTITION_DEFAULT (KeyEncoder_encode k ts) ∈ vs ≫= victim_ops →
  ∃ v r, v ∈ vs ∧ v_key v = k ∧ WriteRecord_from_bytes (v_record v) = Some r ∧ wr_start_ts r = ts.
Proof.
  intros Hts. rewrite list_elem_of_bind. unfold victim_ops. intros (v & Hin & Hv).
  rewrite elem_of_cons in Hin. destruct Hin as [?|Hin]; [done|].
  destruct (WriteRecord_from_bytes (v_record v)) as [r|] eqn:Er; [|by apply elem_of_nil in Hin].
  apply list_elem_of_singleton in Hin. injection Hin as E. exists v, r.
  apply KeyEncoder_encode_inj in E as [-> ->]; eauto using WriteRecord_from_bytes_u64.
Qed.

Lemma collect_write_at k c r :
  u64 c → write_at (collect vs s) k c = Some r ↔
  write_at s k c = Some r ∧ ¬ ∃ v, v ∈ vs ∧ v_key v = k ∧ v_ts v = c.
Proof.
  intros Hc. unfold write_at. pose proof (collect_lookup vs s PARTITION_WRITE) as E.
  cbn [part] in E. rewrite E, <-remove_write_victim by done. case_decide; naive_solver.
Qed.

Lemma collect_data_at k ts :
  u64 ts → (∀ v r, v ∈ vs → v_key v = k → WriteRecord_from_bytes (v_record v) = Some r →
    wr_start_ts r ≠ ts) → data_at (collect vs s) k ts = data_at s k ts.
Proof.
  intros Hts Hv. unfold data_at. pose proof (collect_lookup vs s PARTITION_DEFAULT) as E.
  cbn [part] in E. rewrite E, decide_False; [done|].
  intros (v & r & ? & ? & ? & ?)%remove_data_victim; [|done]. by eapply Hv.
Qed.
End Collect.

(** The victims of a store. *)
Lemma store_victims_sound sp s v :
  wf_store s → v ∈ store_victims sp s →
  u64 (v_ts v) ∧ v_ts v < sp ∧
  (∃ r, WriteRecord_from_bytes (v_record v) = Some r ∧ write_at s (v_key v) (v_ts v) = Some r) ∧
  ∃ c r, u64 c ∧ v_ts v < c < sp ∧ write_at s (v_key v) c = Some r.
Proof.
  intros Hwf Hv. destruct (victims_sound sp [] (entries_of (s_write s)) None false v)
    as (Hin & Hu & Hlt & c & w & Hin' & Hc & Hb); [apply StronglySorted_entries_of|done|done|].
  apply elem_of_entries_of in Hin, Hin'.
  destruct (wf_write _ Hwf _ _ Hin) as [_ [r Hr]], (wf_write _ Hwf _ _ Hin') as [_ [r' Hr']].
  split_and!; [done|done| |].
  - exists r. unfold write_at. by rewrite Hin.
  - exists c, r'. unfold write_at. by rewrite Hin'.
Qed.

Lemma inv_entries K s :
  inv K s → ∀ e w, (e, w) ∈ entries_of (s_write s) →
  ∃ k c, K k ∧ u64 c ∧ e = KeyEncoder_encode k c.
Proof.
  intros Hi e w He%elem_of_entries_of. pose proof He as He'.
  apply (wf_write _ (inv_wf _ _ Hi)) in He as [Hl _].
  destruct (KeyEncoder_decode e) as [[k c]|[]] eqn:D;
    [|apply KeyEncoder_decode_err in D; lia].
  apply KeyEncoder_encode_decode in D as [-> Hc]. exists k, c. split_and!; [|done|done].
  apply (inv_write_keys _ _ Hi k c Hc). by exists w.
Qed.

Section Gc.
Context (s : Store) (sp ts : Z) (Hwf : wf_store s) (Hts : sp ≤ ts).
Let s' := collect (store_victims sp s) s.

Lemma store_victims_u64 v : v ∈ store_victims sp s → u64 (v_ts v).
Proof. intros Hv. by apply (store_victims_sound sp s v Hwf) in Hv as [? _]. Qed.

(** Above a collected newest version there are only rollbacks, up to a newest
    one. *)
Lemma collected_shadowed k c r c2 r2 :
  newest s k ts c r → u64 c2 → c < c2 < sp → write_at s k c2 = Some r2 → ¬ shadowed s k sp → False.
Proof.
  intros (Hc & Hle & Hr & Hop & Hmax) Hc2 Hb Hr2 Hns.
  remember (Z.to_nat (sp - c2)) as n eqn:En. revert c2 r2 Hc2 Hb Hr2 En.
  induction n as [n IH] using lt_wf_ind. intros c2 r2 Hc2 Hb Hr2 En.
  destruct (decide (wr_op r2 = Rollback)) as [Hrb|Hnr]; [|apply Hmax in Hr2; [lia|done|lia|done]].
  apply Hns. exists c2, r2, c, r. split_and!; try done; [lia| |lia].
  intros c3 r3 Hc3 Hlt3 Hr3. destruct (Z.le_gt_cases c3 c2) as [?|Hgt]; [done|exfalso].
  eapply (IH (Z.to_nat (sp - c3))); [lia|exact Hc3|lia|done|done].
Qed.

Lemma gc_keeps_newest k c r :
  ¬ shadowed s k sp ∨ covered s k sp ts → newest s k ts c r → newest s' k ts c r.
Proof.
  intros Hok Hn. pose proof Hn as (Hc & Hle & Hr & Hop & Hmax). split_and!; try done.
  - apply collect_write_at; [apply store_victims_u64|done|split; [done|]].
    intros (v & Hv & <- & <-).
    destruct (store_victims_sound sp s v Hwf Hv) as (_ & _ & _ & c2 & r2 & Hc2 & Hb & Hr2).
    destruct Hok as [Hns|(c3 & r3 & Hc3 & Hb3 & Hr3 & Hop3)].
    + exact (collected_shadowed _ _ _ _ _ Hn Hc2 Hb Hr2 Hns).
    + apply Hmax in Hr3; [lia|done|lia|done].
  - intros c' r' Hc' Hle' [Hr' _]%collect_write_at; [by apply Hmax|apply store_victims_u64|done].
Qed.

(** Below every committed version there is a newest one. *)
Lemma newest_exists k c r :
  u64 c → c ≤ ts → write_at s k c = Some r → wr_op r ≠ Rollback →
  (∀ c' r', ¬ newest s k ts c' r') → False.
Proof.
  intros Hc Hle Hr Hop Hno. remember (Z.to_nat (ts - c)) as n eqn:En.
  revert c r Hc Hle Hr Hop En. induction n as [n IH] using lt_wf_ind. intros c r Hc Hle Hr Hop En.
  apply (Hno c r). split_and!; try done. intros c' r' Hc' Hle' Hr' Hop'.
  destruct (Z.le_gt_cases c' c) as [?|Hgt]; [done|exfalso].
  eapply (IH (Z.to_nat (ts - c'))); [lia|exact Hc'|done..].
Qed.

Lemma gc_keeps_data k c r :
  one_record s k → newest s k ts c r → newest s' k ts c r →
  data_at s' k (wr_start_ts r) = data_at s k (wr_start_ts r).
Proof.
  intros Hone (Hc & _ & Hr & _) Hn'.
  apply collect_data_at; [by eapply write_at_u64|].
  intros v rv Hv <- Hrv Es.
  destruct (store_victims_sound sp s v Hwf Hv) as (Hu & _ & (r2 & E2 & Hr2) & _).
  rewrite Hrv in E2. injection E2 as <-.
  assert (v_ts v = c) as <- by (eapply Hone; eauto).
  destruct Hn' as (_ & _ & Hkept & _). apply collect_write_at in Hkept as [_ []];
    [by exists v|apply store_victims_u64|done].
Qed.

Lemma gc_unlocked k : unlocked_at s k ts → unlocked_at s' k ts.
Proof. intros H l. unfold s'. rewrite collect_lock. apply H. Qed.

Lemma gc_keeps_snapshot {FE : FjallErr} k r :
  one_record s k → ¬ shadowed s k sp ∨ covered s k sp ts →
  snapshot_read s k ts r → snapshot_read s' k ts r.
Proof.
  intros Hone Hok. pose proof (gc_unlocked k) as Hun.
  intros [l Hl Hle|Hu Hno|c rr Hu Hn Hop|c rr v Hu Hn Hop Hd|c rr Hu Hn Hop Hd].
  - apply SR_locked; [|done]. unfold s'. by rewrite collect_lock.
  - apply SR_absent; [by apply Hun|]. intros c rr (Hc & Hle & Hr & Hop & _).
    apply collect_write_at in Hr as [Hr _]; [|apply store_victims_u64|done]. apply (newest_exists k c rr Hc Hle Hr Hop Hno).
  - apply (SR_deleted _ _ _ c rr); auto using gc_keeps_newest.
  - pose proof (gc_keeps_newest k c rr Hok Hn) as Hn'. apply (SR_value _ _ _ c rr); auto.
    by rewrite (gc_keeps_data k c rr Hone Hn Hn').
  - pose proof (gc_keeps_newest k c rr Hok Hn) as Hn'. apply (SR_missing _ _ _ c rr); auto.
    by rewrite (gc_keeps_data k c rr Hone Hn Hn').
Qed.

(** A version with a newer record below the safe point does not survive. *)
Lemma collected K k c r c' r' :
  prefix_free K → inv K s → u64 c → u64 c' → c < c' < sp →
  write_at s k c' = Some r' → write_at s' k c = Some r → False.
Proof.
  intros HK Hi Hc Hc' Hcc Hr' Hr.
  apply collect_write_at in Hr as [Hr Hnv]; [|apply store_victims_u64|done].
  unfold write_at in Hr, Hr'. apply bind_Some in Hr as (v & Hv & _), Hr' as (v' & Hv' & _).
  apply elem_of_entries_of in Hv, Hv'. apply Hnv. exists (mkVictim k c v).
  split; [|done]. apply (victims_complete K sp [] _ None false k c v c' v'); try done.
  - by apply inv_entries.
  - apply StronglySorted_entries_of.
  - intros ????? ?%elem_of_nil. done.
Qed.

(** A shadowed key loses its value. *)
Lemma gc_loses_shadowed {FE : FjallErr} K k :
  prefix_free K → inv K s → unlocked_at s k ts → shadowed s k sp → ¬ covered s k sp ts →
  snapshot_read s' k ts (Ok None).
Proof.
  intros HK Hi Hu (c & r & c' & r' & Hc & Hlt & Hr & Hrb & Hmax & _) Hnc.
  apply SR_absent; [by apply gc_unlocked|]. intros c2 r2 (Hc2 & Hle2 & Hr2 & Hop2 & _).
  pose proof Hr2 as [Hr2' _]%collect_write_at; [|apply store_victims_u64|done].
  destruct (Z.le_gt_cases sp c2) as [Hge|Hlt2]; [apply Hnc; by exists c2, r2|].
  pose proof (Hmax _ _ Hc2 Hlt2 Hr2') as Hle.
  destruct (decide (c2 = c)) as [->|Hne]; [congruence|].
  exact (collected K k c2 r2 c r HK Hi Hc2 Hc ltac:(lia) Hr Hr2).
Qed.
End Gc.

Section GcRun.
Context {FE : FjallErr} (F : Prop) (T : Z → Prop).

Lemma wp_piter p Q s :
  (∀ its, yields F its (entries_of (part p s)) → Q its s) → wp F T (piter p) Q s.
Proof. intros H its. rewrite range_from_nil. apply H. Qed.

Lemma wp_gc sp s :
  wp F T (StorageEngine_gc_keys_older_than sp)
    (λ r s', (r = Ok (length (store_victims sp s)) ∧ s' = collect (store_victims sp s) s) ∨
       F ∧ (∃ e, r = Err (StorageError_Fjall e)) ∧
         (s' = s ∨ s' = collect (store_victims sp s) s)) s.
Proof.
  apply wp_bind, wp_piter. intros its Hy. cbn [part] in Hy.
  destruct (gc_loop_spec F sp its _ None false [] 0 Hy) as [->|(HF & e & ->)].
  2:{ apply wp_ret. right. eauto. }
  cbn [app Nat.add]. change (victims sp _ None false) with (store_victims sp s).
  case_decide as Hn.
  - apply wp_try, wp_commit_batch; [by left|]. intros HF e [x ->]. split; right; eauto.
  - apply wp_ret. left. destruct (store_victims sp s); [done|]. cbn [length] in Hn. lia.
Qed.
End GcRun.

(** ** The key listing *)

(** The user keys of a list of entries that fall into the range. *)
Definition entry_keys (start_key end_key : bytes) (l : list (bytes * bytes)) : list bytes :=
  omap (λ x, match KeyEncoder_decode x.1 with
             | Ok (k, _) => if decide (out_of_range start_key end_key k) then None else Some k
             | Err _ => None
             end) l.

(** Dropping repetitions of the key before: what [last_seen] does. *)
Fixpoint squeeze (last : option bytes) (ks : list bytes) : list bytes :=
  match ks with
  | [] => []
  | k :: ks' => if decide (last ≠ Some k) then k :: squeeze (Some k) ks' else squeeze last ks'
  end.

Definition range_keys (start_key end_key : bytes) (s : Store) : list bytes :=
  vec_dedup (merge_sort bytes_le
    (squeeze None (entry_keys start_key end_key (entries_of (s_write s))))).

Lemma get_keys_loop_spec {FE : FjallErr} F a b its l last keys :
  yields F its l →
  get_keys_loop a b its last keys = Ok (keys ++ squeeze last (entry_keys a b l)) ∨
  F ∧ ∃ e, get_keys_loop a b its last keys = Err (StorageError_Fjall e).
Proof.
  intros Hy. revert last keys.
  induction Hy as [|[e v] its l Hy IH|e its l HF]; intros last keys; cbn [get_keys_loop].
  - left. by rewrite app_nil_r.
  - unfold entry_keys. csimpl. fold (entry_keys a b l).
    destruct (KeyEncoder_decode e) as [[k c]|]; [|apply IH].
    destruct (decide (out_of_range a b k)); [apply IH|]. csimpl.
    destruct (decide (last ≠ Some k)); [|apply IH].
    destruct (IH (Some k) (keys ++ [k])) as [->|?]; [left|by right]. by rewrite <-app_assoc.
  - right. split; [done|]. by eexists.
Qed.

Lemma elem_of_squeeze last ks k :
  k ∈ squeeze last ks ∨ last = Some k ↔ k ∈ ks ∨ last = Some k.
Proof.
  revert last. induction ks as [|k' ks IH]; intros last; cbn [squeeze]; [done|].
  case_decide as D; rewrite !elem_of_cons; [specialize (IH (Some k'))|specialize (IH last)];
    destruct (decide (k = k')) as [->|]; naive_solver.
Qed.

Lemma elem_of_squeeze_None ks k : k ∈ squeeze None ks ↔ k ∈ ks.
Proof. pose proof (elem_of_squeeze None ks k). naive_solver. Qed.

Lemma elem_of_vec_dedup l k : k ∈ vec_dedup l ↔ k ∈ l.
Proof.
  induction l as [|x l IH]; cbn [vec_dedup]; [done|]. rewrite elem_of_cons, <-IH.
  destruct (vec_dedup l) as [|y r]; [by rewrite list_elem_of_singleton, elem_of_nil; naive_solver|].
  case_decide; rewrite !elem_of_cons; naive_solver.
Qed.

(** Dropping neighbours from a sorted list leaves a strictly sorted one. *)
Lemma vec_dedup_sorted l : StronglySorted bytes_le l → StronglySorted bytes_lt (vec_dedup l).
Proof.
  induction 1 as [|x l Hs IH Hx]; cbn [vec_dedup]; [constructor|].
  destruct (vec_dedup l) as [|y r] eqn:E; [by repeat constructor|].
  assert (Forall (bytes_le x) (y :: r)) as Hle.
  { rewrite Forall_forall in Hx |- *. intros z. rewrite <-E, elem_of_vec_dedup. apply Hx. }
  case_decide as D; [done|]. constructor; [done|].
  apply Forall_cons in Hle as [Hxy _]. apply bytes_le_lt_eq in Hxy as [Hxy|]; [|done].
  constructor; [done|]. apply StronglySorted_inv in IH as [_ Hy].
  eapply Forall_impl; [exact Hy|]. intros z. by apply bytes_lt_trans.
Qed.

Lemma elem_of_entry_keys a b s k :
  k ∈ entry_keys a b (entries_of (s_write s)) ↔
  ¬ out_of_range a b k ∧ ∃ c v, u64 c ∧ s_write s !! KeyEncoder_encode k c = Some v.
Proof.
  unfold entry_keys. rewrite list_elem_of_omap. split.
  - intros ([e v] & Hin%elem_of_entries_of & E). cbn [fst] in E.
    destruct (KeyEncoder_decode e) as [[k' c]|] eqn:D; [|done].
    apply KeyEncoder_encode_decode in D as [-> Hc]. case_decide; [done|]. simplify_eq. eauto.
  - intros (Hr & c & v & Hc & Hv). exists (KeyEncoder_encode k c, v).
    rewrite elem_of_entries_of. split; [done|]. cbn [fst].
    rewrite KeyEncoder_decode_encode by done. by rewrite decide_False.
Qed.

Lemma elem_of_range_keys a b s k :
  k ∈ range_keys a b s ↔
  ¬ out_of_range a b k ∧ ∃ c v, u64 c ∧ s_write s !! KeyEncoder_encode k c = Some v.
Proof.
  unfold range_keys. by rewrite elem_of_vec_dedup, merge_sort_Permutation, elem_of_squeeze_None,
    elem_of_entry_keys.
Qed.

Lemma range_keys_sorted a b s : StronglySorted bytes_lt (range_keys a b s).
Proof. apply vec_dedup_sorted, StronglySorted_merge_sort; apply _. Qed.

Lemma wp_get_keys {FE : FjallErr} F T a b s :
  wp F T (StorageEngine_get_keys_in_range a b)
    (λ r s', s' = s ∧ (r = Ok (range_keys a b s) ∨ F ∧ ∃ e, r = Err (StorageError_Fjall e))) s.
Proof.
  apply wp_bind, wp_piter. intros its Hy. apply wp_ret. split; [done|].
  destruct (get_keys_loop_spec F a b its _ None [] Hy) as [->|(HF & e & ->)]; [by left|].
  right. eauto.
Qed.

(** ** The statistics *)
Definition entry_bytes (a b : bytes) (l : list (bytes * bytes)) : Z :=
  foldr (λ x n, match KeyEncoder_decode x.1 with
                | Ok (k, _) => if decide (out_of_range a b k) then n
                               else Z.of_nat (length x.1) + Z.of_nat (length x.2) + n
                | Err _ => n
                end) 0 l.

Lemma region_stats_loop_spec {FE : FjallErr} F a b its l last n t :
  yields F its l →
  region_stats_loop a b its last (u64_wrap n) (u64_wrap t) =
    Ok (u64_wrap (n + Z.of_nat (length (squeeze last (entry_keys a b l)))),
        u64_wrap (t + entry_bytes a b l)) ∨
  F ∧ ∃ e, region_stats_loop a b its last (u64_wrap n) (u64_wrap t) = Err (StorageError_Fjall e).
Proof.
  intros Hy. revert last n t.
  induction Hy as [|[e v] its l Hy IH|e its l HF]; intros last n t; cbn [region_stats_loop].
  - left. by rewrite !Z.add_0_r.
  - unfold entry_keys. csimpl. fold (entry_keys a b l) (entry_bytes a b l).
    destruct (KeyEncoder_decode e) as [[k c]|]; [|apply IH].
    destruct (decide (out_of_range a b k)); [apply IH|]. csimpl.
    set (x := Z.of_nat (length e)). set (y := Z.of_nat (length v)).
    replace (u64_add (u64_wrap t) (u64_add x y)) with (u64_wrap (t + (x + y)))
      by (unfold u64_add, u64_wrap; by rewrite <-Zplus_mod).
    replace (u64_add (u64_wrap n) 1) with (u64_wrap (n + 1))
      by (unfold u64_add, u64_wrap; by rewrite Zplus_mod_idemp_l).
    rewrite (Z.add_assoc t (x + y)). destruct (decide (last ≠ Some k)); [|apply IH].
    destruct (IH (Some k) (n + 1) (t + (x + y))) as [->|?]; [left|by right].
    cbn [length]. do 3 f_equal. lia.
  - right. split; [done|]. by eexists.
Qed.

Lemma wp_region_stats {FE : FjallErr} F T a b s :
  wp F T (StorageEngine_calculate_region_stats a b)
    (λ r s', s' = s ∧
       (r = Ok (u64_wrap (Z.of_nat (length (squeeze None (entry_keys a b (entries_of (s_write s)))))),
                u64_wrap (entry_bytes a b (entries_of (s_write s)))) ∨
        F ∧ ∃ e, r = Err (StorageError_Fjall e))) s.
Proof.
  apply wp_bind, wp_piter. intros its Hy. apply wp_ret. split; [done|].
  apply (region_stats_loop_spec F a b its _ None 0 0 Hy).
Qed.

(** Over keys of which none is a prefix of another, the entries list the keys
    in order, so each key is counted once. *)
Lemma entry_keys_sorted K a b l :
  prefix_free K → StronglySorted entry_lt l →
  (∀ e w, (e, w) ∈ l → ∃ k c, K k ∧ u64 c ∧ e = KeyEncoder_encode k c) →
  StronglySorted bytes_le (entry_keys a b l).
Proof.
  intros HK Hs. induction Hs as [|[e v] l Hs IH Hx]; intros Hkeys; [constructor|].
  assert (StronglySorted bytes_le (entry_keys a b l)) as IH'.
  { apply IH. intros e' w' ?. apply (Hkeys e' w'). by right. }
  unfold entry_keys. csimpl. fold (entry_keys a b l).
  destruct (Hkeys e v) as (k & c & Hk & Hc & ->); [by left|].
  rewrite KeyEncoder_decode_encode by done. case_decide; [done|].
  constructor; [done|]. apply Forall_forall. intros k' Hk'.
  unfold entry_keys in Hk'. rewrite list_elem_of_omap in Hk'. destruct Hk' as ([e' w] & Hin & E).
  destruct (Hkeys e' w) as (k2 & c2 & Hk2 & Hc2 & ->); [by right|]. cbn [fst] in E.
  rewrite KeyEncoder_decode_encode in E by done. case_decide; [done|]. injection E as ->.
  destruct (decide (k = k')) as [->|Hne]; [apply bytes_le_lt_eq; by right|].
  apply (proj1 (Forall_forall _ _) Hx) in Hin. unfold entry_lt in Hin. cbn [fst] in Hin. apply bytes_lt_le.
  unfold bytes_lt, KeyEncoder_encode in Hin. rewrite lex_compare_app_incomparable in Hin; [done|..];
    intros Hp; apply HK in Hp; congruence.
Qed.

Lemma squeeze_sorted last ks :
  StronglySorted bytes_le ks → (∀ k0, last = Some k0 → Forall (bytes_le k0) ks) →
  StronglySorted bytes_lt (squeeze last ks) ∧
  ∀ k0, last = Some k0 → Forall (bytes_lt k0) (squeeze last ks).
Proof.
  intros Hs. revert last. induction Hs as [|k ks Hs IH Hx]; intros last Hlast; cbn [squeeze].
  { split; [constructor|]. auto. }
  case_decide as D.
  - destruct (IH (Some k)) as [IH1 IH2]; [by intros ? [= <-]|]. specialize (IH2 k eq_refl).
    split; [by constructor|]. intros k0 ->. specialize (Hlast k0 eq_refl).
    apply Forall_cons in Hlast as [Hk0 _].
    assert (bytes_lt k0 k) as Hlt by (apply bytes_le_lt_eq in Hk0 as [?|]; congruence).
    constructor; [done|]. eapply Forall_impl; [exact IH2|]. intros z. by apply bytes_lt_trans.
  - apply IH. intros k0 E. specialize (Hlast k0 E). by apply Forall_cons in Hlast as [_ ?].
Qed.

Lemma bytes_lt_sorted_nodup l : StronglySorted bytes_lt l → NoDup l.
Proof.
  induction 1 as [|k l Hs IH Hx]; constructor; [|done]. intros Hin.
  apply (proj1 (Forall_forall _ _) Hx) in Hin. by apply (irreflexivity bytes_lt) in Hin.
Qed.

Lemma vec_dedup_id l : NoDup l → vec_dedup l = l.
Proof.
  induction 1 as [|x l Hx Hnd IH]; cbn [vec_dedup]; [done|]. rewrite IH.
  destruct l as [|y l]; [done|]. rewrite decide_False; [done|]. intros ->. apply Hx. by left.
Qed.

Lemma range_keys_length K a b s :
  prefix_free K → inv K s →
  length (range_keys a b s) = length (squeeze None (entry_keys a b (entries_of (s_write s)))).
Proof.
  intros HK Hi. destruct (squeeze_sorted None (entry_keys a b (entries_of (s_write s)))) as [Hs _];
    [|done|].
  { apply (entry_keys_sorted K); [done|apply StronglySorted_entries_of|by apply inv_entries]. }
  unfold range_keys. rewrite vec_dedup_id.
  - by rewrite merge_sort_Permutation.
  - rewrite merge_sort_Permutation. by apply bytes_lt_sorted_nodup.
Qed.

(** ** Theorems *)
Section Theorems.
Context {FE : FjallErr} (F : Prop) (T : Z → Prop).
Context {W : Type} `{!Fjall FE W} (view : W → Store) (L : FjallLaws F T W view).

(** C18: what garbage collection does to the snapshots at or above the safe
    point, key by key, for a key on which no transaction left two records.  The
    snapshot at [ts] is kept, whether the collection succeeds or fails, when the
    newest record of the key below the safe point is not a rollback over a
    committed version, or when a version was committed from the safe point up to
    [ts].  In the remaining case the collector removes the live version: after a
    successful collection an unlocked key reads as absent. *)
Theorem gc_snapshots K (HK : prefix_free K) sp w r w' k ts :
  inv K (view w) → sp ≤ ts → one_record (view w) k →
  run (StorageEngine_gc_keys_older_than sp) w = (r, w') →
  (¬ shadowed (view w) k sp ∨ covered (view w) k sp ts →
     ∀ rr, snapshot_read (view w) k ts rr → snapshot_read (view w') k ts rr) ∧
  (shadowed (view w) k sp → ¬ covered (view w) k sp ts → unlocked_at (view w) k ts →
     (∃ n, r = Ok n) → snapshot_read (view w') k ts (Ok None)).
Proof.
  intros Hi Hts Hone Hr. pose proof (inv_wf _ _ Hi) as Hwf.
  pose proof (run_wp F T view L _ _ _ _ _ Hr (wp_gc F T sp _)) as Hgc. split.
  - intros Hok rr Hsr. pose proof (gc_keeps_snapshot _ sp ts Hwf Hts k rr Hone Hok Hsr) as Hsr'.
    destruct Hgc as [(_ & ->)|(_ & _ & [->| ->])]; done.
  - intros Hsh Hnc Hu [n ->]. destruct Hgc as [(_ & ->)|(_ & [e ?] & _)]; [|done].
    by apply (gc_loses_shadowed _ sp ts Hwf K).
Qed.

(** C19: a collection that returns [Ok n] has removed exactly [n] versions: it
    leaves at most one version of each key below the safe point and keeps
    every version at or above it. *)
Theorem gc_leaves_one_version K (HK : prefix_free K) sp w n w' :
  inv K (view w) → run (StorageEngine_gc_keys_older_than sp) w = (Ok n, w') →
  (∀ k c c' r r', u64 c → u64 c' → c < sp → c' < sp →
     write_at (view w') k c = Some r → write_at (view w') k c' = Some r' → c = c') ∧
  (∀ k c r, u64 c → sp ≤ c → write_at (view w) k c = Some r → write_at (view w') k c = Some r) ∧
  n = length (store_victims sp (view w)).
Proof.
  intros Hi Hr. pose proof (inv_wf _ _ Hi) as Hwf.
  destruct (run_wp F T view L _ _ _ _ _ Hr (wp_gc F T sp _)) as [([= ->] & E)|(_ & [e ?] & _)]; [|done].
  pose proof (store_victims_u64 (view w) sp Hwf) as Hu64.
  assert (∀ k c c' r r', u64 c → u64 c' → c' < sp → write_at (view w') k c = Some r →
    write_at (view w') k c' = Some r' → c < c' → False) as Hone.
  { intros k c c' r r' Hc Hc' Hlt Hr1 Hr2 Hcc. rewrite E in Hr1, Hr2.
    apply collect_write_at in Hr2 as [Hr2 _]; [|done..].
    exact (collected (view w) sp Hwf K k c r c' r' HK Hi Hc Hc' ltac:(lia) Hr2 Hr1). }
  split_and!; [|..|done].
  - intros k c c' r r' ? ? ? ? Hr1 Hr2.
    destruct (Z.lt_total c c') as [?|[?|?]]; [|done|]; exfalso;
      [by apply (Hone k c c' r r')|by apply (Hone k c' c r' r)].
  - intros k c r Hc Hsp Hrc. rewrite E. apply collect_write_at; [done..|]. split; [done|].
    intros (v & Hv & <- & <-). apply (store_victims_sound sp _ v Hwf) in Hv as (_ & ? & _). lia.
Qed.

(** The key listing of a range is the strictly sorted list of the user
    keys with a version in it, start inclusive, end exclusive, an empty bound
    unlimited; it changes nothing. *)
Theorem keys_in_range_sorted_set a b w ks w' :
  run (StorageEngine_get_keys_in_range a b) w = (Ok ks, w') →
  view w' = view w ∧ StronglySorted bytes_lt ks ∧
  ∀ k, k ∈ ks ↔ (a = [] ∨ bytes_le a k) ∧ (b = [] ∨ bytes_lt k b) ∧
    ∃ c v, u64 c ∧ s_write (view w) !! KeyEncoder_encode k c = Some v.
Proof.
  intros Hr. destruct (run_wp F T view L _ _ _ _ _ Hr (wp_get_keys F T a b _))
    as [-> [[= ->]|(_ & e & ?)]]; [|done].
  split_and!; [done|apply range_keys_sorted|]. intros k. rewrite elem_of_range_keys.
  unfold out_of_range. rewrite <-(bytes_not_lt_ge k a).
  assert (bytes_lt k b ↔ ¬ bytes_le b k) as -> by (rewrite bytes_le_not_lt; destruct (decide (bytes_lt k b)); tauto).
  destruct (decide (a = [])), (decide (b = [])), (decide (bytes_lt k a)), (decide (bytes_le b k)); tauto.
Qed.

(** The region statistics count each key of the range once, modulo the
    64-bit counters: the key count is the length of the key listing, and the
    byte total sums the entries of the range. *)
Theorem region_stats_count K (HK : prefix_free K) a b w n t w1 ks w2 :
  inv K (view w) →
  run (StorageEngine_calculate_region_stats a b) w = (Ok (n, t), w1) →
  run (StorageEngine_get_keys_in_range a b) w1 = (Ok ks, w2) →
  n = u64_wrap (Z.of_nat (length ks)) ∧
  t = u64_wrap (entry_bytes a b (entries_of (s_write (view w)))).
Proof.
  intros Hi Hr1 Hr2.
  destruct (run_wp F T view L _ _ _ _ _ Hr1 (wp_region_stats F T a b _)) as [E [[= -> ->]|(_ & e & ?)]]; [|done].
  destruct (run_wp F T view L _ _ _ _ _ Hr2 (wp_get_keys F T a b _)) as [_ [[= ->]|(_ & e & ?)]]; [|done].
  by rewrite E, (range_keys_length K).
Qed.

(** A median key splits its range into two parts that both hold keys: it is in
    the range, some key of the range is below it, and it is found exactly when
    the range has two keys. *)
Lemma find_median_spec a b w r w' :
  run (StorageEngine_find_median_key a b) w = (Ok r, w') →
  view w' = view w ∧
  match r with
  | Some m => m ∈ range_keys a b (view w) ∧
              ∃ k, k ∈ range_keys a b (view w) ∧ bytes_lt k m
  | None => (length (range_keys a b (view w)) < 2)%nat
  end.
Proof.
  intros Hr. pose proof (range_keys_sorted a b (view w)) as Hs.
  remember (range_keys a b (view w)) as ks eqn:Eks. remember (length ks / 2)%nat as mid eqn:Emid.
  assert (wp F T (StorageEngine_find_median_key a b) (λ r s', s' = view w ∧
    (r = Ok (if decide (length ks < 2)%nat then None else ks !! mid) ∨
     ∃ e, r = Err e)) (view w)) as Hwp.
  { apply wp_try. eapply wp_mono, wp_get_keys. intros r' s' [-> [->|(_ & e & ->)]]; [|eauto].
    rewrite <-Eks, <-Emid. case_decide; apply wp_ret; eauto. }
  destruct (run_wp F T view L _ _ _ _ _ Hr Hwp) as [-> [E|[e ?]]]; [|done]. split; [done|].
  injection E as ->. case_decide as D; [done|].
  assert (∃ i, mid = S i ∧ (S i < length ks)%nat) as (i & -> & Hlt).
  { exists (mid - 1)%nat. subst mid. pose proof (Nat.div_lt (length ks) 2 ltac:(lia) ltac:(lia)).
    pose proof (Nat.Div0.div_le_mono 2 (length ks) 2 ltac:(lia)) as H2.
    change (2 / 2)%nat with 1%nat in H2. lia. }
  destruct ks as [|k ks]; [by apply Nat.nlt_0_r in Hlt|].
  destruct (lookup_lt_is_Some_2 ks i) as [m Hm]; [cbn [length] in Hlt; lia|].
  change ((k :: ks) !! S i) with (ks !! i). rewrite Hm.
  apply list_elem_of_lookup_2 in Hm. split; [by right|]. exists k. split; [by left|].
  apply StronglySorted_inv in Hs as [_ Hk]. by apply (proj1 (Forall_forall _ _) Hk).
Qed.
End Theorems.

(** ** Concrete collections *)

(** Keys of one byte; [a] was written at 15 and 35, with a transaction that
    started at 20 rolled back in between. *)
Definition one_byte_key (k : bytes) : Prop := length k = 1%nat.
Definition gc_store (recs : list (Z * WriteRecord)) : Store :=
  mkStore
    (list_to_map ((λ x : Z * WriteRecord,
       (KeyEncoder_encode (of_str "a") (wr_start_ts x.2), of_str "v")) <$> recs)) ∅
    (list_to_map ((λ x : Z * WriteRecord,
       (KeyEncoder_encode (of_str "a") x.1, WriteRecord_to_bytes x.2)) <$> recs)).

Definition gc_run (sp : Z) (s : Store) : result (@StorageError Mem_err) nat * Store :=
  @run _ _ (Mem 0) _ (StorageEngine_gc_keys_older_than sp) s.

(** The newest record below the safe point is kept even when it is a
    rollback: with versions committed at 15 and a rollback at 20, collecting
    below 30 deletes the live version, and the value is gone from every later
    snapshot. *)
Theorem gc_drops_live_version :
  let s := gc_store [(15, WriteRecord_new 10 Put); (20, WriteRecord_new 20 Rollback)] in
  (@run _ _ (Mem 0) _ (MvccReader_get (of_str "a") 40) s).1 = Ok (Some (of_str "v")) ∧
  (gc_run 30 s).1 = Ok 1%nat ∧
  (@run _ _ (Mem 0) _ (MvccReader_get (of_str "a") 40) (gc_run 30 s).2).1 = Ok None.
Proof. by vm_compute. Qed.

Lemma gc_store_write recs e v :
  s_write (gc_store recs) !! e = Some v →
  ∃ c r, (c, r) ∈ recs ∧ e = KeyEncoder_encode (of_str "a") c ∧ v = WriteRecord_to_bytes r.
Proof.
  intros H%elem_of_list_to_map_2. apply list_elem_of_fmap in H as ([c r] & [= -> ->] & H). eauto.
Qed.

Lemma gc_store_inv recs :
  Forall (λ x : Z * WriteRecord, u64 x.1 ∧ u64 (wr_start_ts x.2)) recs →
  inv one_byte_key (gc_store recs).
Proof.
  intros Hf. rewrite Forall_forall in Hf. split; [split|..].
  - intros e v (c & r & Hin & -> & ->)%gc_store_write. rewrite length_KeyEncoder_encode.
    split; [lia|]. destruct (Hf _ Hin). rewrite WriteRecord_from_to by done. by eexists.
  - done.
  - intros k c Hc [v (c' & r & Hin & E & _)%gc_store_write]. destruct (Hf _ Hin).
    by apply KeyEncoder_encode_inj in E as [-> _].
  - done.
Qed.

Lemma gc_store_write_at recs k c r :
  Forall (λ x : Z * WriteRecord, u64 x.1 ∧ u64 (wr_start_ts x.2)) recs → u64 c →
  write_at (gc_store recs) k c = Some r → k = of_str "a" ∧ (c, r) ∈ recs.
Proof.
  intros Hf Hc (v & (c' & r' & Hin & E & ->)%gc_store_write & Hr)%bind_Some.
  rewrite Forall_forall in Hf. destruct (Hf _ Hin). apply KeyEncoder_encode_inj in E as [-> ->]; [|done..].
  rewrite WriteRecord_from_to in Hr by done. by injection Hr as <-.
Qed.

Definition gc_example : list (Z * WriteRecord) :=
  [(15, WriteRecord_new 10 Put); (20, WriteRecord_new 20 Rollback);
   (25, WriteRecord_new 22 Put); (35, WriteRecord_new 30 Put)].

Lemma gc_example_fits : Forall (λ x : Z * WriteRecord, u64 x.1 ∧ u64 (wr_start_ts x.2)) gc_example.
Proof. by repeat constructor. Qed.

Lemma gc_example_records k c r :
  u64 c → write_at (gc_store gc_example) k c = Some r → k = of_str "a" ∧ (c, r) ∈ gc_example.
Proof. intros Hc Hr. by apply gc_store_write_at in Hr; [|apply gc_example_fits|]. Qed.

Lemma gc_example_one_record : one_record (gc_store gc_example) (of_str "a").
Proof.
  intros c r c' r' Hc Hc' [_ Hr]%gc_example_records [_ Hr']%gc_example_records Es; [|done..].
  unfold gc_example in Hr, Hr'. rewrite !elem_of_cons, elem_of_nil in Hr, Hr'. naive_solver.
Qed.

Lemma gc_example_not_shadowed : ¬ shadowed (gc_store gc_example) (of_str "a") 30.
Proof.
  intros (c & r & _ & _ & Hc & Hlt & [_ Hr]%gc_example_records & Hrb & Hmax & _); [|done].
  assert (25 ≤ c) by (apply (Hmax 25 (WriteRecord_new 22 Put)); [done|lia|by vm_compute]).
  unfold gc_example in Hr. rewrite !elem_of_cons, elem_of_nil in Hr.
  destruct Hr as [[= -> ->]|[[= -> ->]|[[= -> ->]|[[= -> ->]|[]]]]]; cbn in *; done || lia.
Qed.

Lemma gc_laws : @FjallLaws Mem_err False (λ _, True) Store (Mem 0) id.
Proof. by apply Mem_laws. Qed.

Lemma gc_example_read :
  snapshot_read (gc_store gc_example) (of_str "a") 32
    (@Ok (@MvccError Mem_err) _ (Some (of_str "v"))).
Proof.
  apply (SR_value _ _ _ 25 (WriteRecord_new 22 Put)); [done| |done|by vm_compute].
  split_and!; [done|done|by vm_compute|done|]. intros c r Hc Hle Hr _.
  apply gc_store_write_at in Hr as [_ Hr]; [|apply gc_example_fits|done].
  unfold gc_example in Hr. rewrite !elem_of_cons, elem_of_nil in Hr. naive_solver lia.
Qed.

(** The key of [gc_drops_live_version]. *)
Definition gc_shadowed_example : list (Z * WriteRecord) :=
  [(15, WriteRecord_new 10 Put); (20, WriteRecord_new 20 Rollback)].

Lemma gc_shadowed_fits :
  Forall (λ x : Z * WriteRecord, u64 x.1 ∧ u64 (wr_start_ts x.2)) gc_shadowed_example.
Proof. by repeat constructor. Qed.

Lemma gc_shadowed_records k c r :
  u64 c → write_at (gc_store gc_shadowed_example) k c = Some r →
  (c, r) = (15, WriteRecord_new 10 Put) ∨ (c, r) = (20, WriteRecord_new 20 Rollback).
Proof.
  intros Hc Hr. apply gc_store_write_at in Hr as [_ Hr]; [|apply gc_shadowed_fits|done].
  unfold gc_shadowed_example in Hr. rewrite !elem_of_cons, elem_of_nil in Hr. tauto.
Qed.

Lemma gc_snapshots_witness :
  snapshot_read (gc_run 30 (gc_store gc_example)).2 (of_str "a") 32
    (@Ok (@MvccError Mem_err) _ (Some (of_str "v"))) ∧
  snapshot_read (gc_run 30 (gc_store gc_shadowed_example)).2 (of_str "a") 40
    (@Ok (@MvccError Mem_err) _ None).
Proof.
  split.
  - apply (gc_snapshots False (λ _, True) id gc_laws one_byte_key (prefix_free_length 1) 30
      (gc_store gc_example) (gc_run 30 (gc_store gc_example)).1).
    + apply gc_store_inv, gc_example_fits.
    + done.
    + apply gc_example_one_record.
    + apply surjective_pairing.
    + left. apply gc_example_not_shadowed.
    + apply gc_example_read.
  - apply (gc_snapshots False (λ _, True) id gc_laws one_byte_key (prefix_free_length 1) 30
      (gc_store gc_shadowed_example) (gc_run 30 (gc_store gc_shadowed_example)).1).
    + apply gc_store_inv, gc_shadowed_fits.
    + done.
    + intros c r c' r' Hc Hc' Hr%gc_shadowed_records Hr'%gc_shadowed_records Es; [|done..].
      destruct Hr as [[= -> ->]|[= -> ->]], Hr' as [[= -> ->]|[= -> ->]]; done.
    + apply surjective_pairing.
    + exists 20, (WriteRecord_new 20 Rollback), 15, (WriteRecord_new 10 Put).
      split_and!; try done; [|by vm_compute..].
      intros c2 r2 Hc2 _ Hr2%gc_shadowed_records; [|done]. destruct Hr2 as [[= -> ->]|[= -> ->]]; lia.
    + intros (c & r & Hc & Hb & Hr%gc_shadowed_records & _); [|done].
      destruct Hr as [[= -> ->]|[= -> ->]]; lia.
    + done.
    + exists 1%nat. by vm_compute.
Defined.

Lemma gc_leaves_one_version_witness :
  2%nat = length (store_victims 30 (gc_store gc_example)).
Proof.
  apply (gc_leaves_one_version False (λ _, True) id gc_laws one_byte_key (prefix_free_length 1) 30
    (gc_store gc_example) 2 (gc_run 30 (gc_store gc_example)).2).
  - apply gc_store_inv, gc_example_fits.
  - apply run_result. by vm_compute.
Defined.

(** Two keys, written at 5 and 6, and [a] again at 7. *)
Definition range_example : Store :=
  mkStore ∅ ∅ (list_to_map
    [(KeyEncoder_encode (of_str "a") 5, WriteRecord_to_bytes (WriteRecord_new 4 Put));
     (KeyEncoder_encode (of_str "b") 6, WriteRecord_to_bytes (WriteRecord_new 5 Put));
     (KeyEncoder_encode (of_str "a") 7, WriteRecord_to_bytes (WriteRecord_new 6 Delete))]).

Lemma range_example_inv : inv one_byte_key range_example.
Proof.
  split; [split|..].
  - intros e v H%elem_of_list_to_map_2. rewrite !elem_of_cons, elem_of_nil in H.
    destruct H as [H|[H|[H|[]]]]; pose proof (f_equal fst H) as E; apply (f_equal snd) in H;
      cbn [fst snd] in *; subst e v; rewrite length_KeyEncoder_encode, WriteRecord_from_to by done;
      (split; [lia|by eexists]).
  - done.
  - intros k c Hc [v H%elem_of_list_to_map_2]. rewrite !elem_of_cons, elem_of_nil in H.
    destruct H as [H|[H|[H|[]]]]; apply (f_equal fst) in H;
      by apply KeyEncoder_encode_inj in H as [-> _].
  - done.
Qed.

Lemma keys_in_range_sorted_set_witness :
  StronglySorted bytes_lt [of_str "a"; of_str "b"].
Proof.
  apply (keys_in_range_sorted_set False (λ _, True) id gc_laws (of_str "a") [] range_example _
    (@run _ _ (Mem 0) _ (StorageEngine_get_keys_in_range (of_str "a") []) range_example).2).
  apply run_result. by vm_compute.
Defined.

Lemma region_stats_count_witness :
  2 = u64_wrap (Z.of_nat (length [of_str "a"; of_str "b"])).
Proof.
  apply (region_stats_count False (λ _, True) id gc_laws one_byte_key (prefix_free_length 1) [] []
    range_example 2 54
    (@run _ _ (Mem 0) _ (StorageEngine_calculate_region_stats [] []) range_example).2
    [of_str "a"; of_str "b"]
    (@run _ _ (Mem 0) _ (StorageEngine_get_keys_in_range [] [])
      (@run _ _ (Mem 0) _ (StorageEngine_calculate_region_stats [] []) range_example).2).2).
  - apply range_example_inv.
  - apply run_result. by vm_compute.
  - apply run_result. by vm_compute.
Defined.
