(* ===== verification/Scan.v ===== *)
(** * Range scans: [scan] of [crates/txn-coordinator/src/coordinator.rs]

    A scan lists the WRITE partition once and reads every key it meets through
    [get], which may resolve locks on the way and so change the store under the
    scan.  The theorem: a scan that succeeds returns, in key order and without
    repetitions, only keys of the range that have a value in the snapshot of the
    store it leaves, and, up to the limit, all of them but possibly those that
    properly extend the start key; and when it fails it reports a lock that was
    there when it started, or a missing value. *)

From stdpp Require Import base list gmap sorting strings.
From Stdlib Require Import ZArith Lia Strings.Byte.
From S2P Require Import Prelude Codec Engine Mvcc View Hlc Resolver Coordinator CoordSpec Txn TxnThm EngineOps.

(** ** What a read does to the other keys *)

(** [k] looks the same in both stores. *)
Record same_key (s s' : Store) (k : bytes) : Prop := {
  sk_lock : lock_at s' k = lock_at s k;
  sk_write c : u64 c → write_at s' k c = write_at s k c;
  sk_data : s_default s' = s_default s
}.

(** A read of [k0] at [ts] leaves every other key without a lock in its way
    alone; elsewhere it removes locks and adds rollback records at most. *)
Record settles (ts : Z) (k0 : bytes) (s s' : Store) : Prop := {
  st_data : s_default s' = s_default s;
  st_lock k l : lock_at s' k = Some l → lock_at s k = Some l;
  st_quiet k : k ≠ k0 → unlocked_at s k ts → same_key s s' k;
  st_commit k c r : k ≠ k0 → u64 c → write_at s' k c = Some r → wr_op r ≠ Rollback →
    write_at s k c = Some r
}.

#[export] Instance settles_preorder ts k0 : PreOrder (settles ts k0).
Proof.
  split; [by intros s; split|]. intros s1 s2 s3 [D L Q C] [D' L' Q' C'].
  split; [congruence|eauto| |eauto 6].
  intros k Hk Hu. destruct (Q k Hk Hu) as [E1 E2 E3].
  destruct (Q' k Hk) as [E1' E2' E3']; [by intros l; rewrite E1; apply Hu|].
  split; [congruence| |congruence]. intros c Hc. by rewrite E2', E2.
Qed.

Lemma snapshot_read_same {FE : FjallErr} s s' k ts r :
  same_key s s' k → snapshot_read s k ts r → snapshot_read s' k ts r.
Proof.
  intros [El Ew Ed]. apply snapshot_read_same_upto. split; [done|by intros; rewrite Ew|].
  intros. unfold data_at. by rewrite Ed.
Qed.

Lemma rollback_key_write k ts s k' c :
  u64 ts → u64 c → write_at (rollback_key k ts s) k' c =
  if decide (k' = k ∧ c = ts) then Some (WriteRecord_new ts Rollback) else write_at s k' c.
Proof. intros. unfold rollback_key. by view_simpl. Qed.

Lemma commit_key_write k ts c op s k' c' :
  u64 ts → u64 c → u64 c' → write_at (commit_key k ts c op s) k' c' =
  if decide (k' = k ∧ c' = c) then Some (WriteRecord_new ts op) else write_at s k' c'.
Proof. intros. unfold commit_key. by view_simpl. Qed.

Lemma maybe_expire_settles ts k0 s pk ts' s' :
  u64 ts' → ts' ≤ ts → maybe_expire s pk ts' s' → settles ts k0 s s'.
Proof.
  intros Hu Hle [->|(l & Hl & Hts & ->)]; [done|]. split.
  - done.
  - intros k l'. rewrite rollback_key_lock. by case_decide.
  - intros k _ Hk. assert (k ≠ pk) as Hne by (intros ->; specialize (Hk l Hl); lia).
    split; [by rewrite rollback_key_lock, decide_False| |done].
    intros c Hc. rewrite rollback_key_write, decide_False by naive_solver. done.
  - intros k c r _ Hc. rewrite rollback_key_write by done. case_decide; [|done].
    by intros [= <-].
Qed.

Lemma rollback_key_settles ts k0 ts' s : u64 ts' → settles ts k0 s (rollback_key k0 ts' s).
Proof.
  intros Hu. split.
  - done.
  - intros k l. rewrite rollback_key_lock. by case_decide.
  - intros k Hk _. split; [by rewrite rollback_key_lock, decide_False| |done].
    intros c Hc. rewrite rollback_key_write, decide_False by naive_solver. done.
  - intros k c r Hk Hc. rewrite rollback_key_write, decide_False by naive_solver. done.
Qed.

Lemma commit_key_settles ts k0 ts' c op s :
  u64 ts' → u64 c → settles ts k0 s (commit_key k0 ts' c op s).
Proof.
  intros Hu Hc. split.
  - done.
  - intros k l. rewrite commit_key_lock. by case_decide.
  - intros k Hk _. split; [by rewrite commit_key_lock, decide_False| |done].
    intros c' Hc'. rewrite commit_key_write, decide_False by naive_solver. done.
  - intros k c' r Hk Hc'. rewrite commit_key_write, decide_False by naive_solver. done.
Qed.

Lemma coord_read_settles {FE : FjallErr} T s k ts r s' :
  coord_read T s k ts r s' → settles ts k s s'.
Proof.
  assert (∀ l s', lock_at s k = Some l → lk_start_ts l ≤ ts →
    resolve_partial s k (reader_lock l) s' → settles ts k s s') as H.
  { clear s'. intros l s' Hl Hle (s1 & He & Hs). apply wf_lock_val_lock_at in Hl as (Hts & _).
    etrans; [by eapply maybe_expire_settles|].
    destruct Hs as [->|[->|(c & Hc & ->)]];
      [done|by apply rollback_key_settles|by apply commit_key_settles]. }
  intros [rr Hu Hr|l rr s2 Hl Hle Hr _|l s2 Hl Hle Hr]; [done|..];
    eauto using resolved_partial.
Qed.

(** Without a lock on [k] it changes nothing. *)
Lemma coord_read_quiet {FE : FjallErr} T s k ts r s' :
  coord_read T s k ts r s' → lock_at s k = None → s' = s.
Proof. by intros [rr Hu Hr|l rr s2 Hl _ _ _|l s2 Hl _ _] Hn; [|congruence..]. Qed.

(** What a read of [k] that returned says about the store it leaves. *)
Lemma coord_read_snapshot {FE : FjallErr} T s k ts r s' :
  coord_read T s k ts r s' →
  match r with
  | Ok o => snapshot_read s' k ts (Ok o)
  | Err (KeyLocked k') => k' = k ∧ ∃ l, lock_at s k = Some l ∧ lk_start_ts l ≤ ts
  | Err (TxnError_Mvcc e) => snapshot_read s' k ts (Err e)
  | Err _ => False
  end.
Proof. intros [rr Hu Hr|l rr s2 Hl Hle Hr Hrr|l s2 Hl Hle Hr]; [by destruct rr..|eauto]. Qed.

(** The keys a scan may leave out: those that properly extend a start key that
    is not empty.  The seek key is the encoding of the start key, which sorts
    among theirs. *)
Definition skippable (start_key k : bytes) : Prop :=
  start_key ≠ [] ∧ start_key `prefix_of` k ∧ start_key ≠ k.

#[export] Instance skippable_dec a k : Decision (skippable a k).
Proof. unfold skippable. apply _. Defined.

(** ** The loop *)
Section Loop.
Context {FE : FjallErr} (F : Prop) (T : Z → Prop) (K : bytes → Prop) (HK : prefix_free K).
Context (start_key end_key : bytes) (limit ts : Z) (s0 : Store).

Abbreviation in_range k := (¬ out_of_range start_key end_key k).
Abbreviation reached k := (in_range k ∧ ¬ skippable start_key k).
Abbreviation entry := (bytes * bytes)%type.

(** Encodings of different keys compare as the keys do. *)
Lemma encode_compare k c k' c' :
  K k → K k' → k ≠ k' →
  lex_compare (KeyEncoder_encode k c) (KeyEncoder_encode k' c') = lex_compare k k'.
Proof.
  intros Hk Hk' Hne. apply lex_compare_app_incomparable; intros ?; apply Hne;
    [|symmetry]; by apply HK.
Qed.

(** Entries of the WRITE partition sort by user key. *)
Lemma encode_order k c k' c' :
  K k → K k' → bytes_lt (KeyEncoder_encode k c) (KeyEncoder_encode k' c') → bytes_le k k'.
Proof.
  intros Hk Hk' Hlt. destruct (decide (k = k')) as [->|Hne]; [done|].
  unfold bytes_lt in Hlt. rewrite encode_compare in Hlt by done. by apply bytes_lt_le.
Qed.

(** The seek key is at most every encoding of a larger key that does not extend
    the start key. *)
Lemma encode_seek c k' c' :
  start_key ≠ [] → ¬ skippable start_key k' → bytes_lt start_key k' →
  bytes_le (KeyEncoder_encode start_key c) (KeyEncoder_encode k' c').
Proof.
  intros Hne Hsk Hlt. apply bytes_lt_le. unfold bytes_lt.
  assert (start_key ≠ k') as Hk by (intros ->; by apply (irreflexivity bytes_lt k')).
  unfold KeyEncoder_encode. rewrite lex_compare_app_incomparable; [done| |].
  - intros Hp. by apply Hsk.
  - intros [y Hy]. apply (bytes_lt_not_ge _ _ Hlt). rewrite Hy. unfold bytes_le.
    rewrite <-(app_nil_r k') at 1. rewrite lex_compare_app. by destruct y.
Qed.

(** The rest of the listing: version entries in order. *)
Record listing (l : list entry) : Prop := {
  li_entry e v : (e, v) ∈ l → ∃ k c, e = KeyEncoder_encode k c ∧ u64 c ∧ K k;
  li_sorted : StronglySorted entry_lt l
}.

Definition lists (l : list entry) (k : bytes) : Prop :=
  ∃ c v, u64 c ∧ (KeyEncoder_encode k c, v) ∈ l.

(** The state of the loop: the entries [l] are left, [last] is the last key read,
    and [results] are the values so far. *)
Record scanning (l : list entry) (last : option bytes) (results : list (bytes * bytes))
    (s : Store) : Prop := {
  sc_inv : inv K s;
  sc_listing : listing l;
  sc_lock k x : lock_at s k = Some x → lock_at s0 k = Some x;
  sc_quiet : (∀ k, lock_at s0 k = None) → s = s0;
  sc_sorted : StronglySorted entry_lt results;
  sc_sound k v : (k, v) ∈ results →
    in_range k ∧ snapshot_read s k ts (Ok (Some v)) ∧ ∃ z, last = Some z ∧ bytes_le k z;
  sc_ahead z k : last = Some z → lists l k → bytes_le z k;
  sc_complete k c r : reached k → u64 c → c ≤ ts → write_at s k c = Some r →
    wr_op r ≠ Rollback →
    (∃ o, snapshot_read s k ts (Ok o) ∧ ∀ v, o = Some v → (k, v) ∈ results) ∨
    (last ≠ Some k ∧ lists l k)
}.

(** What a scan returns and leaves. *)
Record scanned (results : list (bytes * bytes)) (s : Store) : Prop := {
  sd_sorted : StronglySorted entry_lt results;
  sd_sound k v : (k, v) ∈ results → in_range k ∧ snapshot_read s k ts (Ok (Some v));
  sd_limit : 0 < limit → Z.of_nat (length results) ≤ limit;
  sd_complete k v : reached k → snapshot_read s k ts (Ok (Some v)) →
    (k, v) ∈ results ∨
    (0 < limit ∧ Z.of_nat (length results) = limit ∧
     ∀ k' v', (k', v') ∈ results → bytes_lt k' k)
}.

Definition scan_outcome (r : result TxnError (list (bytes * bytes))) (s : Store) : Prop :=
  inv K s ∧ ((∀ k, lock_at s0 k = None) → s = s0 ∨ F) ∧
  match r with
  | Ok results => scanned results s
  | Err (KeyLocked k) =>
      (in_range k ∧ ∃ l, lock_at s0 k = Some l ∧ lk_start_ts l ≤ ts) ∨ F
  | Err (TxnError_Mvcc e) => (∃ k, in_range k ∧ snapshot_read s k ts (Err e)) ∨ F
  | Err _ => F
  end.

Lemma lists_cons k c v l k' :
  u64 c → lists ((KeyEncoder_encode k c, v) :: l) k' → k' ≠ k → lists l k'.
Proof.
  intros Hc (c' & v' & Hc' & Hin) Hne. exists c', v'. split; [done|].
  apply elem_of_cons in Hin as [[= E _]|?]; [|done].
  by apply KeyEncoder_encode_inj in E as [? _].
Qed.

Lemma lists_tail x l k : lists l k → lists (x :: l) k.
Proof. intros (c & v & ? & ?). exists c, v. split; [done|by right]. Qed.

Lemma listing_head k c v l :
  u64 c → K k → listing ((KeyEncoder_encode k c, v) :: l) →
  listing l ∧ ∀ k', lists l k' → bytes_le k k'.
Proof.
  intros Hc Hk [He Hs]. apply StronglySorted_inv in Hs as [Hs Hx]. split.
  - split; [|done]. intros e w ?. apply (He e w). by right.
  - intros k' (c' & v' & Hc' & Hin). rewrite Forall_forall in Hx.
    destruct (He _ _ (list_elem_of_further _ _ _ Hin)) as (k2 & c2 & E & Hc2 & Hk2).
    apply KeyEncoder_encode_inj in E as [-> _]; [|done..].
    apply (encode_order k c k2 c'); [done..|]. by apply (Hx _ Hin).
Qed.

(** Skipping an entry whose key is out of range or was just read. *)
Lemma scanning_skip k c v l last results s :
  u64 c → K k → out_of_range start_key end_key k ∨ last = Some k →
  scanning ((KeyEncoder_encode k c, v) :: l) last results s → scanning l last results s.
Proof.
  intros Hc Hk Hskip [Hi Hl Hlk Hq Hs Hsd Ha Hcm].
  destruct (listing_head _ _ _ _ Hc Hk Hl) as [Hl' _]. split; try done.
  - intros z k' ? ?. by apply Ha; [|apply lists_tail].
  - intros k' c' r Hr Hc' Hle Hw Hop. destruct (Hcm k' c' r) as [?|[Hne Hin]]; [done..|by left|].
    right. split; [done|]. apply (lists_cons k c v); [done..|]. intros ->.
    destruct Hr as [Hr _]. by destruct Hskip.
Qed.

(** Reading the next key. *)
Lemma scanning_read k c v l last results s o s' :
  u64 c → K k → in_range k → last ≠ Some k →
  scanning ((KeyEncoder_encode k c, v) :: l) last results s →
  inv K s' → settles ts k s s' → (lock_at s k = None → s' = s) → snapshot_read s' k ts (Ok o) →
  scanning l (Some k) (results ++ match o with Some x => [(k, x)] | None => [] end) s'.
Proof.
  intros Hc Hk Hr Hne [Hi Hl Hlk Hq Hs Hsd Ha Hcm] Hi' [D L Q C] Hsame Hrd.
  destruct (listing_head _ _ _ _ Hc Hk Hl) as [Hl' Hge].
  assert (∀ k' v', (k', v') ∈ results → bytes_lt k' k) as Hbefore.
  { intros k' v' (_ & _ & z & Hz & Hle)%Hsd.
    assert (bytes_le z k) as Hzk by (apply Ha; [done|]; exists c, v; split; [done|by left]).
    apply bytes_le_lt_eq in Hzk as [? | ->]; [by eapply bytes_le_lt_trans|done]. }
  assert (∀ k' r, k' ≠ k → snapshot_read s k' ts (Ok r) → snapshot_read s' k' ts (Ok r)) as Hkeep.
  { intros k' r Hk' Hrd'. eapply snapshot_read_same, Hrd'. apply Q; [done|]. by inv Hrd'. }
  split; try done.
  - eauto.
  - intros H0. rewrite <-(Hq H0). apply Hsame. by rewrite (Hq H0).
  - destruct o as [x|]; [|by rewrite app_nil_r]. apply StronglySorted_app_2; [|done|by repeat constructor].
    intros [k1 v1] y Hin ->%list_elem_of_singleton. by apply (Hbefore k1 v1).
  - intros k' v' [Hin|Hin]%elem_of_app.
    + destruct (Hsd _ _ Hin) as (? & ? & _). pose proof (Hbefore _ _ Hin) as Hlt. split_and!; [done| |].
      * apply Hkeep; [|done]. intros ->. by apply (irreflexivity bytes_lt k).
      * exists k. split; [done|by apply bytes_lt_le].
    + destruct o as [x|]; [|by apply elem_of_nil in Hin].
      apply list_elem_of_singleton in Hin as [= -> ->].
      split_and!; [done|done|]. exists k. split; [done|]. reflexivity.
  - intros z k' [= <-]. apply Hge.
  - intros k' c' r Hr' Hc' Hle Hw Hop. destruct (decide (k' = k)) as [->|Hk'].
    { left. exists o. split; [done|]. intros x ->. apply elem_of_app. right. by left. }
    destruct (Hcm k' c' r) as [(o' & Ho' & Hin)|[Hne' Hin]]; [done..|by eapply C|done| |].
    + left. exists o'. split; [by apply Hkeep|]. intros x ->. apply elem_of_app. left. by apply Hin.
    + right. split; [congruence|]. exact (lists_cons k c v l k' Hc Hin Hk').
Qed.

(** The end of the listing, of the range, or of the limit. *)
Lemma scanning_scanned l last results s :
  scanning l last results s → (0 < limit → Z.of_nat (length results) ≤ limit) →
  (∀ k, reached k → lists l k → last ≠ Some k →
     0 < limit ∧ Z.of_nat (length results) = limit ∧
     ∀ k' v', (k', v') ∈ results → bytes_lt k' k) →
  scanned results s.
Proof.
  intros [Hi Hl Hlk Hq Hs Hsd Ha Hcm] Hlim Hrest. split; [done| |done|].
  - intros k v (? & ? & _)%Hsd. done.
  - intros k v Hr Hrd. pose proof Hrd as Hrd'. inv Hrd' as [| | |c r ? Hu Hn Hop Hd|].
    destruct Hn as (Hc & Hle & Hw & Hnr & _).
    destruct (Hcm k c r) as [(o & Ho & Hin)|[Hne Hin]]; [done..| |right; by apply Hrest].
    left. apply Hin. by pose proof (snapshot_read_functional _ _ _ _ _ Ho Hrd) as [= ->].
Qed.

Lemma txn_io_outcome r s : inv K s → F → txn_io r → scan_outcome r s.
Proof. by intros Hi HF [[e ->]|[(e & -> & _)|[e ->]]]; split_and!; auto. Qed.

(** Room for one more result. *)
Definition room (results : list (bytes * bytes)) : Prop :=
  0 < limit → Z.of_nat (length results) < limit.

Lemma room_le results : room results → 0 < limit → Z.of_nat (length results) ≤ limit.
Proof. intros Hr Hl. specialize (Hr Hl). lia. Qed.

(** The listing is past the end of the range. *)
Lemma scanning_end k c v l last results s :
  u64 c → K k → end_key ≠ [] → bytes_le end_key k → room results →
  scanning ((KeyEncoder_encode k c, v) :: l) last results s → scanned results s.
Proof.
  intros Hc Hk He Hge Hroom Hsc. eapply scanning_scanned; [done|by apply room_le|].
  intros k' [Hin _] Hl _. destruct Hin. right. split; [done|].
  destruct (decide (k' = k)) as [->|Hne]; [done|]. transitivity k; [done|].
  apply (listing_head _ _ _ _ Hc Hk (sc_listing _ _ _ _ Hsc)).
  exact (lists_cons k c v l k' Hc Hl Hne).
Qed.

(** The limit is reached with the value just read. *)
Lemma scanning_full k l results x s :
  (∀ k', lists l k' → bytes_le k k') → room results →
  0 < limit → limit ≤ Z.of_nat (length (results ++ [(k, x)])) →
  scanning l (Some k) (results ++ [(k, x)]) s → scanned (results ++ [(k, x)]) s.
Proof.
  intros Hge Hroom Hpos Hlim Hsc. specialize (Hroom Hpos).
  assert (Z.of_nat (length (results ++ [(k, x)])) = limit) as Hlen.
  { rewrite length_app in *. cbn [length] in *. lia. }
  eapply scanning_scanned; [done|lia|]. intros k' Hr' Hl' Hne. split_and!; [done..|].
  intros k2 v2 (_ & _ & z & [= <-] & Hle)%(sc_sound _ _ _ _ Hsc).
  eapply bytes_le_lt_trans; [done|]. apply Hge, bytes_le_lt_eq in Hl' as [? | ->]; done.
Qed.

Lemma wp_scan_loop its l last results s :
  yields F its l → u64 ts → scanning l last results s → room results →
  wp F T (Coordinator_scan_loop start_key end_key limit ts its last results) scan_outcome s.
Proof.
  intros Hy Hts. revert last results s.
  induction Hy as [|[e v] its l Hy IH|e its l HF]; intros last results s Hsc Hroom;
    cbn [Coordinator_scan_loop].
  { split_and!; [by eapply sc_inv|by left; eapply sc_quiet|]. eapply scanning_scanned; [done|by apply room_le|].
    intros k _ (c & w & _ & []%elem_of_nil). }
  2:{ split_and!; [by eapply sc_inv|by right|done]. }
  destruct (li_entry _ (sc_listing _ _ _ _ Hsc) e v) as (k & c & -> & Hc & Hk); [by left|].
  rewrite KeyEncoder_decode_encode by done.
  case_decide as Hlow; [apply IH; [|done]; eapply scanning_skip; [..|done]; try done; left; by left|].
  case_decide as Hhigh.
  { split_and!; [by eapply sc_inv|by left; eapply sc_quiet|]. destruct Hhigh. by eapply scanning_end. }
  case_decide as Hlast; [apply IH; [|done]; eapply scanning_skip; [..|done]; auto|].
  assert (in_range k) as Hin by (by intros [?|?]).
  apply wp_try. eapply wp_mono, wp_get; [|done|by eapply sc_inv|done..].
  intros r s' [Hi' [Hrd|(HF & Hio)]].
  - pose proof (coord_read_settles _ _ _ _ _ _ Hrd) as Hset.
    pose proof (coord_read_quiet _ _ _ _ _ _ Hrd) as Hsame.
    apply coord_read_snapshot in Hrd. destruct r as [o|e].
    + pose proof (scanning_read _ _ _ _ _ _ _ _ _ Hc Hk Hin Hlast Hsc Hi' Hset Hsame Hrd) as Hsc'.
      destruct o as [x|]; [|rewrite app_nil_r in Hsc'; by apply IH].
      case_decide as Hlim; [|apply IH; [done|]; intros ?; lia].
      split_and!; [done|by left; eapply sc_quiet|]. destruct Hlim. eapply scanning_full; try done.
      apply (listing_head _ _ _ _ Hc Hk (sc_listing _ _ _ _ Hsc)).
    + split_and!; [done| |].
      { intros H0. left. rewrite <-(sc_quiet _ _ _ _ Hsc H0). apply Hsame.
        by rewrite (sc_quiet _ _ _ _ Hsc H0). }
      destruct e; try done; [left; eauto|].
      destruct Hrd as (-> & x & Hx & ?). left. split; [done|]. exists x. split; [|done].
      by eapply sc_lock.
  - destruct Hio as [Hio| ->]; [|by split_and!; [|right|right]].
    pose proof (txn_io_err _ Hio) as [e ->].
    apply txn_io_outcome; [done..|]. destruct Hio as [[e' E]|[(e' & E & ?)|[e' E]]]; injection E as ->.
    + by left; eexists.
    + right; left. by eexists.
    + right; right. by eexists.
Qed.

Lemma wp_scan :
  inv K s0 → u64 ts →
  wp F T (Coordinator_scan start_key end_key limit ts) scan_outcome s0.
Proof.
  intros Hi Hts. unfold Coordinator_scan. apply wp_bind, wp_prange. intros its Hy.
  eapply wp_scan_loop; [done|done| |by intros ?].
  set (seek := match start_key with [] => [] | _ => KeyEncoder_encode start_key ts end).
  split; try done; [|constructor|by intros ?? ?%elem_of_nil|].
  - split; [|apply StronglySorted_range_from]. intros e v [He _]%elem_of_range_from.
    cbn [part] in He. destruct (wf_write _ (inv_wf _ _ Hi) _ _ He) as [Hlen _].
    destruct (KeyEncoder_decode e) as [[k c]|[]] eqn:E; [|apply KeyEncoder_decode_err in E; lia].
    apply KeyEncoder_encode_decode in E as [-> Hc]. exists k, c. split_and!; [done..|].
    by eapply (inv_write_keys _ _ Hi _ c).
  - intros k c r Hr Hc Hle Hw Hop. right. split; [done|].
    unfold write_at in Hw. apply bind_Some in Hw as (v & Hv & _).
    exists c, v. split; [done|]. apply elem_of_range_from. split; [done|].
    unfold seek. destruct start_key as [|b st] eqn:Est; [apply bytes_le_nil|]. rewrite <-Est in *.
    destruct Hr as [Hr Hsk]. assert (start_key ≠ []) as Hne by congruence.
    assert (bytes_le start_key k) as Hge by (apply bytes_not_lt_ge; intros ?; apply Hr; by left).
    apply bytes_le_lt_eq in Hge as [? | ->]; [by apply encode_seek|by apply KeyEncoder_encode_le].
Qed.
End Loop.

(** ** Theorem *)

(** C11: range scans.  A scan that succeeds returns, in strictly increasing key
    order, only keys of the range with the value the snapshot at [read_ts] of the
    store it leaves has for them; and every such key that does not properly
    extend a non-empty [start_key], or, when it returns [limit] of them, every one
    up to the last it returns.  (Keys that properly extend the start key may be
    left out: the scan starts at the encoding of the start key, which sorts among
    theirs.)  It never returns more than a positive limit.  A scan that fails with [KeyLocked]
    names a key of the range whose lock at or before [read_ts] was there when it
    started; with an MVCC error, there is a key of the range whose snapshot read
    is that error; anything else needs an engine that fails.  A scan of a store
    without locks changes nothing.  (A key under a lock
    has no value in the snapshot: a scan does not look for locks on keys
    without any version.) *)
Theorem scan_lists_snapshot {FE : FjallErr} (F : Prop) (T : Z → Prop) {W} `{!Fjall FE W}
    (view : W → Store) (L : FjallLaws F T W view) (K : bytes → Prop) (HK : prefix_free K)
    start_key end_key limit read_ts w :
  inv K (view w) → u64 read_ts →
  scan_outcome F K start_key end_key limit read_ts (view w)
    (run (Coordinator_scan start_key end_key limit read_ts) w).1
    (view (run (Coordinator_scan start_key end_key limit read_ts) w).2).
Proof. intros Hi Hts. by apply (wp_adequate F T view L), wp_scan. Qed.

Lemma scan_outcome_ok {FE : FjallErr} F K a b n ts s0 r s results :
  scan_outcome F K a b n ts s0 r s → r = Ok results → scanned a b n ts results s.
Proof. by intros (_ & _ & H) ->. Qed.

Lemma ex_committed_inv : inv one_byte ex_committed.
Proof.
  assert (@run _ _ (Mem 0) _ ex_commit ex_prewritten = (Ok tt, ex_committed)) as E.
  { apply run_result. by vm_compute. }
  exact (proj1 (run_commit_ok False (λ t, t = u64_wrap 0) id (ex_laws 0) one_byte 65536 65537
    (Mutation_key <$> ex_mutations) ex_prewritten ex_committed ex_prewritten_inv
    ltac:(done) ltac:(done) E)).
Qed.

Definition ex_scan : prog (result (@TxnError Mem_err) (list (bytes * bytes))) :=
  Coordinator_scan key_a [] 1 70000.

Lemma ex_scan_ok : (@run _ _ (Mem 0) _ ex_scan ex_committed).1 = Ok [(key_a, of_str "1")].
Proof. by vm_compute. Qed.

Lemma scan_lists_snapshot_witness :
  scanned key_a [] 1 70000 [(key_a, of_str "1")] (@run _ _ (Mem 0) _ ex_scan ex_committed).2.
Proof.
  exact (scan_outcome_ok False one_byte key_a [] 1 70000 ex_committed _ _ _
    (@scan_lists_snapshot _ False (λ t, t = u64_wrap 0) _ (Mem 0) id (ex_laws 0) one_byte
      (prefix_free_length 1) key_a [] 1 70000 ex_committed ex_committed_inv
      ltac:(done)) ex_scan_ok).
Defined.
