(* ===== verification/History.v ===== *)
(** * Histories: the coordinator refines an atomic multi-version map

    The specification of the whole transaction layer as a client that runs one
    transaction after the other sees it: an abstract machine whose state is the
    list of committed transactions, each applied at one instant, its commit
    timestamp.  Reads and scans are functions of that list.  [history_refines]
    is the simulation: along any sequence of transactions (committed or rolled
    back), reads at any timestamp and range scans, the coordinator returns what
    the abstract machine returns. *)

From stdpp Require Import base list gmap sorting strings.
From Stdlib Require Import ZArith Lia Strings.Byte.
From S2P Require Import Prelude Codec Engine Mvcc View Hlc Resolver Coordinator CoordSpec Txn TxnThm EngineOps Scan.

(** ** The abstract machine *)

(** Committed transactions with their commit timestamps, newest first. *)
Abbreviation history := (list (Z * list Mutation)).

(** The mutation of [k] in a transaction. *)
Definition mutation_of (k : bytes) (ms : list Mutation) : option Mutation :=
  list_find (λ m, Mutation_key m = k) ms ≫= λ p, Some p.2.

(** The value of [k] at [ts]: what the newest transaction at or before [ts] that
    touched [k] left. *)
Fixpoint spec_read (h : history) (k : bytes) (ts : Z) : option bytes :=
  match h with
  | [] => None
  | (c, ms) :: h' =>
      if decide (c ≤ ts) then
        match mutation_of k ms with
        | Some m => Mutation_value m
        | None => spec_read h' k ts
        end
      else spec_read h' k ts
  end.

Definition history_keys (h : history) : list bytes := h ≫= λ t, Mutation_key <$> t.2.

(** All keys of the range with a value at [ts], in order. *)
Definition spec_entries (h : history) (start_key end_key : bytes) (ts : Z) : list (bytes * bytes) :=
  omap (λ k, if decide (out_of_range start_key end_key k) then None
             else (λ v, (k, v)) <$> spec_read h k ts)
    (vec_dedup (merge_sort bytes_le (history_keys h))).

Definition spec_scan (h : history) (start_key end_key : bytes) (limit ts : Z) :
    list (bytes * bytes) :=
  if decide (0 < limit) then take (Z.to_nat limit) (spec_entries h start_key end_key ts)
  else spec_entries h start_key end_key ts.

(** What clients do, and what they see. *)
Inductive hop : Type :=
| HCommit (ts c : Z) (ms : list Mutation) (pk : bytes) (ttl : Z)
| HAbort (ts : Z) (ms : list Mutation) (pk : bytes) (ttl : Z)
| HRead (k : bytes) (ts : Z)
| HScan (start_key end_key : bytes) (limit ts : Z).

Inductive hout : Type :=
| HDone
| HValue (v : option bytes)
| HEntries (kvs : list (bytes * bytes)).

Definition spec_op (h : history) (o : hop) : hout * history :=
  match o with
  | HCommit _ c ms _ _ => (HDone, (c, ms) :: h)
  | HAbort _ _ _ _ => (HDone, h)
  | HRead k ts => (HValue (spec_read h k ts), h)
  | HScan a b lim ts => (HEntries (spec_scan h a b lim ts), h)
  end.

Fixpoint spec_ops (h : history) (os : list hop) : list hout :=
  match os with
  | [] => []
  | o :: os' => let '(r, h') := spec_op h o in r :: spec_ops h' os'
  end.

(** ** The same operations on the coordinator *)
Section Impl.
Context {FE : FjallErr}.

Definition impl_op (o : hop) : prog (result TxnError hout) :=
  match o with
  | HCommit ts c ms pk ttl =>
      let? _ := Coordinator_prewrite ts ms pk ttl via (λ e, e) in
      let? _ := Coordinator_commit ts c (Mutation_key <$> ms) via (λ e, e) in
      Ret (Ok HDone)
  | HAbort ts ms pk ttl =>
      let? _ := Coordinator_prewrite ts ms pk ttl via (λ e, e) in
      let? _ := Coordinator_rollback ts (Mutation_key <$> ms) via (λ e, e) in
      Ret (Ok HDone)
  | HRead k ts => let? v := Coordinator_get k ts via (λ e, e) in Ret (Ok (HValue v))
  | HScan a b lim ts =>
      let? kvs := Coordinator_scan a b lim ts via (λ e, e) in Ret (Ok (HEntries kvs))
  end.

Fixpoint impl_ops (os : list hop) : prog (list (result TxnError hout)) :=
  match os with
  | [] => Ret []
  | o :: os' => let* r := impl_op o in let* rs := impl_ops os' in Ret (r :: rs)
  end.
End Impl.

(** ** Which sequences

    Transactions start after everything before them has ended; reads and scans
    may be at any timestamp.  Keys are drawn from [K]. *)
Fixpoint timely (K : bytes → Prop) (now : Z) (os : list hop) : Prop :=
  match os with
  | [] => True
  | HCommit ts c ms pk ttl :: os' =>
      now < ts ∧ ts ≤ c ∧ u64 c ∧ prewrite_args K ts pk ttl ms ∧
      NoDup (Mutation_key <$> ms) ∧ timely K c os'
  | HAbort ts ms pk ttl :: os' =>
      now < ts ∧ prewrite_args K ts pk ttl ms ∧ timely K ts os'
  | HRead k ts :: os' => K k ∧ u64 ts ∧ timely K now os'
  | HScan a b lim ts :: os' => u64 ts ∧ timely K now os'
  end.

(** Scans start at the beginning of the key space or at a key that no key of [K]
    properly extends; a scan from a proper prefix of stored keys may skip them. *)
Definition scan_start (K : bytes → Prop) (a : bytes) : Prop := ∀ k, K k → ¬ skippable a k.

Lemma scan_start_nil K : scan_start K [].
Proof. by intros k _ [? _]. Qed.

Lemma scan_start_key K a : prefix_free K → K a → scan_start K a.
Proof. intros HK Ha k Hk (_ & Hp & Hne). by apply Hne, HK. Qed.

Definition scans_from (K : bytes → Prop) (o : hop) : Prop :=
  match o with HScan a _ _ _ => scan_start K a | _ => True end.

(** ** The simulation relation *)
Record represents {FE : FjallErr} (K : bytes → Prop) (now : Z) (h : history) (s : Store) : Prop := {
  rp_inv : inv K s;
  rp_unlocked k : lock_at s k = None;
  rp_past k c r : u64 c → write_at s k c = Some r → c ≤ now ∧ wr_start_ts r ≤ now;
  rp_read k ts : K k → snapshot_read s k ts (Ok (spec_read h k ts));
  rp_keys k : k ∈ history_keys h → K k
}.

Section Simulation.
Context {FE : FjallErr} (K : bytes → Prop).

Lemma represents_empty : represents K (-1) [] (mkStore ∅ ∅ ∅).
Proof.
  assert (∀ k c, write_at (mkStore ∅ ∅ ∅) k c = None) as Hw.
  { intros k c. unfold write_at. cbn [s_write]. by rewrite lookup_empty. }
  assert (∀ k, lock_at (mkStore ∅ ∅ ∅) k = None) as Hl.
  { intros k. unfold lock_at. cbn [s_lock]. by rewrite lookup_empty. }
  split; [apply inv_empty|done|by intros k c r _; rewrite Hw| |by intros k ?%elem_of_nil].
  intros k ts _. apply SR_absent; [by intros l; rewrite Hl|].
  intros c r (_ & _ & Hr & _). by rewrite Hw in Hr.
Qed.

Lemma mutation_of_some k ms m :
  mutation_of k ms = Some m → m ∈ ms ∧ Mutation_key m = k.
Proof.
  unfold mutation_of. intros ((i & m') & Hf & [= <-])%bind_Some.
  apply list_find_Some in Hf as (Hi & ? & _). split; [by eapply list_elem_of_lookup_2|done].
Qed.

Lemma mutation_of_none k ms : mutation_of k ms = None → k ∉ Mutation_key <$> ms.
Proof.
  unfold mutation_of. intros H (m & -> & Hm)%list_elem_of_fmap.
  destruct (list_find (λ m', Mutation_key m' = Mutation_key m) ms) eqn:E; [done|].
  rewrite list_find_None, Forall_forall in E. by apply (E m Hm).
Qed.

(** What a transaction that starts now finds. *)
Lemma represents_fresh now h s k ts :
  represents K now h s → now < ts → no_conflict s k ts ∧ no_txn_record s k ts.
Proof.
  intros Hr Hts. split.
  - intros c r Hc Hw. destruct (rp_past _ _ _ _ Hr k c r Hc Hw). split; [lia|]. intros [? _]. lia.
  - intros c r Hc Hw. destruct (rp_past _ _ _ _ Hr k c r Hc Hw). lia.
Qed.

Lemma committed_represents T now h s s1 ts c ms pk ttl :
  represents K now h s → now < ts → ts ≤ c → u64 c → prewrite_args K ts pk ttl ms →
  NoDup (Mutation_key <$> ms) → prewritten T ts pk ttl ms s s1 →
  inv K (commit_all ts c (Mutation_key <$> ms) s1) →
  represents K c ((c, ms) :: h) (commit_all ts c (Mutation_key <$> ms) s1).
Proof.
  intros Hr Hnow Hle Hc (Hts & Httl & Hpl & _ & HKs) Hnd Hpw Hi.
  assert (∀ m, m ∈ ms → lock_at s (Mutation_key m) = None) as Hnl by (intros; by apply Hr).
  assert (∀ m, m ∈ ms → no_txn_record s (Mutation_key m) ts) as Hfr.
  { intros. by eapply represents_fresh. }
  set (s2 := commit_all ts c (Mutation_key <$> ms) s1) in *.
  assert (∀ k, k ∉ Mutation_key <$> ms → lock_at s2 k = lock_at s k ∧
    (∀ c', u64 c' → write_at s2 k c' = write_at s k c') ∧
    (∀ ts', u64 ts' → data_at s2 k ts' = data_at s k ts')) as Hother.
  { intros k Hk. by apply (committed_other T ts c ttl pk ms s s1). }
  split; [done|..].
  - intros k. destruct (decide (k ∈ Mutation_key <$> ms)) as [(m & -> & Hm)%list_elem_of_fmap|Hk].
    + by apply (committed_unlocked T ts c ttl pk ms s s1).
    + destruct (Hother k Hk) as (-> & _). apply Hr.
  - intros k c' r Hc' Hw.
    destruct (decide (k ∈ Mutation_key <$> ms)) as [(m & -> & Hm)%list_elem_of_fmap|Hk].
    + unfold s2 in Hw. rewrite (committed_write T ts c ttl pk ms s s1) in Hw by done.
      case_decide; [by injection Hw as <-; subst|].
      destruct (rp_past _ _ _ _ Hr _ _ _ Hc' Hw). lia.
    + destruct (Hother k Hk) as (_ & Ew & _). rewrite Ew in Hw by done.
      destruct (rp_past _ _ _ _ Hr _ _ _ Hc' Hw). lia.
  - intros k rts Hk. cbn [spec_read]. case_decide as Hrts.
    2:{ apply (committed_invisible_before T ts c ttl pk ms s s1); try done; [lia|by apply Hr]. }
    destruct (mutation_of k ms) as [m|] eqn:Em.
    + apply mutation_of_some in Em as [Hm <-].
      by apply (committed_visible T ts c ttl pk ms s s1).
    + apply mutation_of_none in Em. destruct (Hother k Em) as (El & Ew & Ed).
      eapply snapshot_read_same_upto; [|by apply Hr]. split; [done|by intros; rewrite Ew|].
      intros. apply Ed. by eapply write_at_u64.
  - intros k. unfold history_keys. rewrite bind_cons, elem_of_app. intros [Hk|Hk]; [|by apply Hr].
    apply list_elem_of_fmap in Hk as (m & -> & Hm). by eapply (proj1 (Forall_forall _ _) HKs).
Qed.

Lemma rollback_all_default ts ks s : s_default (rollback_all ts ks s) = s_default s.
Proof.
  revert s. induction ks as [|k ks IH]; intros s; cbn [rollback_all]; [done|]. rewrite IH.
  unfold rollback_one. destruct (lock_at s k); [|done]. by case_decide.
Qed.

Lemma aborted_represents T now h s s1 ts ms pk ttl :
  represents K now h s → now < ts → prewrite_args K ts pk ttl ms →
  prewritten T ts pk ttl ms s s1 →
  inv K (rollback_all ts (Mutation_key <$> ms) s1) →
  represents K ts h (rollback_all ts (Mutation_key <$> ms) s1).
Proof.
  intros Hr Hnow (Hts & Httl & Hpl & _ & HKs) Hpw Hi.
  set (s2 := rollback_all ts (Mutation_key <$> ms) s1) in *.
  assert (∀ m, m ∈ ms → free_for s (Mutation_key m) ts) as Hff.
  { intros m _ l. by rewrite (rp_unlocked _ _ _ _ Hr). }
  destruct (prewritten_unlocked T ts pk ttl Hts Httl Hpl ms s s1 Hpw Hff) as (Ew & _ & Hlk).
  destruct (rollback_all_view ts (Mutation_key <$> ms) s1 Hts) as (Hown & Hsub & Hw). fold s2 in Hown, Hsub, Hw.
  assert (∀ k, lock_at s2 k = None) as Hun.
  { intros k. destruct (lock_at s2 k) as [l|] eqn:Hl; [exfalso|done]. pose proof (Hsub k l Hl) as Hl1.
    destruct (decide (k ∈ Mutation_key <$> ms)) as [Hk|Hk].
    - apply (Hown k l Hk Hl).
      destruct (prewritten_own T ts pk ttl Hts Httl Hpl ms s s1 k Hpw Hk) as (l' & Hl' & ?). congruence.
    - rewrite (Hlk k Hk), (rp_unlocked _ _ _ _ Hr) in Hl1. done. }
  assert (∀ k c, u64 c → write_at s2 k c = if decide (k ∈ Mutation_key <$> ms ∧ c = ts)
    then Some (WriteRecord_new ts Rollback) else write_at s k c) as Hw2.
  { intros k c Hc. rewrite Hw by done. case_decide; [done|]. unfold write_at. by rewrite Ew. }
  split; [done|done|..].
  - intros k c r Hc. rewrite Hw2 by done. case_decide as D; [destruct D as [_ ->]; by intros [= <-]|].
    intros H. destruct (rp_past _ _ _ _ Hr _ _ _ Hc H). lia.
  - intros k rts Hk. eapply snapshot_read_same_upto; [|by apply Hr]. split.
    + by rewrite Hun, (rp_unlocked _ _ _ _ Hr).
    + intros c r Hc _ Hop. rewrite Hw2 by done. case_decide as D; [|done]. destruct D as [_ ->].
      split; [by intros [= <-]|]. intros H. destruct (rp_past _ _ _ _ Hr _ _ _ Hc H). lia.
    + intros c r Hc _ H _. destruct (rp_past _ _ _ _ Hr _ _ _ Hc H).
      rewrite <-(prewritten_data_other T ts pk ttl Hts ms s s1) by
        (done || lia || by eapply write_at_u64).
      unfold data_at, s2. by rewrite rollback_all_default.
  - apply Hr.
Qed.

(** *** Scans *)
#[export] Instance entry_lt_strict : StrictOrder entry_lt.
Proof.
  split; [intros x; apply (irreflexivity bytes_lt)|]. intros x y z. unfold entry_lt. apply transitivity.
Qed.

Lemma elem_of_spec_entries h a b ts k v :
  (k, v) ∈ spec_entries h a b ts ↔
  k ∈ history_keys h ∧ ¬ out_of_range a b k ∧ spec_read h k ts = Some v.
Proof.
  unfold spec_entries. rewrite list_elem_of_omap. split.
  - intros (k' & Hk' & E). rewrite elem_of_vec_dedup, merge_sort_Permutation in Hk'.
    case_decide; [done|]. apply fmap_Some in E as (v' & ? & [= -> ->]). done.
  - intros (Hk & Hr & Hv). exists k. rewrite elem_of_vec_dedup, merge_sort_Permutation.
    split; [done|]. by rewrite decide_False, Hv.
Qed.

Lemma spec_entries_sorted h a b ts : StronglySorted entry_lt (spec_entries h a b ts).
Proof.
  unfold spec_entries. assert (StronglySorted bytes_lt (vec_dedup (merge_sort bytes_le (history_keys h)))) as Hs.
  { apply vec_dedup_sorted, StronglySorted_merge_sort; apply _. }
  induction Hs as [|k ks Hs IH Hk]; csimpl; [constructor|].
  case_decide; [done|]. destruct (spec_read h k ts) as [v|]; csimpl; [|done].
  constructor; [done|]. apply Forall_forall.
  intros [k' v'] (k2 & Hk2 & E)%list_elem_of_omap. case_decide; [done|].
  apply fmap_Some in E as (? & _ & [= -> ->]). by apply (proj1 (Forall_forall _ _) Hk).
Qed.

(** A key the history never touched has no value. *)
Lemma spec_read_keys h k ts v : spec_read h k ts = Some v → k ∈ history_keys h.
Proof.
  induction h as [|[c ms] h IH]; cbn [spec_read]; [done|].
  unfold history_keys. rewrite bind_cons, elem_of_app. fold (history_keys h).
  case_decide; [|by right; apply IH]. destruct (mutation_of k ms) as [m|] eqn:E; [|by right; apply IH].
  apply mutation_of_some in E as [Hm <-]. left. by apply list_elem_of_fmap_2.
Qed.

Lemma scanned_spec now h s a b lim ts kvs :
  represents K now h s → scan_start K a → scanned a b lim ts kvs s → kvs = spec_scan h a b lim ts.
Proof.
  intros Hr Hst [Hs Hsd Hlim Hcm].
  assert (∀ k v, snapshot_read s k ts (Ok (Some v)) → K k) as HKk.
  { intros k v Hsr. inversion Hsr as [| | |c r ? _ (Hc & _ & Hw & _) _ _|]; subst.
    apply bind_Some in Hw as (x & Hx & _).
    apply (inv_write_keys _ _ (rp_inv _ _ _ _ Hr) k c Hc). by eexists. }
  assert (∀ k v, (k, v) ∈ spec_entries h a b ts ↔
    ¬ out_of_range a b k ∧ snapshot_read s k ts (Ok (Some v))) as Hspec.
  { intros k v. rewrite elem_of_spec_entries. split.
    - intros (Hk & ? & <-). split; [done|]. by apply Hr, Hr.
    - intros [? Hsr]. pose proof (snapshot_read_functional _ _ _ _ _ Hsr
        (rp_read _ _ _ _ Hr k ts (HKk k v Hsr))) as E.
      injection E as E. split_and!; [by eapply spec_read_keys|done|done]. }
  assert (kvs `prefix_of` spec_entries h a b ts) as [rest E].
  { apply (sorted_prefix entry_lt); [done|apply spec_entries_sorted|..].
    - intros [k v] Hin. by apply Hspec, Hsd.
    - intros [k v] [Hin Hsr]%Hspec. destruct (Hcm k v (conj Hin (Hst k (HKk k v Hsr))) Hsr) as [?|(_ & _ & Hlt)]; [by left|right].
      intros [k' v'] Hin'. by eapply Hlt. }
  destruct (decide (rest = [])) as [->|Hne].
  - rewrite app_nil_r in E. unfold spec_scan. case_decide; [|done]. rewrite E.
    rewrite take_ge; [done|]. specialize (Hlim ltac:(done)). lia.
  - destruct rest as [|[k v] rest]; [done|].
    destruct (proj1 (Hspec k v)) as [Hin Hsr]; [rewrite E; set_solver|].
    destruct (Hcm k v (conj Hin (Hst k (HKk k v Hsr))) Hsr) as [Hkv|(Hpos & Hlen & _)].
    + pose proof (spec_entries_sorted h a b ts) as Hsp. rewrite E in Hsp.
      destruct (irreflexivity entry_lt (k, v)).
      apply (StronglySorted_app_1_elem_of _ _ _ _ _ Hsp); [done|by left].
    + unfold spec_scan. rewrite decide_True by done. rewrite E, take_app_length'; [done|]. lia.
Qed.
End Simulation.

(** ** Refinement *)
Section Refinement.
Context {FE : FjallErr} (T : Z → Prop).
Context {W : Type} `{!Fjall FE W} (view : W → Store) (L : FjallLaws False T W view).
Context (K : bytes → Prop) (HK : prefix_free K).

Lemma run_try {E E' A B} (f : E → E') (m : prog (result E A)) (k : A → prog (result E' B)) w a w' :
  run m w = (Ok a, w') → run (prog_try f m k) w = run (k a) w'.
Proof. intros H. unfold prog_try. by rewrite run_bind, H. Qed.

(** What a client's operation leaves behind. *)
Definition timely_op (now : Z) (o : hop) : Prop := timely K now [o].
Definition after (now : Z) (o : hop) : Z :=
  match o with HCommit _ c _ _ _ => c | HAbort ts _ _ _ => ts | _ => now end.

Lemma timely_cons now o os : timely K now (o :: os) → timely_op now o ∧ timely K (after now o) os.
Proof. destruct o; cbn; tauto. Qed.

(** The rest of a transaction once its prewrite is known to succeed. *)
Lemma run_timely_prewrite now h w ts ms pk ttl :
  represents K now h (view w) → now < ts → prewrite_args K ts pk ttl ms →
  ∃ w1, run (Coordinator_prewrite ts ms pk ttl) w = (Ok tt, w1) ∧ inv K (view w1) ∧
    prewritten T ts pk ttl ms (view w) (view w1).
Proof.
  intros Hr Hnow Ha.
  destruct (run_prewrite_free T view L K HK ts ms pk ttl w (rp_inv _ _ _ _ Hr) Ha) as [w1 H1].
  { intros m _. split; [apply Hr|]. by eapply represents_fresh. }
  exists w1. split; [done|]. by apply (run_prewrite_ok False T view L K HK ts ms pk ttl w w1); [apply Hr|..].
Qed.

(** The end of a transaction that holds its locks. *)
Lemma commit_refines now h w w1 ts c ms pk ttl :
  represents K now h (view w) → now < ts → ts ≤ c → u64 c → prewrite_args K ts pk ttl ms →
  NoDup (Mutation_key <$> ms) → inv K (view w1) → prewritten T ts pk ttl ms (view w) (view w1) →
  ∃ w2, run (Coordinator_commit ts c (Mutation_key <$> ms)) w1 = (Ok tt, w2) ∧
    represents K c ((c, ms) :: h) (view w2).
Proof.
  intros Hr Hnow Hle Hc Ha Hnd Hi1 Hpw. pose proof Ha as (Hts & _).
  destruct (run_commit_prewritten T view L K ts c ms pk ttl w w1 Hi1 Ha Hc Hnd Hpw) as [w2 H2].
  destruct (run_commit_ok False T view L K _ _ _ _ _ Hi1 Hts Hc H2) as [Hi2 E2].
  exists w2. split; [done|]. rewrite E2 in Hi2 |- *. by eapply committed_represents.
Qed.

Lemma rollback_refines now h w w1 ts ms pk ttl :
  represents K now h (view w) → now < ts → prewrite_args K ts pk ttl ms →
  inv K (view w1) → prewritten T ts pk ttl ms (view w) (view w1) →
  ∃ w2, run (Coordinator_rollback ts (Mutation_key <$> ms)) w1 = (Ok tt, w2) ∧
    represents K ts h (view w2).
Proof.
  intros Hr Hnow Ha Hi1 Hpw. pose proof Ha as (Hts & _ & _ & _ & HKs).
  destruct (run (Coordinator_rollback ts (Mutation_key <$> ms)) w1) as [r w2] eqn:H2.
  destruct (run_wp False T view L _ _ _ _ _ H2
    (wp_rollback False T K ts _ _ Hi1 Hts (proj2 (Forall_fmap _ _ _) HKs))) as [Hi2 [(-> & E2)|[[] _]]].
  exists w2. split; [done|]. rewrite E2 in Hi2 |- *. by eapply aborted_represents.
Qed.

(** Reads and scans of a represented store. *)
Lemma read_refines now h w k ts :
  represents K now h (view w) → K k → u64 ts →
  ∃ w', run (Coordinator_get k ts) w = (Ok (spec_read h k ts), w') ∧ view w' = view w.
Proof.
  intros Hr Hk Hts. destruct (run (Coordinator_get k ts) w) as [r w'] eqn:H1. exists w'.
  destruct (run_get False T view L K HK _ _ _ _ _ (rp_inv _ _ _ _ Hr) Hk Hts H1) as [_ [Hcr|[[] _]]].
  pose proof (rp_unlocked _ _ _ _ Hr k) as Hun. inversion Hcr as [rr _ Hrr|l ? ? Hl|l ? Hl]; subst.
  - by rewrite (snapshot_read_functional _ _ _ _ _ Hrr (rp_read _ _ _ _ Hr k ts Hk)).
  - by rewrite Hun in Hl.
  - by rewrite Hun in Hl.
Qed.

Lemma scan_refines now h w a b lim ts :
  represents K now h (view w) → scan_start K a → u64 ts →
  ∃ w', run (Coordinator_scan a b lim ts) w = (Ok (spec_scan h a b lim ts), w') ∧ view w' = view w.
Proof.
  intros Hr Ha Hts. pose proof (rp_inv _ _ _ _ Hr) as Hi. pose proof (rp_unlocked _ _ _ _ Hr) as Hun.
  destruct (run (Coordinator_scan a b lim ts) w) as [r w'] eqn:H1. exists w'.
  destruct (run_wp False T view L _ _ _ _ _ H1 (wp_scan False T K HK a b lim ts _ Hi Hts))
    as (_ & Hq & Hout). destruct (Hq Hun) as [Ev|[]]. rewrite Ev in *. split; [|done].
  destruct r as [kvs|e]; [by rewrite (scanned_spec K now h _ _ _ _ _ _ Hr Ha Hout)|].
  exfalso. destruct e as [| |e| | |k| |]; try done.
  - destruct Hout as [(k & _ & Hsr)|[]]. assert (K k) as Hk.
    { inversion Hsr as [l Hl| | | |c rr _ (Hc & _ & Hw & _) _ _]; subst; [by rewrite Hun in Hl|].
      apply bind_Some in Hw as (x & Hx & _). apply (inv_write_keys _ _ Hi k c Hc). by eexists. }
    by pose proof (snapshot_read_functional _ _ _ _ _ Hsr (rp_read _ _ _ _ Hr k ts Hk)).
  - destruct Hout as [(_ & l & Hl & _)|[]]. by rewrite Hun in Hl.
Qed.

Lemma op_refines now h w o :
  represents K now h (view w) → timely_op now o → scans_from K o →
  ∃ w', run (impl_op o) w = (Ok (spec_op h o).1, w') ∧
    represents K (after now o) (spec_op h o).2 (view w').
Proof.
  intros Hr. destruct o as [ts c ms pk ttl|ts ms pk ttl|k ts|a b lim ts];
    cbn [timely_op timely scans_from impl_op spec_op after fst snd].
  - intros (Hnow & Hle & Hc & Ha & Hnd & _) _.
    destruct (run_timely_prewrite now h w ts ms pk ttl Hr Hnow Ha) as (w1 & H1 & Hi1 & Hpw).
    destruct (commit_refines now h w w1 ts c ms pk ttl) as (w2 & H2 & Hr2); [done..|].
    exists w2. by rewrite (run_try _ _ _ _ _ _ H1), (run_try _ _ _ _ _ _ H2).
  - intros (Hnow & Ha & _) _.
    destruct (run_timely_prewrite now h w ts ms pk ttl Hr Hnow Ha) as (w1 & H1 & Hi1 & Hpw).
    destruct (rollback_refines now h w w1 ts ms pk ttl) as (w2 & H2 & Hr2); [done..|].
    exists w2. by rewrite (run_try _ _ _ _ _ _ H1), (run_try _ _ _ _ _ _ H2).
  - intros (Hk & Hts & _) _. destruct (read_refines now h w k ts Hr Hk Hts) as (w' & H1 & Ev).
    exists w'. split; [by rewrite (run_try _ _ _ _ _ _ H1)|by rewrite Ev].
  - intros (Hts & _) Ha. destruct (scan_refines now h w a b lim ts Hr Ha Hts) as (w' & H1 & Ev).
    exists w'. split; [by rewrite (run_try _ _ _ _ _ _ H1)|by rewrite Ev].
Qed.

(** C1: on a reliable engine the coordinator refines an atomic multi-version map.
    From a store that represents a list of committed transactions, any sequence of client
    operations in which each transaction starts after the ones before it ended
    (committing or rolling back), with reads and range scans at any timestamps in
    between, returns exactly what the abstract machine returns: transactions
    succeed, reads return the value of the newest transaction at or before their
    timestamp, scans the sorted entries of their range up to the limit; and the
    final store represents the final list.  Keys are drawn from a prefix-free set
    [K], those of a committed transaction are distinct, and a scan starts at the beginning of the key space or at a key that no
    key of [K] properly extends. *)
Theorem history_refines now h os w :
  represents K now h (view w) → timely K now os → Forall (scans_from K) os →
  (run (impl_ops os) w).1 = Ok <$> spec_ops h os ∧
  ∃ now', represents K now' (foldl (λ h o, (spec_op h o).2) h os) (view (run (impl_ops os) w).2).
Proof.
  revert now h w. induction os as [|o os IH]; intros now h w Hr Ht Hsc.
  { split; [done|]. by exists now. }
  apply timely_cons in Ht as [Ho Hos]. apply Forall_cons in Hsc as [Hso Hsos].
  destruct (op_refines now h w o Hr Ho Hso) as (w1 & H1 & Hr1).
  destruct (IH _ _ _ Hr1 Hos Hsos) as [Hout Hrep]. cbn [impl_ops spec_ops foldl].
  rewrite run_bind, H1, run_bind. destruct (run (impl_ops os) w1) as [rs w2].
  destruct (spec_op h o) as [out h']. cbn [run fst snd] in *. by rewrite Hout.
Qed.
End Refinement.

(** ** A concrete history *)
Definition ex_history : list hop :=
  [HCommit 65536 65537 [Mutation_Put key_a (of_str "1"); Mutation_Put key_b (of_str "2")] key_a 3000;
   HAbort 131072 [Mutation_Put key_a (of_str "9")] key_a 3000;
   HCommit 196608 196609 [Mutation_Delete key_b] key_b 3000;
   HRead key_a 262144;
   HRead key_b 131072;
   HScan [] [] 0 131072;
   HScan key_a [] 5 262144;
   HScan [] [] 1 131072].

Lemma history_refines_witness :
  (@run _ _ (Mem 0) _ (impl_ops ex_history) empty_store).1 =
  Ok <$> [HDone; HDone; HDone; HValue (Some (of_str "1")); HValue (Some (of_str "2"));
          HEntries [(key_a, of_str "1"); (key_b, of_str "2")];
          HEntries [(key_a, of_str "1")]; HEntries [(key_a, of_str "1")]].
Proof.
  destruct (history_refines (λ t, t = u64_wrap 0) id (ex_laws 0) one_byte (prefix_free_length 1)
    (-1) [] ex_history empty_store) as [H _].
  - apply represents_empty.
  - cbn. unfold prewrite_args. rewrite !NoDup_cons. set_unfold.
    split_and!; try done; repeat constructor; set_solver.
  - unfold ex_history. repeat (apply Forall_cons; split); try done; try apply scan_start_nil.
    by apply (scan_start_key one_byte _ (prefix_free_length 1)).
  - etrans; [exact H|]. by vm_compute.
Defined.
