(* ===== verification/Session.v ===== *)
(** * Sessions: with timestamps from the clock the store is a plain map

    A client that takes its timestamps from the node's hybrid logical clock:
    [begin] before a transaction, a fresh timestamp for its commit and for every
    read.  The specification forgets versions, locks and timestamps altogether:
    its state is a finite map, a committed transaction updates it, a read looks a
    key up, a scan lists a range.  [session_refines] composes the clock ([Hlc])
    and the transaction layer ([History]): as long as the clock fits its encoding
    and scans do not start at a proper prefix of stored keys, a session cannot
    tell the store from that map. *)

From stdpp Require Import base list gmap sorting strings.
From Stdlib Require Import ZArith Lia Strings.Byte.
From S2P Require Import Prelude Codec Engine Mvcc View Hlc Resolver Coordinator CoordSpec Txn TxnThm EngineOps Scan History.

Inductive sop : Type :=
| SCommit (ms : list Mutation) (pk : bytes) (ttl : Z)
| SAbort (ms : list Mutation) (pk : bytes) (ttl : Z)
| SGet (k : bytes)
| SScan (start_key end_key : bytes) (limit : Z).

(** ** The specification: a map *)
Definition apply_mutation (m : gmap bytes bytes) (mu : Mutation) : gmap bytes bytes :=
  match mu with
  | Mutation_Put k v => <[k := v]> m
  | Mutation_Delete k => delete k m
  end.

Definition map_entries (m : gmap bytes bytes) (start_key end_key : bytes) : list (bytes * bytes) :=
  filter (λ e, ¬ out_of_range start_key end_key e.1) (entries_of m).

Definition map_scan (m : gmap bytes bytes) (start_key end_key : bytes) (limit : Z) :
    list (bytes * bytes) :=
  if decide (0 < limit) then take (Z.to_nat limit) (map_entries m start_key end_key)
  else map_entries m start_key end_key.

Definition map_op (m : gmap bytes bytes) (o : sop) : hout * gmap bytes bytes :=
  match o with
  | SCommit ms _ _ => (HDone, foldl apply_mutation m ms)
  | SAbort _ _ _ => (HDone, m)
  | SGet k => (HValue (m !! k), m)
  | SScan a b lim => (HEntries (map_scan m a b lim), m)
  end.

Fixpoint map_ops (m : gmap bytes bytes) (os : list sop) : list hout :=
  match os with
  | [] => []
  | o :: os' => let '(r, m') := map_op m o in r :: map_ops m' os'
  end.

(** ** The same session on the coordinator and its clock *)
Section Impl.
Context {FE : FjallErr}.

Definition session_op (hlc : HlcInner) (o : sop) : prog (result TxnError hout * HlcInner) :=
  match o with
  | SCommit ms pk ttl =>
      let* p := Coordinator_begin hlc in
      let '(start_ts, hlc) := p in
      let* r := Coordinator_prewrite start_ts ms pk ttl in
      match r with
      | Err e => Ret (Err e, hlc)
      | Ok _ =>
          let* p := HybridLogicalClock_now hlc in
          let '(commit_ts, hlc) := p in
          let* r := Coordinator_commit start_ts commit_ts (Mutation_key <$> ms) in
          Ret (match r with Ok _ => Ok HDone | Err e => Err e end, hlc)
      end
  | SAbort ms pk ttl =>
      let* p := Coordinator_begin hlc in
      let '(start_ts, hlc) := p in
      let* r := Coordinator_prewrite start_ts ms pk ttl in
      match r with
      | Err e => Ret (Err e, hlc)
      | Ok _ =>
          let* r := Coordinator_rollback start_ts (Mutation_key <$> ms) in
          Ret (match r with Ok _ => Ok HDone | Err e => Err e end, hlc)
      end
  | SGet k =>
      let* p := HybridLogicalClock_now hlc in
      let '(read_ts, hlc) := p in
      let* r := Coordinator_get k read_ts in
      Ret (match r with Ok v => Ok (HValue v) | Err e => Err e end, hlc)
  | SScan a b lim =>
      let* p := HybridLogicalClock_now hlc in
      let '(read_ts, hlc) := p in
      let* r := Coordinator_scan a b lim read_ts in
      Ret (match r with Ok kvs => Ok (HEntries kvs) | Err e => Err e end, hlc)
  end.

Fixpoint session_ops (hlc : HlcInner) (os : list sop) : prog (list (result TxnError hout) * HlcInner) :=
  match os with
  | [] => Ret ([], hlc)
  | o :: os' =>
      let* p := session_op hlc o in
      let '(r, hlc) := p in
      let* q := session_ops hlc os' in
      Ret (r :: q.1, q.2)
  end.
End Impl.

(** What the arguments have to satisfy. *)
Definition session_arg (K : bytes → Prop) (o : sop) : Prop :=
  match o with
  | SCommit ms pk ttl => prewrite_args K 0 pk ttl ms ∧ NoDup (Mutation_key <$> ms)
  | SAbort ms pk ttl => prewrite_args K 0 pk ttl ms
  | SGet k => K k
  | SScan a _ _ => scan_start K a
  end.

(** ** The simulation relation *)

(** From [now] on the history reads like the map. *)
Definition current (now : Z) (h : history) (m : gmap bytes bytes) : Prop :=
  ∀ k ts, now ≤ ts → spec_read h k ts = m !! k.

Definition session_rel {FE : FjallErr} (K : bytes → Prop) (hlc : HlcInner) (m : gmap bytes bytes)
    (s : Store) : Prop :=
  hlc_ok hlc ∧ ∃ now h, now ≤ hlc_ts hlc ∧ represents K now h s ∧ current now h m.

(** ** Lemmas *)
Lemma apply_mutation_lookup m mu k :
  apply_mutation m mu !! k = if decide (Mutation_key mu = k) then Mutation_value mu else m !! k.
Proof.
  destruct mu as [k' v|k']; cbn [apply_mutation Mutation_key Mutation_value]; case_decide as D.
  - subst. apply lookup_insert_eq.
  - by apply lookup_insert_ne.
  - subst. apply lookup_delete_eq.
  - by apply lookup_delete_ne.
Qed.

Lemma mutation_of_cons k mu ms :
  mutation_of k (mu :: ms) = if decide (Mutation_key mu = k) then Some mu else mutation_of k ms.
Proof.
  unfold mutation_of. cbn [list_find]. case_decide; [done|].
  by destruct (list_find (λ m, Mutation_key m = k) ms) as [[i x]|].
Qed.

Lemma apply_mutations_lookup ms m k :
  NoDup (Mutation_key <$> ms) →
  foldl apply_mutation m ms !! k =
    match mutation_of k ms with Some mu => Mutation_value mu | None => m !! k end.
Proof.
  revert m. induction ms as [|mu ms IH]; intros m Hnd; [done|]. csimpl in *.
  apply NoDup_cons in Hnd as [Hni Hnd]. rewrite (IH _ Hnd), mutation_of_cons, apply_mutation_lookup.
  case_decide as D; [|done]. subst k. destruct (mutation_of (Mutation_key mu) ms) as [x|] eqn:E; [|done].
  apply mutation_of_some in E as [Hx Hk]. destruct Hni. rewrite <-Hk. by apply list_elem_of_fmap_2.
Qed.

Lemma current_commit now h m c ms :
  current now h m → now ≤ c → NoDup (Mutation_key <$> ms) →
  current c ((c, ms) :: h) (foldl apply_mutation m ms).
Proof.
  intros Hcur Hle Hnd k ts Hts. cbn [spec_read]. rewrite decide_True, apply_mutations_lookup by done.
  destruct (mutation_of k ms); [done|]. apply Hcur. lia.
Qed.

Lemma current_entries now h m a b ts :
  current now h m → now ≤ ts → spec_entries h a b ts = map_entries m a b.
Proof.
  intros Hcur Hts.
  assert (∀ e, e ∈ spec_entries h a b ts ↔ e ∈ map_entries m a b) as Heq.
  { intros [k v]. unfold map_entries. rewrite elem_of_spec_entries, list_elem_of_filter, elem_of_entries_of.
    cbn [fst]. rewrite <-(Hcur k ts Hts). split; [tauto|]. intros [? Hv].
    split_and!; [by eapply spec_read_keys|done|done]. }
  assert (StronglySorted entry_lt (map_entries m a b)) as Hs
    by apply StronglySorted_filter, StronglySorted_entries_of.
  apply (anti_symm prefix); apply (sorted_prefix entry_lt); try done; try apply spec_entries_sorted.
  - intros e. by rewrite Heq.
  - intros e He. left. by rewrite Heq.
  - intros e. by rewrite Heq.
  - intros e He. left. by rewrite <-Heq.
Qed.

Lemma current_scan now h m a b lim ts :
  current now h m → now ≤ ts → spec_scan h a b lim ts = map_scan m a b lim.
Proof. intros Hcur Hts. unfold spec_scan, map_scan. by rewrite (current_entries now h m a b ts). Qed.

(** ** Refinement *)
Section Refinement.
Context {FE : FjallErr} (T : Z → Prop) (HT : ∀ t, T t → t < 2 ^ 48).
Context {W : Type} `{!Fjall FE W} (view : W → Store) (L : FjallLaws False T W view).
Context (K : bytes → Prop) (HK : prefix_free K).

(** A tick of the clock. *)
Lemma run_tick hlc w :
  hlc_ok hlc → logical hlc + 1 < 2 ^ 16 →
  ∃ ts hlc' w', run (HybridLogicalClock_now hlc) w = ((ts, hlc'), w') ∧ view w' = view w ∧
    u64 ts ∧ hlc_ok hlc' ∧ logical hlc' ≤ logical hlc + 1 ∧ hlc_ts hlc < ts ∧ ts = hlc_ts hlc'.
Proof.
  intros Hok Hl. unfold HybridLogicalClock_now, now_millis. cbn [prog_bind run].
  pose proof (fj_time_law w) as Ht. destruct (fj_time w) as [t w']. destruct Ht as [Ev HTt].
  destruct (hlc_now_at (millis_of t) hlc) as [ts hlc'] eqn:E.
  assert (0 ≤ millis_of t < 2 ^ 48) as Hm.
  { split; [|by apply HT]. destruct t as [ms|]; [|done]. by destruct (u64_wrap_range ms). }
  destruct (hlc_now_at_fits _ _ _ _ Hok Hm Hl E) as [Hok' Hl'].
  destruct (hlc_now_at_advances _ _ _ _ Hok E Hok') as [Ets Hlt].
  exists ts, hlc', w'. split_and!; try done; [|by rewrite Ets].
  rewrite Ets, hlc_ts_ok by done. unfold hlc_ok in Hok'. unfold u64. lia.
Qed.

(** Two ticks at most. *)
Lemma session_op_refines hlc m w o :
  session_rel K hlc m (view w) → session_arg K o → logical hlc + 2 < 2 ^ 16 →
  ∃ hlc' w', run (session_op hlc o) w = ((Ok (map_op m o).1, hlc'), w') ∧
    session_rel K hlc' (map_op m o).2 (view w') ∧ logical hlc' ≤ logical hlc + 2.
Proof.
  intros (Hok & now & h & Hle & Hr & Hcur) Harg Hl.
  destruct (run_tick hlc w Hok ltac:(lia)) as (ts & hlc1 & w0 & Htick & Ev & Hts & Hok1 & Hl1 & Hlt & Ets).
  rewrite <-Ev in Hr.
  destruct o as [ms pk ttl|ms pk ttl|k|a b lim]; cbn [session_arg session_op map_op fst snd] in *;
    unfold Coordinator_begin; rewrite run_bind, Htick.
  - destruct Harg as [(_ & Harg) Hnd]. assert (prewrite_args K ts pk ttl ms) as Ha by by split.
    destruct (run_timely_prewrite T view L K HK now h w0 ts ms pk ttl Hr ltac:(lia) Ha)
      as (w1 & H1 & Hi1 & Hpw). rewrite run_bind, H1.
    destruct (run_tick hlc1 w1 Hok1 ltac:(lia))
      as (c & hlc2 & w2 & Htick2 & Ev2 & Hc & Hok2 & Hl2 & Hlt2 & Ec).
    rewrite run_bind, Htick2. rewrite <-Ev2 in Hi1, Hpw.
    destruct (commit_refines T view L K now h w0 w2 ts c ms pk ttl) as (w3 & H3 & Hr3);
      [done|lia|lia|done..|].
    rewrite run_bind, H3. exists hlc2, w3. split_and!; [done| |lia].
    split; [done|]. exists c, ((c, ms) :: h). split_and!; [lia|done|]. apply (current_commit now); [done|lia|done].
  - destruct Harg as (_ & Harg). assert (prewrite_args K ts pk ttl ms) as Ha by by split.
    destruct (run_timely_prewrite T view L K HK now h w0 ts ms pk ttl Hr ltac:(lia) Ha)
      as (w1 & H1 & Hi1 & Hpw). rewrite run_bind, H1.
    destruct (rollback_refines T view L K now h w0 w1 ts ms pk ttl) as (w3 & H3 & Hr3); [done|lia|done..|].
    rewrite run_bind, H3. exists hlc1, w3. split_and!; [done| |lia].
    split; [done|]. exists ts, h. split_and!; [lia|done|]. intros k t Ht. apply Hcur. lia.
  - destruct (read_refines T view L K HK now h w0 k ts Hr Harg Hts) as (w1 & H1 & Ev1).
    rewrite run_bind, H1, (Hcur k ts ltac:(lia)). exists hlc1, w1. split_and!; [done| |lia].
    split; [done|]. exists now, h. rewrite Ev1. split_and!; [lia|done..].
  - destruct (scan_refines T view L K HK now h w0 a b lim ts Hr Harg Hts) as (w1 & H1 & Ev1).
    rewrite run_bind, H1, (current_scan now h m a b lim ts Hcur ltac:(lia)).
    exists hlc1, w1. split_and!; [done| |lia].
    split; [done|]. exists now, h. rewrite Ev1. split_and!; [lia|done..].
Qed.

(** C2: within the limits below, a session on a reliable engine cannot tell the
    store from a plain map.  A client that takes its timestamps from the clock ([begin] for a transaction, a fresh timestamp
    for its commit and for each read), one operation after the other, from any
    state that stands for a map: every transaction succeeds, every read returns
    what the map holds, every scan the sorted entries of its range up to the
    limit, where the map is updated by the committed transactions and nothing
    else; and the final state stands for the final map.  The keys are drawn from a
    prefix-free set [K], those of a committed transaction are distinct, and a scan starts at the beginning of the key space or at
    a key that no key of [K] properly extends (a scan from a proper prefix of
    stored keys may skip them).  The clock reads less than [2^48] ms, and its
    counter plus twice the length of the session stays below [2^16]. *)
Theorem session_refines hlc m w os :
  session_rel K hlc m (view w) → Forall (session_arg K) os →
  logical hlc + 2 * Z.of_nat (length os) < 2 ^ 16 →
  let '((rs, hlc'), w') := run (session_ops hlc os) w in
  rs = Ok <$> map_ops m os ∧
  session_rel K hlc' (foldl (λ m o, (map_op m o).2) m os) (view w').
Proof.
  revert hlc m w. induction os as [|o os IH]; intros hlc m w Hrel Hargs Hl; [done|].
  apply Forall_cons in Hargs as [Harg Hargs]. cbn [length] in Hl.
  destruct (session_op_refines hlc m w o Hrel Harg ltac:(lia)) as (hlc1 & w1 & H1 & Hrel1 & Hl1).
  cbn [session_ops map_ops foldl]. rewrite run_bind, H1, run_bind.
  specialize (IH hlc1 (map_op m o).2 w1 Hrel1 Hargs ltac:(lia)).
  destruct (run (session_ops hlc1 os) w1) as [[rs hlc2] w2]. destruct IH as [-> Hrel2].
  cbn [run fst snd]. by destruct (map_op m o).
Qed.
End Refinement.

(** ** A concrete session *)
Definition ex_session : list sop :=
  [SCommit [Mutation_Put key_a (of_str "1"); Mutation_Put key_b (of_str "2")] key_a 3000;
   SGet key_a;
   SAbort [Mutation_Put key_a (of_str "9")] key_a 3000;
   SGet key_a;
   SCommit [Mutation_Delete key_b; Mutation_Put key_a (of_str "3")] key_b 3000;
   SScan [] [] 0;
   SGet key_b].

Lemma session_refines_witness :
  (@run _ _ (Mem 1) _ (session_ops (mkHlcInner 0 0) ex_session) empty_store).1.1 =
  Ok <$> [HDone; HValue (Some (of_str "1")); HDone; HValue (Some (of_str "1")); HDone;
          HEntries [(key_a, of_str "3")]; HValue None].
Proof.
  assert (∀ t, t = u64_wrap 1 → t < 2 ^ 48) as HT by (intros t ->; done).
  pose proof (session_refines (λ t, t = u64_wrap 1) HT id (ex_laws 1) one_byte (prefix_free_length 1)
    (mkHlcInner 0 0) ∅ empty_store ex_session) as H.
  destruct (@run _ _ (Mem 1) _ (session_ops (mkHlcInner 0 0) ex_session) empty_store) as [[rs hlc] w].
  destruct H as [-> _].
  - split; [by vm_compute|]. exists (-1), []. split_and!; [done|apply represents_empty|].
    intros k ts _. cbn. by rewrite lookup_empty.
  - unfold ex_session. repeat (apply Forall_cons; split); cbn [session_arg]; try apply scan_start_nil;
      try done; unfold prewrite_args; rewrite ?NoDup_cons; set_unfold;
      split_and?; try done; repeat constructor; set_solver.
  - done.
  - by vm_compute.
Defined.
