(* ===== verification/Pool.v ===== *)
(** * Concurrent requests

    The node serves every request in its own task; the coordinator takes no
    lock around an operation, so the engine calls of different requests
    interleave freely.  A pool of programs steps one engine call at a time.
    [keeps] is the proof principle for such pools, in the style of rely and
    guarantee: a program maintains an invariant [I] of the store and a relation
    [R] between successive stores, may rely on every other program doing the
    same, and may carry facts that [R] preserves from one call to the next. *)

From stdpp Require Import base list gmap sorting strings relations.
From Stdlib Require Import ZArith Lia Strings.Byte.
From S2P Require Import Prelude Codec Engine.

(** ** Interleaving *)
Section Steps.
Context {FE : FjallErr} (F : Prop).

(** One engine call of one program: its answer and its effect. *)
Inductive call_step {A} : prog A → Store → prog A → Store → Prop :=
| CS_get p k κ s : call_step (PGet p k κ) s (κ (Ok (part p s !! k))) s
| CS_get_err p k κ s e : F → call_step (PGet p k κ) s (κ (Err e)) s
| CS_range p from κ s its : yields F its (range_from (part p s) from) →
    call_step (PRange p from κ) s (κ its) s
| CS_commit b κ s : call_step (PCommit b κ) s (κ (Ok tt)) (apply_batch b s)
| CS_commit_lost b κ s e : F → call_step (PCommit b κ) s (κ (Err e)) s
| CS_commit_unacked b κ s e : F → call_step (PCommit b κ) s (κ (Err e)) (apply_batch b s)
| CS_time κ s t : call_step (PTime κ) s (κ t) s.

(** A request in flight, whatever its result type. *)
Definition request : Type := { A : Type & prog A }.
Definition req {A} (m : prog A) : request := existT A m.

Inductive pool_step : list request * Store → list request * Store → Prop :=
| PS_step pre A (m m' : prog A) post s s' :
    call_step m s m' s' →
    pool_step (pre ++ req m :: post, s) (pre ++ req m' :: post, s').

(** ** Rely and guarantee *)
Section Keeps.
Context (I : Store → Prop) (R : relation Store) `{!PreOrder R}.

(** [keeps s0 m Q]: when the store has evolved from [s0] by [R] and satisfies
    [I] at each of its calls, [m] maintains both and its result satisfies [Q]
    in every store reached from there. *)
Fixpoint keeps {A} (s0 : Store) (m : prog A) (Q : A → Store → Prop) : Prop :=
  match m with
  | Ret a => Q a s0
  | PGet p k κ => ∀ s, I s → R s0 s →
      keeps s (κ (Ok (part p s !! k))) Q ∧ (F → ∀ e, keeps s (κ (Err e)) Q)
  | PRange p from κ => ∀ s its, I s → R s0 s →
      yields F its (range_from (part p s) from) → keeps s (κ its) Q
  | PCommit b κ => ∀ s, I s → R s0 s →
      I (apply_batch b s) ∧ R s (apply_batch b s) ∧
      keeps (apply_batch b s) (κ (Ok tt)) Q ∧
      (F → ∀ e, keeps s (κ (Err e)) Q ∧ keeps (apply_batch b s) (κ (Err e)) Q)
  | PTime κ => ∀ t s, I s → R s0 s → keeps s (κ t) Q
  end.

(** Postconditions that survive what the other programs do. *)
Definition stable {A} (Q : A → Store → Prop) : Prop :=
  ∀ a s s', R s s' → Q a s → Q a s'.

Lemma keeps_mono {A} s0 (m : prog A) (Q Q' : A → Store → Prop) :
  (∀ a s, R s0 s → Q a s → Q' a s) → keeps s0 m Q → keeps s0 m Q'.
Proof.
  revert s0. induction m as [a|p k κ IH|p f κ IH|b κ IH|κ IH]; intros s0 HQ; simpl.
  - apply HQ. reflexivity.
  - intros H s Hs HR. destruct (H s Hs HR) as [H1 H2].
    split; [|intros HF e; specialize (H2 HF e)]; eapply IH; try done; intros a s' ?; apply HQ; by etrans.
  - intros H s its Hs HR Hy. eapply IH, H; try done. intros a s' ?. apply HQ. by etrans.
  - intros H s Hs HR. destruct (H s Hs HR) as (H1 & H2 & H3 & H4). split_and!; [done..| |].
    + eapply IH; [|done]. intros a s' ?. apply HQ. do 2 (etrans; [done|]). done.
    + intros HF e. destruct (H4 HF e). split; (eapply IH; [|done]); intros a s' ?; apply HQ.
      * by etrans.
      * do 2 (etrans; [done|]). done.
  - intros H t s Hs HR. eapply IH, H; try done. intros a s' ?. apply HQ. by etrans.
Qed.

Lemma keeps_bind {A B} s0 (m : prog A) (f : A → prog B) Q :
  keeps s0 m (λ a s, keeps s (f a) Q) → keeps s0 (prog_bind m f) Q.
Proof.
  revert s0. induction m as [a|p k κ IH|p g κ IH|b κ IH|κ IH]; intros s0; simpl; [done|..].
  - intros H s Hs HR. destruct (H s Hs HR). split; auto.
  - intros H s its Hs HR Hy. auto.
  - intros H s Hs HR. destruct (H s Hs HR) as (? & ? & ? & H4). split_and!; auto.
    intros HF e. destruct (H4 HF e). auto.
  - intros H t s Hs HR. auto.
Qed.

Lemma keeps_try {E E' A B} s0 (f : E → E') (m : prog (result E A))
    (k : A → prog (result E' B)) Q :
  keeps s0 m (λ r s, match r with Ok a => keeps s (k a) Q | Err e => Q (Err (f e)) s end) →
  keeps s0 (prog_try f m k) Q.
Proof. intros H. apply keeps_bind. eapply keeps_mono, H. by intros [a|e] s. Qed.

Lemma keeps_prange s0 p from Q :
  (∀ s its, I s → R s0 s → yields F its (range_from (part p s) from) → Q its s) →
  keeps s0 (prange p from) Q.
Proof. done. Qed.

(** A program that keeps from [s0] on keeps from any later store. *)
Lemma keeps_later {A} s0 s1 (m : prog A) Q :
  stable Q → R s0 s1 → keeps s0 m Q → keeps s1 m Q.
Proof.
  intros HQ HR. destruct m; simpl; [by apply HQ|..]; intros H; intros; apply H; try done; by etrans.
Qed.

Lemma call_step_keeps {A} (m m' : prog A) s s' Q :
  call_step m s m' s' → I s → keeps s m Q → I s' ∧ R s s' ∧ keeps s' m' Q.
Proof.
  intros Hst Hi Hk. destruct Hst; simpl in Hk;
    try (specialize (Hk s Hi ltac:(reflexivity)); destruct_and?; naive_solver);
    split_and!; try done; by apply Hk.
Qed.

(** A request that plays by the rules, whatever its result. *)
Definition request_keeps (s : Store) (r : request) : Prop :=
  keeps s (projT2 r) (λ _ _, True).

Lemma requests_keep_later s s' rs :
  R s s' → Forall (request_keeps s) rs → Forall (request_keeps s') rs.
Proof. intros HR Hrs. eapply Forall_impl; [exact Hrs|]. intros r. by apply keeps_later. Qed.

Lemma pool_step_keeps rs s rs' s' :
  pool_step (rs, s) (rs', s') → I s → Forall (request_keeps s) rs →
  I s' ∧ R s s' ∧ Forall (request_keeps s') rs'.
Proof.
  intros Hst HI. inversion Hst as [pre A m m' post ? ? Hc]; subst.
  rewrite !Forall_app, !Forall_cons. intros (H1 & H2 & H3).
  destruct (call_step_keeps m m' s s' _ Hc HI H2) as (? & ? & ?).
  split_and!; eauto using requests_keep_later.
Qed.

Lemma pool_steps_keep rs s rs' s' :
  rtc pool_step (rs, s) (rs', s') → I s → Forall (request_keeps s) rs →
  I s' ∧ R s s' ∧ Forall (request_keeps s') rs'.
Proof.
  intros Hst. remember (rs, s) as x eqn:Ex. remember (rs', s') as y eqn:Ey.
  revert rs s Ex. induction Hst as [x|x [rs1 s1] y Hst Hsts IH]; intros rs s Ex HI Hf; simplify_eq.
  - split_and!; [done|reflexivity|done].
  - destruct (pool_step_keeps _ _ _ _ Hst HI Hf) as (HI1 & HR & Hf1).
    destruct (IH eq_refl _ _ eq_refl HI1 Hf1) as (? & ? & ?). split_and!; [done|by etrans|done].
Qed.
End Keeps.

(** ** One request among others

    [main_step] singles out one request, to speak about its result. *)
Inductive main_step {A} : prog A * list request * Store → prog A * list request * Store → Prop :=
| MS_main m m' rs s s' : call_step m s m' s' → main_step (m, rs, s) (m', rs, s')
| MS_other m rs rs' s s' : pool_step (rs, s) (rs', s') → main_step (m, rs, s) (m, rs', s').

Lemma main_steps_keep (I : Store → Prop) (R : relation Store) `{!PreOrder R} {A}
    (m m' : prog A) rs rs' s s' (Q : A → Store → Prop) :
  rtc main_step (m, rs, s) (m', rs', s') → I s → stable R Q →
  keeps I R s m Q → Forall (request_keeps I R s) rs → I s' ∧ keeps I R s' m' Q.
Proof.
  intros Hst HI HQ. remember (m, rs, s) as x eqn:Ex. remember (m', rs', s') as y eqn:Ey.
  revert m rs s Ex HI.
  induction Hst as [x|x y' y Hst Hsts IH]; intros m rs s Ex HI Hm Hrs; simplify_eq; [done|].
  inversion Hst as [? m1 ? ? s1 Hc|? ? rs1 ? s1 Hp]; subst.
  - destruct (call_step_keeps I R _ _ _ _ _ Hc HI Hm) as (? & HR & ?).
    by eapply IH, requests_keep_later.
  - destruct (pool_step_keeps I R _ _ _ _ Hp HI Hrs) as (? & HR & ?).
    eapply IH; [done..| |done]. by eapply keeps_later.
Qed.
End Steps.
