(* ===== verification/Discipline.v ===== *)
(** * Disciplines: what every coordinator operation maintains

    [Discipline] is the interface between the coordinator's operations and an
    invariant of the store under concurrency: which facts survive the steps of
    other requests ([d_rel]), what having seen a lock or a record tells for good
    ([d_lock], [d_record]), which values a read may then find ([d_value]), and
    which mutations requests may carry ([d_mutation]).  [DisciplineLaws] asks
    that the batches the operations commit respect it.  Every operation of the
    coordinator is shown, once, to respect any discipline; [Interleave] gives
    the disciplines and reads the theorems off. *)

From stdpp Require Import base list gmap sorting strings relations.
From Stdlib Require Import ZArith Lia Strings.Byte.
From S2P Require Import Prelude Codec Engine Mvcc View Hlc Resolver Coordinator CoordSpec Pool.

Class Discipline : Type := {
  d_inv : Store → Prop;
  d_rel : relation Store;
  d_lock : bytes → Lock → Store → Prop;
  d_record : bytes → WriteRecord → Store → Prop;
  d_value : bytes → option bytes → Prop;
  d_mutation : Mutation → Prop
}.

(** The batch keeps the invariant and the relation. *)
Definition d_ok (D : Discipline) (b : Batch) (s : Store) : Prop :=
  d_inv (apply_batch b s) ∧ d_rel s (apply_batch b s).

Class DisciplineLaws (K : bytes → Prop) (D : Discipline) : Prop := {
  d_preorder :: PreOrder d_rel;
  d_inv_inv s : d_inv s → inv K s;
  d_lock_seen s k l : d_inv s → lock_at s k = Some l → d_lock k l s;
  d_lock_stable s s' k l : d_rel s s' → d_lock k l s → d_lock k l s';
  d_record_seen s k c r : d_inv s → u64 c → write_at s k c = Some r → d_record k r s;
  d_record_stable s s' k r : d_rel s s' → d_record k r s → d_record k r s';
  d_record_value s k r : d_inv s → K k → d_record k r s → u64 (wr_start_ts r) → wr_op r = Put →
    d_value k (data_at s k (wr_start_ts r));
  d_rollback s k ts : d_inv s → K k → u64 ts →
    d_ok D [ins_write k ts (WriteRecord_new ts Rollback)] s;
  d_unlock s k : d_inv s → d_ok D [rem_lock k] s;
  d_commit s k l c op : d_inv s → K k → d_lock k l s → wf_lock_val l → u64 c →
    op = lk_op l ∨ op = Put → d_ok D [ins_write k c (WriteRecord_new (lk_start_ts l) op)] s;
  d_prewrite s ts pk ttl m : d_inv s → prewrite_args K ts pk ttl [m] → d_mutation m →
    d_ok D (prewrite_ops ts pk ttl m) s;
  d_heartbeat s k l ttl : d_inv s → d_lock k l s → wf_lock_val l → K k → K (lk_primary_key l) →
    u64 ttl → d_ok D [ins_lock k (Lock_new (lk_primary_key l) (lk_start_ts l) ttl (lk_op l))] s
}.

Lemma d_ok_app {D : Discipline} `{!PreOrder d_rel} b b' s :
  d_ok D b s → d_ok D b' (apply_batch b s) → d_ok D (b ++ b') s.
Proof. unfold d_ok. rewrite apply_batch_app. intros [? ?] [? ?]. split; [done|by etrans]. Qed.

Section Ops.
Context {FE : FjallErr} (F : Prop) (K : bytes → Prop) (D : Discipline) {L : DisciplineLaws K D}.
Abbreviation kept s m Q := (keeps F d_inv d_rel s m Q).
Abbreviation trivially := (λ _ _, True).

(** *** Calls *)
Lemma kept_pget s0 p k Q :
  (∀ s, d_inv s → d_rel s0 s → Q (Ok (part p s !! k)) s) →
  (F → ∀ e s, d_inv s → d_rel s0 s → Q (Err e) s) → kept s0 (pget p k) Q.
Proof. intros H1 H2 s Hs HR. split; [by apply H1|]. intros HF e. by apply H2. Qed.

Lemma kept_commit s0 b Q :
  (∀ s, d_inv s → d_rel s0 s → d_ok D b s) →
  (∀ r s, d_inv s → d_rel s0 s → (∀ e, r = Err e → F) → Q r s) →
  kept s0 (StorageEngine_commit_batch b) Q.
Proof.
  intros Hb HQ s Hs HR. destruct (Hb s Hs HR) as [H1 H2]. split_and!; [done|done|..].
  - apply HQ; [done|by etrans|done].
  - intros HF e. split; apply HQ; try done. by etrans.
Qed.

Lemma kept_now s0 Q :
  (∀ t s, u64 t → d_inv s → d_rel s0 s → Q t s) → kept s0 now_millis Q.
Proof.
  intros H t s Hs HR. apply H; [|done|done]. destruct t; [apply u64_wrap_range|done].
Qed.

(** What a lock that was read tells for good. *)
Record seen_lock (k : bytes) (l : Lock) (s : Store) : Prop := {
  sl_lock : d_lock k l s;
  sl_wf : wf_lock_val l;
  sl_key : K k;
  sl_primary : K (lk_primary_key l)
}.

Lemma seen_lock_later k l s s' : d_rel s s' → seen_lock k l s → seen_lock k l s'.
Proof. intros HR [? ? ? ?]. split; try done. by eapply d_lock_stable. Qed.

Lemma kept_get_lock s0 k Q :
  (∀ s, d_inv s → d_rel s0 s → Q (Ok None) s) →
  (∀ v l s, d_inv s → d_rel s0 s → Lock_from_bytes v = Ok l → seen_lock k l s → Q (Ok (Some v)) s) →
  (F → ∀ e s, d_inv s → d_rel s0 s → Q (Err e) s) → kept s0 (pget PARTITION_LOCK k) Q.
Proof.
  intros HN HS HE. apply kept_pget; [|done]. intros s Hi HR. cbn [part].
  pose proof (d_inv_inv _ Hi) as Hinv.
  destruct (s_lock s !! k) as [v|] eqn:Hv; [|by apply HN].
  destruct (lock_bytes_at K s k v Hinv Hv) as (l & E & Hl).
  destruct (inv_lock_keys _ _ Hinv _ _ Hl). apply (HS v l); try done.
  split; eauto using wf_lock_val_lock_at, d_lock_seen.
Qed.

(** The records a scan of the WRITE partition meets before a first error. *)
Fixpoint seen_items (its : list (result fjall_Error (bytes * bytes))) (s : Store) : Prop :=
  match its with
  | [] => True
  | Err _ :: _ => F
  | Ok (e, v) :: its' =>
      (∃ k c r, e = KeyEncoder_encode k c ∧ u64 c ∧ K k ∧ WriteRecord_from_bytes v = Some r ∧
         d_record k r s) ∧ seen_items its' s
  end.

Lemma seen_items_later its s s' : d_rel s s' → seen_items its s → seen_items its s'.
Proof.
  intros HR. induction its as [|[[e v]|e] its IH]; simpl; [done| |done].
  intros [(k & c & r & ? & ? & ? & ? & ?) ?]. split; [|by apply IH].
  exists k, c, r. eauto 10 using d_record_stable.
Qed.

Lemma kept_items s0 from Q :
  (∀ s its, d_inv s → d_rel s0 s → seen_items its s → Q its s) →
  kept s0 (prange PARTITION_WRITE from) Q.
Proof.
  intros HQ s its Hi HR Hy. apply HQ; try done. cbn [part] in Hy.
  pose proof (d_inv_inv _ Hi) as Hinv.
  assert (∀ e v, (e, v) ∈ range_from (s_write s) from → ∃ k c r, e = KeyEncoder_encode k c ∧
    u64 c ∧ K k ∧ WriteRecord_from_bytes v = Some r ∧ d_record k r s) as Hl.
  { intros e v [Hv _]%elem_of_range_from.
    destruct (wf_write _ (inv_wf _ _ Hinv) _ _ Hv) as [Hlen [r Hr]].
    destruct (KeyEncoder_decode e) as [[k c]|[]] eqn:E; [|apply KeyEncoder_decode_err in E; lia].
    apply KeyEncoder_encode_decode in E as [-> Hc]. exists k, c, r. split_and!; try done.
    - apply (inv_write_keys _ _ Hinv k c Hc). by eexists.
    - apply (d_record_seen s k c r Hi Hc). unfold write_at. by rewrite Hv. }
  clear HQ. induction Hy as [|[e v] its l Hy IH|e its l HF]; simpl; [done| |done]. split.
  - apply (Hl e v). by left.
  - apply IH. intros e' v' ?. apply (Hl e' v'). by right.
Qed.

(** *** Reads *)
Definition read_ok (k : bytes) (r : result MvccError (option bytes)) (s : Store) : Prop :=
  match r with
  | Ok None => True
  | Ok (Some v) => d_value k (Some v)
  | Err CorruptedState => d_value k None
  | Err (KeyIsLocked pk ts) => ∃ l, seen_lock k l s ∧ pk = lk_primary_key l ∧ ts = lk_start_ts l
  | Err _ => F
  end.

Lemma kept_reader_loop s0 k ts its :
  seen_items its s0 → kept s0 (MvccReader_get_loop k ts its) (read_ok k).
Proof.
  induction its as [|[[e v]|e] its IH]; cbn [MvccReader_get_loop seen_items]; [done| |done].
  intros [(k' & c & r & -> & Hc & Hk & Hr & Hrec) Hits].
  rewrite KeyEncoder_decode_encode by done. case_decide as Ek; [|done].
  case_decide; [|by apply IH]. rewrite Hr. destruct (wr_op r) eqn:Hop; [|done|by apply IH].
  subst k'. apply keeps_try; [apply _|]. apply kept_pget; [|by intros HF e s _ _].
  intros s Hi HR. cbn [part].
  pose proof (d_record_value s k r Hi Hk (d_record_stable _ _ _ _ HR Hrec)
    (WriteRecord_from_bytes_u64 _ _ Hr) Hop) as Hv.
  unfold data_at in Hv. by destruct (s_default s !! _).
Qed.

Lemma kept_reader s0 k ts : kept s0 (MvccReader_get k ts) (read_ok k).
Proof.
  assert (∀ s, kept s (let* items := prange PARTITION_WRITE (KeyEncoder_encode k ts) in
    MvccReader_get_loop k ts items) (read_ok k)) as Hscan.
  { intros s. apply keeps_bind, kept_items. intros. by apply kept_reader_loop. }
  apply keeps_try; [apply _|]. apply kept_get_lock; [by intros s _ _| |by intros HF e s _ _].
  intros v l s _ _ -> Hl. case_decide; [|done]. exists l. done.
Qed.

(** *** The resolver *)
Lemma check_txn_status_loop_ts pk ts its c :
  check_txn_status_loop pk ts its = Ok (Some (Committed c)) → u64 c.
Proof.
  induction its as [|[[e v]|e] its IH]; cbn [check_txn_status_loop]; [done| |done].
  destruct (KeyEncoder_decode e) as [[k' c']|] eqn:E; [|done].
  apply KeyEncoder_encode_decode in E as [_ Hc']. case_decide; [|done].
  destruct (WriteRecord_from_bytes v) as [r|]; [|done]. case_decide; [|done].
  destruct (wr_op r); by intros [= <-] || done.
Qed.

(** A record written and the lock removed, in one batch. *)
Lemma d_ok_record_unlock k c r s :
  d_ok D [ins_write k c r] s → d_ok D [ins_write k c r; rem_lock k] s.
Proof.
  intros H. apply (d_ok_app [ins_write k c r] [rem_lock k]); [done|].
  apply (d_unlock _ _ (proj1 H)).
Qed.

Lemma kept_rollback_key s0 {E} (f : StorageError → E) k ts {A} (a : result E A) :
  K k → u64 ts →
  kept s0 (let? _ := StorageEngine_commit_batch
    [ins_write k ts (WriteRecord_new ts Rollback); rem_lock k] via f in Ret a)
    (λ r _, r = a ∨ ∃ e, r = Err (f e)).
Proof.
  intros Hk Hts. apply keeps_try; [apply _|]. apply kept_commit.
  - intros s Hs _. by apply d_ok_record_unlock, d_rollback.
  - intros [[]|e] s _ _ _; [by left|]. right. by eexists.
Qed.

Definition status_ok (r : result LockResolverError TxnStatus) (s : Store) : Prop :=
  match r with Ok (Committed c) => u64 c | _ => True end.

Lemma kept_check_txn_status s0 pk ts :
  K pk → u64 ts → kept s0 (LockResolver_check_txn_status pk ts) status_ok.
Proof.
  intros Hpk Hts. apply keeps_bind, kept_items. intros s its _ _ _.
  destruct (check_txn_status_loop pk ts its) as [[st|]|] eqn:E; [|clear E|done].
  { destruct st as [c| |]; [|done..]. by eapply check_txn_status_loop_ts. }
  apply keeps_try; [apply _|]. apply kept_get_lock; [done| |done]. intros v l s1 _ _ -> _.
  case_decide; [|done]. apply keeps_bind, kept_now. intros t s2 _ _ _. case_decide; [|done].
  eapply keeps_mono, kept_rollback_key; [apply _| |done..]. by intros r s3 _ [->|[e ->]].
Qed.

(** [l] is the lock [l0] that was seen, or the one a reader makes up from it. *)
Lemma kept_resolve_lock s0 k l l0 :
  seen_lock k l0 s0 → lk_start_ts l = lk_start_ts l0 → lk_primary_key l = lk_primary_key l0 →
  lk_op l = lk_op l0 ∨ lk_op l = Put →
  kept s0 (LockResolver_resolve_lock k l) trivially.
Proof.
  intros Hl Ets Epk Hop. pose proof (sl_wf _ _ _ Hl) as (Hts & _). pose proof (sl_key _ _ _ Hl) as Hk.
  apply keeps_try; [apply _|]. rewrite Ets, Epk.
  eapply keeps_mono, kept_check_txn_status; [apply _| |by eapply sl_primary|done].
  assert (∀ s, kept s (let? _ := StorageEngine_commit_batch
    [ins_write k (lk_start_ts l0) (WriteRecord_new (lk_start_ts l0) Rollback); rem_lock k]
    via LRE_Storage in Ret (Ok tt)) trivially) as Hback.
  { intros s. eapply keeps_mono, kept_rollback_key; [apply _|done..]. }
  intros [[c| |ttl]|e] s HR Hst; [|done| |done].
  - apply keeps_try; [apply _|]. apply kept_commit; [|by intros [?|?] ? _ _ _].
    intros s1 Hs1 HR1. apply d_ok_record_unlock. destruct (seen_lock_later k l0 s0 s1) as [? ? ? ?].
    { by etrans. }
    { done. }
    by apply d_commit.
  - apply keeps_bind, kept_now. intros t s1 _ _ _. by case_decide.
Qed.

(** *** The coordinator's reads *)
Definition get_ok (k : bytes) (r : result TxnError (option bytes)) : Prop :=
  match r with
  | Ok None => True
  | Ok (Some v) => d_value k (Some v)
  | Err (KeyLocked k') => k' = k
  | Err (TxnError_Mvcc (KeyIsLocked _ _)) => True
  | Err (TxnError_Mvcc CorruptedState) => d_value k None
  | Err _ => F
  end.

Lemma read_ok_get_ok k r s : read_ok k r s → get_ok k (map_err TxnError_Mvcc r).
Proof. by destruct r as [[v|]|[]]. Qed.

Lemma kept_get s0 k ts : kept s0 (Coordinator_get k ts) (λ r _, get_ok k r).
Proof.
  apply keeps_bind. eapply keeps_mono, kept_reader; [apply _|].
  intros r s _ Hr. destruct r as [v|[e|e|pk lts|]]; try by apply read_ok_get_ok in Hr.
  destruct Hr as (l & Hl & -> & ->). apply keeps_bind.
  eapply keeps_mono, (kept_resolve_lock _ _ _ l); [apply _| |done..|by right].
  intros [[]|e] s1 _ _; [|done]. apply keeps_try; [apply _|].
  eapply keeps_mono, kept_reader; [apply _|].
  intros r s2 _ Hr%read_ok_get_ok. by destruct r.
Qed.

Definition scan_ok (r : result TxnError (list (bytes * bytes))) : Prop :=
  match r with
  | Ok kvs => Forall (λ kv, d_value kv.1 (Some kv.2)) kvs
  | Err e => ∃ k, get_ok k (Err e)
  end.

Lemma kept_scan_loop s0 a b lim ts its last res :
  seen_items its s0 → Forall (λ kv, d_value kv.1 (Some kv.2)) res →
  kept s0 (Coordinator_scan_loop a b lim ts its last res) (λ r _, scan_ok r).
Proof.
  revert s0 last res. induction its as [|[[e v]|e] its IH]; intros s0 last res Hits Hres;
    cbn [Coordinator_scan_loop seen_items] in *; [done| |].
  2:{ by exists []. }
  destruct Hits as [(k & c & r & -> & Hc & Hk & Hr & Hrec) Hits].
  rewrite KeyEncoder_decode_encode by done.
  case_decide; [by apply IH|]. case_decide; [done|]. case_decide; [by apply IH|].
  apply keeps_try; [apply _|]. eapply keeps_mono, kept_get; [apply _|].
  intros [[x|]|e] s HR Hg; [| |by exists k].
  - assert (Forall (λ kv, d_value kv.1 (Some kv.2)) (res ++ [(k, x)])) as Hres'.
    { apply Forall_app. by repeat constructor. }
    case_decide; [done|]. apply IH; [by eapply seen_items_later|done].
  - apply IH; [by eapply seen_items_later|done].
Qed.

Lemma kept_scan s0 a b lim ts : kept s0 (Coordinator_scan a b lim ts) (λ r _, scan_ok r).
Proof. apply keeps_bind, kept_items. intros. by apply kept_scan_loop. Qed.

(** *** Its writes *)
Lemma kept_prewrite_check s0 k ts : kept s0 (prewrite_check k ts) trivially.
Proof. apply keeps_bind, kept_items. done. Qed.

Lemma kept_prewrite_unlock s0 k ts : kept s0 (prewrite_unlock k ts) trivially.
Proof.
  apply keeps_try; [apply _|]. apply kept_get_lock; [done| |done]. intros v l s _ _ -> Hl.
  case_decide; [|done]. apply keeps_bind.
  eapply keeps_mono, (kept_resolve_lock _ _ _ l); [apply _| |done..|by left].
  intros r s1 _ _. destruct (is_err r); [done|]. apply keeps_try; [apply _|].
  apply kept_get_lock; [done| |done]. intros v' l' s2 _ _ -> _. by case_decide.
Qed.

Lemma kept_batch_prewrite_unlock s0 k ts : kept s0 (batch_prewrite_unlock k ts) trivially.
Proof.
  apply keeps_try; [apply _|]. apply kept_get_lock; [done| |done]. intros v l s _ _ -> Hl.
  case_decide; [|done]. apply keeps_bind.
  eapply keeps_mono, (kept_resolve_lock _ _ _ l); [apply _| |done..|by left].
  intros r s1 _ _. by destruct (is_err r).
Qed.

Lemma prewrite_args_cons ts pk ttl m ms :
  prewrite_args K ts pk ttl (m :: ms) → prewrite_args K ts pk ttl [m] ∧ prewrite_args K ts pk ttl ms.
Proof. intros (? & ? & ? & ? & Hf). apply Forall_cons in Hf as [? ?]. unfold prewrite_args. split_and!; auto. Qed.

Lemma kept_prewrite s0 ts ms pk ttl :
  prewrite_args K ts pk ttl ms → Forall d_mutation ms →
  kept s0 (Coordinator_prewrite ts ms pk ttl) trivially.
Proof.
  intros Ha Hms. assert (kept s0 (prewrite_loop ts pk ttl ms) trivially) as H; [|by destruct ms].
  revert s0 Ha. induction Hms as [|m ms Hm Hms IH]; intros s0 Ha; cbn [prewrite_loop]; [done|].
  apply prewrite_args_cons in Ha as [Hm1 Hms1].
  apply keeps_try; [apply _|]. eapply keeps_mono, kept_prewrite_check; [apply _|].
  intros [[]|e] s _ _; [|done].
  apply keeps_try; [apply _|]. eapply keeps_mono, kept_prewrite_unlock; [apply _|].
  intros [[]|e] s1 _ _; [|done]. apply keeps_try; [apply _|]. apply kept_commit.
  - intros s2 Hs2 _. by apply d_prewrite.
  - intros [[]|e] s2 _ _ _; [by apply IH|done].
Qed.

(** The batch staged so far is fine in every store the rest may see. *)
Definition staged (b : Batch) (s0 : Store) : Prop :=
  ∀ s, d_inv s → d_rel s0 s → d_ok D b s.

Lemma staged_nil s0 : staged [] s0.
Proof. intros s Hs _. split; [done|]. simpl. reflexivity. Qed.

Lemma staged_later b s0 s1 : d_rel s0 s1 → staged b s0 → staged b s1.
Proof. intros HR Hb s Hs HR1. apply Hb; [done|by etrans]. Qed.

Lemma staged_app b b' s0 : staged b s0 → staged b' s0 → staged (b ++ b') s0.
Proof.
  intros H1 H2 s Hs HR. destruct (H1 s Hs HR) as [Hi Hr].
  apply d_ok_app; [by split|]. apply H2; [done|by etrans].
Qed.

Definition staged_result (r : result TxnError Batch) (s : Store) : Prop :=
  match r with Ok b => staged b s | Err _ => True end.

Lemma kept_batch_prewrite_loop s0 ts ms pk ttl b :
  prewrite_args K ts pk ttl ms → Forall d_mutation ms → staged b s0 →
  kept s0 (batch_prewrite_loop ts pk ttl ms b) staged_result.
Proof.
  intros Ha Hms. revert s0 b Ha.
  induction Hms as [|m ms Hm Hms IH]; intros s0 b Ha Hb; cbn [batch_prewrite_loop]; [done|].
  apply prewrite_args_cons in Ha as [Hm1 Hms1].
  apply keeps_try; [apply _|]. eapply keeps_mono, kept_prewrite_check; [apply _|].
  intros [[]|e] s HR _; [|done].
  apply keeps_try; [apply _|]. eapply keeps_mono, kept_batch_prewrite_unlock; [apply _|].
  intros [[]|e] s1 HR1 _; [|done]. apply IH; [done|]. apply staged_app.
  - eapply staged_later; [|done]. by etrans.
  - intros s2 Hs2 _. by apply d_prewrite.
Qed.

(** Committing what a loop staged. *)
Lemma kept_staged s0 (m : prog (result TxnError Batch)) :
  kept s0 m staged_result →
  kept s0 (let? batch := m via (λ e, e) in
           let? _ := StorageEngine_commit_batch batch via TxnError_Storage in Ret (Ok tt)) trivially.
Proof.
  intros Hm. apply keeps_try; [apply _|]. eapply keeps_mono, Hm; [apply _|].
  intros [b|e] s _ Hb; [|done]. apply keeps_try; [apply _|].
  apply kept_commit; [apply Hb|by intros [[]|e] s1 _ _ _].
Qed.

Lemma kept_batch_prewrite s0 ts ms pk ttl :
  prewrite_args K ts pk ttl ms → Forall d_mutation ms →
  kept s0 (Coordinator_batch_prewrite ts ms pk ttl) trivially.
Proof.
  intros Ha Hms. destruct ms as [|m ms]; [done|].
  apply kept_staged, kept_batch_prewrite_loop; [done|done|apply staged_nil].
Qed.

Lemma staged_commit k l c s0 :
  seen_lock k l s0 → u64 c →
  staged [ins_write k c (WriteRecord_new (lk_start_ts l) (lk_op l)); rem_lock k] s0.
Proof.
  intros Hl Hc s Hs HR. destruct (seen_lock_later k l s0 s HR Hl) as [? ? ? ?].
  apply d_ok_record_unlock, d_commit; auto.
Qed.

Lemma kept_commit_secondaries s0 ts c ks :
  u64 c → kept s0 (commit_secondaries ts c ks) trivially.
Proof.
  intros Hc. revert s0. induction ks as [|k ks IH]; intros s0; cbn [commit_secondaries]; [done|].
  apply keeps_try; [apply _|]. apply kept_get_lock; [by intros s _ _| |done].
  intros v l s _ _ -> Hl. case_decide as E; [|by apply IH]. subst ts.
  apply keeps_try; [apply _|]. apply kept_commit; [by apply staged_commit|].
  intros [[]|e] s1 _ _ _; [by apply IH|done].
Qed.

Lemma kept_coord_commit s0 ts c ks : u64 c → kept s0 (Coordinator_commit ts c ks) trivially.
Proof.
  intros Hc. destruct ks as [|k ks]; [done|]. apply keeps_try; [apply _|].
  apply kept_get_lock; [done| |done]. intros v l s _ _ -> Hl. case_decide as E; [|done]. subst ts.
  apply keeps_try; [apply _|]. apply kept_commit; [by apply staged_commit|].
  intros [[]|e] s1 _ _ _; [by apply kept_commit_secondaries|done].
Qed.

Lemma kept_batch_commit_loop s0 ts c ks b :
  u64 c → staged b s0 → kept s0 (batch_commit_loop ts c ks b) staged_result.
Proof.
  intros Hc. revert s0 b. induction ks as [|k ks IH]; intros s0 b Hb; cbn [batch_commit_loop]; [done|].
  apply keeps_try; [apply _|].
  apply kept_get_lock; [by intros s _ HR; apply IH; eapply staged_later| |done].
  intros v l s _ HR -> Hl. apply (staged_later b s0 s HR) in Hb.
  case_decide as E; [|by apply IH]. subst ts. apply IH, staged_app; [done|by apply staged_commit].
Qed.

Lemma kept_batch_commit s0 ts c ks : u64 c → kept s0 (Coordinator_batch_commit ts c ks) trivially.
Proof.
  intros Hc. destruct ks as [|k ks]; [done|].
  apply kept_staged, kept_batch_commit_loop; [done|apply staged_nil].
Qed.

Lemma kept_rollback s0 ts ks :
  u64 ts → Forall K ks → kept s0 (Coordinator_rollback ts ks) trivially.
Proof.
  intros Hts Hks. revert s0. induction Hks as [|k ks Hk Hks IH]; intros s0;
    cbn [Coordinator_rollback]; [done|].
  assert (∀ b s, b = [] ∨ b = [rem_lock k] →
    kept s (let? _ := StorageEngine_commit_batch
            (b ++ [ins_write k ts (WriteRecord_new ts Rollback)]) via TxnError_Storage in
          Coordinator_rollback ts ks) trivially) as H.
  { intros b s Hb. apply keeps_try; [apply _|]. apply kept_commit.
    - intros s1 Hs1 _. destruct Hb as [-> | ->]; [by apply d_rollback|].
      pose proof (d_unlock s1 k Hs1) as Hu. apply d_ok_app; [done|]. apply d_rollback; [|done..].
      apply Hu.
    - intros [[]|e] s1 _ _ _; [by apply IH|done]. }
  apply keeps_try; [apply _|]. apply kept_get_lock; [by intros s _ _; apply H; left| |done].
  intros v l s _ _ -> _. case_decide; apply H; auto.
Qed.

Lemma kept_heartbeat s0 pk ts ttl :
  u64 ttl → kept s0 (Coordinator_heartbeat pk ts ttl) trivially.
Proof.
  intros Httl. apply keeps_try; [apply _|]. apply kept_get_lock; [done| |done].
  intros v l s _ _ -> Hl. case_decide; [|done]. apply keeps_try; [apply _|].
  apply kept_commit; [|by intros [?|?] s1 _ _ _]. intros s1 Hs1 HR.
  destruct (seen_lock_later pk l s s1 HR Hl) as [? ? ? ?]. by apply d_heartbeat.
Qed.

Lemma kept_coord_status s0 pk ts :
  K pk → u64 ts → kept s0 (Coordinator_check_txn_status pk ts) trivially.
Proof. intros. apply keeps_bind. eapply keeps_mono, kept_check_txn_status; [apply _|done..]. Qed.

(** The requests of the coordinator, with arguments the code can store, keys of
    [K] where it writes keys it was given, and mutations the discipline allows. *)
Inductive coordinator_request : request → Prop :=
| REQ_get k ts : coordinator_request (req (Coordinator_get k ts))
| REQ_scan a b lim ts : coordinator_request (req (Coordinator_scan a b lim ts))
| REQ_prewrite ts ms pk ttl : prewrite_args K ts pk ttl ms → Forall d_mutation ms →
    coordinator_request (req (Coordinator_prewrite ts ms pk ttl))
| REQ_batch_prewrite ts ms pk ttl : prewrite_args K ts pk ttl ms → Forall d_mutation ms →
    coordinator_request (req (Coordinator_batch_prewrite ts ms pk ttl))
| REQ_commit ts c ks : u64 c → coordinator_request (req (Coordinator_commit ts c ks))
| REQ_batch_commit ts c ks : u64 c → coordinator_request (req (Coordinator_batch_commit ts c ks))
| REQ_rollback ts ks : u64 ts → Forall K ks → coordinator_request (req (Coordinator_rollback ts ks))
| REQ_heartbeat pk ts ttl : u64 ttl → coordinator_request (req (Coordinator_heartbeat pk ts ttl))
| REQ_status pk ts : K pk → u64 ts → coordinator_request (req (Coordinator_check_txn_status pk ts)).

Lemma coordinator_request_keeps s r :
  coordinator_request r → request_keeps F d_inv d_rel s r.
Proof.
  destruct 1; unfold request_keeps, req; cbn [projT2];
    eauto using kept_prewrite, kept_batch_prewrite, kept_coord_commit,
      kept_batch_commit, kept_rollback, kept_heartbeat, kept_coord_status;
    (eapply keeps_mono; [apply _| |first [apply kept_get|apply kept_scan]]; done).
Qed.
End Ops.
