(* ===== verification/Interleave.v ===== *)
(** * What holds under every interleaving

    The disciplines of the store, and what they give for any pool of concurrent
    coordinator requests.  The theorems: whatever the interleaving, and
    whatever I/O errors happen, the store keeps the invariant the sequential
    theorems assume; as long as nothing is deleted, a read that returns a value
    returns one that was written to its key, and no read finds a record without its
    value; and since prewrite checks before it writes, two concurrent prewrites
    of one key can both succeed. *)

From stdpp Require Import base list gmap sorting strings relations.
From Stdlib Require Import ZArith Lia Strings.Byte.
From S2P Require Import Prelude Codec Engine Mvcc View Hlc Resolver Coordinator CoordSpec Txn EngineOps Pool Discipline.

(** ** Well-formedness *)
Section WellFormed.
Context {FE : FjallErr} (F : Prop) (K : bytes → Prop).

Definition wf_discipline : Discipline := {|
  d_inv := inv K;
  d_rel _ _ := True;
  d_lock _ _ _ := True;
  d_record _ _ _ := True;
  d_value _ _ := True;
  d_mutation _ := True
|}.

#[local] Instance always_preorder : PreOrder (λ _ _ : Store, True).
Proof. by split. Qed.

#[local] Instance wf_discipline_laws : DisciplineLaws K wf_discipline.
Proof.
  split; unfold d_ok; cbn [d_inv d_rel d_lock d_record d_value d_mutation wf_discipline]; try done.
  - intros s k ts Hi Hk Hts. split; [|done]. by apply inv_ins_write.
  - intros s k Hi. split; [|done]. by apply inv_rem_lock.
  - intros s k l c op Hi Hk _ (? & _) Hc _. split; [|done]. by apply inv_ins_write.
  - intros s ts pk ttl m Hi (? & ? & ? & ? & Hm) _. split; [|done].
    apply inv_prewrite_ops; try done. by apply Forall_cons in Hm as [? _].
  - intros s k l ttl Hi _ (? & _ & ? & ?) Hk Hpk Httl. split; [|done]. by apply inv_ins_lock.
Qed.

Lemma inv_removes b s :
  Forall (λ o, ∃ q k', o = BRemove q k') b → inv K s → inv K (apply_batch b s).
Proof.
  intros Hb Hi.
  assert (∀ p k v, part p (apply_batch b s) !! k = Some v → part p s !! k = Some v) as Hsub.
  { intros p k v. rewrite removes_lookup by done. by case_decide. }
  pose proof (Hsub PARTITION_LOCK) as Hl. pose proof (Hsub PARTITION_WRITE) as Hw.
  cbn [part] in *. split; [split|..].
  - intros e v He%Hw. by apply (wf_write _ (inv_wf _ _ Hi)).
  - intros k v Hv%Hl. by apply (wf_lock _ (inv_wf _ _ Hi) k).
  - intros k c Hc [v Hv%Hw]. apply (inv_write_keys _ _ Hi k c Hc). by eexists.
  - intros k l (v & Hv%Hl & Hd)%bind_Some. apply (inv_lock_keys _ _ Hi).
    unfold lock_at. by rewrite Hv.
Qed.

Lemma kept_gc s0 sp :
  keeps F (inv K) (λ _ _, True) s0 (StorageEngine_gc_keys_older_than sp) (λ _ _, True).
Proof.
  apply keeps_bind, keeps_prange. intros s its _ _ Hy.
  destruct (gc_loop_spec F sp its _ None false [] 0 Hy) as [->|(_ & e & ->)]; [|done].
  case_decide; [|done]. apply keeps_try; [apply _|].
  intros s' Hi _. split_and!; [|done|done|done]. apply inv_removes; [|done]. apply collect_ops_remove.
Qed.

(** Everything that runs against the store: the coordinator's requests and the
    garbage collector. *)
Definition store_request (r : request) : Prop :=
  coordinator_request K wf_discipline r ∨
  ∃ sp, r = req (StorageEngine_gc_keys_older_than sp).

(** C5: the store invariant holds after every step of every interleaving of
    any number of concurrent requests, with or without I/O errors: every
    record and lock decodes, and every key and primary key is a key of the
    key space. *)
Theorem interleaving_preserves_inv rs s rs' s' :
  Forall store_request rs → inv K s →
  rtc (pool_step F) (rs, s) (rs', s') → inv K s'.
Proof.
  intros Hrs Hi Hst. eapply (pool_steps_keep F (inv K) (λ _ _, True)); [exact Hst|done|].
  eapply Forall_impl; [exact Hrs|]. intros r [Hr|[sp ->]]; [|by apply kept_gc].
  by apply (coordinator_request_keeps F K wf_discipline).
Qed.
End WellFormed.

(** ** Values *)
Section Values.
Context {FE : FjallErr} (F : Prop) (K : bytes → Prop).
(** The values that may be written to a key. *)
Context (V : bytes → bytes → Prop).

(** Every committed version and every lock has its value, and values are the
    ones that may be written. *)
Record valued (s : Store) : Prop := {
  va_inv : inv K s;
  va_data k ts v : K k → u64 ts → data_at s k ts = Some v → V k v;
  va_record k c r : u64 c → write_at s k c = Some r → wr_op r = Put →
    is_Some (data_at s k (wr_start_ts r));
  va_lock k l : lock_at s k = Some l → lk_op l = Put ∧ is_Some (data_at s k (lk_start_ts l))
}.

(** Values are never lost. *)
Definition data_grows (s s' : Store) : Prop :=
  ∀ k ts, u64 ts → is_Some (data_at s k ts) → is_Some (data_at s' k ts).

#[local] Instance data_grows_preorder : PreOrder data_grows.
Proof. split; [by intros s k ts|]. intros s1 s2 s3 H1 H2 k ts ? ?. auto. Qed.

Definition value_discipline : Discipline := {|
  d_inv := valued;
  d_rel := data_grows;
  d_lock k l s := u64 (lk_start_ts l) ∧ lk_op l = Put ∧ is_Some (data_at s k (lk_start_ts l));
  d_record k r s := u64 (wr_start_ts r) ∧ (wr_op r = Put → is_Some (data_at s k (wr_start_ts r)));
  d_value k o := ∃ v, o = Some v ∧ V k v;
  d_mutation m := match m with Mutation_Put k v => V k v | Mutation_Delete _ => False end
|}.

(** A batch that leaves the values alone lets them grow. *)
Lemma data_grows_same s s' : s_default s' = s_default s → data_grows s s'.
Proof. intros E k ts _. unfold data_at. by rewrite E. Qed.

Lemma valued_record s k c r :
  valued s → K k → u64 c → u64 (wr_start_ts r) →
  (wr_op r = Put → is_Some (data_at s k (wr_start_ts r))) →
  d_ok value_discipline [ins_write k c r] s.
Proof.
  intros [Hi Hd Hw Hl] Hk Hc Hts Hr. split; [|by apply data_grows_same]. split.
  - by apply inv_ins_write.
  - done.
  - intros k' c' r' Hc'. cbn [apply_batch]. rewrite write_at_ins_write, data_at_ins_write by done.
    case_decide as E; [|by apply Hw]. destruct E as [-> ->]. intros [= <-]. apply Hr.
  - done.
Qed.

Lemma valued_lock s k l :
  valued s → K k → K (lk_primary_key l) → wf_lock_val l → lk_op l = Put →
  is_Some (data_at s k (lk_start_ts l)) → d_ok value_discipline [ins_lock k l] s.
Proof.
  intros [Hi Hd Hw Hl] Hk Hpk Hwf Hop Hdat. split; [|by apply data_grows_same]. split.
  - by apply inv_ins_lock.
  - done.
  - done.
  - intros k' l'. cbn [apply_batch]. rewrite lock_at_ins_lock, data_at_ins_lock by done.
    case_decide as E; [|apply Hl]. subst. by intros [= <-].
Qed.

Lemma valued_data s k ts v :
  valued s → K k → u64 ts → V k v → d_ok value_discipline [ins_data k ts v] s.
Proof.
  intros [Hi Hd Hw Hl] Hk Hts Hv.
  assert (data_grows s (apply_op (ins_data k ts v) s)) as Hg.
  { intros k' ts' Hts'. rewrite data_at_ins_data by done. by case_decide. }
  split; [|done]. split.
  - by apply inv_ins_data.
  - intros k' ts' v' Hk' Hts'. cbn [apply_batch]. rewrite data_at_ins_data by done.
    case_decide as E; [|by apply Hd]. destruct E as [-> ->]. by intros [= <-].
  - intros k' c' r Hc' Hr Hop. apply Hg; [by eapply write_at_u64|by eapply Hw].
  - intros k' l Hk'. destruct (Hl k' l Hk') as [? ?]. split; [done|]. apply Hg; [|done].
    by apply wf_lock_val_lock_at in Hk' as [? _].
Qed.

#[local] Instance value_discipline_laws : DisciplineLaws K value_discipline.
Proof.
  split; cbn [d_inv d_rel d_lock d_record d_value d_mutation value_discipline].
  - apply _.
  - apply va_inv.
  - intros s k l Hs Hl. destruct (va_lock _ Hs k l Hl).
    by apply wf_lock_val_lock_at in Hl as [? _].
  - intros s s' k l HR (? & ? & ?). auto.
  - intros s k c r Hs Hc Hr. split; [by eapply write_at_u64|]. by eapply va_record.
  - intros s s' k r HR [? Hr]. split; [done|]. intros Hop. apply HR; auto.
  - intros s k r Hs Hk [Hts Hr] _ Hop. destruct (Hr Hop) as [v Hv]. exists v.
    split; [done|]. by eapply va_data.
  - intros s k ts Hs Hk Hts. by apply valued_record.
  - intros s k [Hi Hd Hw Hl]. split; [|by apply data_grows_same]. split; [by apply inv_rem_lock|done|done|].
    intros k' l. cbn [apply_batch]. rewrite lock_at_rem_lock. case_decide; [done|]. apply Hl.
  - intros s k l c op Hs Hk (? & ? & ?) _ Hc Hop. apply valued_record; try done.
  - intros s ts pk ttl [k v|k] Hs (Hts & Httl & Hlen & Hpk & Hm) Hv; [|done].
    apply Forall_cons in Hm as [Hm _]. unfold prewrite_ops. pose proof (valued_data s k ts v Hs Hm Hts Hv) as Hd.
    apply d_ok_app; [done|]. apply valued_lock; try done; [apply Hd|].
    cbn [apply_batch]. rewrite data_at_ins_data by done. by rewrite decide_True.
  - intros s k l ttl Hs (? & ? & ?) (? & _ & ? & ?) Hk Hpk Httl. by apply valued_lock.
Qed.

(** C6: reads are faithful under concurrency.  When nothing is deleted and
    nothing is collected, whatever requests run at the same time and however
    they interleave, a read of [k] that returns a value returns one that was
    written to [k]; it never finds a committed version without its value; and it
    reports an I/O error only if the engine fails. *)
Theorem interleaved_get_faithful rs s k ts r rs' s' :
  Forall (coordinator_request K value_discipline) rs → valued s →
  rtc (main_step F) (Coordinator_get k ts, rs, s) (Ret r, rs', s') →
  match r with
  | Ok None => True
  | Ok (Some v) => V k v
  | Err (KeyLocked k') => k' = k
  | Err (TxnError_Mvcc (KeyIsLocked _ _)) => True
  | Err (TxnError_Mvcc CorruptedState) => False
  | Err _ => F
  end.
Proof.
  intros Hrs Hs Hst.
  destruct (main_steps_keep F valued data_grows _ _ _ _ _ _ (λ r _, get_ok F value_discipline k r) Hst Hs)
    as [_ H]; [by intros a1 s1 s2|exact (kept_get F K value_discipline _ _ _)| |].
  - eapply Forall_impl; [exact Hrs|]. intros q. by apply (coordinator_request_keeps F K value_discipline).
  - cbn in H. destruct r as [[v|]|[?|?|[?|?|? ?|]|?|? ?|?| |]]; naive_solver.
Qed.

(** The same for scans: every pair a scan returns is a key with a value that
    was written to it, and a scan never reports a missing value. *)
Theorem interleaved_scan_faithful rs s a b lim ts r rs' s' :
  Forall (coordinator_request K value_discipline) rs → valued s →
  rtc (main_step F) (Coordinator_scan a b lim ts, rs, s) (Ret r, rs', s') →
  r ≠ Err (TxnError_Mvcc CorruptedState) ∧
  ∀ kvs k v, r = Ok kvs → (k, v) ∈ kvs → V k v.
Proof.
  intros Hrs Hs Hst.
  destruct (main_steps_keep F valued data_grows _ _ _ _ _ _ (λ r _, scan_ok F value_discipline r) Hst Hs)
    as [_ H]; [by intros a1 s1 s2|exact (kept_scan F K value_discipline _ _ _ _ _)| |].
  - eapply Forall_impl; [exact Hrs|]. intros q. by apply (coordinator_request_keeps F K value_discipline).
  - cbn in H. split; [|].
    + intros ->. destruct H as (k & v & ? & _). done.
    + intros kvs k v -> Hin. cbn [scan_ok] in H. rewrite Forall_forall in H. destruct (H _ Hin) as (v' & [= ->] & ?). done.
Qed.
End Values.

(** ** A race *)

(** One engine call on a reliable engine whose clock stands at [now]. *)
Definition mem_call (now : Z) {A} (m : prog A) (s : Store) : prog A * Store :=
  match m with
  | Ret a => (Ret a, s)
  | PGet p k κ => (κ (Ok (part p s !! k)), s)
  | PRange p from κ => (κ (Ok <$> range_from (part p s) from), s)
  | PCommit b κ => (κ (Ok tt), apply_batch b s)
  | PTime κ => (κ (Some now), s)
  end.

(** Two programs under a schedule: [true] runs a call of the first. *)
Fixpoint race (now : Z) {A} (sched : list bool) (m1 m2 : prog A) (s : Store) : prog A * prog A * Store :=
  match sched with
  | [] => (m1, m2, s)
  | true :: sched' => let '(m1', s') := mem_call now m1 s in race now sched' m1' m2 s'
  | false :: sched' => let '(m2', s') := mem_call now m2 s in race now sched' m1 m2' s'
  end.

Lemma mem_call_step now {A} (m : prog A) s :
  mem_call now m s = (m, s) ∨ call_step False m s (mem_call now m s).1 (mem_call now m s).2.
Proof. destruct m; simpl; eauto using @call_step, @yields_all. Qed.

Lemma race_steps now {A} sched (m1 m2 : prog A) s :
  rtc (pool_step False) ([req m1; req m2], s)
    ([req (race now sched m1 m2 s).1.1; req (race now sched m1 m2 s).1.2], (race now sched m1 m2 s).2).
Proof.
  revert m1 m2 s. induction sched as [|[] sched IH]; intros m1 m2 s; cbn [race]; [done|..].
  - destruct (mem_call_step now m1 s) as [E|Hst]; [rewrite E; apply IH|].
    destruct (mem_call now m1 s) as [m1' s']. eapply rtc_l; [|apply IH].
    by apply (PS_step False [] A m1 m1' [req m2]).
  - destruct (mem_call_step now m2 s) as [E|Hst]; [rewrite E; apply IH|].
    destruct (mem_call now m2 s) as [m2' s']. eapply rtc_l; [|apply IH].
    by apply (PS_step False [req m1] A m2 m2' []).
Qed.

(** Two prewrites of the same key by the transactions 65536 and 65537. *)
Definition race_key : bytes := of_str "a".
Definition race_prewrite (ts : Z) (v : bytes) : prog (result (@TxnError Mem_err) unit) :=
  Coordinator_prewrite ts [Mutation_Put race_key v] race_key 3000.
Definition race_sched : list bool := [true; true; false; false; true; false].
Definition race_end : prog (result (@TxnError Mem_err) unit) *
    prog (result (@TxnError Mem_err) unit) * Store :=
  race 0 race_sched (race_prewrite 65536 (of_str "1")) (race_prewrite 65537 (of_str "2"))
    (mkStore ∅ ∅ ∅).

(** Prewrite checks and then writes without excluding other requests: two
    concurrent prewrites of one key can both return [Ok], and the second lock
    replaces the first. *)
Theorem concurrent_prewrites_both_succeed :
  rtc (pool_step False)
    ([req (race_prewrite 65536 (of_str "1")); req (race_prewrite 65537 (of_str "2"))], mkStore ∅ ∅ ∅)
    ([req (Ret (Ok tt) : prog (result (@TxnError Mem_err) unit));
      req (Ret (Ok tt) : prog (result (@TxnError Mem_err) unit))], race_end.2) ∧
  lock_at race_end.2 race_key = Some (Lock_new race_key 65537 3000 Put).
Proof.
  split; [|by vm_compute].
  pose proof (race_steps 0 race_sched (race_prewrite 65536 (of_str "1"))
    (race_prewrite 65537 (of_str "2")) (mkStore ∅ ∅ ∅)) as H.
  assert ((race 0 race_sched (race_prewrite 65536 (of_str "1")) (race_prewrite 65537 (of_str "2"))
    (mkStore ∅ ∅ ∅)).1 = (Ret (Ok tt), Ret (Ok tt))) as E by by vm_compute.
  by rewrite E in H.
Qed.

Lemma interleaving_preserves_inv_witness : inv (λ k, length k = 1%nat) race_end.2.
Proof.
  apply (interleaving_preserves_inv False (λ k, length k = 1%nat)
    [req (race_prewrite 65536 (of_str "1")); req (race_prewrite 65537 (of_str "2"))] (mkStore ∅ ∅ ∅)
    [req race_end.1.1; req race_end.1.2]).
  - repeat constructor; vm_compute; done.
  - apply inv_empty.
  - apply race_steps.
Defined.

(** A schedule of one request and others: [None] runs a call of the first. *)
Definition req_call (now : Z) (r : request) (s : Store) : request * Store :=
  let '(m', s') := mem_call now (projT2 r) s in (req m', s').

Fixpoint play (now : Z) {A} (sched : list (option nat)) (m : prog A) (rs : list request) (s : Store) :
    prog A * list request * Store :=
  match sched with
  | [] => (m, rs, s)
  | None :: sched' => let '(m', s') := mem_call now m s in play now sched' m' rs s'
  | Some i :: sched' =>
      match rs !! i with
      | Some r => let '(r', s') := req_call now r s in play now sched' m (<[i := r']> rs) s'
      | None => play now sched' m rs s
      end
  end.

Lemma req_call_step now i r rs s :
  rs !! i = Some r → req_call now r s = (r, s) ∨
  pool_step False (rs, s) (<[i := (req_call now r s).1]> rs, (req_call now r s).2).
Proof.
  intros Hi. destruct r as [A m]. unfold req_call. cbn [projT1 projT2].
  destruct (mem_call_step now m s) as [E|Hst]; [left; by rewrite E|right].
  destruct (mem_call now m s) as [m' s']. cbn [fst snd] in *.
  rewrite <-(take_drop_middle rs i _ Hi) at 1.
  rewrite insert_take_drop by (by apply lookup_lt_is_Some; eexists). by constructor.
Qed.

Lemma play_steps now {A} sched (m : prog A) rs s :
  rtc (main_step False) (m, rs, s) (play now sched m rs s).
Proof.
  revert m rs s. induction sched as [|[i|] sched IH]; intros m rs s; cbn [play]; [done|..].
  - destruct (rs !! i) as [r|] eqn:Hi; [|apply IH].
    destruct (req_call_step now i r rs s Hi) as [E|Hst].
    + rewrite E. rewrite list_insert_id by done. apply IH.
    + destruct (req_call now r s) as [r' s']. eapply rtc_l; [by constructor|apply IH].
  - destruct (mem_call_step now m s) as [E|Hst]; [rewrite E; apply IH|].
    destruct (mem_call now m s) as [m' s']. eapply rtc_l; [by constructor|apply IH].
Qed.

(** A read that starts before a transaction is committed and ends after it. *)
Definition play_get : prog (result (@TxnError Mem_err) (option bytes)) :=
  Coordinator_get race_key 131072.
Definition play_others : list (@request Mem_err) :=
  [req (race_prewrite 65536 (of_str "1")); req (Coordinator_commit 65536 65537 [race_key])].
Definition play_sched : list (option nat) :=
  [Some 0; Some 0; Some 0; None; Some 1; Some 1; None; None; None; None; None]%nat.

Lemma interleaved_get_faithful_witness :
  ∃ o, (play 0 play_sched play_get play_others (mkStore ∅ ∅ ∅)).1.1 = Ret (Ok o) ∧
    (∀ v, o = Some v → v = of_str "1").
Proof.
  destruct (play 0 play_sched play_get play_others (mkStore ∅ ∅ ∅)) as [[m rs] s] eqn:E.
  assert (m = Ret (Ok (Some (of_str "1")))) as ->.
  { change m with (m, rs, s).1.1. rewrite <-E. by vm_compute. }
  exists (Some (of_str "1")). split; [done|]. intros v [= <-].
  apply (interleaved_get_faithful False (λ k, length k = 1%nat) (λ _ v, v = of_str "1")
    play_others (mkStore ∅ ∅ ∅) race_key 131072 (Ok (Some (of_str "1"))) rs s).
  - clear E. apply Forall_cons. split; [|apply Forall_cons; split; [|by apply Forall_nil]].
    + apply (REQ_prewrite _ _ 65536 [Mutation_Put race_key (of_str "1")] race_key 3000);
        by repeat constructor.
    + by apply (REQ_commit _ _ 65536 65537 [race_key]).
  - clear E. split.
    + apply inv_empty.
    + intros k ts v. unfold data_at. cbn [s_default]. by rewrite lookup_empty.
    + intros k c r. unfold write_at. cbn [s_write]. by rewrite lookup_empty.
    + intros k l. unfold lock_at. cbn [s_lock]. by rewrite lookup_empty.
  - rewrite <-E. apply play_steps.
Defined.

(** A transaction writes [a] (its primary) and [b]; at 5000 ms, past its time to
    live, it commits while a reader of [b] resolves it. *)
Definition torn_key : bytes := of_str "b".
Definition torn_store : Store :=
  (@run _ _ (Mem 1) _ (Coordinator_prewrite 65536
     [Mutation_Put race_key (of_str "1"); Mutation_Put torn_key (of_str "2")] race_key 3000)
     (mkStore ∅ ∅ ∅)).2.
Definition torn_sched : list (option nat) :=
  [Some 0; Some 0; Some 0; Some 0; None; None; Some 0; Some 0; None]%nat.
Definition torn_end :=
  play 5000 torn_sched (Coordinator_commit 65536 131072 [race_key; torn_key])
    [req (Coordinator_get torn_key 196608)] torn_store.

(** The resolver decides and then writes without excluding a commit: the reader
    finds the transaction expired, the commit of the primary goes through, the
    reader then rolls primary and secondary back, and the commit skips the
    secondary and reports success.  Half of the transaction is visible. *)
Theorem commit_races_with_resolver :
  rtc (main_step False)
    (Coordinator_commit 65536 131072 [race_key; torn_key] : prog (result (@TxnError Mem_err) unit),
     [req (Coordinator_get torn_key 196608)], torn_store) torn_end ∧
  torn_end.1.1 = Ret (Ok tt) ∧
  (@run _ _ (Mem 5000) _ (Coordinator_get race_key 196608) torn_end.2).1 = Ok (Some (of_str "1")) ∧
  (@run _ _ (Mem 5000) _ (Coordinator_get torn_key 196608) torn_end.2).1 = Ok None.
Proof. split; [apply play_steps|]. split_and!; by vm_compute. Qed.
