(* ===== verification/Router.v ===== *)
(** * The region router: [crates/raft-engine/src/router.rs]

    Regions are half-open key ranges; the router keeps them in two maps, by id
    and by start key, both behind locks that [split_region] holds for its whole
    body, so each operation is one transition of the pair of maps.  The
    invariant is that the regions tile the key space; the theorems show that a
    split preserves it, how it moves keys, and that every key then has exactly
    one region. *)

From stdpp Require Import base list gmap sorting strings relations.
From Stdlib Require Import ZArith Lia Strings.Byte.
From S2P Require Import Prelude.

Inductive RouterError : Type :=
| RegionNotFound (key : bytes)
| RegionIdNotFound (id : Z)
| RegionEpochNotMatch (id : Z).

Record RegionEpoch : Type := mkRegionEpoch { conf_ver : Z; version : Z }.

Record Region : Type := mkRegion {
  r_id : Z;
  r_start_key : bytes;
  r_end_key : bytes;
  r_peers : list Z;
  r_epoch : RegionEpoch
}.

#[export] Instance RegionEpoch_eq_dec : EqDecision RegionEpoch.
Proof. solve_decision. Defined.
#[export] Instance Region_eq_dec : EqDecision Region.
Proof. solve_decision. Defined.

Definition Region_new (id : Z) (start_key end_key : bytes) (peers : list Z) : Region :=
  mkRegion id start_key end_key peers (mkRegionEpoch 1 1).

Definition Region_contains_key (r : Region) (key : bytes) : bool :=
  bool_decide (r_start_key r = [] ∨ bytes_le (r_start_key r) key) &&
  bool_decide (r_end_key r = [] ∨ bytes_lt key (r_end_key r)).

Record RegionRouter : Type := mkRegionRouter {
  regions_by_id : gmap Z Region;
  regions_by_key : gmap bytes Region
}.

Definition RegionRouter_new : RegionRouter := mkRegionRouter ∅ ∅.

Definition RegionRouter_insert_region (rt : RegionRouter) (region : Region) : RegionRouter :=
  mkRegionRouter (<[r_id region := region]> (regions_by_id rt))
                 (<[r_start_key region := region]> (regions_by_key rt)).

Definition RegionRouter_get_region (rt : RegionRouter) (region_id : Z) : option Region :=
  regions_by_id rt !! region_id.

(** [by_key.values()]: the regions in the order of their start keys. *)
Definition key_le (x y : bytes * Region) : Prop := bytes_le x.1 y.1.
#[export] Instance key_le_dec x y : Decision (key_le x y).
Proof. unfold key_le. apply _. Defined.
Definition btree_values (m : gmap bytes Region) : list Region :=
  (merge_sort key_le (map_to_list m)).*2.

Fixpoint route_key_loop (key : bytes) (regions : list Region) : result RouterError Region :=
  match regions with
  | [] => Err (RegionNotFound key)
  | region :: rest => if Region_contains_key region key then Ok region else route_key_loop key rest
  end.

Definition RegionRouter_route_key (rt : RegionRouter) (key : bytes) : result RouterError Region :=
  route_key_loop key (reverse (btree_values (regions_by_key rt))).

Definition RegionRouter_split_region (rt : RegionRouter) (region_id : Z) (split_key : bytes)
    (new_region_id : Z) : result RouterError (Region * Region) * RegionRouter :=
  match regions_by_id rt !! region_id with
  | None => (Err (RegionIdNotFound region_id), rt)
  | Some old_region =>
      if decide (Region_contains_key old_region split_key = false ∨
                 split_key = r_start_key old_region)
      then (Err (RegionNotFound split_key), rt)
      else
        let by_key := delete (r_start_key old_region) (regions_by_key rt) in
        let left_region :=
          mkRegion (r_id old_region) (r_start_key old_region) split_key (r_peers old_region)
            (mkRegionEpoch (conf_ver (r_epoch old_region))
                           (u64_add (version (r_epoch old_region)) 1)) in
        let right_region :=
          mkRegion new_region_id split_key (r_end_key old_region) (r_peers old_region)
            (mkRegionEpoch (conf_ver (r_epoch old_region)) 1) in
        let by_id := <[r_id left_region := left_region]> (regions_by_id rt) in
        let by_id := <[r_id right_region := right_region]> by_id in
        let by_key := <[r_start_key left_region := left_region]> by_key in
        let by_key := <[r_start_key right_region := right_region]> by_key in
        (Ok (left_region, right_region), mkRegionRouter by_id by_key)
  end.

(** ** Specification *)

(** The regions tile the key space, and the two maps hold the same regions. *)
Record tiling (rt : RegionRouter) : Prop := {
  tl_id i r : regions_by_id rt !! i = Some r → r_id r = i;
  tl_by_key r : (∃ k, regions_by_key rt !! k = Some r) ↔ regions_by_id rt !! r_id r = Some r;
  tl_start k r : regions_by_key rt !! k = Some r → r_start_key r = k;
  tl_disjoint i j r r' key :
    regions_by_id rt !! i = Some r → regions_by_id rt !! j = Some r' →
    Region_contains_key r key = true → Region_contains_key r' key = true → i = j;
  tl_cover key : ∃ i r, regions_by_id rt !! i = Some r ∧ Region_contains_key r key = true;
  tl_nonempty i r : regions_by_id rt !! i = Some r → Region_contains_key r (r_start_key r) = true
}.

(** The router over its life: created with one region for the whole key space,
    then split, each time with an id not in use. *)
Inductive router_reach (peers : list Z) : RegionRouter → Prop :=
| RR_init id : router_reach peers (RegionRouter_insert_region RegionRouter_new (Region_new id [] [] peers))
| RR_split rt id key new_id :
    router_reach peers rt → regions_by_id rt !! new_id = None →
    router_reach peers (RegionRouter_split_region rt id key new_id).2.

(** ** Lemmas *)
Lemma contains_key_spec r key :
  Region_contains_key r key = true ↔
  (r_start_key r = [] ∨ bytes_le (r_start_key r) key) ∧
  (r_end_key r = [] ∨ bytes_lt key (r_end_key r)).
Proof. unfold Region_contains_key. by rewrite andb_true_iff, !bool_decide_eq_true. Qed.

Lemma elem_of_btree_values m r : r ∈ btree_values m ↔ ∃ k, m !! k = Some r.
Proof.
  unfold btree_values. rewrite merge_sort_Permutation, list_elem_of_fmap. split.
  - intros ([k r'] & -> & H%elem_of_map_to_list). eauto.
  - intros [k H]. exists (k, r). by rewrite elem_of_map_to_list.
Qed.

Lemma route_key_loop_ok key l r :
  route_key_loop key l = Ok r → r ∈ l ∧ Region_contains_key r key = true.
Proof.
  induction l as [|x l IH]; cbn [route_key_loop]; [done|].
  destruct (Region_contains_key x key) eqn:E; [intros [= <-]; split; [by left|done]|].
  intros [? ?]%IH. split; [by right|done].
Qed.

Lemma route_key_loop_err key l e :
  route_key_loop key l = Err e →
  e = RegionNotFound key ∧ ∀ r, r ∈ l → Region_contains_key r key = false.
Proof.
  induction l as [|x l IH]; cbn [route_key_loop]; [by intros [= <-]; split; [|intros ? ?%elem_of_nil]|].
  destruct (Region_contains_key x key) eqn:E; [done|]. intros [-> Hl]%IH. split; [done|].
  by intros r [->|?]%elem_of_cons; auto.
Qed.

Lemma tiling_id_unique rt r r' key :
  tiling rt → regions_by_id rt !! r_id r = Some r → regions_by_id rt !! r_id r' = Some r' →
  Region_contains_key r key = true → Region_contains_key r' key = true → r = r'.
Proof.
  intros Ht H H' Hk Hk'. pose proof (tl_disjoint _ Ht _ _ _ _ _ H H' Hk Hk') as E.
  rewrite E, H' in H. by injection H.
Qed.

(** In a tiling a key routes to the one region that contains it. *)
Lemma tiling_route rt key r :
  tiling rt →
  RegionRouter_route_key rt key = Ok r ↔
  regions_by_id rt !! r_id r = Some r ∧ Region_contains_key r key = true.
Proof.
  intros Ht. unfold RegionRouter_route_key. split.
  - intros [Hin Hc]%route_key_loop_ok. rewrite elem_of_reverse, elem_of_btree_values in Hin.
    split; [by apply (tl_by_key _ Ht)|done].
  - intros [Hr Hc]. destruct (route_key_loop key _) as [r'|e] eqn:E.
    + apply route_key_loop_ok in E as [Hin Hc']. rewrite elem_of_reverse, elem_of_btree_values in Hin.
      apply (tl_by_key _ Ht) in Hin. by rewrite (tiling_id_unique rt r r' key).
    + apply route_key_loop_err in E as [_ Hno]. rewrite (Hno r) in Hc; [done|].
      rewrite elem_of_reverse, elem_of_btree_values. by apply (tl_by_key _ Ht).
Qed.

(** The two halves of a region, and the router that holds them. *)
Definition left_of (old : Region) (m : bytes) : Region :=
  mkRegion (r_id old) (r_start_key old) m (r_peers old)
    (mkRegionEpoch (conf_ver (r_epoch old)) (u64_add (version (r_epoch old)) 1)).
Definition right_of (old : Region) (m : bytes) (new_id : Z) : Region :=
  mkRegion new_id m (r_end_key old) (r_peers old) (mkRegionEpoch (conf_ver (r_epoch old)) 1).
Definition after_split (rt : RegionRouter) (old : Region) (m : bytes) (new_id : Z) : RegionRouter :=
  mkRegionRouter
    (<[new_id := right_of old m new_id]> (<[r_id old := left_of old m]> (regions_by_id rt)))
    (<[m := right_of old m new_id]> (<[r_start_key old := left_of old m]>
      (delete (r_start_key old) (regions_by_key rt)))).

Section Split.
Context (rt : RegionRouter) (id new_id : Z) (old : Region) (m : bytes).
Context (Ht : tiling rt) (Hold : regions_by_id rt !! id = Some old).
Context (Hfresh : regions_by_id rt !! new_id = None).
Context (Hin : Region_contains_key old m = true) (Hne : m ≠ r_start_key old).

Abbreviation lft := (left_of old m).
Abbreviation rgt := (right_of old m new_id).
Abbreviation rt' := (after_split rt old m new_id).

Lemma split_ok : RegionRouter_split_region rt id m new_id = (Ok (lft, rgt), rt').
Proof.
  unfold RegionRouter_split_region. rewrite Hold, decide_False; [done|].
  rewrite Hin. by intros [?|?].
Qed.

Lemma split_key_nonempty : m ≠ [].
Proof.
  intros E. apply contains_key_spec in Hin as [[Hs|Hs] _]; apply Hne; rewrite E; [done|].
  destruct (r_start_key old) as [|x s] eqn:Eo; [done|]. rewrite E in Hs. done.
Qed.

Lemma split_start_lt : r_start_key old = [] ∨ bytes_lt (r_start_key old) m.
Proof.
  apply contains_key_spec in Hin as [[Hs|Hs] _]; [by left|right].
  apply bytes_le_lt_eq in Hs as [?|E]; [done|]. by destruct Hne.
Qed.

Lemma split_left key :
  Region_contains_key lft key = true ↔ Region_contains_key old key = true ∧ bytes_lt key m.
Proof.
  rewrite !contains_key_spec. unfold left_of. cbn [r_start_key r_end_key].
  pose proof split_key_nonempty as Hm0.
  apply contains_key_spec in Hin as [_ He]. split.
  - intros [Hs [?|Hlt]]; [done|]. split; [|done]. split; [done|].
    destruct He as [?|He]; [by left|right]. by etrans.
  - intros [[Hs _] Hlt]. auto.
Qed.

Lemma split_right key :
  Region_contains_key rgt key = true ↔ Region_contains_key old key = true ∧ ¬ bytes_lt key m.
Proof.
  rewrite !contains_key_spec, bytes_not_lt_ge. unfold right_of. cbn [r_start_key r_end_key].
  pose proof split_key_nonempty as Hm0. split.
  - intros [[?|Hs] He]; [done|]. split; [|done]. split; [|done].
    destruct split_start_lt as [?|Hlt]; [by left|right].
    apply bytes_lt_le. by eapply bytes_lt_le_trans.
  - intros [[_ He] Hs]. auto.
Qed.

Lemma split_ids : r_id old = id ∧ new_id ≠ id.
Proof. split; [by apply (tl_id _ Ht)|]. intros ->. by rewrite Hfresh in Hold. Qed.

Lemma split_by_id i r :
  regions_by_id rt' !! i = Some r ↔
  (i = new_id ∧ r = rgt) ∨ (i = id ∧ r = lft) ∨ (i ≠ id ∧ regions_by_id rt !! i = Some r).
Proof.
  destruct split_ids as [Eid Hnew]. unfold after_split. cbn [regions_by_id]. rewrite Eid.
  destruct (decide (i = new_id)) as [->|Hi]; [rewrite lookup_insert_eq; naive_solver|].
  rewrite lookup_insert_ne by done.
  destruct (decide (i = id)) as [->|Hi2]; [rewrite lookup_insert_eq; naive_solver|].
  rewrite lookup_insert_ne by done. naive_solver.
Qed.

(** No region starts at the split key. *)
Lemma split_key_free : regions_by_key rt !! m = None.
Proof.
  destruct (regions_by_key rt !! m) as [r|] eqn:E; [exfalso|done].
  assert (regions_by_id rt !! r_id r = Some r) as Hr by (apply (tl_by_key _ Ht); eauto).
  pose proof (tl_start _ Ht _ _ E) as Es. apply Hne.
  assert (r = old) as <-; [|by rewrite Es].
  apply (tiling_id_unique rt r old m); [done|done| | |done].
  - by rewrite (proj1 split_ids).
  - rewrite <-Es. by eapply tl_nonempty.
Qed.

Lemma split_by_key k r :
  regions_by_key rt' !! k = Some r ↔
  (k = m ∧ r = rgt) ∨ (k = r_start_key old ∧ r = lft) ∨
  (k ≠ r_start_key old ∧ regions_by_key rt !! k = Some r).
Proof.
  pose proof split_key_free as Hf. unfold after_split. cbn [regions_by_key].
  destruct (decide (k = m)) as [->|Hk]; [rewrite lookup_insert_eq; naive_solver|].
  rewrite lookup_insert_ne by done.
  destruct (decide (k = r_start_key old)) as [->|Hk2]; [rewrite lookup_insert_eq; naive_solver|].
  rewrite lookup_insert_ne, lookup_delete_ne by done. naive_solver.
Qed.

(** The other regions are those with another id, or another start key. *)
Lemma split_other r :
  r ≠ old → (∃ k, k ≠ r_start_key old ∧ regions_by_key rt !! k = Some r) ↔
  r_id r ≠ id ∧ regions_by_id rt !! r_id r = Some r.
Proof.
  intros Hr. split.
  - intros (k & Hk & Hkr). assert (regions_by_id rt !! r_id r = Some r) as H.
    { apply (tl_by_key _ Ht); eauto. }
    split; [|done]. intros E. rewrite E, Hold in H. by injection H.
  - intros [Hi H]. destruct (proj2 (tl_by_key _ Ht r) H) as [k Hk]. exists k. split; [|done].
    intros ->. pose proof (tl_start _ Ht _ _ Hk) as Es.
    assert (Region_contains_key old (r_start_key old) = true) as Hos by by eapply tl_nonempty.
    apply Hr, (tiling_id_unique rt r old (r_start_key old)); [done|done| | |done].
    + by rewrite (proj1 split_ids).
    + rewrite <-Es. by eapply tl_nonempty.
Qed.

Lemma split_tiling : tiling rt'.
Proof.
  destruct split_ids as [Eid Hnew].
  assert (∀ r, regions_by_id rt !! r_id r = Some r → r_id r ≠ id → r ≠ old) as Hno.
  { intros r Hr Hi ->. by rewrite Eid in Hi. }
  assert (∀ i r key, i ≠ id → regions_by_id rt !! i = Some r → Region_contains_key r key = true →
    Region_contains_key old key = false) as Hdis.
  { intros i r key Hi Hr Hk. destruct (Region_contains_key old key) eqn:E; [|done].
    exfalso. apply Hi. by apply (tl_disjoint _ Ht i id r old key). }
  split.
  - intros i r [[-> ->]|[[-> ->]|[_ Hr]]]%split_by_id; [done|done|by apply (tl_id _ Ht)].
  - intros r. setoid_rewrite split_by_id. setoid_rewrite split_by_key. split.
    + intros (k & [[-> ->]|[[-> ->]|[Hk Hr]]]); [by left|right; left; by split; [exact Eid|]|].
      destruct (decide (r = old)) as [->|Hro]; [by apply (tl_start _ Ht) in Hr|].
      right. right. apply split_other; eauto.
    + intros [[Ei ->]|[[Ei ->]|[Hi Hr]]]; [by exists m; left|exists (r_start_key old); auto|].
      destruct (proj2 (split_other r (Hno _ Hr Hi)) (conj Hi Hr)) as (k & ? & ?). eauto.
  - intros k r [[-> ->]|[[-> ->]|[_ Hr]]]%split_by_key; [done|done|by apply (tl_start _ Ht)].
  - intros i j r r' key [[-> ->]|[[-> ->]|[Hi Hr]]]%split_by_id
      [[-> ->]|[[-> ->]|[Hj Hr']]]%split_by_id; try done;
      rewrite ?split_left, ?split_right; intros Hk Hk'; try tauto.
    + destruct Hk as [Hk _]. by rewrite (Hdis j r' key Hj Hr' Hk') in Hk.
    + destruct Hk as [Hk _]. by rewrite (Hdis j r' key Hj Hr' Hk') in Hk.
    + destruct Hk' as [Hk' _]. by rewrite (Hdis i r key Hi Hr Hk) in Hk'.
    + destruct Hk' as [Hk' _]. by rewrite (Hdis i r key Hi Hr Hk) in Hk'.
    + by apply (tl_disjoint _ Ht i j r r' key).
  - intros key. destruct (tl_cover _ Ht key) as (i & r & Hr & Hk). setoid_rewrite split_by_id.
    destruct (decide (i = id)) as [->|Hi]; [|by exists i, r; auto].
    rewrite Hold in Hr. injection Hr as <-. destruct (decide (bytes_lt key m)).
    + exists id, lft. rewrite split_left. auto.
    + exists new_id, rgt. rewrite split_right. auto.
  - intros i r [[-> ->]|[[-> ->]|[_ Hr]]]%split_by_id; [..|by eapply tl_nonempty].
    + cbn [right_of r_start_key]. rewrite split_right. split; [done|]. apply irreflexivity, _.
    + cbn [left_of r_start_key]. rewrite split_left. split; [by eapply tl_nonempty|].
      destruct split_start_lt as [E|?]; [|done]. rewrite E.
      pose proof split_key_nonempty as Hm0. by destruct m.
Qed.

(** After the split, a key of the old region goes to the half it falls into,
    every other key to where it went before. *)
Lemma split_route key :
  RegionRouter_route_key rt' key =
  if Region_contains_key old key
  then Ok (if decide (bytes_lt key m) then lft else rgt)
  else RegionRouter_route_key rt key.
Proof.
  destruct split_ids as [Eid Hnew].
  destruct (Region_contains_key old key) eqn:Hc.
  - apply (tiling_route rt' key _ split_tiling). case_decide as D; split.
    + apply split_by_id. right. left. by split; [exact Eid|].
    + by apply split_left.
    + apply split_by_id. by left.
    + by apply split_right.
  - destruct (RegionRouter_route_key rt key) as [r|e] eqn:E.
    + apply (tiling_route _ _ _ Ht) in E as [Hr Hk]. apply (tiling_route _ _ _ split_tiling).
      split; [|done]. apply split_by_id. right. right. split; [|done]. intros Ei.
      rewrite Ei, Hold in Hr. injection Hr as <-. congruence.
    + destruct (tl_cover _ Ht key) as (i & r & Hr & Hk).
      pose proof (tl_id _ Ht _ _ Hr) as Ei. rewrite <-Ei in Hr.
      by rewrite (proj2 (tiling_route _ _ _ Ht) (conj Hr Hk)) in E.
Qed.
End Split.

(** A split that fails leaves the router alone. *)
Lemma split_err rt id m new_id e rt' :
  RegionRouter_split_region rt id m new_id = (Err e, rt') →
  rt' = rt ∧
  match regions_by_id rt !! id with
  | None => e = RegionIdNotFound id
  | Some old => e = RegionNotFound m ∧
                (Region_contains_key old m = false ∨ m = r_start_key old)
  end.
Proof.
  unfold RegionRouter_split_region. destruct (regions_by_id rt !! id) as [old|]; [|by intros [= <- <-]].
  case_decide; [|done]. by intros [= <- <-].
Qed.

Lemma insert_whole_tiling id peers :
  tiling (RegionRouter_insert_region RegionRouter_new (Region_new id [] [] peers)).
Proof.
  unfold RegionRouter_insert_region, RegionRouter_new. cbn [regions_by_id regions_by_key].
  rewrite !insert_empty. split; cbn [regions_by_id regions_by_key r_id r_start_key Region_new].
  - intros i r [<- <-]%lookup_singleton_Some. done.
  - intros r. setoid_rewrite lookup_singleton_Some. split.
    + intros (k & _ & <-). done.
    + intros [_ <-]. by exists [].
  - intros k r [<- <-]%lookup_singleton_Some. done.
  - intros i j r r' key [<- _]%lookup_singleton_Some [<- _]%lookup_singleton_Some. done.
  - intros key. exists id, (Region_new id [] [] peers). rewrite lookup_singleton_Some.
    split; [done|]. rewrite contains_key_spec. auto.
  - intros i r [<- <-]%lookup_singleton_Some. done.
Qed.

Lemma router_reach_tiling peers rt : router_reach peers rt → tiling rt.
Proof.
  induction 1 as [id|rt id key new_id _ Ht Hfresh]; [apply insert_whole_tiling|].
  destruct (RegionRouter_split_region rt id key new_id) as [[[l r]|e] rt'] eqn:E; cbn [snd].
  - revert E. unfold RegionRouter_split_region.
    destruct (regions_by_id rt !! id) as [old|] eqn:Hold; [|done]. case_decide as D; [done|].
    intros [= <- <- <-]. apply (split_tiling rt id new_id old key); try done.
    + destruct (Region_contains_key old key); [done|]. tauto.
    + tauto.
  - by apply split_err in E as [-> _].
Qed.

(** ** Theorems *)

(** Every key has exactly one region at all times: after any sequence of
    splits with fresh ids of the initial region, a key routes to a region that
    contains it, that both maps hold, and no other region contains it. *)
Theorem every_key_routed peers rt key :
  router_reach peers rt →
  ∃ r, RegionRouter_route_key rt key = Ok r ∧ Region_contains_key r key = true ∧
    RegionRouter_get_region rt (r_id r) = Some r ∧
    ∀ r', RegionRouter_get_region rt (r_id r') = Some r' → Region_contains_key r' key = true → r' = r.
Proof.
  intros Ht%router_reach_tiling. destruct (tl_cover _ Ht key) as (i & r & Hr & Hk).
  pose proof (tl_id _ Ht _ _ Hr) as <-. exists r. split_and!; try done.
  - by apply (tiling_route _ _ _ Ht).
  - intros r' Hr' Hk'. by apply (tiling_id_unique rt r' r key).
Qed.

(** C26: what a split does: it succeeds exactly when the split key lies strictly
    inside the region, raises the region's version, and sends each key of the
    old region to the half it falls into and every other key where it went
    before; otherwise it reports why and changes nothing. *)
Theorem split_region_routes peers rt id m new_id :
  router_reach peers rt → RegionRouter_get_region rt new_id = None →
  match RegionRouter_split_region rt id m new_id with
  | (Ok (l, r), rt') =>
      ∃ old, RegionRouter_get_region rt id = Some old ∧ Region_contains_key old m = true ∧
        m ≠ r_start_key old ∧ l = left_of old m ∧ r = right_of old m new_id ∧
        ∀ key, RegionRouter_route_key rt' key =
          if Region_contains_key old key
          then Ok (if decide (bytes_lt key m) then l else r)
          else RegionRouter_route_key rt key
  | (Err e, rt') =>
      rt' = rt ∧
      match RegionRouter_get_region rt id with
      | None => e = RegionIdNotFound id
      | Some old => e = RegionNotFound m ∧
                    (Region_contains_key old m = false ∨ m = r_start_key old)
      end
  end.
Proof.
  intros Ht%router_reach_tiling Hfresh. unfold RegionRouter_get_region in *.
  destruct (RegionRouter_split_region rt id m new_id) as [[[l r]|e] rt'] eqn:E;
    [|by apply split_err in E].
  destruct (regions_by_id rt !! id) as [old|] eqn:Hold;
    [|by unfold RegionRouter_split_region in E; rewrite Hold in E].
  assert (¬ (Region_contains_key old m = false ∨ m = r_start_key old)) as D.
  { intros D. unfold RegionRouter_split_region in E. by rewrite Hold, decide_True in E. }
  assert (Region_contains_key old m = true) as Hin.
  { destruct (Region_contains_key old m); [done|tauto]. }
  assert (m ≠ r_start_key old) as Hne by tauto.
  rewrite (split_ok rt id new_id old m Hold Hin Hne) in E. injection E as <- <- <-.
  exists old. split_and!; try done. intros key. by apply (split_route rt id).
Qed.

(** ** Concrete routing *)
Definition ex_router : RegionRouter :=
  (RegionRouter_split_region
    (RegionRouter_insert_region RegionRouter_new (Region_new 1 [] [] [1])) 1 (of_str "m") 2).2.

Lemma ex_router_reach : router_reach [1] ex_router.
Proof. apply RR_split; [apply RR_init|by vm_compute]. Qed.

Lemma every_key_routed_witness :
  ∃ r, RegionRouter_route_key ex_router (of_str "k") = Ok r.
Proof.
  destruct (every_key_routed [1] ex_router (of_str "k") ex_router_reach) as (r & H & _). eauto.
Defined.

Lemma split_region_routes_witness :
  RegionRouter_route_key (RegionRouter_split_region ex_router 2 (of_str "t") 3).2 (of_str "z") =
  Ok (mkRegion 3 (of_str "t") [] [1] (mkRegionEpoch 1 1)).
Proof.
  pose proof (split_region_routes [1] ex_router 2 (of_str "t") 3 ex_router_reach eq_refl) as H.
  destruct (RegionRouter_split_region ex_router 2 (of_str "t") 3) as [[[l r]|e] rt'] eqn:E.
  - destruct H as (old & Hold & _ & _ & -> & -> & Hr). cbn [snd]. rewrite Hr.
    vm_compute in Hold. injection Hold as <-. by vm_compute.
  - destruct H as [_ H]. vm_compute in H. destruct H as [_ [H|H]]; discriminate H.
Defined.
