(* ===== verification/LegacyRegion.v ===== *)
(** * The older region module: [crates/raft-engine/src/region/]

    A first version of the region router and of the splitter, still in the tree
    beside the router the node uses ([Router]).  Its router keys the regions by
    their {e end} key and never removes one: replacing a region by its two halves
    relies on the right half overwriting it.  The theorems: a split at an inner
    key divides a region's keys between the two halves; and this router, given
    the same splits, routes every key to the same range as the one in use. *)

From stdpp Require Import base list gmap sorting strings.
From Stdlib Require Import ZArith Lia Strings.Byte.
From S2P Require Import Prelude Router.

(** ** [region/mod.rs] *)
Record LegacyRegion : Type := mkLegacyRegion {
  lr_id : Z;
  lr_start_key : bytes;
  lr_end_key : bytes;
  lr_leader_addr : string;
  lr_size_bytes : Z
}.

Definition LegacyRegion_contains_key (r : LegacyRegion) (key : bytes) : bool :=
  bool_decide (lr_start_key r = [] ∨ bytes_le (lr_start_key r) key) &&
  bool_decide (lr_end_key r = [] ∨ bytes_lt key (lr_end_key r)).

(** ** [region/router.rs]: a [BTreeMap] from the end key *)
Abbreviation LegacyRouter := (gmap bytes LegacyRegion).

Definition LegacyRouter_new : LegacyRouter := ∅.

Definition LegacyRouter_insert_region (rt : LegacyRouter) (region : LegacyRegion) : LegacyRouter :=
  <[lr_end_key region := region]> rt.

(** [regions.values()]: in the order of the end keys. *)
Definition end_le (x y : bytes * LegacyRegion) : Prop := bytes_le x.1 y.1.
#[export] Instance end_le_dec x y : Decision (end_le x y).
Proof. unfold end_le. apply _. Defined.
Definition legacy_values (rt : LegacyRouter) : list LegacyRegion :=
  (merge_sort end_le (map_to_list rt)).*2.

Fixpoint legacy_route_loop (key : bytes) (regions : list LegacyRegion) : option LegacyRegion :=
  match regions with
  | [] => None
  | region :: rest =>
      if LegacyRegion_contains_key region key then Some region else legacy_route_loop key rest
  end.

Definition LegacyRouter_route (rt : LegacyRouter) (key : bytes) : option LegacyRegion :=
  legacy_route_loop key (legacy_values rt).

(** ** [region/splitter.rs]: the splitter is its threshold *)
Definition DEFAULT_SPLIT_SIZE_BYTES : Z := 64 * 1024 * 1024.

Definition should_split (split_threshold_bytes : Z) (region : LegacyRegion) : bool :=
  bool_decide (split_threshold_bytes ≤ lr_size_bytes region).

Definition legacy_split_region (region : LegacyRegion) (split_key : bytes) (new_region_id : Z) :
    LegacyRegion * LegacyRegion :=
  let half_size := lr_size_bytes region `div` 2 in
  (mkLegacyRegion (lr_id region) (lr_start_key region) split_key (lr_leader_addr region) half_size,
   mkLegacyRegion new_region_id split_key (lr_end_key region) (lr_leader_addr region) half_size).

(** ** The two routers side by side *)

(** The same range under the same id. *)
Definition same_range (x : LegacyRegion) (r : Region) : Prop :=
  lr_id x = r_id r ∧ lr_start_key x = r_start_key r ∧ lr_end_key x = r_end_key r.

(** A specification of how the two routers would be run side by side (no code
    does): the older router starts with one region and takes over every split: both
    halves are inserted.  The router in use performs the same splits. *)
Inductive side_by_side (peers : list Z) : LegacyRouter → RegionRouter → Prop :=
| SS_init id leader size :
    side_by_side peers
      (LegacyRouter_insert_region LegacyRouter_new (mkLegacyRegion id [] [] leader size))
      (RegionRouter_insert_region RegionRouter_new (Region_new id [] [] peers))
| SS_split lr rt k x split_key new_id halves rt' :
    side_by_side peers lr rt → lr !! k = Some x → regions_by_id rt !! new_id = None →
    RegionRouter_split_region rt (lr_id x) split_key new_id = (Ok halves, rt') →
    side_by_side peers
      (LegacyRouter_insert_region
         (LegacyRouter_insert_region lr (legacy_split_region x split_key new_id).1)
         (legacy_split_region x split_key new_id).2) rt'.

(** ** Lemmas *)
Record mirror (lr : LegacyRouter) (rt : RegionRouter) : Prop := {
  mr_end k x : lr !! k = Some x → lr_end_key x = k;
  mr_sound k x : lr !! k = Some x → ∃ r, regions_by_id rt !! lr_id x = Some r ∧ same_range x r;
  mr_complete i r : regions_by_id rt !! i = Some r → ∃ x, lr !! r_end_key r = Some x ∧ same_range x r
}.

Lemma same_range_contains x r key :
  same_range x r → LegacyRegion_contains_key x key = Region_contains_key r key.
Proof.
  intros (_ & Hs & He). unfold LegacyRegion_contains_key, Region_contains_key. by rewrite Hs, He.
Qed.

Lemma legacy_contains_spec r key :
  LegacyRegion_contains_key r key = true ↔
  (lr_start_key r = [] ∨ bytes_le (lr_start_key r) key) ∧
  (lr_end_key r = [] ∨ bytes_lt key (lr_end_key r)).
Proof. unfold LegacyRegion_contains_key. by rewrite andb_true_iff, !bool_decide_eq_true. Qed.

Lemma legacy_route_some key l x :
  legacy_route_loop key l = Some x → x ∈ l ∧ LegacyRegion_contains_key x key = true.
Proof.
  induction l as [|y l IH]; cbn [legacy_route_loop]; [done|].
  destruct (LegacyRegion_contains_key y key) eqn:E; [intros [= ->]; by split; [left|]|].
  intros [? ?]%IH. by split; [right|].
Qed.

Lemma legacy_route_none key l x :
  legacy_route_loop key l = None → x ∈ l → LegacyRegion_contains_key x key = false.
Proof.
  induction l as [|y l IH]; cbn [legacy_route_loop]; [by intros _ ?%elem_of_nil|].
  destruct (LegacyRegion_contains_key y key) eqn:E; [done|].
  intros Hn [->|?]%elem_of_cons; [done|by apply IH].
Qed.

Lemma elem_of_legacy_values rt x : x ∈ legacy_values rt ↔ ∃ k, rt !! k = Some x.
Proof.
  unfold legacy_values. rewrite merge_sort_Permutation, list_elem_of_fmap. split.
  - intros ([k y] & -> & H%elem_of_map_to_list). eauto.
  - intros [k H]. exists (k, x). by rewrite elem_of_map_to_list.
Qed.

(** A mirrored router finds the same range. *)
Lemma mirror_route lr rt key :
  mirror lr rt → tiling rt →
  ∃ x r, LegacyRouter_route lr key = Some x ∧ RegionRouter_route_key rt key = Ok r ∧ same_range x r.
Proof.
  intros Hm Ht. destruct (tl_cover _ Ht key) as (i & r & Hr & Hk).
  pose proof (tl_id _ Ht _ _ Hr) as <-. unfold LegacyRouter_route.
  destruct (legacy_route_loop key (legacy_values lr)) as [x|] eqn:E.
  - apply legacy_route_some in E as [[k Hx]%elem_of_legacy_values Hc].
    destruct (mr_sound _ _ Hm _ _ Hx) as (r' & Hr' & Hs). exists x, r'. split_and!; [done| |done].
    apply (tiling_route _ _ _ Ht). rewrite <-(same_range_contains _ _ _ Hs).
    destruct Hs as (<- & _). done.
  - destruct (mr_complete _ _ Hm _ _ Hr) as (x & Hx & Hs).
    rewrite <-(same_range_contains _ _ _ Hs), (legacy_route_none _ _ x E) in Hk; [done|].
    apply elem_of_legacy_values. eauto.
Qed.

(** No region of a tiling ends inside another. *)
Lemma tiling_inner_key_no_end rt i j old r m :
  tiling rt → regions_by_id rt !! i = Some old → regions_by_id rt !! j = Some r →
  Region_contains_key old m = true → m ≠ r_start_key old → r_end_key r ≠ m.
Proof.
  intros Ht Ho Hr Hin Hne Hend. pose proof (split_key_nonempty old m Hin Hne) as Hm0.
  assert (bytes_lt (r_start_key old) m) as Ha.
  { destruct (split_start_lt old m Hin Hne) as [->|?]; [by destruct m|done]. }
  assert (bytes_lt (r_start_key r) m) as Hb.
  { pose proof (tl_nonempty _ Ht _ _ Hr) as [_ [?|?]]%contains_key_spec; congruence. }
  assert (∀ key, bytes_lt key m → bytes_le (r_start_key old) key → bytes_le (r_start_key r) key → False)
    as Hboth.
  { intros key Hlt Hka Hkb. apply contains_key_spec in Hin as [_ He].
    assert (i = j) as <-.
    { apply (tl_disjoint _ Ht i j old r key Ho Hr); apply contains_key_spec; split; auto.
      - destruct He as [?|?]; [by left|right; by etrans].
      - right. congruence. }
    rewrite Ho in Hr. injection Hr as <-. destruct He as [?|He]; [congruence|].
    rewrite Hend in He. exact (irreflexivity bytes_lt m He). }
  destruct (bytes_trichotomy (r_start_key old) (r_start_key r)) as [Hlt|[E|Hlt]].
  - apply (Hboth (r_start_key r)); [done|by apply bytes_lt_le|done].
  - apply (Hboth (r_start_key r)); [done|by rewrite E|done].
  - apply (Hboth (r_start_key old)); [done|done|by apply bytes_lt_le].
Qed.

(** Inserting both halves of a split keeps the mirror. *)
Lemma mirror_split lr rt k x m new_id halves rt' :
  mirror lr rt → tiling rt → lr !! k = Some x → regions_by_id rt !! new_id = None →
  RegionRouter_split_region rt (lr_id x) m new_id = (Ok halves, rt') →
  mirror (LegacyRouter_insert_region
            (LegacyRouter_insert_region lr (legacy_split_region x m new_id).1)
            (legacy_split_region x m new_id).2) rt' ∧ tiling rt'.
Proof.
  intros Hm Ht Hx Hfresh Hsp. destruct (mr_sound _ _ Hm _ _ Hx) as (old & Ho & Hs).
  destruct (decide (Region_contains_key old m = false ∨ m = r_start_key old)) as [D|D].
  { unfold RegionRouter_split_region in Hsp. by rewrite Ho, decide_True in Hsp. }
  assert (Region_contains_key old m = true) as Hin by (destruct (Region_contains_key old m); tauto).
  assert (m ≠ r_start_key old) as Hne by tauto.
  rewrite (split_ok rt _ new_id old m Ho Hin Hne) in Hsp. injection Hsp as _ <-.
  split; [|by eapply split_tiling].
  pose proof (mr_end _ _ Hm _ _ Hx) as Ek. pose proof (split_by_id rt _ new_id old m Ht Ho Hfresh) as Hid.
  assert (∀ i r, regions_by_id rt !! i = Some r → r_end_key r ≠ m) as Hend.
  { intros i r Hr. exact (tiling_inner_key_no_end rt _ i old r m Ht Ho Hr Hin Hne). }
  destruct Hs as (Es1 & Es2 & Es3). unfold LegacyRouter_insert_region, legacy_split_region.
  cbn [fst snd lr_end_key]. split.
  - intros k' y. rewrite !lookup_insert_Some. intros [[<- <-]|(_ & [[<- <-]|[_ Hy]])]; [done..|].
    by apply (mr_end _ _ Hm).
  - intros k' y. rewrite !lookup_insert_Some. setoid_rewrite Hid.
    intros [[<- <-]|(Hk & [[<- <-]|[Hk2 Hy]])].
    + eexists. split; [by left|]. done.
    + eexists. split; [by right; left|]. done.
    + destruct (mr_sound _ _ Hm _ _ Hy) as (r & Hr & Hsr). exists r. split; [|done].
      right. right. split; [|done]. intros E. rewrite E, Ho in Hr. injection Hr as <-.
      apply Hk. rewrite <-(mr_end _ _ Hm _ _ Hy). destruct Hsr as (_ & _ & ->). congruence.
  - intros i r. rewrite Hid. setoid_rewrite lookup_insert_Some.
    intros [[-> ->]|[[-> ->]|[Hi Hr]]]; cbn [right_of left_of r_end_key].
    + eexists. split; [by left; split|]. done.
    + eexists. split; [right; split; [rewrite Es3; by eapply Hend|by rewrite lookup_insert_eq]|]. done.
    + destruct (mr_complete _ _ Hm _ _ Hr) as (y & Hy & Hsr). exists y. split; [|done].
      right. split.
      * intros E. rewrite Es3, E in *. assert (y = x) as -> by congruence.
        destruct Hsr as (Hid' & _). apply Hi. rewrite Hid'. by rewrite (tl_id _ Ht _ _ Hr).
      * rewrite lookup_insert_ne; [done|]. intros E. by eapply (Hend i r).
Qed.

Lemma side_by_side_mirror peers lr rt : side_by_side peers lr rt → mirror lr rt ∧ tiling rt.
Proof.
  induction 1 as [id leader size|lr rt k x m new_id halves rt' _ [IH1 IH2] Hx Hf Hs].
  - split; [|apply (router_reach_tiling peers), RR_init]. split; cbn [regions_by_id RegionRouter_insert_region RegionRouter_new].
    + intros k x. unfold LegacyRouter_insert_region, LegacyRouter_new. rewrite lookup_insert_Some.
      intros [[<- <-]|[_ ?]]; [done|]. by rewrite lookup_empty in *.
    + intros k x. unfold LegacyRouter_insert_region, LegacyRouter_new. rewrite lookup_insert_Some.
      intros [[<- <-]|[_ ?]]; [|by rewrite lookup_empty in *].
      eexists. split; [apply lookup_insert_eq|]. done.
    + intros i r. rewrite lookup_insert_Some. intros [[<- <-]|[_ ?]]; [|by rewrite lookup_empty in *].
      eexists. split; [apply lookup_insert_eq|]. done.
  - by eapply mirror_split.
Qed.

(** ** Theorems *)

(** C40: the older router agrees with the one the node uses: started with the
    whole key space as one region and given the same splits, it finds a region
    for every key, and it is the same id and range that the router in use
    finds; keying the regions by their end and never removing one loses none. *)
Theorem legacy_router_agrees peers lr rt key :
  side_by_side peers lr rt →
  ∃ x r, LegacyRouter_route lr key = Some x ∧ RegionRouter_route_key rt key = Ok r ∧ same_range x r.
Proof. intros [Hm Ht]%side_by_side_mirror. by apply mirror_route. Qed.

(** The older splitter divides a region: at a key inside it other than its
    start, every key of the region is in exactly one half, the left one below
    the split key and the right one from it on, and no other key is in either;
    the halves' sizes add up to the region's, less at most one byte. *)
Theorem legacy_split_partitions x m new_id key :
  LegacyRegion_contains_key x m = true → m ≠ lr_start_key x →
  let '(l, r) := legacy_split_region x m new_id in
  (LegacyRegion_contains_key l key = true ↔ LegacyRegion_contains_key x key = true ∧ bytes_lt key m) ∧
  (LegacyRegion_contains_key r key = true ↔ LegacyRegion_contains_key x key = true ∧ bytes_le m key) ∧
  lr_size_bytes x - 1 ≤ lr_size_bytes l + lr_size_bytes r ≤ lr_size_bytes x.
Proof.
  set (old := mkRegion (lr_id x) (lr_start_key x) (lr_end_key x) [] (mkRegionEpoch 1 1)).
  assert (∀ k, LegacyRegion_contains_key x k = Region_contains_key old k) as E by done.
  intros Hin Hne. cbn [legacy_split_region]. rewrite !E in *. rewrite <-bytes_not_lt_ge.
  rewrite <-(split_left old m Hin Hne), <-(split_right 0 old m Hin Hne).
  split_and!; [done..| |]; cbn [lr_size_bytes]; pose proof (Z.div_mod (lr_size_bytes x) 2);
    pose proof (Z.mod_pos_bound (lr_size_bytes x) 2); lia.
Qed.

(** ** Concrete runs *)
Definition ex_legacy : LegacyRegion := mkLegacyRegion 1 [] [] "127.0.0.1:50051" 101.

Lemma legacy_split_partitions_witness :
  LegacyRegion_contains_key (legacy_split_region ex_legacy (of_str "m") 2).2 (of_str "q") = true.
Proof. apply (legacy_split_partitions ex_legacy (of_str "m") 2 (of_str "q")); done. Defined.

Lemma legacy_router_agrees_witness :
  ∃ lr rt, side_by_side [1] lr rt ∧ length (legacy_values lr) = 2%nat ∧
  ∃ x r, LegacyRouter_route lr (of_str "q") = Some x ∧
    RegionRouter_route_key rt (of_str "q") = Ok r ∧ same_range x r.
Proof.
  eexists _, _. split; [|split; [|apply (legacy_router_agrees [1])]].
  - eapply (SS_split [1] _ _ [] ex_legacy (of_str "m") 2); [apply SS_init|done|done|vm_compute; reflexivity].
  - done.
  - eapply (SS_split [1] _ _ [] ex_legacy (of_str "m") 2); [apply SS_init|done|done|vm_compute; reflexivity].
Defined.
