(* ===== verification/RaftStore.v ===== *)
(** * The Raft log storage: [crates/raft-engine/src/store.rs]

    Each region keeps its Raft log in memory and mirrors it into the DEFAULT
    partition under textual keys.  The message types and their encoding are the
    [raft] and [protobuf] crates', so they are an interface here.  The theorems:
    the key format sorts by index; the log stays contiguous and [term],
    [entries], [first_index] and [last_index] read it back; appending overwrites
    a conflicting suffix in memory; a restart loads, at every index, the entry
    appended there last, which loses the dummy entry and, after a truncation,
    brings displaced entries back. *)

From stdpp Require Import base list gmap sorting strings.
From Stdlib Require Import ZArith Lia Strings.Byte.
From S2P Require Import Prelude Codec Engine.

(** ** Messages of the [raft] crate *)
Class RaftPb : Type := {
  HardState : Type;
  ConfState : Type;
  Entry : Type;
  HardState_default : HardState;
  ConfState_default : ConfState;
  (** [Entry::default()] with index and term set to 0. *)
  Entry_dummy : Entry;
  get_index : Entry → Z;
  get_term : Entry → Z;
  get_data : Entry → bytes;
  (** [write_to_bytes] and [parse_from_bytes]; [None] is an error. *)
  HardState_write : HardState → option bytes;
  HardState_parse : bytes → option HardState;
  ConfState_write : ConfState → option bytes;
  ConfState_parse : bytes → option ConfState;
  Entry_write : Entry → option bytes;
  Entry_parse : bytes → option Entry
}.

Class RaftPbLaws (PB : RaftPb) : Prop := {
  dummy_index : get_index Entry_dummy = 0;
  dummy_term : get_term Entry_dummy = 0;
  index_u64 e : u64 (get_index e);
  entry_roundtrip e b : Entry_write e = Some b → Entry_parse b = Some e
}.

(** [raft::StorageError], the two cases the code returns. *)
Inductive RaftStorageError : Type := Compacted | Unavailable.

(** ** Keys *)

(** A decimal digit. *)
Definition digit (d : Z) : byte := z2b (48 + d).

(** [{:0w$}] of a number with at most [w] digits. *)
Fixpoint dec_pad (w : nat) (x : Z) : bytes :=
  match w with
  | O => []
  | S w' => dec_pad w' (x `div` 10) ++ [digit (x `mod` 10)]
  end.

(** The number of decimal digits of a [u64]: at least one, at most twenty. *)
Fixpoint dec_width (fuel : nat) (x : Z) : nat :=
  match fuel with
  | O => 1
  | S f => if decide (x < 10) then 1 else S (dec_width f (x `div` 10))
  end.

(** [{}]. *)
Definition dec (x : Z) : bytes := dec_pad (dec_width 20 x) x.

Definition hs_key (region_id : Z) : bytes := of_str "r_hs_" ++ dec region_id.
Definition cs_key (region_id : Z) : bytes := of_str "r_cs_" ++ dec region_id.
Definition entry_key (region_id idx : Z) : bytes :=
  of_str "r_entry_" ++ dec region_id ++ of_str "_" ++ dec_pad 20 idx.
Definition entry_prefix (region_id : Z) : bytes :=
  of_str "r_entry_" ++ dec region_id ++ of_str "_".

Section RaftStorage.
Context {FE : FjallErr} {PB : RaftPb}.

Record RaftStorageCore : Type := mkRaftStorageCore {
  hard_state : HardState;
  conf_state : ConfState;
  entries : list Entry
}.

(** The loop of [new]: a failed item is skipped. *)
Fixpoint load_entries (prefix : bytes) (items : list (result fjall_Error (bytes * bytes))) :
    list Entry :=
  match items with
  | [] => []
  | Err _ :: rest => load_entries prefix rest
  | Ok (k, v) :: rest =>
      if decide (prefix `prefix_of` k) then
        match Entry_parse v with
        | Some entry => entry :: load_entries prefix rest
        | None => load_entries prefix rest
        end
      else []
  end.

Definition RaftStorage_new (region_id : Z) : prog RaftStorageCore :=
  let* hs := pget PARTITION_DEFAULT (hs_key region_id) in
  let hard_state :=
    match hs with
    | Ok (Some bs) => default HardState_default (HardState_parse bs)
    | _ => HardState_default
    end in
  let* cs := pget PARTITION_DEFAULT (cs_key region_id) in
  let conf_state :=
    match cs with
    | Ok (Some bs) => default ConfState_default (ConfState_parse bs)
    | _ => ConfState_default
    end in
  let prefix := entry_prefix region_id in
  let* items := prange PARTITION_DEFAULT prefix in
  let entries := load_entries prefix items in
  let entries := match entries with [] => [Entry_dummy] | _ => entries end in
  Ret (mkRaftStorageCore hard_state conf_state entries).

(** The batch [append] stages: entries that do not serialize are left out. *)
Definition append_ops (region_id : Z) (es : list Entry) : Batch :=
  omap (λ e, match Entry_write e with
             | Some bs => Some (BInsert PARTITION_DEFAULT (entry_key region_id (get_index e)) bs)
             | None => None
             end) es.

(** [None] is a panic: indexing an empty vector. *)
Definition RaftStorage_append (region_id : Z) (core : RaftStorageCore) (es : list Entry) :
    prog (option (result RaftStorageError unit * RaftStorageCore)) :=
  match es with
  | [] => Ret (Some (Ok tt, core))
  | e0 :: _ =>
      match entries core with
      | [] => Ret None
      | base :: _ =>
          let first_new_idx := get_index e0 in
          let base_idx := get_index base in
          if decide (first_new_idx < base_idx) then Ret (Some (Err Compacted, core))
          else
            let diff := Z.to_nat (first_new_idx - base_idx) in
            let log := if decide (diff < length (entries core))%nat
                       then take diff (entries core) else entries core in
            let core := mkRaftStorageCore (hard_state core) (conf_state core) (log ++ es) in
            let* _ := StorageEngine_commit_batch (append_ops region_id es) in
            Ret (Some (Ok tt, core))
      end
  end.

Definition RaftStorage_set_hard_state (region_id : Z) (core : RaftStorageCore) (hs : HardState) :
    prog RaftStorageCore :=
  let core := mkRaftStorageCore hs (conf_state core) (entries core) in
  match HardState_write hs with
  | Some bs =>
      let* _ := StorageEngine_commit_batch [BInsert PARTITION_DEFAULT (hs_key region_id) bs] in
      Ret core
  | None => Ret core
  end.

Definition RaftStorage_set_conf_state (region_id : Z) (core : RaftStorageCore) (cs : ConfState) :
    prog RaftStorageCore :=
  let core := mkRaftStorageCore (hard_state core) cs (entries core) in
  match ConfState_write cs with
  | Some bs =>
      let* _ := StorageEngine_commit_batch [BInsert PARTITION_DEFAULT (cs_key region_id) bs] in
      Ret core
  | None => Ret core
  end.

(** ** [impl Storage for RaftStorage] *)
Definition RaftStorage_initial_state (core : RaftStorageCore) : HardState * ConfState :=
  (hard_state core, conf_state core).

(** [&v[start..end]]: a panic unless [start <= end <= len]. *)
Definition slice {A} (l : list A) (start stop : Z) : option (list A) :=
  if decide (start ≤ stop ∧ stop ≤ Z.of_nat (length l))
  then Some (take (Z.to_nat (stop - start)) (drop (Z.to_nat start) l)) else None.

Definition RaftStorage_entries (core : RaftStorageCore) (low high : Z) :
    option (result RaftStorageError (list Entry)) :=
  match entries core with
  | [] => None
  | base :: _ =>
      let first_idx := get_index base in
      if decide (low < first_idx) then Some (Err Compacted)
      else
        let last_idx := match last (entries core) with Some e => get_index e | None => 0 end in
        if decide (u64_add last_idx 1 < high) then Some (Err Unavailable)
        else Ok <$> slice (entries core) (u64_wrap (low - first_idx)) (u64_wrap (high - first_idx))
  end.

Definition RaftStorage_term (core : RaftStorageCore) (idx : Z) :
    option (result RaftStorageError Z) :=
  match entries core with
  | [] => None
  | base :: _ =>
      let first_idx := get_index base in
      if decide (idx < first_idx) then Some (Err Compacted)
      else
        let offset := Z.to_nat (idx - first_idx) in
        match entries core !! offset with
        | None => Some (Err Unavailable)
        | Some e => Some (Ok (get_term e))
        end
  end.

Definition RaftStorage_first_index (core : RaftStorageCore) : option Z :=
  match entries core with [] => None | base :: _ => Some (u64_add (get_index base) 1) end.

Definition RaftStorage_last_index (core : RaftStorageCore) : option Z :=
  get_index <$> last (entries core).

(** The metadata of [snapshot]: index, term and configuration. *)
Definition RaftStorage_snapshot (core : RaftStorageCore) : option (Z * Z * ConfState) :=
  match entries core with
  | [] => None
  | base :: _ => Some (get_index base, get_term base, conf_state core)
  end.
End RaftStorage.

(** ** The key format sorts by index *)
Lemma length_dec_pad w x : length (dec_pad w x) = w.
Proof. revert x. induction w as [|w IH]; intros x; cbn [dec_pad]; [done|]. rewrite length_app, IH. simpl. lia. Qed.

Lemma lex_compare_app_length x y x' y' :
  length x = length y →
  lex_compare (x ++ x') (y ++ y') =
  match lex_compare x y with Eq => lex_compare x' y' | o => o end.
Proof.
  revert y. induction x as [|a x IH]; intros [|b y] Hl; try done. simpl.
  destruct (b2z a ?= b2z b); [|done|done]. apply IH. by injection Hl.
Qed.

Lemma dec_pad_compare w x y :
  0 ≤ x < 10 ^ Z.of_nat w → 0 ≤ y < 10 ^ Z.of_nat w →
  lex_compare (dec_pad w x) (dec_pad w y) = (x ?= y).
Proof.
  revert x y. induction w as [|w IH]; intros x y Hx Hy.
  { change (10 ^ Z.of_nat 0) with 1 in *. replace x with 0 by lia. by replace y with 0 by lia. }
  rewrite Nat2Z.inj_succ, Z.pow_succ_r in Hx, Hy by lia. cbn [dec_pad].
  pose proof (Z.div_mod x 10 ltac:(lia)). pose proof (Z.mod_pos_bound x 10 ltac:(lia)).
  pose proof (Z.div_mod y 10 ltac:(lia)). pose proof (Z.mod_pos_bound y 10 ltac:(lia)).
  rewrite lex_compare_app_length, IH by (rewrite ?length_dec_pad; done || lia).
  unfold digit. cbn [lex_compare]. rewrite !b2z_z2b, !(Z.mod_small (48 + _)) by lia.
  destruct (Z.compare_spec (x `div` 10) (y `div` 10));
    destruct (Z.compare_spec (48 + x `mod` 10) (48 + y `mod` 10));
    destruct (Z.compare_spec x y); done || lia.
Qed.

Lemma entry_key_split id idx : entry_key id idx = entry_prefix id ++ dec_pad 20 idx.
Proof. unfold entry_key, entry_prefix. by rewrite <-!app_assoc. Qed.

Lemma entry_key_compare id i j :
  u64 i → u64 j → lex_compare (entry_key id i) (entry_key id j) = (i ?= j).
Proof.
  unfold u64. intros. rewrite !entry_key_split, lex_compare_app.
  apply dec_pad_compare; change (10 ^ Z.of_nat 20) with 100000000000000000000; lia.
Qed.

(** ** The log *)
Section Log.
Context {FE : FjallErr} {PB : RaftPb} (PL : RaftPbLaws PB).

(** Entries with consecutive indices from [b]. *)
Definition contiguous (b : Z) (l : list Entry) : Prop :=
  ∀ i e, l !! i = Some e → get_index e = b + Z.of_nat i.

(** The in-memory log: not empty, contiguous from the index [b] of its first
    entry, and short of the end of the index space. *)
Definition log_ok (b : Z) (core : RaftStorageCore) : Prop :=
  u64 b ∧ entries core ≠ [] ∧ contiguous b (entries core) ∧
  b + Z.of_nat (length (entries core)) < 2 ^ 64.

Lemma log_ok_base b core : log_ok b core →
  ∃ e l, entries core = e :: l ∧ get_index e = b.
Proof.
  intros (_ & Hne & Hc & _). destruct (entries core) as [|e l] eqn:E; [done|].
  exists e, l. split; [done|]. rewrite (Hc 0%nat e) by done. lia.
Qed.

Lemma contiguous_last b l e : contiguous b l → last l = Some e →
  get_index e = b + Z.of_nat (length l) - 1.
Proof.
  intros Hc Hl. rewrite last_lookup in Hl. assert (length l ≠ 0%nat) as Hn by (by destruct l).
  rewrite (Hc _ _ Hl). lia.
Qed.

Lemma log_ok_last b core : log_ok b core →
  ∃ e, last (entries core) = Some e ∧ get_index e = b + Z.of_nat (length (entries core)) - 1.
Proof.
  intros (_ & Hne & Hc & _). destruct (last (entries core)) as [e|] eqn:E;
    [|by apply last_None in E]. exists e. split; [done|]. by apply contiguous_last.
Qed.

Lemma contiguous_app b l l' :
  contiguous b l → contiguous (b + Z.of_nat (length l)) l' → contiguous b (l ++ l').
Proof.
  intros H H' i e. destruct (decide (i < length l)%nat) as [Hi|Hi].
  - rewrite lookup_app_l by done. apply H.
  - rewrite lookup_app_r by lia. intros E%H'. lia.
Qed.

Lemma contiguous_take b l n : contiguous b l → contiguous b (take n l).
Proof. intros H i e [Hi _]%lookup_take_Some. by apply H. Qed.

(** The log after an append without a gap. *)
Definition appended (b : Z) (core : RaftStorageCore) (f : Z) (es : list Entry) : RaftStorageCore :=
  mkRaftStorageCore (hard_state core) (conf_state core)
    (take (Z.to_nat (f - b)) (entries core) ++ es).

Lemma appended_ok b core f es :
  log_ok b core → es ≠ [] → contiguous f es → b ≤ f ≤ b + Z.of_nat (length (entries core)) →
  f + Z.of_nat (length es) < 2 ^ 64 → log_ok b (appended b core f es).
Proof.
  intros (Hb & Hne & Hc & Hlen) Hes Hce Hf Hend. unfold log_ok, appended. cbn [entries].
  assert (length (take (Z.to_nat (f - b)) (entries core)) = Z.to_nat (f - b)) as Hl.
  { rewrite length_take. lia. }
  split_and!; [done| | |rewrite length_app, Hl; lia].
  - intros [_ ?]%app_eq_nil. done.
  - apply contiguous_app; [by apply contiguous_take|]. rewrite Hl.
    by replace (b + Z.of_nat (Z.to_nat (f - b))) with f by lia.
Qed.

Lemma run_append {W} `{!Fjall FE W} id b core e0 es w :
  log_ok b core → b ≤ get_index e0 ≤ b + Z.of_nat (length (entries core)) →
  run (RaftStorage_append id core (e0 :: es)) w =
  (Some (Ok tt, appended b core (get_index e0) (e0 :: es)),
   (run (StorageEngine_commit_batch (append_ops id (e0 :: es))) w).2).
Proof.
  intros Hok Hf. destruct (log_ok_base _ _ Hok) as (e & l & E & Eb).
  unfold RaftStorage_append. rewrite E, Eb, decide_False by lia. rewrite <-E.
  unfold appended. set (n := Z.to_nat (get_index e0 - b)).
  assert ((if decide (n < length (entries core))%nat then take n (entries core) else entries core) =
    take n (entries core)) as ->.
  { case_decide; [done|]. by rewrite take_ge by lia. }
  rewrite run_bind. by destruct (run (StorageEngine_commit_batch _) w).
Qed.

Lemma term_at b core idx :
  log_ok b core → b ≤ idx →
  RaftStorage_term core idx =
  Some (match entries core !! Z.to_nat (idx - b) with
        | Some e => Ok (get_term e) | None => Err Unavailable end).
Proof.
  intros Hok Hi. destruct (log_ok_base _ _ Hok) as (e & l & E & Eb).
  unfold RaftStorage_term. rewrite E, Eb, decide_False, <-E by lia.
  by destruct (entries core !! _).
Qed.

(** The appended entries read back. *)
Lemma appended_term b core f es e :
  log_ok b (appended b core f es) → contiguous f es →
  b ≤ f ≤ b + Z.of_nat (length (entries core)) → e ∈ es →
  RaftStorage_term (appended b core f es) (get_index e) = Some (Ok (get_term e)).
Proof.
  intros Hok' Hc Hf [i Hi]%list_elem_of_lookup. pose proof (Hc _ _ Hi) as Ei.
  rewrite (term_at b) by (done || lia). unfold appended. cbn [entries].
  rewrite lookup_app_r by (rewrite length_take; lia).
  replace (Z.to_nat (get_index e - b) - length (take (Z.to_nat (f - b)) (entries core)))%nat with i.
  - by rewrite Hi.
  - rewrite length_take. lia.
Qed.

(** *** What a restart loads *)

(** The entries of the region's keys, from a scan without errors. *)
Lemma load_entries_filter prefix l :
  StronglySorted entry_lt l → (∀ k v, (k, v) ∈ l → bytes_le prefix k) →
  load_entries prefix (Ok <$> l) =
  omap (λ x, Entry_parse x.2) (filter (λ x, prefix `prefix_of` x.1) l).
Proof.
  intros Hs Hge. induction Hs as [|[k v] l Hs IH Hx]; csimpl; [done|].
  rewrite filter_cons. cbn [fst]. case_decide as D.
  - rewrite IH by (intros; eapply Hge; by right). csimpl. by destruct (Entry_parse v).
  - assert (filter (λ x : bytes * bytes, prefix `prefix_of` x.1) l = []) as ->; [|done].
    destruct (filter _ l) as [|[k' v'] r] eqn:E; [done|exfalso].
    assert ((k', v') ∈ filter (λ x : bytes * bytes, prefix `prefix_of` x.1) l) as Hin
      by (rewrite E; by left).
    apply list_elem_of_filter in Hin as [[y Hy] Hin]. apply D. cbn [fst] in Hy.
    apply (proj1 (Forall_forall _ _) Hx) in Hin. unfold entry_lt in Hin. cbn [fst] in Hin.
    apply (lex_between_prefix prefix [] y k).
    + rewrite app_nil_r. apply (Hge k v). by left.
    + rewrite <-Hy. by apply bytes_lt_le.
Qed.

(** [es] is what the store holds under the region's keys, in index order. *)
Definition persisted (id : Z) (s : Store) (es : list Entry) : Prop :=
  StronglySorted (λ e e', get_index e < get_index e') es ∧
  (∀ e, e ∈ es → is_Some (Entry_write e)) ∧
  ∀ k v, s_default s !! k = Some v ∧ entry_prefix id `prefix_of` k ↔
    ∃ e, e ∈ es ∧ k = entry_key id (get_index e) ∧ Entry_write e = Some v.

Definition key_value (id : Z) (e : Entry) : bytes * bytes :=
  (entry_key id (get_index e), default [] (Entry_write e)).

Lemma entry_lt_nodup l : StronglySorted entry_lt l → NoDup l.
Proof.
  induction 1 as [|x l Hs IH Hx]; constructor; [|done]. intros Hin.
  apply (proj1 (Forall_forall _ _) Hx) in Hin. by apply (irreflexivity bytes_lt x.1) in Hin.
Qed.

Lemma key_values_sorted id es :
  StronglySorted (λ e e', get_index e < get_index e') es →
  StronglySorted entry_lt (key_value id <$> es).
Proof.
  induction 1 as [|e es Hs IH Hx]; csimpl; constructor; [done|].
  apply Forall_fmap. eapply Forall_impl; [exact Hx|]. intros e' He. cbn.
  unfold entry_lt, bytes_lt. cbn [fst key_value]. rewrite entry_key_compare by apply index_u64.
  by apply Z.compare_lt_iff.
Qed.

Lemma persisted_entries id s es :
  persisted id s es →
  filter (λ x, entry_prefix id `prefix_of` x.1) (range_from (s_default s) (entry_prefix id)) =
  key_value id <$> es.
Proof.
  intros (Hs & Hw & Hp).
  pose proof (StronglySorted_filter entry_lt (λ x : bytes * bytes, entry_prefix id `prefix_of` x.1)
    _ (StronglySorted_range_from (s_default s) (entry_prefix id))) as Hl.
  pose proof (key_values_sorted id es Hs) as Hr.
  apply (StronglySorted_unique_strong entry_lt); [|done|done|].
  - intros x y _ _ H1 H2. destruct (irreflexivity bytes_lt x.1). by transitivity y.1.
  - apply NoDup_Permutation; [by apply entry_lt_nodup..|]. intros [k v].
    rewrite list_elem_of_filter, elem_of_range_from, list_elem_of_fmap. cbn [fst]. split.
    + intros (Hpre & Hv & _). destruct (proj1 (Hp k v) (conj Hv Hpre)) as (e & He & -> & Hwe).
      exists e. split; [|done]. unfold key_value. by rewrite Hwe.
    + intros (e & [= -> ->] & He). destruct (Hw e He) as [bs Hbs]. rewrite Hbs. cbn [default].
      destruct (proj2 (Hp (entry_key id (get_index e)) bs)) as [Hv Hpre]; [eauto|].
      split_and!; [done|done|]. destruct Hpre as [y Hy]. rewrite Hy.
      rewrite <-(app_nil_r (entry_prefix id)) at 1. unfold bytes_le. rewrite lex_compare_app.
      by destruct y.
Qed.

Lemma load_persisted id s es :
  persisted id s es →
  load_entries (entry_prefix id) (Ok <$> range_from (s_default s) (entry_prefix id)) = es.
Proof.
  intros Hp. rewrite load_entries_filter; [|apply StronglySorted_range_from|].
  2:{ by intros k v [_ ?]%elem_of_range_from. }
  rewrite (persisted_entries id s es Hp). destruct Hp as (_ & Hw & _).
  induction es as [|e es IH]; csimpl; [done|]. destruct (Hw e) as [b Hb]; [by left|].
  assert (Entry_parse (default [] (Entry_write e)) = Some e) as ->
    by (rewrite Hb; by apply entry_roundtrip).
  f_equal. apply IH. intros. apply Hw. by right.
Qed.

(** A scan of a reliable engine has no errors. *)
Lemma yields_reliable its l : yields False its l → its = Ok <$> l.
Proof. induction 1 as [|x its l Hy IH|? ? ? []]; csimpl; by rewrite ?IH. Qed.

Lemma wp_new T id s es :
  persisted id s es →
  wp False T (RaftStorage_new id)
    (λ core s', s' = s ∧ entries core = match es with [] => [Entry_dummy] | _ => es end ∧
       hard_state core = match s_default s !! hs_key id with
                         | Some bs => default HardState_default (HardState_parse bs)
                         | None => HardState_default end ∧
       conf_state core = match s_default s !! cs_key id with
                         | Some bs => default ConfState_default (ConfState_parse bs)
                         | None => ConfState_default end) s.
Proof.
  intros Hp. apply wp_bind, wp_pget; [|done]. apply wp_bind, wp_pget; [|done].
  apply wp_bind, wp_prange. intros its ->%yields_reliable. cbn [part].
  rewrite (load_persisted id s es Hp). apply wp_ret. cbn [part entries hard_state conf_state].
  split_and!; [done| | |].
  - by destruct es.
  - by destruct (s_default s !! hs_key id).
  - by destruct (s_default s !! cs_key id).
Qed.
End Log.

(** ** Theorems *)
Section Theorems.
Context {FE : FjallErr} {PB : RaftPb} (PL : RaftPbLaws PB).

(** C27: appending keeps the log contiguous and replaces a conflicting suffix:
    entries before the first new one keep their terms, the new ones read back,
    everything after them is gone; an append below the log's base is refused
    with [Compacted] and changes nothing; whatever the engine answers. *)
Theorem append_overwrites_suffix {W} `{!Fjall FE W} id b core e0 es w :
  log_ok b core → contiguous (get_index e0) (e0 :: es) →
  get_index e0 ≤ b + Z.of_nat (length (entries core)) →
  get_index e0 + Z.of_nat (length (e0 :: es)) < 2 ^ 64 →
  let r := run (RaftStorage_append id core (e0 :: es)) w in
  if decide (get_index e0 < b) then r = (Some (Err Compacted, core), w)
  else ∃ core', r.1 = Some (Ok tt, core') ∧ log_ok b core' ∧
    RaftStorage_last_index core' = Some (get_index e0 + Z.of_nat (length es)) ∧
    (∀ idx, b ≤ idx < get_index e0 → RaftStorage_term core' idx = RaftStorage_term core idx) ∧
    (∀ e, e ∈ e0 :: es → RaftStorage_term core' (get_index e) = Some (Ok (get_term e))) ∧
    (∀ idx, get_index e0 + Z.of_nat (length es) < idx →
       RaftStorage_term core' idx = Some (Err Unavailable)).
Proof.
  intros Hok Hc Hgap Hend r. subst r. set (f := get_index e0) in *. case_decide as D.
  { destruct (log_ok_base _ _ Hok) as (e & l & E & Eb).
    unfold RaftStorage_append. rewrite E, Eb. by rewrite decide_True. }
  rewrite (run_append id b) by (done || lia). fold f.
  assert (log_ok b (appended b core f (e0 :: es))) as Hok'.
  { apply appended_ok; done || lia. }
  exists (appended b core f (e0 :: es)). split_and!; [done|done|..].
  - destruct (log_ok_last _ _ Hok') as (e & El & Ei). unfold RaftStorage_last_index. rewrite El.
    cbn. f_equal. rewrite Ei. unfold appended. cbn [entries]. rewrite length_app, length_take.
    cbn [length]. destruct Hok as (_ & _ & _ & ?). lia.
  - intros idx Hi. rewrite !(term_at b) by (done || lia). unfold appended. cbn [entries].
    rewrite lookup_app_l by (rewrite length_take; lia). by rewrite lookup_take_lt by lia.
  - intros e He. apply appended_term; done || lia.
  - intros idx Hi. rewrite (term_at b) by (done || lia). unfold appended. cbn [entries].
    rewrite lookup_ge_None_2; [done|]. rewrite length_app, length_take. cbn [length]. lia.
Qed.

(** C38: reading a range of the log never panics and returns exactly the
    entries asked for: [Compacted] below the base, [Unavailable] past the end,
    and otherwise the entries with indices [low] to [high - 1], in order. *)
Theorem entries_read_range b core low high :
  log_ok b core → u64 low → u64 high → low ≤ high →
  let n := b + Z.of_nat (length (entries core)) in
  match RaftStorage_entries core low high with
  | None => False
  | Some (Err Compacted) => low < b
  | Some (Err Unavailable) => b ≤ low ∧ n < high
  | Some (Ok l) => b ≤ low ∧ high ≤ n ∧ Z.of_nat (length l) = high - low ∧ contiguous low l ∧
      l = take (Z.to_nat (high - low)) (drop (Z.to_nat (low - b)) (entries core))
  end.
Proof.
  intros Hok Hlo Hhi Hle n. subst n. unfold u64 in Hlo, Hhi.
  destruct (log_ok_base _ _ Hok) as (e & l & E & Eb). destruct (log_ok_last _ _ Hok) as (e' & El & Ei).
  destruct Hok as (Hb & Hne & Hc & Hend). unfold u64 in Hb.
  unfold RaftStorage_entries. rewrite E, Eb, <-E. case_decide; [done|]. rewrite El, Ei.
  assert (length (entries core) ≠ 0%nat) as Hl0 by (rewrite E; done).
  unfold u64_add. rewrite u64_wrap_id by (unfold u64; lia).
  replace (b + Z.of_nat (length (entries core)) - 1 + 1)
    with (b + Z.of_nat (length (entries core))) by lia.
  case_decide; [lia|]. rewrite !u64_wrap_id by (unfold u64; lia).
  unfold slice. rewrite decide_True by lia. cbn.
  replace (high - b - (low - b)) with (high - low) by lia.
  split_and!; [lia|lia|rewrite length_take, length_drop; lia| |done].
  intros i x [Hi _]%lookup_take_Some. rewrite lookup_drop in Hi. rewrite (Hc _ _ Hi). lia.
Qed.

(** The keys of distinct indices are distinct. *)
Lemma entry_key_inj id e e' :
  entry_key id (get_index e) = entry_key id (get_index e') → get_index e = get_index e'.
Proof.
  intros E. apply Z.compare_eq_iff. rewrite <-(entry_key_compare id) by apply index_u64.
  rewrite E. apply lex_compare_refl.
Qed.

Lemma append_ops_lookup id es s k v :
  NoDup (get_index <$> es) → (∀ e, e ∈ es → is_Some (Entry_write e)) →
  s_default (apply_batch (append_ops id es) s) !! k = Some v ↔
  (∃ e, e ∈ es ∧ k = entry_key id (get_index e) ∧ Entry_write e = Some v) ∨
  (∀ e, e ∈ es → k ≠ entry_key id (get_index e)) ∧ s_default s !! k = Some v.
Proof.
  revert s. induction es as [|e es IH]; intros s Hnd Hw.
  { cbn [append_ops omap apply_batch]. split.
    - intros Hv. right. split; [by intros ? ?%elem_of_nil|done].
    - by intros [(e & ?%elem_of_nil & _)|[_ ?]]. }
  csimpl in Hnd. apply NoDup_cons in Hnd as [Hni Hnd].
  destruct (Hw e) as [b Hb]; [by left|]. unfold append_ops. csimpl. rewrite Hb. csimpl.
  change (omap _ es) with (append_ops id es). rewrite IH; [|done|intros; apply Hw; by right].
  cbn [set_part part s_default]. setoid_rewrite elem_of_cons.
  destruct (decide (k = entry_key id (get_index e))) as [->|Hk].
  - rewrite lookup_insert_eq. split.
    + intros [(e' & He' & E & _)|[_ [= <-]]]; [|left; eauto].
      apply entry_key_inj in E. destruct Hni. rewrite E. by apply list_elem_of_fmap_2.
    + intros [(e' & [->|He'] & E & Hv)|[Hno _]].
      * right. split; [|congruence]. intros e'' He'' E2. apply entry_key_inj in E2.
        destruct Hni. rewrite E2. by apply list_elem_of_fmap_2.
      * left. eauto.
      * by destruct (Hno e (or_introl eq_refl)).
  - rewrite lookup_insert_ne by done. split.
    + intros [(e' & ? & ? & ?)|[Hno ?]]; [left; eauto|right]. split; [|done].
      intros e' [->|?]; auto.
    + intros [(e' & [->|?] & ? & ?)|[Hno ?]]; [done|left; eauto|right]. split; [|done].
      intros e' ?. apply Hno. by right.
Qed.

(** The batch of [append] touches the region's entry keys only, and stores every
    entry that serializes. *)
Lemma append_ops_frame id es s k :
  (∀ e, e ∈ es → k ≠ entry_key id (get_index e)) →
  s_default (apply_batch (append_ops id es) s) !! k = s_default s !! k.
Proof.
  revert s. induction es as [|e es IH]; intros s Hk; [done|]. unfold append_ops. csimpl.
  change (omap _ es) with (append_ops id es).
  assert (∀ e', e' ∈ es → k ≠ entry_key id (get_index e')) as Hk' by (intros; apply Hk; by right).
  destruct (Entry_write e) as [bs|]; [|by apply IH]. csimpl. rewrite IH by done.
  cbn [set_part part s_default]. apply lookup_insert_ne. symmetry. apply Hk. by left.
Qed.

Lemma append_ops_stores id es s e bs :
  NoDup (get_index <$> es) → e ∈ es → Entry_write e = Some bs →
  s_default (apply_batch (append_ops id es) s) !! entry_key id (get_index e) = Some bs.
Proof.
  revert s. induction es as [|x es IH]; intros s Hnd He Hbs; [by apply elem_of_nil in He|].
  csimpl in Hnd. apply NoDup_cons in Hnd as [Hni Hnd]. unfold append_ops. csimpl.
  change (omap _ es) with (append_ops id es). apply elem_of_cons in He as [<-|He].
  - rewrite Hbs. csimpl. rewrite append_ops_frame.
    + cbn [set_part part s_default]. apply lookup_insert_eq.
    + intros e' He' E%entry_key_inj. destruct Hni. rewrite E. by apply list_elem_of_fmap_2.
  - destruct (Entry_write x); [|by apply IH]. csimpl. by apply IH.
Qed.

Lemma contiguous_nodup f es : contiguous f es → NoDup (get_index <$> es).
Proof.
  intros Hc. apply NoDup_alt. intros i j x. rewrite !list_lookup_fmap.
  intros (e & He & ->)%fmap_Some (e' & He' & E)%fmap_Some.
  rewrite (Hc _ _ He), (Hc _ _ He') in E. lia.
Qed.

Lemma contiguous_sorted f es :
  contiguous f es → StronglySorted (λ e e', get_index e < get_index e') es.
Proof.
  revert f. induction es as [|e es IH]; intros f Hc; constructor.
  - apply (IH (f + 1)). intros i x Hx. rewrite (Hc (S i) x Hx). lia.
  - apply Forall_forall. intros x [i Hi]%list_elem_of_lookup.
    rewrite (Hc 0%nat e eq_refl), (Hc (S i) x Hi). lia.
Qed.

(** *** A sequence of appends *)

(** In memory an append replaces everything from its first index on. *)
Definition mem_append (mem es : list Entry) : list Entry :=
  match es with
  | [] => mem
  | e0 :: _ => take (Z.to_nat (get_index e0 - 1)) mem ++ es
  end.

(** On disk it replaces the entries with the same indices, and later ones stay. *)
Definition disk_append (disk es : list Entry) : list Entry :=
  match es with
  | [] => disk
  | e0 :: _ =>
      let n := Z.to_nat (get_index e0 - 1) in take n disk ++ es ++ drop (n + length es) disk
  end.

(** An append Raft may ask for: consecutive entries that serialize, from an
    index between 1 and the one after the log's last. *)
Definition appendable (mem es : list Entry) : Prop :=
  match es with
  | [] => True
  | e0 :: _ =>
      contiguous (get_index e0) es ∧ 1 ≤ get_index e0 ≤ 1 + Z.of_nat (length mem) ∧
      get_index e0 + Z.of_nat (length es) < 2 ^ 64 ∧ ∀ e, e ∈ es → is_Some (Entry_write e)
  end.

Fixpoint all_appendable (mem : list Entry) (bs : list (list Entry)) : Prop :=
  match bs with
  | [] => True
  | es :: bs => appendable mem es ∧ all_appendable (mem_append mem es) bs
  end.

(** The appends of [bs] in order; [None] is a panic or a refusal. *)
Fixpoint append_all (id : Z) (bs : list (list Entry)) (core : RaftStorageCore) :
    prog (option RaftStorageCore) :=
  match bs with
  | [] => Ret (Some core)
  | es :: bs =>
      let* r := RaftStorage_append id core es in
      match r with
      | Some (Ok _, core) => append_all id bs core
      | _ => Ret None
      end
  end.

(** The entry that was appended last at an index, truncated since or not. *)
Definition last_appended (bs : list (list Entry)) (j : Z) : option Entry :=
  last (filter (λ e, get_index e = j) (concat bs)).

(** The entry with index [j] of a contiguous list from [f]. *)
Definition entry_at (f : Z) (es : list Entry) (j : Z) : option Entry :=
  if decide (f ≤ j) then es !! Z.to_nat (j - f) else None.

Lemma contiguous_cons f e es : contiguous f (e :: es) ↔ get_index e = f ∧ contiguous (f + 1) es.
Proof.
  split.
  - intros Hc. split; [rewrite (Hc 0%nat e eq_refl); lia|].
    intros i x Hx. rewrite (Hc (S i) x Hx). lia.
  - intros [He Hc] [|i] x Hx; [injection Hx as <-; lia|]. rewrite (Hc i x Hx). lia.
Qed.

Lemma last_filter_index f es j :
  contiguous f es → last (filter (λ e, get_index e = j) es) = entry_at f es j.
Proof.
  revert f. induction es as [|e es IH]; intros f Hc; [unfold entry_at; by case_decide|].
  apply contiguous_cons in Hc as [He Hc]. rewrite filter_cons. unfold entry_at in *.
  case_decide as D.
  - rewrite last_cons, (IH _ Hc), (decide_False (P := f + 1 ≤ j)), decide_True by lia.
    by replace (j - f) with 0 by lia.
  - rewrite (IH _ Hc). destruct (decide (f ≤ j)).
    + rewrite decide_True by lia. by replace (Z.to_nat (j - f)) with (S (Z.to_nat (j - (f + 1)))) by lia.
    + by rewrite decide_False by lia.
Qed.

Lemma last_appended_snoc bs es f j :
  contiguous f es →
  last_appended (bs ++ [es]) j = match entry_at f es j with Some e => Some e | None => last_appended bs j end.
Proof.
  intros Hc. unfold last_appended. rewrite concat_app, filter_app, last_app. cbn [concat].
  by rewrite app_nil_r, (last_filter_index f).
Qed.

Lemma entry_at_index f es j e : contiguous f es → entry_at f es j = Some e → get_index e = j ∧ e ∈ es.
Proof.
  unfold entry_at. case_decide; [|done]. intros Hc He. rewrite (Hc _ _ He).
  split; [lia|by eapply list_elem_of_lookup_2].
Qed.

Lemma entry_at_elem f es e : contiguous f es → e ∈ es → entry_at f es (get_index e) = Some e.
Proof.
  intros Hc [i Hi]%list_elem_of_lookup. unfold entry_at. rewrite (Hc _ _ Hi), decide_True by lia.
  by replace (Z.to_nat _) with i by lia.
Qed.

(** What the disk holds after an append without a gap. *)
Lemma disk_append_lookup disk e0 es i :
  1 ≤ get_index e0 ≤ 1 + Z.of_nat (length disk) →
  disk_append disk (e0 :: es) !! i =
  match entry_at (get_index e0) (e0 :: es) (1 + Z.of_nat i) with
  | Some e => Some e | None => disk !! i end.
Proof.
  intros Hf. unfold disk_append, entry_at. set (n := Z.to_nat (get_index e0 - 1)).
  assert (length (take n disk) = n) as Hn by (rewrite length_take; lia).
  case_decide as D.
  - rewrite lookup_app_r by lia. rewrite Hn.
    replace (Z.to_nat _) with (i - n)%nat by lia.
    destruct ((e0 :: es) !! (i - n)%nat) as [e|] eqn:E.
    + by apply lookup_app_l_Some.
    + apply lookup_ge_None in E. rewrite lookup_app_r by done. rewrite lookup_drop. f_equal. lia.
  - rewrite lookup_app_l, lookup_take_lt by lia. done.
Qed.

(** Memory and disk of a region after the appends [bs]. *)
Record mirrored (id : Z) (bs : list (list Entry)) (s : Store) (mem disk : list Entry) : Prop := {
  mir_persisted : persisted id s disk;
  mir_contiguous : contiguous 1 disk;
  mir_prefix : mem `prefix_of` disk;
  mir_nil : mem = [] → disk = [];
  mir_last i : disk !! i = last_appended bs (1 + Z.of_nat i)
}.

Lemma elem_of_disk_append disk e0 es e :
  contiguous 1 disk → contiguous (get_index e0) (e0 :: es) →
  1 ≤ get_index e0 ≤ 1 + Z.of_nat (length disk) →
  e ∈ disk_append disk (e0 :: es) ↔
  e ∈ e0 :: es ∨ e ∈ disk ∧ ∀ x, x ∈ e0 :: es → get_index e ≠ get_index x.
Proof.
  intros Hd Hc Hf. rewrite list_elem_of_lookup. split.
  - intros [i Hi]. rewrite disk_append_lookup in Hi by done.
    destruct (entry_at _ _ _) as [x|] eqn:E.
    + injection Hi as ->. left. by eapply entry_at_index in E as [_ ?].
    + right. split; [by eapply list_elem_of_lookup_2|]. intros x Hx He.
      apply (entry_at_elem _ _ _ Hc) in Hx. rewrite <-He, (Hd _ _ Hi) in Hx. congruence.
  - intros [He|[[i Hi]%list_elem_of_lookup Hne]].
    + assert (get_index e0 ≤ get_index e) as Hge.
      { apply list_elem_of_lookup in He as [i Hi]. rewrite (Hc _ _ Hi). lia. }
      exists (Z.to_nat (get_index e - 1)). rewrite disk_append_lookup by done.
      replace (1 + Z.of_nat _) with (get_index e) by lia. by rewrite (entry_at_elem _ _ _ Hc He).
    + exists i. rewrite disk_append_lookup by done. destruct (entry_at _ _ _) as [x|] eqn:E; [|done].
      apply (entry_at_index _ _ _ _ Hc) in E as [E Hx]. destruct (Hne x Hx). by rewrite (Hd _ _ Hi).
Qed.

Lemma persisted_append id s disk e0 es :
  persisted id s disk → contiguous 1 disk → contiguous (get_index e0) (e0 :: es) →
  1 ≤ get_index e0 ≤ 1 + Z.of_nat (length disk) →
  (∀ e, e ∈ e0 :: es → is_Some (Entry_write e)) → contiguous 1 (disk_append disk (e0 :: es)) →
  persisted id (apply_batch (append_ops id (e0 :: es)) s) (disk_append disk (e0 :: es)).
Proof.
  intros (_ & Hw & Hp) Hd Hc Hf Hwe Hc'.
  pose proof (λ e, elem_of_disk_append disk e0 es e Hd Hc Hf) as Hel.
  split_and!; [by eapply contiguous_sorted| |].
  { intros e [?|[? _]]%Hel; auto. }
  intros k v. rewrite append_ops_lookup; [|by eapply contiguous_nodup|done]. split.
  - intros [[(e & He & Hk)|[Hno Hk]] Hpre]; [exists e; by rewrite Hel; auto|].
    destruct (proj1 (Hp k v) (conj Hk Hpre)) as (e & He & -> & Hv). exists e. split; [|done].
    apply Hel. right. split; [done|]. intros x Hx E. by destruct (Hno x Hx); rewrite E.
  - intros (e & [He|[He Hne]]%Hel & -> & Hv).
    + split; [left; eauto|]. rewrite entry_key_split. by eexists.
    + destruct (proj2 (Hp (entry_key id (get_index e)) v)) as [Hk Hpre]; [eauto|].
      split; [|done]. right. split; [|done]. intros x Hx E. by apply (Hne x Hx), (entry_key_inj id).
Qed.

Lemma mirrored_append id bs s mem disk es :
  mirrored id bs s mem disk → appendable mem es →
  mirrored id (bs ++ [es]) (apply_batch (append_ops id es) s) (mem_append mem es) (disk_append disk es).
Proof.
  intros [Hp Hd Hpre Hnil Hlast]. destruct es as [|e0 es]; cbn [appendable].
  { intros _. split; [done..|]. intros i. rewrite Hlast. unfold last_appended.
    rewrite concat_app. by rewrite app_nil_r. }
  intros (Hc & Hf & _ & Hw). pose proof (prefix_length _ _ Hpre) as Hlen.
  assert (∀ i, disk_append disk (e0 :: es) !! i = last_appended (bs ++ [e0 :: es]) (1 + Z.of_nat i)) as Hlk.
  { intros i. rewrite disk_append_lookup by lia. rewrite (last_appended_snoc _ _ _ _ Hc).
    destruct (entry_at _ _ _); [done|apply Hlast]. }
  assert (contiguous 1 (disk_append disk (e0 :: es))) as Hc'.
  { intros i e. rewrite disk_append_lookup by lia. destruct (entry_at _ _ _) as [x|] eqn:E.
    - intros [= ->]. by eapply entry_at_index in E as [? _].
    - apply Hd. }
  split; [by apply persisted_append; [..|lia| |]|done| | |done].
  - destruct Hpre as [l ->]. unfold mem_append, disk_append.
    rewrite take_app_le by lia. rewrite app_assoc. by eexists.
  - unfold mem_append. by intros [_ ?]%app_eq_nil.
Qed.

(** The appends succeed, in memory and on disk. *)
Lemma run_append_all {W} `{!Fjall FE W} T (view : W → Store) (L : FjallLaws False T W view)
    id bs done core mem disk w :
  log_ok 0 core → entries core = Entry_dummy :: mem → mirrored id done (view w) mem disk →
  all_appendable mem bs →
  ∃ core' w' disk', run (append_all id bs core) w = (Some core', w') ∧
    entries core' = Entry_dummy :: foldl mem_append mem bs ∧
    mirrored id (done ++ bs) (view w') (foldl mem_append mem bs) disk'.
Proof.
  revert done core mem disk w. induction bs as [|es bs IH]; intros done core mem disk w Hok Ee Hm Ha.
  { exists core, w, disk. by rewrite app_nil_r. }
  destruct Ha as [He Ha]. pose proof (mirrored_append _ _ _ _ _ _ Hm He) as Hm'.
  rewrite (cons_middle es), (assoc_L (++)). cbn [append_all foldl]. rewrite run_bind.
  destruct es as [|e0 es]; [exact (IH (done ++ [[]]) core mem disk w Hok Ee Hm' Ha)|].
  cbn [appendable] in He. destruct He as (Hc & Hf & Hend & _).
  assert (0 ≤ get_index e0 ≤ 0 + Z.of_nat (length (entries core))) as Hf0 by (rewrite Ee; simpl; lia).
  rewrite (run_append id 0) by done.
  destruct (run (StorageEngine_commit_batch (append_ops id (e0 :: es))) w) as [rc w2] eqn:Hr.
  assert (view w2 = apply_batch (append_ops id (e0 :: es)) (view w)) as E2.
  { refine (run_wp False T view L _ (λ _ s', s' = _) _ _ _ Hr _). by split; [|intros []]. }
  cbn [snd]. rewrite <-E2 in Hm'. eapply IH; [by apply appended_ok| |exact Hm'|done].
  unfold appended, mem_append. cbn [entries]. rewrite Ee.
  by replace (Z.to_nat (get_index e0 - 0)) with (S (Z.to_nat (get_index e0 - 1))) by lia.
Qed.

(** C28: what a restart loads, after any sequence of appends Raft may ask a fresh
    region for, truncating ones included, on a reliable engine: at every index
    the entry appended there last.  That is the in-memory log and, after an
    append that truncated it, the displaced entries behind it, which are not
    deleted from disk.  The dummy entry is not persisted, so [first_index] moves
    from 1 to 2. *)
Theorem restart_loads_log {W} `{!Fjall FE W} T (view : W → Store) (L : FjallLaws False T W view)
    id bs w :
  all_appendable [] bs →
  (∀ k, entry_prefix id `prefix_of` k → s_default (view w) !! k = None) →
  let '(core, w1) := run (RaftStorage_new id) w in
  let '(r, w2) := run (append_all id bs core) w1 in
  let '(core', _) := run (RaftStorage_new id) w2 in
  let mem := foldl mem_append [] bs in
  ∃ core1, r = Some core1 ∧ entries core1 = Entry_dummy :: mem ∧
    RaftStorage_first_index core1 = Some 1 ∧
    (mem = [] → entries core' = [Entry_dummy]) ∧
    (mem ≠ [] → mem `prefix_of` entries core' ∧
       (∀ i, entries core' !! i = last_appended bs (1 + Z.of_nat i)) ∧
       RaftStorage_first_index core' = Some 2).
Proof.
  intros Ha Hfresh.
  destruct (run (RaftStorage_new id) w) as [core w1] eqn:Hr1.
  assert (persisted id (view w) []) as Hp0.
  { split_and!; [constructor|by intros ? ?%elem_of_nil|]. intros k v. setoid_rewrite elem_of_nil.
    split; [|naive_solver]. intros [Hk Hp]. by rewrite (Hfresh k Hp) in Hk. }
  destruct (run_wp False T view L _ _ _ _ _ Hr1 (wp_new PL T id _ [] Hp0)) as (Ev & Ee & _).
  assert (log_ok 0 core) as Hok.
  { unfold log_ok. rewrite Ee. split_and!; try done.
    intros [|i] e He; [|done]. injection He as <-. by rewrite dummy_index. }
  assert (mirrored id [] (view w1) [] []) as Hm0 by (rewrite Ev; by split).
  destruct (run_append_all T view L id bs [] core [] [] w1 Hok Ee Hm0 Ha)
    as (core1 & w2 & disk & -> & E1 & [Hp Hd Hpre Hnil Hlast]).
  destruct (run (RaftStorage_new id) w2) as [core' w3] eqn:Hr3.
  destruct (run_wp False T view L _ _ _ _ _ Hr3 (wp_new PL T id _ _ Hp)) as (_ & Ee' & _).
  exists core1. unfold RaftStorage_first_index. rewrite E1, dummy_index. split_and!; [done..| |].
  - intros Hn. by rewrite Ee', (Hnil Hn).
  - intros Hn. destruct disk as [|d disk]; [by apply prefix_nil_inv in Hpre|].
    rewrite Ee'. split_and!; [done|done|]. by rewrite (Hd 0%nat d eq_refl).
Qed.
End Theorems.

(** ** A concrete message type

    Entries as index, term and data, encoded in 8 + 8 bytes and the data. *)
Record ex_entry : Type := mkEntry { ex_index : Z; ex_term : Z; ex_data : bytes }.
Definition ex_fits (e : ex_entry) : Prop := u64 (ex_index e) ∧ u64 (ex_term e).
#[export] Instance ex_fits_dec e : Decision (ex_fits e).
Proof. unfold ex_fits, u64. apply _. Defined.

#[export] Instance ex_pb : RaftPb := {|
  HardState := Z; ConfState := list Z; Entry := ex_entry;
  HardState_default := 0; ConfState_default := []; Entry_dummy := mkEntry 0 0 [];
  get_index e := u64_wrap (ex_index e); get_term := ex_term; get_data := ex_data;
  HardState_write hs := Some (to_be_bytes 8 hs); HardState_parse bs := Some (from_be_bytes bs);
  ConfState_write _ := Some []; ConfState_parse _ := Some [];
  Entry_write e := if decide (ex_fits e)
    then Some (to_be_bytes 8 (ex_index e) ++ to_be_bytes 8 (ex_term e) ++ ex_data e) else None;
  Entry_parse bs := Some (mkEntry (from_be_bytes (take 8 bs)) (from_be_bytes (take 8 (drop 8 bs)))
    (drop 16 bs))
|}.

Lemma ex_pb_laws : RaftPbLaws ex_pb.
Proof.
  split; [done|done|intros; apply u64_wrap_range|]. intros [i t d] b.
  unfold Entry_write, Entry_parse, ex_pb. case_decide as D; [|done].
  intros E. apply (inj Some) in E as <-. destruct D as [Hi Ht]. cbn [ex_index ex_term ex_data] in *. do 2 f_equal.
  - rewrite take_app_length' by (symmetry; apply length_to_be_bytes). by apply from_to_be_bytes_u64.
  - rewrite slice_app by apply length_to_be_bytes. by apply from_to_be_bytes_u64.
Qed.

Definition ex_log : list ex_entry := [mkEntry 1 1 (of_str "x"); mkEntry 2 1 []; mkEntry 3 1 []].
Definition empty_engine : Store := mkStore ∅ ∅ ∅.

Lemma ex_log_contiguous : contiguous 1 ex_log.
Proof. intros [|[|[|i]]] e He; [by injection He as <-..|done]. Qed.

Definition ex_core : @RaftStorageCore ex_pb :=
  mkRaftStorageCore (0 : HardState) ([] : ConfState) (Entry_dummy :: ex_log : list Entry).

Lemma ex_core_ok : log_ok 0 ex_core.
Proof.
  unfold log_ok. split_and!; [done|done| |done].
  intros [|[|[|[|i]]]] e He; [by injection He as <-..|done].
Qed.

Lemma append_overwrites_suffix_witness :
  ∃ core', (@run _ _ (Mem 0) _ (RaftStorage_append 1 ex_core [mkEntry 2 2 [] : Entry]) empty_engine).1 =
    Some (Ok tt, core') ∧ RaftStorage_term core' 3 = Some (Err Unavailable).
Proof.
  destruct (append_overwrites_suffix (PB := ex_pb) (Fjall0 := Mem 0) 1 0 ex_core (mkEntry 2 2 []) []
    empty_engine) as (core' & E & _ & _ & _ & _ & H).
  - apply ex_core_ok.
  - intros [|i] e He; [by injection He as <-|done].
  - done.
  - done.
  - exists core'. split; [exact E|]. by apply (H 3).
Defined.

Lemma entries_read_range_witness :
  RaftStorage_entries ex_core 1 3 = Some (Ok (take 2 (drop 1 (entries ex_core)))).
Proof.
  pose proof (entries_read_range (PB := ex_pb) 0 ex_core 1 3 ex_core_ok ltac:(done) ltac:(done)
    ltac:(lia)) as H. cbn zeta in H.
  destruct (RaftStorage_entries ex_core 1 3) as [[l|[]]|].
  - by destruct H as (_ & _ & _ & _ & ->).
  - lia.
  - by destruct H as [_ H].
  - done.
Defined.

(** Indices 1 to 3 and then a conflicting index 2: memory ends at 2, the restart
    loads the stale entry 3 as well. *)
Lemma restart_loads_log_witness :
  let bs := [ex_log : list Entry; [mkEntry 2 2 [] : Entry]] in
  let '(core, w1) := @run _ _ (Mem 0) _ (RaftStorage_new 7) empty_engine in
  let '(r, w2) := @run _ _ (Mem 0) _ (append_all 7 bs core) w1 in
  let '(core', _) := @run _ _ (Mem 0) _ (RaftStorage_new 7) w2 in
  ∃ core1, r = Some core1 ∧ entries core1 = [mkEntry 0 0 []; mkEntry 1 1 (of_str "x"); mkEntry 2 2 []] ∧
    entries core' !! 1%nat = Some (mkEntry 2 2 []) ∧ entries core' !! 2%nat = Some (mkEntry 3 1 []) ∧
    RaftStorage_first_index core' = Some 2.
Proof.
  pose proof (restart_loads_log ex_pb_laws (Fjall0 := Mem 0) (λ _, True) id
    (Mem_laws False (λ _, True) 0 I) 7 [ex_log : list Entry; [mkEntry 2 2 [] : Entry]] empty_engine) as H.
  cbv zeta. destruct (run (RaftStorage_new 7) empty_engine) as [core w1].
  destruct (run (append_all 7 _ core) w1) as [r w2]. destruct (run (RaftStorage_new 7) w2) as [core' w3].
  destruct H as (core1 & E & Em & _ & _ & H).
  - split; [|split; [|done]].
    + split_and!; [apply ex_log_contiguous|done|done|done|]. intros e He. unfold ex_log in He.
      rewrite !elem_of_cons, elem_of_nil in He. destruct He as [-> |[-> |[-> |[]]]]; by eexists.
    + split_and!; [|done|done|done|].
      * intros [|i] e He; [by injection He as <-|done].
      * intros e ->%list_elem_of_singleton. by eexists.
  - done.
  - destruct H as (_ & Hl & Hf); [done|]. exists core1. split_and!; [done|done|..].
    + rewrite Hl. by vm_compute.
    + rewrite Hl. by vm_compute.
    + done.
Defined.

(** An append that truncates the log does not delete the entries it
    displaces from disk: after appending indices 1 to 3 and then a conflicting
    index 2 of term 2, memory ends at index 2, but a restart brings the stale
    entry 3 back. *)
Theorem restart_resurrects_truncated :
  let run' := fun A (m : @prog Mem_err A) => @run _ _ (Mem 0) A m in
  let '(core0, w0) := run' _ (RaftStorage_new 7) empty_engine in
  let '(r1, w1) := run' _ (RaftStorage_append 7 core0 (ex_log : list Entry)) w0 in
  match r1 with
  | Some (Ok tt, core1) =>
      let '(r2, w2) := run' _ (RaftStorage_append 7 core1 [mkEntry 2 2 [] : Entry]) w1 in
      match r2 with
      | Some (Ok tt, core2) =>
          let '(core3, _) := run' _ (RaftStorage_new 7) w2 in
          RaftStorage_last_index core2 = Some 2 ∧ RaftStorage_term core2 3 = Some (Err Unavailable) ∧
          RaftStorage_last_index core3 = Some 3 ∧ RaftStorage_term core3 3 = Some (Ok 1)
      | _ => False
      end
  | _ => False
  end.
Proof. by vm_compute. Qed.
