(* ===== verification/Findings.v ===== *)
(** * Behaviour worth knowing about

    Concrete runs of the coordinator on the in-memory engine in which it does
    not do what its documentation says.  Each is an execution of the definitions
    of [Coordinator], evaluated by the kernel. *)

From stdpp Require Import base list gmap sorting strings.
From Stdlib Require Import ZArith Lia Strings.Byte.
From S2P Require Import Prelude Codec Engine Mvcc View Hlc Resolver Coordinator CoordSpec Txn TxnThm.

(** Running one call after another, each at its own wall-clock time. *)
Definition at_time {A} (now : Z) (m : @prog Mem_err A) (s : Store) : A * Store :=
  @run _ _ (Mem now) A m s.
Definition then_at {A} (now : Z) (m : @prog Mem_err A) (s : Store) : Store := (at_time now m s).2.

(** The start and commit timestamps of the transactions below: physical time 1,
    2, 3 and 4 ms. *)
Definition ts1 : Z := 65536.
Definition ts2 : Z := 131072.
Definition ts3 : Z := 196608.
Definition ts4 : Z := 262144.

(** A transaction that deletes [b] crashes after committing its primary [a];
    the reader of [b] rolls it forward as a put ([get] makes up the lock's
    operation) and reports corruption instead of the deletion. *)
Lemma delete_rolled_forward_as_put :
  let s := then_at 1 (Coordinator_prewrite ts1 ex_mutations key_a 3000) empty_store in
  let s := then_at 1 (Coordinator_commit ts1 ts2 [key_a]) s in
  (at_time 1 (Coordinator_get key_b ts3) s).1 = Err (TxnError_Mvcc CorruptedState).
Proof. by vm_compute. Qed.

(** Readers assume a time to live of 3000 ms whatever the lock or a heartbeat
    says: with a heartbeat of 20000 ms a reader at 5000 ms rolls the secondary
    back, and the commit that follows still reports success with the write to
    [b] lost. *)
Lemma reader_ignores_heartbeat :
  let ms := [Mutation_Put key_a (of_str "1"); Mutation_Put key_b (of_str "2")] in
  let s := then_at 1 (Coordinator_prewrite ts1 ms key_a 3000) empty_store in
  let s := then_at 1 (Coordinator_heartbeat key_a ts1 20000) s in
  let s := then_at 5000 (Coordinator_get key_b ts2) s in
  (at_time 5000 (Coordinator_commit ts1 ts3 [key_a; key_b]) s).1 = Ok tt ∧
  let s := then_at 5000 (Coordinator_commit ts1 ts3 [key_a; key_b]) s in
  (at_time 5000 (Coordinator_get key_a ts4) s).1 = Ok (Some (of_str "1")) ∧
  (at_time 5000 (Coordinator_get key_b ts4) s).1 = Ok None.
Proof. by vm_compute. Qed.

(** Prewrite looks for conflicts before it resolves the lock in its way: when
    resolving rolls another transaction forward at a commit timestamp above the
    start timestamp, the conflict is missed, and the commit overwrites it. *)
Lemma conflict_missed_after_roll_forward :
  let ms := [Mutation_Put key_a (of_str "1"); Mutation_Put key_b (of_str "2")] in
  let s := then_at 1 (Coordinator_prewrite ts1 ms key_a 3000) empty_store in
  let s := then_at 1 (Coordinator_commit ts1 ts3 [key_a]) s in
  (at_time 1 (Coordinator_prewrite ts2 [Mutation_Put key_b (of_str "3")] key_b 3000) s).1 = Ok tt ∧
  let s := then_at 1 (Coordinator_prewrite ts2 [Mutation_Put key_b (of_str "3")] key_b 3000) s in
  is_Some (write_at s key_b ts3).
Proof. split; [by vm_compute|]. vm_compute. by eexists. Qed.

(** A scan starts at the encoding of its start key, which sorts after the
    encodings of keys that extend it: both keys of the range are skipped. *)
Lemma scan_skips_extensions :
  let k1 := of_str "key_1" in let k2 := of_str "key_2" in
  let ms := [Mutation_Put k1 (of_str "1"); Mutation_Put k2 (of_str "2")] in
  let s := then_at 1 (Coordinator_prewrite ts1 ms k1 3000) empty_store in
  let s := then_at 1 (Coordinator_commit ts1 ts2 [k1; k2]) s in
  (at_time 1 (Coordinator_scan [] [] 0 ts3) s).1 = Ok [(k1, of_str "1"); (k2, of_str "2")] ∧
  (at_time 1 (Coordinator_scan (of_str "key") (of_str "kez") 0 ts3) s).1 = Ok [].
Proof. by vm_compute. Qed.

(** [batch_commit] reports success for a transaction that holds no lock any
    more, where [commit] reports [TransactionRolledBack]. *)
Lemma batch_commit_after_rollback :
  let s := then_at 1 (Coordinator_rollback ts1 [key_a]) empty_store in
  (at_time 1 (Coordinator_commit ts1 ts2 [key_a]) s).1 = Err TransactionRolledBack ∧
  (at_time 1 (Coordinator_batch_commit ts1 ts2 [key_a]) s).1 = Ok tt.
Proof. by vm_compute. Qed.

(** Versions of a key and of a key that extends it interleave: a reader of [a]
    stops at the first version of such a key it meets and misses the older version
    of [a]. *)
Lemma prefix_keys_hide_versions :
  let k := of_str "a" in
  let k' := k ++ to_be_bytes 8 (u64_not ts3) in
  let s := then_at 1 (Coordinator_prewrite ts1 [Mutation_Put k (of_str "1")] k 3000) empty_store in
  let s := then_at 1 (Coordinator_commit ts1 ts2 [k]) s in
  (at_time 1 (Coordinator_get k ts4) s).1 = Ok (Some (of_str "1")) ∧
  let s := then_at 1 (Coordinator_prewrite ts3 [Mutation_Put k' (of_str "2")] k' 3000) s in
  let s := then_at 1 (Coordinator_commit ts3 ts4 [k']) s in
  (at_time 1 (Coordinator_get k ts4) s).1 = Ok None.
Proof. by vm_compute. Qed.

(** A scan looks only at keys that have a version: a secondary whose transaction
    committed its primary but whose own lock is not resolved yet is left out when
    the key is new, although a read at the same timestamp returns it. *)
Lemma scan_misses_committed_insert :
  let ms := [Mutation_Put key_a (of_str "1"); Mutation_Put key_b (of_str "2")] in
  let s := then_at 1 (Coordinator_prewrite ts1 ms key_a 3000) empty_store in
  let s := then_at 1 (Coordinator_commit ts1 ts2 [key_a]) s in
  (at_time 1 (Coordinator_scan [] [] 0 ts3) s).1 = Ok [(key_a, of_str "1")] ∧
  (at_time 1 (Coordinator_get key_b ts3) s).1 = Ok (Some (of_str "2")).
Proof. by vm_compute. Qed.
