(* ===== verification/RaftNode.v ===== *)
(** * A region's Raft node: [crates/raft-engine/src/node.rs], [config.rs]

    [MultiRaftNode] drives a [RawNode] of the [raft] crate over the region's
    [RaftStorage].  The raw node is an interface here; the code of this file is
    the loop around it.  The theorem: when [process_ready] hands out its messages
    the engine holds the encoded entries and the hard state, unless a write
    failed; it returns exactly the non-empty committed payloads in order, and
    does nothing when there is nothing to do.  A write that fails is not
    reported: an example runs such an engine. *)

From stdpp Require Import base list gmap sorting strings.
From Stdlib Require Import ZArith Lia Strings.Byte.
From S2P Require Import Prelude Codec Engine RaftStore.

(** ** [config.rs]: tick counts, an interval in milliseconds and size limits *)
Record RaftConfig : Type := mkRaftConfig {
  cfg_node_id : Z;
  heartbeat_tick : Z;
  election_tick : Z;
  tick_interval_ms : Z;
  max_size_per_msg : Z;
  max_inflight_msgs : Z
}.

Definition RaftConfig_default : RaftConfig :=
  mkRaftConfig 1 2 10 100 (1024 * 1024) 256.

(** ** The [raft] crate's raw node

    Its methods may read the storage the node shares with it. *)
Class RawNodeOps (PB : RaftPb) : Type := {
  RawNode : Type;
  Ready : Type;
  Message : Type;
  raft_Error : Type;
  (** [RawNode::new] with id, election and heartbeat ticks and the two limits. *)
  RawNode_new : Z → Z → Z → Z → Z → RaftStorageCore → result raft_Error RawNode;
  RawNode_tick : RaftStorageCore → RawNode → RawNode;
  RawNode_step : RaftStorageCore → Message → RawNode → result raft_Error unit * RawNode;
  RawNode_propose : RaftStorageCore → bytes → bytes → RawNode → result raft_Error unit * RawNode;
  RawNode_has_ready : RaftStorageCore → RawNode → bool;
  RawNode_ready : RaftStorageCore → RawNode → Ready * RawNode;
  RawNode_advance : RaftStorageCore → Ready → RawNode → RawNode;
  Ready_entries : Ready → list Entry;
  Ready_hs : Ready → option HardState;
  (** [take_messages]: the messages, and the ready state without them. *)
  Ready_take_messages : Ready → list Message * Ready;
  Ready_committed_entries : Ready → list Entry;
  Message_parse : bytes → option Message
}.

Inductive RaftCmd : Type :=
| SplitCmd (region_id : Z) (split_key : bytes) (new_region_id : Z)
| TxnCmd (payload : bytes).

Section Node.
Context {FE : FjallErr} {PB : RaftPb} {RN : RawNodeOps PB}.

Inductive NodeError : Type :=
| NodeError_Raft (e : raft_Error)
| NodeError_RaftStorage (e : RaftStorageError)
| NodeError_Storage (e : StorageError).

(** The storage handle is shared with the raw node; its state is [mn_storage]. *)
Record MultiRaftNode : Type := mkMultiRaftNode {
  mn_region_id : Z;
  mn_raw_node : RawNode;
  mn_storage : RaftStorageCore
}.

Definition MultiRaftNode_new (region_id : Z) (peers : list Z) (cfg : RaftConfig) :
    prog (result NodeError MultiRaftNode) :=
  let* storage := RaftStorage_new region_id in
  match RawNode_new (cfg_node_id cfg) (election_tick cfg) (heartbeat_tick cfg)
          (max_size_per_msg cfg) (max_inflight_msgs cfg) storage with
  | Err e => Ret (Err (NodeError_Raft e))
  | Ok raw_node => Ret (Ok (mkMultiRaftNode region_id raw_node storage))
  end.

Definition set_raw (n : MultiRaftNode) (raw : RawNode) : MultiRaftNode :=
  mkMultiRaftNode (mn_region_id n) raw (mn_storage n).

Definition MultiRaftNode_tick (n : MultiRaftNode) : MultiRaftNode :=
  set_raw n (RawNode_tick (mn_storage n) (mn_raw_node n)).

Definition MultiRaftNode_step (n : MultiRaftNode) (msg : Message) :
    result NodeError unit * MultiRaftNode :=
  let '(r, raw) := RawNode_step (mn_storage n) msg (mn_raw_node n) in
  (map_err NodeError_Raft r, set_raw n raw).

Definition MultiRaftNode_propose (n : MultiRaftNode) (data : bytes) :
    result NodeError unit * MultiRaftNode :=
  let '(r, raw) := RawNode_propose (mn_storage n) [] data (mn_raw_node n) in
  (map_err NodeError_Raft r, set_raw n raw).

(** [serde_json::to_vec] is a parameter; an error becomes the empty string. *)
Definition MultiRaftNode_propose_cmd (to_vec : RaftCmd → option bytes) (n : MultiRaftNode)
    (cmd : RaftCmd) : result NodeError unit * MultiRaftNode :=
  MultiRaftNode_propose n (default [] (to_vec cmd)).

(** The payloads [process_ready] collects. *)
Fixpoint committed_payloads (es : list Entry) : list bytes :=
  match es with
  | [] => []
  | e :: es' =>
      match get_data e with
      | [] => committed_payloads es'
      | d => d :: committed_payloads es'
      end
  end.

(** [None] is the panic of [RaftStorage::append] on an empty log. *)
Definition MultiRaftNode_process_ready (n : MultiRaftNode) :
    prog (option (result NodeError (list Message * list bytes) * MultiRaftNode)) :=
  if RawNode_has_ready (mn_storage n) (mn_raw_node n) then
    let '(ready, raw) := RawNode_ready (mn_storage n) (mn_raw_node n) in
    let n := set_raw n raw in
    let* appended :=
      match Ready_entries ready with
      | [] => Ret (Some (Ok tt, mn_storage n))
      | es => RaftStorage_append (mn_region_id n) (mn_storage n) es
      end in
    match appended with
    | None => Ret None
    | Some (Err e, storage) =>
        Ret (Some (Err (NodeError_RaftStorage e), mkMultiRaftNode (mn_region_id n) raw storage))
    | Some (Ok _, storage) =>
        let* storage :=
          match Ready_hs ready with
          | Some hs => RaftStorage_set_hard_state (mn_region_id n) storage hs
          | None => Ret storage
          end in
        let '(messages, ready) := Ready_take_messages ready in
        let payloads := committed_payloads (Ready_committed_entries ready) in
        let raw := RawNode_advance storage ready raw in
        Ret (Some (Ok (messages, payloads), mkMultiRaftNode (mn_region_id n) raw storage))
    end
  else Ret (Some (Ok ([], []), n)).

(** ** Lemmas *)
Lemma committed_payloads_filter es :
  committed_payloads es = filter (λ d, d ≠ []) (get_data <$> es).
Proof.
  induction es as [|e es IH]; csimpl; [done|]. rewrite filter_cons, IH.
  by destruct (get_data e).
Qed.

(** The batch [set_hard_state] stages. *)
Definition hs_ops (id : Z) (hs : option HardState) : Batch :=
  match hs ≫= HardState_write with
  | Some bs => [BInsert PARTITION_DEFAULT (hs_key id) bs]
  | None => []
  end.

(** The entries and the hard state of a ready state are in the region's keys of
    the DEFAULT partition. *)
Definition ready_persisted (id : Z) (ready : Ready) (s : Store) : Prop :=
  (∀ e bs, e ∈ Ready_entries ready → Entry_write e = Some bs →
     s_default s !! entry_key id (get_index e) = Some bs) ∧
  (∀ hs bs, Ready_hs ready = Some hs → HardState_write hs = Some bs →
     s_default s !! hs_key id = Some bs).

Lemma hs_key_ne_entry id id' i : hs_key id ≠ entry_key id' i.
Proof. done. Qed.

Lemma ready_ops_persisted (PL : RaftPbLaws PB) id ready s :
  NoDup (get_index <$> Ready_entries ready) →
  ready_persisted id ready
    (apply_batch (hs_ops id (Ready_hs ready)) (apply_batch (append_ops id (Ready_entries ready)) s)).
Proof.
  intros Hnd. unfold hs_ops. split.
  - intros e bs He Hbs. destruct (Ready_hs ready ≫= HardState_write).
    + cbn [apply_batch apply_op set_part part s_default].
      rewrite lookup_insert_ne by apply hs_key_ne_entry. by apply append_ops_stores.
    + by apply append_ops_stores.
  - intros hs bs -> Hbs. cbn [mbind option_bind]. rewrite Hbs.
    cbn [apply_batch apply_op set_part part s_default]. apply lookup_insert_eq.
Qed.

Section Engine.
Context {W} `{!Fjall FE W} {F : Prop} {T : Z → Prop} {view : W → Store} (L : FjallLaws F T W view).

Lemma run_commit_batch b w :
  view (run (StorageEngine_commit_batch b) w).2 = apply_batch b (view w) ∨
  F ∧ view (run (StorageEngine_commit_batch b) w).2 = view w.
Proof.
  cbn. pose proof (fj_commit_law b w) as H. destruct (fj_commit b w) as [r w'].
  destruct H as [[-> H]|(HF & [e ->] & [H|H])]; cbn; auto.
Qed.

Lemma run_set_hard_state id core hs w :
  let '(core', w') := run (RaftStorage_set_hard_state id core hs) w in
  core' = mkRaftStorageCore hs (conf_state core) (entries core) ∧
  (view w' = apply_batch (hs_ops id (Some hs)) (view w) ∨ F ∧ view w' = view w).
Proof.
  unfold RaftStorage_set_hard_state, hs_ops. cbn [mbind option_bind].
  destruct (HardState_write hs) as [bs|]; [|by split; [|left]].
  rewrite run_bind. pose proof (run_commit_batch [BInsert PARTITION_DEFAULT (hs_key id) bs] w).
  by destruct (run _ w).
Qed.

(** What Raft promises of a ready state's entries: they extend or overwrite the
    log without a gap. *)
Definition ready_fits (b : Z) (core : RaftStorageCore) (ready : Ready) : Prop :=
  ∀ e es, Ready_entries ready = e :: es → contiguous (get_index e) (e :: es) ∧
    b ≤ get_index e ≤ b + Z.of_nat (length (entries core)) ∧
    get_index e + Z.of_nat (length (e :: es)) < 2 ^ 64.

Lemma run_ready_append b id core ready w :
  log_ok b core → ready_fits b core ready →
  ∃ core' w', run (match Ready_entries ready with
                   | [] => Ret (Some (Ok tt, core))
                   | es => RaftStorage_append id core es
                   end) w = (Some (Ok tt, core'), w') ∧
    log_ok b core' ∧ hard_state core' = hard_state core ∧
    (∀ e, e ∈ Ready_entries ready → RaftStorage_term core' (get_index e) = Some (Ok (get_term e))) ∧
    (view w' = apply_batch (append_ops id (Ready_entries ready)) (view w) ∨ F ∧ view w' = view w).
Proof.
  intros Hok Hes. unfold ready_fits in Hes. destruct (Ready_entries ready) as [|e es].
  { exists core, w. split_and!; [done..|by intros ? ?%elem_of_nil|by left]. }
  destruct (Hes e es eq_refl) as (Hc & Hf & Hend).
  assert (log_ok b (appended b core (get_index e) (e :: es))) as Hok' by by apply appended_ok.
  eexists _, _. split_and!; [by apply run_append|done|done| |apply run_commit_batch].
  intros e' He'. by apply appended_term.
Qed.

Lemma run_ready_hs id core ready w :
  let '(core', w') := run (match Ready_hs ready with
                           | Some hs => RaftStorage_set_hard_state id core hs
                           | None => Ret core
                           end) w in
  core' = mkRaftStorageCore (default (hard_state core) (Ready_hs ready)) (conf_state core) (entries core) ∧
  (view w' = apply_batch (hs_ops id (Ready_hs ready)) (view w) ∨ F ∧ view w' = view w).
Proof.
  destruct (Ready_hs ready) as [hs|]; [apply run_set_hard_state|]. split; [by destruct core|by left].
Qed.

(** C29: processing a ready state of a node with a contiguous log that the new
    entries extend or overwrite.  When the messages are handed out, the engine
    already holds the encoded entries and the hard state under the region's keys,
    unless a write to the engine failed (whose error the code ignores); the
    in-memory log reads the entries back and stays contiguous, the messages are
    the ready state's and the payloads are the non-empty ones of the committed
    entries in order.  Without a ready state nothing happens. *)
Theorem process_ready_persists_first (PL : RaftPbLaws PB) b n ready raw (w : W) :
  log_ok b (mn_storage n) → RawNode_ready (mn_storage n) (mn_raw_node n) = (ready, raw) →
  ready_fits b (mn_storage n) ready →
  match run (MultiRaftNode_process_ready n) w with
  | (None, _) => False
  | (Some (r, n'), w') =>
      if RawNode_has_ready (mn_storage n) (mn_raw_node n) then
        (F ∨ ready_persisted (mn_region_id n) ready (view w')) ∧
        log_ok b (mn_storage n') ∧
        (∀ e, e ∈ Ready_entries ready →
           RaftStorage_term (mn_storage n') (get_index e) = Some (Ok (get_term e))) ∧
        hard_state (mn_storage n') = default (hard_state (mn_storage n)) (Ready_hs ready) ∧
        r = Ok ((Ready_take_messages ready).1,
                filter (λ d, d ≠ []) (get_data <$> Ready_committed_entries (Ready_take_messages ready).2))
      else r = Ok ([], []) ∧ n' = n ∧ w' = w
  end.
Proof.
  intros Hok Hrd Hes. unfold MultiRaftNode_process_ready.
  destruct (RawNode_has_ready (mn_storage n) (mn_raw_node n)); [|done]. rewrite Hrd. cbn [set_raw mn_region_id mn_storage].
  destruct (run_ready_append b (mn_region_id n) _ ready w Hok Hes) as (core & w1 & Hr & Hok1 & Hhs & Hterm & V1).
  rewrite run_bind, Hr, run_bind. pose proof (run_ready_hs (mn_region_id n) core ready w1) as H2.
  destruct (run _ w1) as [core2 w2]. destruct H2 as [-> V2].
  assert (NoDup (get_index <$> Ready_entries ready)) as Hnd.
  { unfold ready_fits in Hes. destruct (Ready_entries ready) as [|e es]; [constructor|].
    destruct (Hes e es eq_refl) as (Hc & _). by eapply contiguous_nodup. }
  destruct (Ready_take_messages ready) as [msgs ready'] eqn:Em. cbn [run fst snd mn_storage hard_state].
  rewrite committed_payloads_filter, Hhs. split_and!; [|done..].
  destruct V2 as [V2|[? _]]; [|by left]. destruct V1 as [V1|[? _]]; [|by left].
  right. rewrite V2, V1. by apply ready_ops_persisted.
Qed.
End Engine.
End Node.

(** ** A concrete raw node

    One that has a single ready state: it appends entry 1, sets the hard state
    to 5, sends one message and commits the entry. *)
#[export] Instance ex_raw : RawNodeOps ex_pb := {|
  RawNode := bool; Ready := list bytes; Message := bytes; raft_Error := Empty_set;
  RawNode_new _ _ _ _ _ _ := Ok true;
  RawNode_tick _ n := n;
  RawNode_step _ _ n := (Ok tt, n);
  RawNode_propose _ _ _ n := (Ok tt, n);
  RawNode_has_ready _ n := n;
  RawNode_ready _ n := ([of_str "m"], n);
  RawNode_advance _ _ _ := false;
  Ready_entries _ := [mkEntry 1 1 (of_str "x") : @Entry ex_pb];
  Ready_hs _ := Some (5 : @HardState ex_pb);
  Ready_take_messages r := (r, []);
  Ready_committed_entries _ := [mkEntry 1 1 (of_str "x") : @Entry ex_pb];
  Message_parse bs := Some bs
|}.

Definition ex_node : @MultiRaftNode ex_pb ex_raw :=
  mkMultiRaftNode 1 (true : @RawNode ex_pb ex_raw) (mkRaftStorageCore (0 : HardState) ([] : ConfState) [Entry_dummy : Entry]).

Lemma process_ready_persists_first_witness :
  match @run _ _ (Mem 0) _ (MultiRaftNode_process_ready ex_node) empty_engine with
  | (None, _) => False
  | (Some (r, n'), s) =>
      s_default s !! entry_key 1 1 = Entry_write (mkEntry 1 1 (of_str "x") : Entry) ∧
      s_default s !! hs_key 1 = HardState_write (5 : HardState) ∧
      RaftStorage_term (mn_storage n') 1 = Some (Ok 1) ∧
      r = Ok ([of_str "m"], [of_str "x"])
  end.
Proof.
  pose proof (process_ready_persists_first (RN := ex_raw) (Fjall0 := Mem 0)
    (Mem_laws False (λ _, True) 0 I) ex_pb_laws 0 ex_node
    ([of_str "m"] : @Ready ex_pb ex_raw) (true : @RawNode ex_pb ex_raw) empty_engine) as H.
  destruct (run (MultiRaftNode_process_ready ex_node) empty_engine) as [[[r n']|] s].
  - destruct H as ([[]|[He Hh]] & _ & Ht & _ & Hr).
    + unfold log_ok. split_and!; [done|done| |done]. intros [|i] e He; [by injection He as <-|done].
    + done.
    + intros e es [= <- <-]. split_and!; try done. intros [|i] e He; [by injection He as <-|done].
    + split_and!; [|by apply (Hh (5 : @HardState ex_pb))| |exact Hr].
      * apply (He (mkEntry 1 1 (of_str "x") : @Entry ex_pb)); [by left|done].
      * apply (Ht (mkEntry 1 1 (of_str "x") : @Entry ex_pb)). by left.
  - destruct H; [|done|].
    + unfold log_ok. split_and!; [done|done| |done]. intros [|i] e He; [by injection He as <-|done].
    + intros e es [= <- <-]. split_and!; try done. intros [|i] e He; [by injection He as <-|done].
Defined.

(** ** Ignored write errors *)

(** An engine whose writes fail and store nothing. *)
Definition Broken_err : FjallErr := unit.
Definition Broken : Fjall Broken_err Store := {|
  fj_get p k s := (Ok (part p s !! k), s);
  fj_range p from s := (Ok <$> range_from (part p s) from, s);
  fj_commit b s := (Err (tt : @fjall_Error Broken_err), s);
  fj_time s := (Some 0, s)
|}.

Lemma Broken_laws : @FjallLaws Broken_err True (λ _, True) Store Broken id.
Proof. split; simpl; intros; auto using yields_all. right. split_and!; [done|by eexists|by left]. Qed.

(** Both storage calls ignore the error of their write: the messages are handed
    out as if entries and hard state were stored, and a restart finds neither. *)
Theorem messages_leave_unpersisted :
  match @run Broken_err _ Broken _ (MultiRaftNode_process_ready ex_node) empty_engine with
  | (Some (Ok (messages, payloads), n'), s) =>
      messages = [of_str "m"] ∧ payloads = [of_str "x"] ∧ s = empty_engine ∧
      RaftStorage_last_index (mn_storage n') = Some 1 ∧
      let core := (@run Broken_err _ Broken _ (RaftStorage_new 1) s).1 in
      RaftStorage_last_index core = Some 0 ∧ hard_state core = HardState_default
  | _ => False
  end.
Proof. by vm_compute. Qed.
