(* ===== verification/Node.v ===== *)
(** * The node: [crates/node/src/server.rs] and [service.rs]

    The state a node shares between its gRPC services, and every handler as a
    program that threads it.  A handler's reply keeps the error it reports as a
    value where the code renders it as text.  The lemmas: what the read handler
    does at a given version and at a fresh timestamp, and that its out-of-range
    check never fires.  [NodeThm] has the theorems about a node over its life. *)

From stdpp Require Import base list gmap sorting strings.
From Stdlib Require Import ZArith Lia Strings.Byte.
From S2P Require Import Prelude Codec Engine Mvcc View Hlc Resolver Coordinator CoordSpec Txn EngineOps Router RaftStore RaftNode.

(** ** Requests and replies: the messages of [crates/proto] the handlers use *)
Record ProtoMutation : Type := mkProtoMutation { pm_op : Z; pm_key : bytes; pm_value : bytes }.
Record GetResponse : Type := mkGetResponse { gr_value : bytes; gr_found : bool }.
Record CheckTxnStatusReply : Type := mkStatusReply {
  cr_lock_ttl : Z; cr_commit_ts : Z; cr_is_rolled_back : bool
}.
Record RegionStatsResponse : Type := mkRegionStatsResponse {
  split_recommended : bool; suggested_split_key : bytes
}.

Section Service.
Context {FE : FjallErr} {PB : RaftPb} {RN : RawNodeOps PB}.

(** [tonic::Status] with the error it renders. *)
Inductive Status : Type :=
| Status_out_of_range (msg : string)
| Status_unimplemented (msg : string)
| Status_aborted (e : TxnError)
| Status_internal (e : TxnError).

(** The [error] field of an [AskSplitResponse]; [NoError] is the empty string. *)
Inductive SplitError : Type :=
| NoError
| RegionMissing (region_id : Z)
| NoSplitKey
| RouterFailed (e : RouterError).

Record AskSplitResponse : Type := mkAskSplitResponse {
  as_new_region_id : Z;
  as_left_start_key : bytes;
  as_left_end_key : bytes;
  as_right_start_key : bytes;
  as_right_end_key : bytes;
  as_error : SplitError
}.

Definition AskSplitResponse_error (e : SplitError) : AskSplitResponse :=
  mkAskSplitResponse 0 [] [] [] [] e.

(** ** [NodeState] *)
Record NodeState : Type := mkNodeState {
  ns_node_id : Z;
  ns_hlc : HlcInner;
  ns_router : RegionRouter;
  ns_raft_nodes : gmap Z MultiRaftNode;
  ns_next_region_id : Z
}.

Definition set_hlc (ns : NodeState) (h : HlcInner) : NodeState :=
  mkNodeState (ns_node_id ns) h (ns_router ns) (ns_raft_nodes ns) (ns_next_region_id ns).
Definition set_router (ns : NodeState) (rt : RegionRouter) : NodeState :=
  mkNodeState (ns_node_id ns) (ns_hlc ns) rt (ns_raft_nodes ns) (ns_next_region_id ns).
Definition set_raft_nodes (ns : NodeState) (m : gmap Z MultiRaftNode) : NodeState :=
  mkNodeState (ns_node_id ns) (ns_hlc ns) (ns_router ns) m (ns_next_region_id ns).

Definition raft_config_of (node_id : Z) : RaftConfig :=
  mkRaftConfig node_id (heartbeat_tick RaftConfig_default) (election_tick RaftConfig_default)
    (tick_interval_ms RaftConfig_default) (max_size_per_msg RaftConfig_default)
    (max_inflight_msgs RaftConfig_default).

(** [NodeState::new] once the engine is open; [None] is the panic of [expect]. *)
Definition NodeState_new (node_id : Z) : prog (option NodeState) :=
  let* hlc := HybridLogicalClock_new in
  let router := RegionRouter_insert_region RegionRouter_new (Region_new 1 [] [] [node_id]) in
  let* raft_node := MultiRaftNode_new 1 [node_id] (raft_config_of node_id) in
  match raft_node with
  | Err _ => Ret None
  | Ok raft_node => Ret (Some (mkNodeState node_id hlc router {[1 := raft_node]} 2))
  end.

(** [fetch_add]: returns the old value, wraps around. *)
Definition NodeState_alloc_region_id (ns : NodeState) : Z * NodeState :=
  (ns_next_region_id ns,
   mkNodeState (ns_node_id ns) (ns_hlc ns) (ns_router ns) (ns_raft_nodes ns)
     (u64_add (ns_next_region_id ns) 1)).

(** ** The KV service *)

(** The timestamp a read runs at. *)
Definition read_version (ns : NodeState) (version : Z) : prog (Z * NodeState) :=
  if decide (version = 0) then
    let* r := HybridLogicalClock_now (ns_hlc ns) in
    let '(ts, h) := r in Ret (ts, set_hlc ns h)
  else Ret (version, ns).

(** [get] after the region check. *)
Definition kv_get_at (ns : NodeState) (key : bytes) (version : Z) :
    prog (result Status GetResponse * NodeState) :=
  let* p := read_version ns version in
  let '(read_ts, ns) := p in
  let* r := Coordinator_get key read_ts in
  Ret (match r with
       | Ok value => Ok (mkGetResponse (default [] value) (bool_decide (is_Some value)))
       | Err e => Err (Status_internal e)
       end, ns).

Definition KvService_get (ns : NodeState) (key : bytes) (version : Z) :
    prog (result Status GetResponse * NodeState) :=
  match RegionRouter_route_key (ns_router ns) key with
  | Ok region =>
      if Region_contains_key region key then kv_get_at ns key version
      else Ret (Err (Status_out_of_range "ErrKeyNotInRegion"), ns)
  | Err _ => kv_get_at ns key version
  end.

Definition KvService_scan (ns : NodeState) (start_key end_key : bytes) (limit version : Z) :
    prog (result Status (list (bytes * bytes)) * NodeState) :=
  let* p := read_version ns version in
  let '(read_ts, ns) := p in
  let* r := Coordinator_scan start_key end_key limit read_ts in
  Ret (map_err Status_internal r, ns).

Definition KvService_execute_txn : result Status unit :=
  Err (Status_unimplemented "Direct multi-key transaction execution endpoint").

(** The conversion both prewrite handlers write out. *)
Definition mutation_of_proto (m : ProtoMutation) : Mutation :=
  if decide (pm_op m = 1) then Mutation_Delete (pm_key m)
  else Mutation_Put (pm_key m) (pm_value m).

Definition KvService_batch_prewrite (start_ts : Z) (mutations : list ProtoMutation)
    (primary_lock : bytes) (lock_ttl : Z) : prog (result Status unit) :=
  let* r := Coordinator_batch_prewrite start_ts (mutation_of_proto <$> mutations)
    primary_lock lock_ttl in
  Ret (map_err Status_aborted r).

Definition KvService_batch_commit (start_ts commit_ts : Z) (keys : list bytes) :
    prog (result Status unit) :=
  let* r := Coordinator_batch_commit start_ts commit_ts keys in
  Ret (map_err Status_internal r).

(** The second half of [ask_split], once the split key is known. *)
Definition ask_split_at (ns : NodeState) (region_id : Z) (split_key : bytes) :
    prog (AskSplitResponse * NodeState) :=
  let '(new_region_id, ns) := NodeState_alloc_region_id ns in
  let '(r, router) := RegionRouter_split_region (ns_router ns) region_id split_key new_region_id in
  let ns := set_router ns router in
  match r with
  | Ok (left_region, right_region) =>
      let* new_node := MultiRaftNode_new new_region_id [ns_node_id ns]
        (raft_config_of (ns_node_id ns)) in
      let ns := match new_node with
                | Ok n => set_raft_nodes ns (<[new_region_id := n]> (ns_raft_nodes ns))
                | Err _ => ns
                end in
      Ret (mkAskSplitResponse new_region_id (r_start_key left_region) (r_end_key left_region)
             (r_start_key right_region) (r_end_key right_region) NoError, ns)
  | Err e => Ret (AskSplitResponse_error (RouterFailed e), ns)
  end.

Definition KvService_ask_split (ns : NodeState) (region_id : Z) (split_key : bytes) :
    prog (AskSplitResponse * NodeState) :=
  match RegionRouter_get_region (ns_router ns) region_id with
  | None => Ret (AskSplitResponse_error (RegionMissing region_id), ns)
  | Some region =>
      match split_key with
      | _ :: _ => ask_split_at ns region_id split_key
      | [] =>
          let* m := StorageEngine_find_median_key (r_start_key region) (r_end_key region) in
          match m with
          | Ok (Some k) => ask_split_at ns region_id k
          | _ => Ret (AskSplitResponse_error NoSplitKey, ns)
          end
      end
  end.

Definition KvService_report_region_stats (ns : NodeState) (region_id : Z) :
    prog RegionStatsResponse :=
  match RegionRouter_get_region (ns_router ns) region_id with
  | None => Ret (mkRegionStatsResponse false [])
  | Some region =>
      let* stats := StorageEngine_calculate_region_stats (r_start_key region) (r_end_key region) in
      let '(key_count, total_bytes) := match stats with Ok p => p | Err _ => (0, 0) end in
      let split_recommended :=
        bool_decide (10000 ≤ key_count ∨ 64 * 1024 * 1024 ≤ total_bytes) in
      if split_recommended then
        let* m := StorageEngine_find_median_key (r_start_key region) (r_end_key region) in
        let suggested := match m with Ok (Some k) => k | _ => [] end in
        Ret (mkRegionStatsResponse split_recommended suggested)
      else Ret (mkRegionStatsResponse split_recommended [])
  end.

(** ** The transaction service *)
Definition TxnService_prewrite (start_ts : Z) (mutations : list ProtoMutation)
    (primary_lock : bytes) (lock_ttl : Z) : prog (result Status unit) :=
  let* r := Coordinator_prewrite start_ts (mutation_of_proto <$> mutations) primary_lock lock_ttl in
  Ret (map_err Status_aborted r).

Definition TxnService_commit (start_ts commit_ts : Z) (keys : list bytes) :
    prog (result Status unit) :=
  let* r := Coordinator_commit start_ts commit_ts keys in Ret (map_err Status_internal r).

Definition TxnService_rollback (start_ts : Z) (keys : list bytes) : prog (result Status unit) :=
  let* r := Coordinator_rollback start_ts keys in Ret (map_err Status_internal r).

(** The reply, and the error its [error] field renders. *)
Definition TxnService_check_txn_status (primary_key : bytes) (lock_ts : Z) :
    prog (CheckTxnStatusReply * option TxnError) :=
  let* r := Coordinator_check_txn_status primary_key lock_ts in
  Ret (match r with
       | Ok (Locked ttl) => (mkStatusReply ttl 0 false, None)
       | Ok (Committed commit_ts) => (mkStatusReply 0 commit_ts false, None)
       | Ok RolledBack => (mkStatusReply 0 0 true, None)
       | Err e => (mkStatusReply 0 0 false, Some e)
       end).

(** [success], [ttl] and the error. *)
Definition TxnService_heart_beat (primary_lock : bytes) (start_ts ttl : Z) :
    prog (bool * Z * option TxnError) :=
  let* r := Coordinator_heartbeat primary_lock start_ts ttl in
  Ret (match r with Ok ttl => (true, ttl, None) | Err e => (false, 0, Some e) end).

(** ** The Raft service: every message is acknowledged *)
Definition RaftService_send_message (ns : NodeState) (region_id : Z) (message_data : bytes) :
    bool * NodeState :=
  (true,
   match Message_parse message_data with
   | Some msg =>
       match ns_raft_nodes ns !! region_id with
       | Some raft_node =>
           set_raft_nodes ns (<[region_id := (MultiRaftNode_step raft_node msg).2]> (ns_raft_nodes ns))
       | None => ns
       end
   | None => ns
   end).

(** The chunks are not read. *)
Definition RaftService_stream_snapshot (chunks : list (option bytes)) : bool := true.

(** [step]: the messages of a stream, up to its end or first error. *)
Fixpoint RaftService_step (ns : NodeState) (stream : list (option (Z * bytes))) : bool * NodeState :=
  match stream with
  | Some (region_id, data) :: rest =>
      RaftService_step (RaftService_send_message ns region_id data).2 rest
  | _ => (true, ns)
  end.

(** ** Lemmas *)

Lemma run_fresh_version {W} `{!Fjall FE W} ns (w : W) :
  run (let* r := HybridLogicalClock_now (ns_hlc ns) in let '(ts, h) := r in Ret (ts, set_hlc ns h)) w =
  let '(t, w1) := fj_time w in
  let '(ts, h) := hlc_now_at (millis_of t) (ns_hlc ns) in ((ts, set_hlc ns h), w1).
Proof.
  rewrite run_bind. unfold HybridLogicalClock_now, now_millis. cbn [prog_bind run].
  destruct (fj_time w) as [t w1]. by destruct (hlc_now_at (millis_of t) (ns_hlc ns)).
Qed.

(** A read at a given version is the coordinator's. *)
Lemma kv_get_unchecked ns key version : KvService_get ns key version = kv_get_at ns key version.
Proof.
  unfold KvService_get. destruct (RegionRouter_route_key (ns_router ns) key) as [r|] eqn:E; [|done].
  apply route_key_loop_ok in E as [_ ->]. done.
Qed.

Lemma run_kv_get {W} `{!Fjall FE W} ns key version (w : W) :
  version ≠ 0 →
  run (KvService_get ns key version) w =
  match run (Coordinator_get key version) w with
  | (Ok v, w2) => ((Ok (mkGetResponse (default [] v) (bool_decide (is_Some v))), ns), w2)
  | (Err e, w2) => ((Err (Status_internal e), ns), w2)
  end.
Proof.
  intros Hv. rewrite kv_get_unchecked. unfold kv_get_at, read_version. rewrite decide_False by done.
  cbn [prog_bind]. rewrite run_bind. by destruct (run (Coordinator_get key version) w) as [[v|e] w2].
Qed.

(** With no version given it reads at a fresh timestamp. *)
Lemma run_kv_get_now {W} `{!Fjall FE W} ns key (w : W) t w1 ts h :
  fj_time w = (t, w1) → hlc_now_at (millis_of t) (ns_hlc ns) = (ts, h) →
  run (KvService_get ns key 0) w =
  match run (Coordinator_get key ts) w1 with
  | (Ok v, w2) => ((Ok (mkGetResponse (default [] v) (bool_decide (is_Some v))), set_hlc ns h), w2)
  | (Err e, w2) => ((Err (Status_internal e), set_hlc ns h), w2)
  end.
Proof.
  intros Ht Eh. rewrite kv_get_unchecked. unfold kv_get_at, read_version.
  rewrite decide_True by done. rewrite run_bind, run_fresh_version, Ht, Eh, run_bind.
  by destruct (run (Coordinator_get key ts) w1) as [[v|e] w2].
Qed.
End Service.
