(* ===== verification/NodeThm.v ===== *)
(** * A node over its life

    Every gRPC request a node serves, as one type, and the states a node reaches
    by serving them.  The theorems: whatever it is asked, region ids are never
    reused, every key keeps exactly one region, and every Raft group belongs to
    a region; and the split a statistics report suggests succeeds. *)

From stdpp Require Import base list gmap sorting strings.
From Stdlib Require Import ZArith Lia Strings.Byte.
From S2P Require Import Prelude Codec Engine Mvcc View Hlc Resolver Coordinator CoordSpec Txn EngineOps Router RaftStore RaftNode Node.

(** ** Requests *)
Inductive NodeRequest : Type :=
| Kv_Get (key : bytes) (version : Z)
| Kv_Scan (start_key end_key : bytes) (limit version : Z)
| Kv_ExecuteTxn
| Kv_BatchPrewrite (start_ts : Z) (mutations : list ProtoMutation) (primary_lock : bytes) (lock_ttl : Z)
| Kv_BatchCommit (start_ts commit_ts : Z) (keys : list bytes)
| Kv_AskSplit (region_id : Z) (split_key : bytes)
| Kv_ReportRegionStats (region_id : Z)
| Txn_Prewrite (start_ts : Z) (mutations : list ProtoMutation) (primary_lock : bytes) (lock_ttl : Z)
| Txn_Commit (start_ts commit_ts : Z) (keys : list bytes)
| Txn_Rollback (start_ts : Z) (keys : list bytes)
| Txn_CheckTxnStatus (primary_key : bytes) (lock_ts : Z)
| Txn_HeartBeat (primary_lock : bytes) (start_ts ttl : Z)
| Raft_SendMessage (region_id : Z) (message_data : bytes)
| Raft_StreamSnapshot (chunks : list (option bytes))
| Raft_Step (stream : list (option (Z * bytes))).

Section NodeThm.
Context {FE : FjallErr} {PB : RaftPb} {RN : RawNodeOps PB}.

(** The node's state after a request; the reply is the handler's. *)
Definition serve (req : NodeRequest) (ns : NodeState) : prog NodeState :=
  match req with
  | Kv_Get key version => let* r := KvService_get ns key version in Ret r.2
  | Kv_Scan start_key end_key limit version =>
      let* r := KvService_scan ns start_key end_key limit version in Ret r.2
  | Kv_ExecuteTxn => Ret ns
  | Kv_BatchPrewrite start_ts ms primary_lock lock_ttl =>
      let* _ := KvService_batch_prewrite start_ts ms primary_lock lock_ttl in Ret ns
  | Kv_BatchCommit start_ts commit_ts keys =>
      let* _ := KvService_batch_commit start_ts commit_ts keys in Ret ns
  | Kv_AskSplit region_id split_key =>
      let* r := KvService_ask_split ns region_id split_key in Ret r.2
  | Kv_ReportRegionStats region_id => let* _ := KvService_report_region_stats ns region_id in Ret ns
  | Txn_Prewrite start_ts ms primary_lock lock_ttl =>
      let* _ := TxnService_prewrite start_ts ms primary_lock lock_ttl in Ret ns
  | Txn_Commit start_ts commit_ts keys => let* _ := TxnService_commit start_ts commit_ts keys in Ret ns
  | Txn_Rollback start_ts keys => let* _ := TxnService_rollback start_ts keys in Ret ns
  | Txn_CheckTxnStatus primary_key lock_ts =>
      let* _ := TxnService_check_txn_status primary_key lock_ts in Ret ns
  | Txn_HeartBeat primary_lock start_ts ttl =>
      let* _ := TxnService_heart_beat primary_lock start_ts ttl in Ret ns
  | Raft_SendMessage region_id data => Ret (RaftService_send_message ns region_id data).2
  | Raft_StreamSnapshot chunks => Ret ns
  | Raft_Step stream => Ret (RaftService_step ns stream).2
  end.

(** [node_reach node_id n ns]: a node started afresh and served [n] requests;
    the engine's state may have changed in any way between two of them. *)
Inductive node_reach {W} `{!Fjall FE W} (node_id : Z) : nat → NodeState → Prop :=
| NR_new w ns w' :
    run (NodeState_new node_id) w = (Some ns, w') → node_reach node_id 0 ns
| NR_serve n ns req w ns' w' :
    node_reach node_id n ns → run (serve req ns) w = (ns', w') → node_reach node_id (S n) ns'.

(** ** The invariant *)
Record node_ok (node_id : Z) (ns : NodeState) : Prop := {
  nk_node_id : ns_node_id ns = node_id;
  nk_router : router_reach [node_id] (ns_router ns);
  nk_ids i r : regions_by_id (ns_router ns) !! i = Some r → i < ns_next_region_id ns;
  nk_groups i n : ns_raft_nodes ns !! i = Some n →
    mn_region_id n = i ∧ is_Some (regions_by_id (ns_router ns) !! i)
}.

Lemma set_hlc_ok node_id ns h : node_ok node_id ns → node_ok node_id (set_hlc ns h).
Proof. intros []. by split. Qed.

Lemma split_by_id_dom rt id m new_id i :
  (∀ j x, regions_by_id rt !! j = Some x → r_id x = j) →
  is_Some (regions_by_id (RegionRouter_split_region rt id m new_id).2 !! i) ↔
  is_Some (regions_by_id rt !! i) ∨
    (i = new_id ∧ ∃ p, (RegionRouter_split_region rt id m new_id).1 = Ok p).
Proof.
  intros Hid. unfold RegionRouter_split_region. destruct (regions_by_id rt !! id) as [old|] eqn:Ho.
  2:{ cbn. split; [by left|]. by intros [?|(_ & p & ?)]. }
  case_decide; cbn [fst snd regions_by_id r_id].
  { split; [by left|]. by intros [?|(_ & p & ?)]. }
  rewrite (Hid _ _ Ho), lookup_insert_is_Some, lookup_insert_is_Some.
  destruct (decide (i = new_id)) as [->|]; [split; [eauto|by left]|].
  destruct (decide (i = id)) as [->|]; [rewrite Ho; split; [eauto|auto]|]. naive_solver.
Qed.

Lemma ask_split_at_ok {W} `{!Fjall FE W} node_id ns id k (w : W) :
  node_ok node_id ns → 0 ≤ ns_next_region_id ns → ns_next_region_id ns + 1 < 2 ^ 64 →
  let ns' := (run (ask_split_at ns id k) w).1.2 in
  node_ok node_id ns' ∧ ns_next_region_id ns' = ns_next_region_id ns + 1.
Proof.
  intros [Hn Hrt Hids Hgr] H0 Hlt. unfold ask_split_at, NodeState_alloc_region_id.
  set (new := ns_next_region_id ns) in *. cbn [ns_router].
  assert (u64_add new 1 = new + 1) as Ea by (apply u64_wrap_id; unfold u64; lia).
  pose proof (tl_id _ (router_reach_tiling _ _ Hrt)) as Htl.
  pose proof (λ i, split_by_id_dom (ns_router ns) id k new i Htl) as Hdom.
  assert (regions_by_id (ns_router ns) !! new = None) as Hfresh.
  { destruct (regions_by_id (ns_router ns) !! new) as [r|] eqn:E; [|done]. apply Hids in E. lia. }
  pose proof (RR_split _ _ id k _ Hrt Hfresh) as Hrt'.
  destruct (RegionRouter_split_region (ns_router ns) id k new) as [res rt]. cbn [fst snd] in *.
  assert (∀ i r, regions_by_id rt !! i = Some r → i < new + 1) as Hids'.
  { intros i r Hr. destruct (proj1 (Hdom i)) as [[x Hx]|[-> _]]; [by eexists| |lia].
    apply Hids in Hx. lia. }
  assert (node_ok node_id (mkNodeState (ns_node_id ns) (ns_hlc ns) rt (ns_raft_nodes ns) (new + 1))) as Hok.
  { split; cbn [ns_node_id ns_router ns_next_region_id ns_raft_nodes]; [done..|].
    intros i n Hi. destruct (Hgr _ _ Hi) as [? ?]. split; [done|]. apply Hdom. by left. }
  rewrite Ea. destruct res as [[l r]|e]; [|done].
  unfold MultiRaftNode_new. rewrite !run_bind. destruct (run (RaftStorage_new new) w) as [st w1].
  destruct (RawNode_new _ _ _ _ _ st) as [raw|e]; [|done]. cbn [run fst snd]. split; [|done].
  destruct Hok as [Hn' Hrt2 _ Hgr2].
  split; cbn [set_raft_nodes set_router ns_node_id ns_router ns_next_region_id ns_raft_nodes]; [done..|].
  intros i n. rewrite lookup_insert_Some. intros [[<- <-]|[_ Hi]]; [|by apply Hgr2].
  split; [done|]. apply Hdom. right. eauto.
Qed.

Lemma ask_split_ok {W} `{!Fjall FE W} node_id ns id k (w : W) :
  node_ok node_id ns → 0 ≤ ns_next_region_id ns → ns_next_region_id ns + 1 < 2 ^ 64 →
  let ns' := (run (KvService_ask_split ns id k) w).1.2 in
  node_ok node_id ns' ∧ ns_next_region_id ns ≤ ns_next_region_id ns' ≤ ns_next_region_id ns + 1.
Proof.
  intros Hi H0 Hlt. unfold KvService_ask_split.
  assert (∀ k' (w' : W), let ns' := (run (ask_split_at ns id k') w').1.2 in
    node_ok node_id ns' ∧ ns_next_region_id ns ≤ ns_next_region_id ns' ≤ ns_next_region_id ns + 1) as Hat.
  { intros k' w' ns'. destruct (ask_split_at_ok node_id ns id k' w' Hi H0 Hlt) as [? E].
    fold ns' in E. split; [done|lia]. }
  assert (node_ok node_id ns ∧ ns_next_region_id ns ≤ ns_next_region_id ns ≤ ns_next_region_id ns + 1)
    as Hsame by (split; [done|lia]).
  destruct (RegionRouter_get_region (ns_router ns) id); [|done].
  destruct k as [|x k]; [|apply Hat]. rewrite run_bind.
  destruct (run _ w) as [[[m|]|e] w1]; [apply Hat|done|done].
Qed.

Lemma send_message_ok node_id ns id data :
  node_ok node_id ns →
  let ns' := (RaftService_send_message ns id data).2 in
  node_ok node_id ns' ∧ ns_next_region_id ns' = ns_next_region_id ns.
Proof.
  intros Hok. unfold RaftService_send_message. cbn [snd].
  destruct (Message_parse data) as [msg|]; [|done].
  destruct (ns_raft_nodes ns !! id) as [n|] eqn:En; [|done]. split; [|done].
  destruct Hok as [Hn Hrt Hids Hgr]. split; cbn [set_raft_nodes ns_node_id ns_router ns_next_region_id ns_raft_nodes]; [done..|].
  intros i n'. rewrite lookup_insert_Some. intros [[<- <-]|[_ Hi]]; [|by apply Hgr].
  destruct (Hgr _ _ En) as [Hid ?]. split; [|done]. unfold MultiRaftNode_step.
  by destruct (RawNode_step _ _ _).
Qed.

Lemma raft_step_ok node_id stream ns :
  node_ok node_id ns →
  let ns' := (RaftService_step ns stream).2 in
  node_ok node_id ns' ∧ ns_next_region_id ns' = ns_next_region_id ns.
Proof.
  revert ns. induction stream as [|[[id data]|] stream IH]; intros ns Hok; [done| |done].
  cbn [RaftService_step]. destruct (send_message_ok node_id ns id data Hok) as [Hok' E].
  destruct (IH _ Hok') as [? E']. split; [done|]. by rewrite E'.
Qed.

(** A read only moves the clock. *)
Lemma read_version_hlc {W} `{!Fjall FE W} ns version (w : W) :
  ∃ h, (run (read_version ns version) w).1.2 = set_hlc ns h.
Proof.
  unfold read_version. case_decide; [|exists (ns_hlc ns); by destruct ns].
  rewrite run_fresh_version. destruct (fj_time w) as [t w1].
  destruct (hlc_now_at (millis_of t) (ns_hlc ns)) as [ts h]. by exists h.
Qed.

Lemma kv_get_hlc {W} `{!Fjall FE W} ns key version (w : W) :
  ∃ h, (run (KvService_get ns key version) w).1.2 = set_hlc ns h.
Proof.
  rewrite kv_get_unchecked. unfold kv_get_at. rewrite run_bind.
  destruct (read_version_hlc ns version w) as [h Hh].
  destruct (run (read_version ns version) w) as [[ts ns'] w1]. cbn [fst snd] in Hh. rewrite run_bind.
  destruct (run (Coordinator_get key ts) w1). exists h. by rewrite <-Hh.
Qed.

Lemma kv_scan_hlc {W} `{!Fjall FE W} ns a b limit version (w : W) :
  ∃ h, (run (KvService_scan ns a b limit version) w).1.2 = set_hlc ns h.
Proof.
  unfold KvService_scan. rewrite run_bind.
  destruct (read_version_hlc ns version w) as [h Hh].
  destruct (run (read_version ns version) w) as [[ts ns'] w1]. cbn [fst snd] in Hh. rewrite run_bind.
  destruct (run (Coordinator_scan a b limit ts) w1). exists h. by rewrite <-Hh.
Qed.

Lemma serve_ok {W} `{!Fjall FE W} node_id req ns (w : W) :
  node_ok node_id ns → 0 ≤ ns_next_region_id ns → ns_next_region_id ns + 1 < 2 ^ 64 →
  let ns' := (run (serve req ns) w).1 in
  node_ok node_id ns' ∧ ns_next_region_id ns ≤ ns_next_region_id ns' ≤ ns_next_region_id ns + 1.
Proof.
  intros Hok H0 Hlt. set (next := ns_next_region_id ns) in *.
  assert (∀ ns', node_ok node_id ns' ∧ ns_next_region_id ns' = next →
    node_ok node_id ns' ∧ next ≤ ns_next_region_id ns' ≤ next + 1) as Hsame.
  { intros ns' [? ->]. split; [done|lia]. }
  assert (∀ A (m : prog A), node_ok node_id (run (let* _ := m in Ret ns) w).1 ∧
    next ≤ ns_next_region_id (run (let* _ := m in Ret ns) w).1 ≤ next + 1) as Hstore.
  { intros A m. rewrite run_bind. destruct (run m w). by apply Hsame. }
  assert (∀ A (m : prog (A * NodeState)), (∃ h, (run m w).1.2 = set_hlc ns h) →
    node_ok node_id (run (let* r := m in Ret r.2) w).1 ∧
    next ≤ ns_next_region_id (run (let* r := m in Ret r.2) w).1 ≤ next + 1) as Hread.
  { intros A m [h Hh]. rewrite run_bind. destruct (run m w) as [[a ns'] w1]. cbn in *. subst ns'.
    apply Hsame. split; [by apply set_hlc_ok|done]. }
  destruct req; cbn [serve]; try apply Hstore.
  - apply Hread, kv_get_hlc.
  - apply Hread, kv_scan_hlc.
  - by apply Hsame.
  - rewrite run_bind. pose proof (ask_split_ok node_id ns region_id split_key w Hok H0 Hlt) as Hs.
    by destruct (run (KvService_ask_split ns region_id split_key) w) as [[a ns'] w1].
  - by apply Hsame, send_message_ok.
  - by apply Hsame.
  - by apply Hsame, raft_step_ok.
Qed.

Lemma new_ok {W} `{!Fjall FE W} node_id ns (w : W) w' :
  run (NodeState_new node_id) w = (Some ns, w') →
  node_ok node_id ns ∧ ns_next_region_id ns = 2.
Proof.
  unfold NodeState_new. rewrite run_bind. destruct (run HybridLogicalClock_new w) as [h w1].
  unfold MultiRaftNode_new. rewrite !run_bind. destruct (run (RaftStorage_new 1) w1) as [st w2].
  destruct (RawNode_new _ _ _ _ _ st) as [raw|e]; [|done]. intros [= <- <-].
  split; [|done]. split; cbn; [done|apply RR_init|..].
  - intros i r. rewrite insert_empty, lookup_singleton_Some. intros [<- _]. lia.
  - intros i n. rewrite lookup_singleton_Some. intros [<- <-]. split; [done|].
    rewrite lookup_insert_eq. by eexists.
Qed.

Lemma node_reach_ok {W} `{!Fjall FE W} node_id n ns :
  node_reach node_id n ns → 2 + Z.of_nat n < 2 ^ 64 →
  node_ok node_id ns ∧ 2 ≤ ns_next_region_id ns ≤ 2 + Z.of_nat n.
Proof.
  induction 1 as [w ns w' Hnew|n ns req w ns' w' _ IH Hserve]; intros Hn.
  - apply new_ok in Hnew as [? ->]. split; [done|lia].
  - destruct IH as [Hok Hb]; [lia|].
    destruct (serve_ok node_id req ns w Hok ltac:(lia) ltac:(lia)) as [Hok' Hb'].
    rewrite Hserve in Hok', Hb'. cbn [fst] in *. split; [done|lia].
Qed.

(** A key of a range of written keys that is not the least one is inside the
    range and not its start. *)
Lemma range_key_inner region s k key :
  k ∈ range_keys (r_start_key region) (r_end_key region) s →
  key ∈ range_keys (r_start_key region) (r_end_key region) s → bytes_lt k key →
  Region_contains_key region key = true ∧ key ≠ r_start_key region.
Proof.
  rewrite !elem_of_range_keys, contains_key_spec. unfold out_of_range.
  intros [Hk _] [Hkey _] Hlt. split; [split|].
  - destruct (decide (r_start_key region = [])); [by left|right].
    apply bytes_not_lt_ge. tauto.
  - destruct (decide (r_end_key region = [])); [by left|right].
    destruct (decide (bytes_lt key (r_end_key region))) as [?|Hn]; [done|].
    apply bytes_not_lt_ge in Hn. tauto.
  - intros ->. destruct (decide (r_start_key region = [])) as [E|E]; [|tauto].
    rewrite E in Hlt. by destruct k.
Qed.

(** What a report that suggests a key has seen. *)
Lemma report_suggestion {W} `{!Fjall FE W} F T (view : W → Store) (L : FjallLaws F T W view)
    ns region_id rec key (w w1 : W) :
  run (KvService_report_region_stats ns region_id) w = (mkRegionStatsResponse rec key, w1) →
  key ≠ [] →
  ∃ region k, RegionRouter_get_region (ns_router ns) region_id = Some region ∧ rec = true ∧
    k ∈ range_keys (r_start_key region) (r_end_key region) (view w) ∧ bytes_lt k key ∧
    key ∈ range_keys (r_start_key region) (r_end_key region) (view w).
Proof.
  intros Hrep Hne. unfold KvService_report_region_stats in Hrep.
  destruct (RegionRouter_get_region (ns_router ns) region_id) as [region|] eqn:Hreg; [|by injection Hrep as _ <-].
  rewrite run_bind in Hrep.
  destruct (run (StorageEngine_calculate_region_stats _ _) w) as [stats w3] eqn:Hst.
  destruct (run_wp F T view L _ _ _ _ _ Hst (wp_region_stats F T _ _ _)) as [Ev _].
  destruct (match stats with Ok p => p | Err _ => (0, 0) end) as [cnt tot].
  destruct (bool_decide (10000 ≤ cnt ∨ 64 * 1024 * 1024 ≤ tot)); [|by injection Hrep as _ <-].
  rewrite run_bind in Hrep. destruct (run (StorageEngine_find_median_key _ _) w3) as [m w4] eqn:Hmed.
  injection Hrep as <- Ekey _. destruct m as [[m|]|e]; [subst m|done|done].
  destruct (find_median_spec F T view L _ _ _ _ _ Hmed) as (_ & Hin & k & Hk & Hlt).
  rewrite Ev in Hin, Hk. by exists region, k.
Qed.

(** ** Theorems *)

(** C20: a node never loses a key: started afresh and after any sequence of
    fewer than [2^64 - 2] requests of any kind, split requests with whatever
    region ids and keys among them, on any engine, every key has exactly one
    region and routes to it, and every Raft group the node runs belongs to a
    region of the same id. *)
Theorem node_keeps_every_key_routed {W} `{!Fjall FE W} node_id n ns key :
  node_reach node_id n ns → 2 + Z.of_nat n < 2 ^ 64 →
  (∃ r, RegionRouter_route_key (ns_router ns) key = Ok r ∧ Region_contains_key r key = true ∧
    ∀ r', RegionRouter_get_region (ns_router ns) (r_id r') = Some r' →
      Region_contains_key r' key = true → r' = r) ∧
  (∀ i g, ns_raft_nodes ns !! i = Some g →
    mn_region_id g = i ∧ is_Some (RegionRouter_get_region (ns_router ns) i)).
Proof.
  intros Hr Hn. destruct (node_reach_ok _ _ _ Hr Hn) as [[_ Hrt _ Hgr] _]. split; [|done].
  apply router_reach_tiling in Hrt. destruct (tl_cover _ Hrt key) as (i & r & Hir & Hk).
  pose proof (tl_id _ Hrt _ _ Hir) as <-. exists r. split_and!; [|done|].
  - by apply (tiling_route _ _ _ Hrt).
  - intros r' Hr' Hk'. by apply (tiling_id_unique _ r' r key Hrt).
Qed.

(** C25: the split a report suggests succeeds: when a statistics report of a
    region suggests a key, the region exists, both sides of the key held a
    written key when it was suggested, and a split request with that key,
    whatever has happened to the store since, is answered without an error, with
    a new region id and the two ranges the key divides the region into. *)
Theorem suggested_split_succeeds {W} `{!Fjall FE W} F T (view : W → Store) (L : FjallLaws F T W view)
    node_id n ns region_id rec key (w w1 w2 : W) :
  node_reach node_id n ns → 2 + Z.of_nat n < 2 ^ 64 →
  run (KvService_report_region_stats ns region_id) w = (mkRegionStatsResponse rec key, w1) →
  key ≠ [] →
  ∃ region k, RegionRouter_get_region (ns_router ns) region_id = Some region ∧ rec = true ∧
    k ∈ range_keys (r_start_key region) (r_end_key region) (view w) ∧ bytes_lt k key ∧
    key ∈ range_keys (r_start_key region) (r_end_key region) (view w) ∧
    (run (KvService_ask_split ns region_id key) w2).1.1 =
      mkAskSplitResponse (ns_next_region_id ns) (r_start_key region) key key (r_end_key region) NoError.
Proof.
  intros Hr Hn Hrep Hne. destruct (node_reach_ok _ _ _ Hr Hn) as [[_ Hrt _ _] _].
  destruct (report_suggestion F T view L _ _ _ _ _ _ Hrep Hne) as (region & k & Hreg & -> & Hk & Hlt & Hkey).
  exists region, k. split_and!; [done..|].
  destruct (range_key_inner _ _ _ _ Hk Hkey Hlt) as [Hin Hns].
  unfold KvService_ask_split. rewrite Hreg. destruct key as [|x key]; [done|].
  unfold ask_split_at, NodeState_alloc_region_id. cbn [ns_router].
  rewrite (split_ok (ns_router ns) region_id (ns_next_region_id ns) region (x :: key) Hreg Hin Hns).
  rewrite run_bind. by destruct (run (MultiRaftNode_new _ _ _) w2).
Qed.
End NodeThm.

(** ** Concrete nodes *)
Definition ex_node_new : option (@NodeState ex_pb ex_raw) * Store :=
  @run _ _ (Mem 0) _ (NodeState_new 1) (mkStore ∅ ∅ ∅).

Definition ex_request (req : NodeRequest) (ns : @NodeState ex_pb ex_raw) : @NodeState ex_pb ex_raw :=
  (@run _ _ (Mem 0) _ (serve req ns) (mkStore ∅ ∅ ∅)).1.

Lemma ex_reach ns :
  ex_node_new.1 = Some ns → @node_reach _ _ _ _ (Mem 0) 1 0 ns.
Proof.
  intros E. apply (NR_new (Fjall0 := Mem 0) 1 (mkStore ∅ ∅ ∅) ns ex_node_new.2).
  change (ex_node_new = (Some ns, ex_node_new.2)). rewrite <-E. apply surjective_pairing.
Qed.

Lemma ex_reach_serve n ns req :
  @node_reach _ _ _ _ (Mem 0) 1 n ns → @node_reach _ _ _ _ (Mem 0) 1 (S n) (ex_request req ns).
Proof.
  intros Hr. eapply (NR_serve (Fjall0 := Mem 0) 1 n ns req (mkStore ∅ ∅ ∅)); [exact Hr|].
  apply surjective_pairing.
Qed.

Lemma node_keeps_every_key_routed_witness :
  ∃ ns, ex_node_new.1 = Some ns ∧
  ∃ r, RegionRouter_route_key
         (ns_router (ex_request (Kv_AskSplit 9 []) (ex_request (Kv_Get (of_str "a") 0)
           (ex_request (Kv_AskSplit 1 (of_str "m")) ns)))) (of_str "q") = Ok r.
Proof.
  destruct ex_node_new.1 as [ns|] eqn:E; [|done]. exists ns. split; [done|].
  destruct (node_keeps_every_key_routed (Fjall0 := Mem 0) 1 3
    (ex_request (Kv_AskSplit 9 []) (ex_request (Kv_Get (of_str "a") 0)
       (ex_request (Kv_AskSplit 1 (of_str "m")) ns))) (of_str "q")) as [(r & Hr & _) _].
  - by do 3 apply ex_reach_serve; apply ex_reach.
  - done.
  - by exists r.
Defined.

(** A store with two written keys, the second with a large record. *)
Definition large_store (v : bytes) : Store :=
  mkStore ∅ ∅ {[KeyEncoder_encode (of_str "a") 1 := []; KeyEncoder_encode (of_str "b") 1 := v]}.

Lemma large_value : ∃ v : bytes, 64 * 1024 * 1024 ≤ Z.of_nat (length v) < 2 ^ 32.
Proof.
  exists (replicate (Z.to_nat (64 * 1024 * 1024)) x00). rewrite length_replicate, Z2Nat.id by lia. lia.
Qed.

Lemma large_store_bytes v :
  entry_bytes [] [] [(KeyEncoder_encode (of_str "a") 1, []); (KeyEncoder_encode (of_str "b") 1, v)] =
  18 + Z.of_nat (length v).
Proof.
  unfold entry_bytes. cbn [foldr fst snd].
  replace (KeyEncoder_decode (KeyEncoder_encode (of_str "a") 1)) with (@Ok KeyError _ (of_str "a", 1)) by done.
  replace (KeyEncoder_decode (KeyEncoder_encode (of_str "b") 1)) with (@Ok KeyError _ (of_str "b", 1)) by done.
  rewrite !decide_False by (unfold out_of_range; tauto).
  replace (length (KeyEncoder_encode (of_str "a") 1)) with 9%nat by done.
  replace (length (KeyEncoder_encode (of_str "b") 1)) with 9%nat by done. cbn [length]. lia.
Qed.

Lemma large_store_report v ns :
  64 * 1024 * 1024 ≤ Z.of_nat (length v) < 2 ^ 32 → ex_node_new.1 = Some ns →
  @run _ _ (Mem 0) _ (KvService_report_region_stats ns 1) (large_store v) =
    (mkRegionStatsResponse true (of_str "b"), large_store v).
Proof.
  intros Hv Hns. unfold KvService_report_region_stats.
  assert (RegionRouter_get_region (ns_router ns) 1 = Some (Region_new 1 [] [] [1])) as ->.
  { apply (f_equal (λ o, o ≫= λ ns, RegionRouter_get_region (ns_router ns) 1)) in Hns.
    cbn [mbind option_bind] in Hns. rewrite <-Hns. by vm_compute. }
  cbn [Region_new r_start_key r_end_key]. rewrite run_bind.
  assert (entries_of (s_write (large_store v)) =
    [(KeyEncoder_encode (of_str "a") 1, []); (KeyEncoder_encode (of_str "b") 1, v)]) as Ee
    by by vm_compute.
  destruct (@run _ _ (Mem 0) _ (StorageEngine_calculate_region_stats [] []) (large_store v))
    as [stats w] eqn:Hst.
  destruct (run_wp (Fjall0 := Mem 0) False (λ _, True) id (Mem_laws False _ 0 I) _ _ _ _ _ Hst
    (wp_region_stats False _ _ _ _)) as [Ew [->|[[] _]]].
  cbn [id] in Ew. subst w. change (id (large_store v)) with (large_store v). rewrite Ee, bool_decide_true.
  - by vm_compute.
  - right. rewrite large_store_bytes. rewrite u64_wrap_id; unfold u64; lia.
Qed.

Lemma suggested_split_succeeds_witness :
  ∃ ns, ex_node_new.1 = Some ns ∧
  (@run _ _ (Mem 0) _ (KvService_ask_split ns 1 (of_str "b")) (mkStore ∅ ∅ ∅)).1.1 =
    mkAskSplitResponse (ns_next_region_id ns) [] (of_str "b") (of_str "b") [] NoError.
Proof.
  destruct ex_node_new.1 as [ns|] eqn:E; [|done]. exists ns. split; [done|].
  destruct large_value as [v Hv].
  destruct (suggested_split_succeeds (Fjall0 := Mem 0) False (λ _, True) id (Mem_laws False _ 0 I) 1 0 ns 1
    true (of_str "b") (large_store v) (large_store v) (mkStore ∅ ∅ ∅)) as (region & k & Hreg & _ & _ & _ & _ & Ha).
  - by apply ex_reach.
  - done.
  - by apply large_store_report.
  - done.
  - rewrite Ha. apply (f_equal (λ o, o ≫= λ ns, RegionRouter_get_region (ns_router ns) 1)) in E.
    cbn [mbind option_bind] in E. rewrite Hreg in E. vm_compute in E. injection E as <-. done.
Defined.

(** The regions are kept in memory only: a node restarted on the same store
    serves the whole key space as region 1 again and issues region id 2 a second
    time, whose group then loads the Raft log the first region 2 left. *)
Example restart_forgets_splits :
  match ex_node_new.1 with
  | None => False
  | Some ns =>
      let '((resp, ns1), s) := @run _ _ (Mem 0) _ (KvService_ask_split ns 1 (of_str "m")) ex_node_new.2 in
      match (@run _ _ (Mem 0) _ (@NodeState_new _ ex_pb ex_raw 1) s).1 with
      | None => False
      | Some ns2 =>
          as_new_region_id resp = 2 ∧ is_Some (RegionRouter_get_region (ns_router ns1) 2) ∧
          RegionRouter_get_region (ns_router ns2) 2 = None ∧ ns_next_region_id ns2 = 2
      end
  end.
Proof. vm_compute. eauto. Qed.
