(* ===== verification/Startup.v ===== *)
(** * Starting a node: [config.rs], [engine.rs], [server.rs] and [main.rs]

    The configuration of the storage engine and of the server, how [main]
    combines its arguments with the configuration file, the settings
    [StorageEngine::open_with_config] hands to Fjall, and the start of the node
    on the opened engine.  Reading a file, the TOML parser, the parser of socket
    addresses, the opening of a Fjall keyspace and the directories it keeps its
    data in are interfaces.  The theorems: the settings never overflow their
    types and respect Fjall's minimum; and a node whose file and engine open
    serves with the configuration the file and the arguments give, on the data
    of the directory they name, with region 1's Raft log as stored there, unless
    the raft crate refuses that log, on which it panics. *)

From stdpp Require Import base list gmap sorting strings.
From Stdlib Require Import ZArith Lia Strings.Byte.
From S2P Require Import Prelude Codec Engine Mvcc View Hlc Resolver Coordinator CoordSpec Txn EngineOps Router RaftStore RaftNode Node NodeThm.

Definition u16 (z : Z) : Prop := 0 ≤ z < 2 ^ 16.
(** [as u16]. *)
Definition u16_wrap (z : Z) : Z := z mod 2 ^ 16.

(** ** [storage/src/config.rs] *)
Record StorageConfig : Type := mkStorageConfig {
  max_memtable_size_bytes : Z;
  flush_workers : Z;
  compaction_workers : Z;
  async_journal_flush_ms : option Z
}.

Definition StorageConfig_default : StorageConfig :=
  mkStorageConfig (64 * 1024 * 1024) 2 4 (Some 10).

(** ** [StorageEngine::open_with_config]

    What the builder of [fjall::Config] is given. *)
Record KeyspaceConfig : Type := mkKeyspaceConfig {
  kc_path : bytes;
  kc_flush_workers : Z;
  kc_compaction_workers : Z;
  kc_max_write_buffer_size : Z;
  kc_max_journaling_size : Z;
  kc_fsync_ms : option Z
}.

Definition keyspace_config (path : bytes) (config : StorageConfig) : KeyspaceConfig :=
  mkKeyspaceConfig path (flush_workers config) (compaction_workers config)
    (u64_wrap (max_memtable_size_bytes config * 4))
    (Z.max (u64_wrap (max_memtable_size_bytes config * 8)) (24 * 1024 * 1024))
    (u16_wrap <$> async_journal_flush_ms config).

(** Opening a keyspace and a partition of it, created with the given memtable
    size when it does not exist, and the operations of an engine that reaches its
    partitions through three handles. *)
Class FjallOpen (FE : FjallErr) (W : Type) : Type := {
  Keyspace : Type;
  PartitionHandle : Type;
  keyspace_settings : Keyspace → KeyspaceConfig;
  handle_keyspace : PartitionHandle → Keyspace;
  handle_name : PartitionHandle → string;
  keyspace_open : KeyspaceConfig → W → result fjall_Error Keyspace * W;
  open_partition : Keyspace → string → Z → W → result fjall_Error PartitionHandle * W;
  handle_ops : (Partition → PartitionHandle) → Fjall FE W
}.

Definition partition_name (p : Partition) : string :=
  match p with
  | PARTITION_DEFAULT => "default"
  | PARTITION_LOCK => "lock"
  | PARTITION_WRITE => "write"
  end.

(** As Fjall documents it: a keyspace keeps its data in the directory it is
    configured with ([disk dir] is what is stored in [dir]), opening recovers
    what was stored there and changes no directory, a handle is one of the
    partition asked for, and operations through handles of a keyspace's three
    partitions are operations on the data of its directory.  [F] says whether an
    operation may fail. *)
Class FjallOpenLaws {FE : FjallErr} (F : Prop) (T : Z → Prop) (W : Type) `{!FjallOpen FE W}
    (disk : bytes → W → Store) : Prop := {
  keyspace_open_law c w : let '(r, w') := keyspace_open c w in
    (∀ dir, disk dir w' = disk dir w) ∧
    ((∃ ks, r = Ok ks ∧ keyspace_settings ks = c) ∨ F ∧ ∃ e, r = Err e);
  open_partition_law ks name size w : let '(r, w') := open_partition ks name size w in
    (∀ dir, disk dir w' = disk dir w) ∧
    ((∃ h, r = Ok h ∧ handle_keyspace h = ks ∧ handle_name h = name) ∨ F ∧ ∃ e, r = Err e);
  handle_ops_law ks h :
    (∀ p, handle_keyspace (h p) = ks ∧ handle_name (h p) = partition_name p) →
    @FjallLaws FE F T W (handle_ops h) (disk (kc_path (keyspace_settings ks)))
}.

(** A computation on a world that may fail, and its [?]. *)
Definition try_on {W E E' A B} (f : E → E') (r : result E A * W) (k : A → W → result E' B * W) :
    result E' B * W :=
  match r with
  | (Ok a, w) => k a w
  | (Err e, w) => (Err (f e), w)
  end.

Section Open.
Context {FE : FjallErr} {W : Type} `{!FjallOpen FE W}.

Record StorageEngine : Type := mkStorageEngine {
  se_keyspace : Keyspace;
  p_default : PartitionHandle;
  p_lock : PartitionHandle;
  p_write : PartitionHandle
}.

Definition StorageEngine_open_with_config (path : bytes) (config : StorageConfig) (w : W) :
    result StorageError StorageEngine * W :=
  try_on StorageError_Fjall (keyspace_open (keyspace_config path config) w) (λ keyspace w,
  let size := max_memtable_size_bytes config in
  try_on StorageError_Fjall (open_partition keyspace (partition_name PARTITION_DEFAULT) size w) (λ d w,
  try_on StorageError_Fjall (open_partition keyspace (partition_name PARTITION_LOCK) size w) (λ l w,
  try_on StorageError_Fjall (open_partition keyspace (partition_name PARTITION_WRITE) size w) (λ wr w,
  (Ok (mkStorageEngine keyspace d l wr), w))))).

Definition StorageEngine_open (path : bytes) (w : W) : result StorageError StorageEngine * W :=
  StorageEngine_open_with_config path StorageConfig_default w.

(** [default_partition], [lock_partition] and [write_partition]. *)
Definition engine_partition (p : Partition) (se : StorageEngine) : PartitionHandle :=
  match p with
  | PARTITION_DEFAULT => p_default se
  | PARTITION_LOCK => p_lock se
  | PARTITION_WRITE => p_write se
  end.

(** What the methods of the engine run on. *)
Definition engine_ops (se : StorageEngine) : Fjall FE W := handle_ops (λ p, engine_partition p se).
End Open.

(** ** [server.rs] and [main.rs] *)

Record ConfigFile : Type := mkConfigFile {
  cf_node_id : option Z;
  cf_grpc_addr : option bytes;
  cf_storage_path : option bytes
}.

(** The surroundings of [main]: the file system and the two parsers. *)
Class Host (W : Type) : Type := {
  SocketAddr : Type;
  IoError : Type;
  TomlError : Type;
  AddrParseError : Type;
  parse_addr : bytes → result AddrParseError SocketAddr;
  read_to_string : bytes → W → result IoError bytes * W;
  toml_from_str : bytes → result TomlError ConfigFile
}.

(** Reading a file leaves the engines' data alone, and the address the program
    has built in is one. *)
Class HostLaws (W : Type) `{!Host W} (disk : bytes → W → Store) : Prop := {
  read_to_string_law path w dir : disk dir (read_to_string path w).2 = disk dir w;
  parse_addr_builtin : ∃ a, parse_addr (of_str "127.0.0.1:50051") = Ok a
}.

Section Main.
Context {FE : FjallErr} {PB : RaftPb} {RN : RawNodeOps PB}.
Context {W : Type} `{!FjallOpen FE W, !Host W}.

Record ServerConfig : Type := mkServerConfig {
  sc_node_id : Z;
  sc_addr : SocketAddr;
  sc_data_dir : bytes;
  sc_raft_tick_ms : Z;
  sc_storage_config : StorageConfig
}.

(** [None] is the panic of [unwrap]. *)
Definition ServerConfig_default : option ServerConfig :=
  match parse_addr (of_str "127.0.0.1:50051") with
  | Err _ => None
  | Ok addr => Some (mkServerConfig 1 addr (of_str "./data/node-1") 100 StorageConfig_default)
  end.

Record Args : Type := mkArgs {
  arg_node_id : Z;
  arg_addr : SocketAddr;
  arg_data_dir : bytes;
  arg_config : option bytes
}.

(** What [main] boxes as its error. *)
Inductive MainError : Type :=
| MainError_Io (e : IoError)
| MainError_Toml (e : TomlError)
| MainError_Addr (e : AddrParseError)
| MainError_Storage (e : StorageError).

(** The node id, address and data directory: the file's where it gives them. *)
Definition resolve_args (args : Args) (w : W) : result MainError (Z * SocketAddr * bytes) * W :=
  match arg_config args with
  | None => (Ok (arg_node_id args, arg_addr args, arg_data_dir args), w)
  | Some config_path =>
      try_on MainError_Io (read_to_string config_path w) (λ content w,
      try_on MainError_Toml (toml_from_str content, w) (λ parsed w,
      let node_id := default (arg_node_id args) (cf_node_id parsed) in
      try_on MainError_Addr
        (match cf_grpc_addr parsed with
         | Some g_addr => parse_addr g_addr
         | None => Ok (arg_addr args)
         end, w) (λ addr w,
      (Ok (node_id, addr, default (arg_data_dir args) (cf_storage_path parsed)), w))))
  end.

(** [NodeState::new] from its configuration; [None] is the panic of [expect]. *)
Definition NodeState_start (config : ServerConfig) (w : W) :
    result StorageError (StorageEngine * option NodeState) * W :=
  try_on id (StorageEngine_open_with_config (sc_data_dir config) (sc_storage_config config) w)
    (λ storage w, let '(ns, w) := run (Fjall0 := engine_ops storage) (NodeState_new (sc_node_id config)) w in
       (Ok (storage, ns), w)).

(** How [main] ends: with an error, in a panic, or serving the three services. *)
Inductive Started : Type :=
| Failed (e : MainError)
| Panicked
| Serving (config : ServerConfig) (storage : StorageEngine) (node_state : NodeState).

Definition node_main (args : Args) (w : W) : Started * W :=
  match resolve_args args w with
  | (Err e, w) => (Failed e, w)
  | (Ok (node_id, addr, data_dir), w) =>
      match ServerConfig_default with
      | None => (Panicked, w)
      | Some d =>
          let config := mkServerConfig node_id addr data_dir (sc_raft_tick_ms d) (sc_storage_config d) in
          match NodeState_start config w with
          | (Err e, w) => (Failed (MainError_Storage e), w)
          | (Ok (_, None), w) => (Panicked, w)
          | (Ok (storage, Some node_state), w) => (Serving config storage node_state, w)
          end
      end
  end.

(** What [RaftStorage::new] loads from a store without read errors. *)
Definition stored_core (id : Z) (s : Store) : RaftStorageCore :=
  let es := load_entries (entry_prefix id) (Ok <$> range_from (s_default s) (entry_prefix id)) in
  mkRaftStorageCore
    (default HardState_default (s_default s !! hs_key id ≫= HardState_parse))
    (default ConfState_default (s_default s !! cs_key id ≫= ConfState_parse))
    (match es with [] => [Entry_dummy] | _ => es end).

(** [RawNode::new] with the configuration of a node. *)
Definition raw_node_of (node_id : Z) (core : RaftStorageCore) : result raft_Error RawNode :=
  let cfg := raft_config_of node_id in
  RawNode_new (cfg_node_id cfg) (election_tick cfg) (heartbeat_tick cfg) (max_size_per_msg cfg)
    (max_inflight_msgs cfg) core.

(** ** Lemmas *)
Section Laws.
Context (F : Prop) (T : Z → Prop) (disk : bytes → W → Store).
Context (LO : FjallOpenLaws F T W disk) (LH : HostLaws W disk).

(** Opening leaves every directory as it was; when it succeeds the engine's
    keyspace has the settings asked for and each handle is one of its partition
    the accessor is named after. *)
Definition opened (c : KeyspaceConfig) (se : StorageEngine) : Prop :=
  keyspace_settings (se_keyspace se) = c ∧
  ∀ p, handle_keyspace (engine_partition p se) = se_keyspace se ∧
       handle_name (engine_partition p se) = partition_name p.

Lemma open_with_config_spec path config w :
  let '(r, w') := StorageEngine_open_with_config path config w in
  (∀ dir, disk dir w' = disk dir w) ∧
  ((∃ se, r = Ok se ∧ opened (keyspace_config path config) se) ∨
   F ∧ ∃ e, r = Err (StorageError_Fjall e)).
Proof.
  unfold StorageEngine_open_with_config.
  pose proof (keyspace_open_law (keyspace_config path config) w) as Hk.
  destruct (keyspace_open (keyspace_config path config) w) as [rk w1].
  destruct Hk as [E1 [(ks & -> & Hks)|[HF [e ->]]]]; cbn [try_on]; [|by eauto 10].
  set (size := max_memtable_size_bytes config).
  pose proof (open_partition_law ks (partition_name PARTITION_DEFAULT) size w1) as Hd.
  destruct (open_partition ks (partition_name PARTITION_DEFAULT) size w1) as [rd w2].
  destruct Hd as [E2 [(d & -> & Ed)|[HF [e ->]]]]; cbn [try_on];
    [|by split; [intros; by rewrite E2|eauto 10]].
  pose proof (open_partition_law ks (partition_name PARTITION_LOCK) size w2) as Hl.
  destruct (open_partition ks (partition_name PARTITION_LOCK) size w2) as [rl w3].
  destruct Hl as [E3 [(l & -> & El)|[HF [e ->]]]]; cbn [try_on];
    [|by split; [intros; by rewrite E3, E2|eauto 10]].
  pose proof (open_partition_law ks (partition_name PARTITION_WRITE) size w3) as Hw.
  destruct (open_partition ks (partition_name PARTITION_WRITE) size w3) as [rw w4].
  destruct Hw as [E4 [(wr & -> & Ew)|[HF [e ->]]]]; cbn [try_on];
    (split; [intros; by rewrite E4, E3, E2, E1|]); [|by eauto 10].
  left. eexists. split; [done|]. split; [done|]. by intros [].
Qed.

(** An opened engine operates on the directory it was opened at. *)
Lemma opened_laws path config se :
  opened (keyspace_config path config) se → @FjallLaws FE F T W (engine_ops se) (disk path).
Proof. intros [E Hp]. pose proof (handle_ops_law (se_keyspace se) _ Hp) as H. by rewrite E in H. Qed.
End Laws.

Lemma wp_RaftStorage_new T id s :
  wp False T (RaftStorage_new id) (λ core s', s' = s ∧ core = stored_core id s) s.
Proof.
  apply wp_bind, wp_pget; [|done]. apply wp_bind, wp_pget; [|done].
  apply wp_bind, wp_prange. intros its ->%yields_reliable. apply wp_ret. split; [done|].
  unfold stored_core. cbn [part].
  by destruct (s_default s !! hs_key id), (s_default s !! cs_key id).
Qed.

(** Starting the node reads the store and the clock only, and depends on whether
    the raft crate accepts the stored log of region 1. *)
Lemma wp_NodeState_new T node_id s :
  wp False T (NodeState_new node_id) (λ r s', s' = s ∧
    match raw_node_of node_id (stored_core 1 s) with
    | Err _ => r = None
    | Ok raw => ∃ ns, r = Some ns ∧
        ns_raft_nodes ns = {[1 := mkMultiRaftNode 1 raw (stored_core 1 s)]}
    end) s.
Proof.
  unfold NodeState_new. apply wp_bind. unfold HybridLogicalClock_new.
  apply wp_bind, wp_now. intros t _ _. apply wp_ret, wp_bind. unfold MultiRaftNode_new.
  apply wp_bind. refine (wp_mono _ _ _ _ _ _ _ (wp_RaftStorage_new T 1 s)). intros core s' [-> ->].
  unfold raw_node_of. destruct (RawNode_new _ _ _ _ _ _); cbn; eauto.
Qed.

Section Resolve.
Context (disk : bytes → W → Store) (LH : HostLaws W disk).

(** The configuration file that applies: an empty one when none is named. *)
Definition config_file (args : Args) (w : W) (cf : ConfigFile) (w1 : W) : Prop :=
  match arg_config args with
  | None => cf = mkConfigFile None None None ∧ w1 = w
  | Some path => ∃ content, read_to_string path w = (Ok content, w1) ∧ toml_from_str content = Ok cf
  end.

Lemma resolve_args_ok args w cf w1 addr :
  config_file args w cf w1 →
  match cf_grpc_addr cf with Some a => parse_addr a = Ok addr | None => addr = arg_addr args end →
  resolve_args args w =
    (Ok (default (arg_node_id args) (cf_node_id cf), addr, default (arg_data_dir args) (cf_storage_path cf)), w1) ∧
  ∀ dir, disk dir w1 = disk dir w.
Proof.
  unfold config_file, resolve_args. destruct (arg_config args) as [path|].
  - intros (content & Hr & Ht) Ha. rewrite Hr. cbn [try_on]. rewrite Ht. cbn [try_on]. split.
    + destruct (cf_grpc_addr cf); [by rewrite Ha|by subst].
    + intros dir. pose proof (read_to_string_law path w dir) as Hl. by rewrite Hr in Hl.
  - intros [-> ->] Ha. cbn in *. by subst.
Qed.
End Resolve.

(** ** Theorems *)

(** C39: a node starts with the configuration it is given: when the named file
    (if any) is read and parsed and its address (if any) is one, on an engine
    that opens, the node id, address and data directory are those of the file
    where it gives them and of the arguments where it does not.  The keyspace is
    opened at that directory with the settings of the built-in storage
    configuration, with handles of its three partitions, and its data is as it
    was.  If the raft crate accepts the Raft log stored there for region 1,
    [main] serves with a fresh node on that log; if not, it panics. *)
Theorem node_main_serves T disk (LO : FjallOpenLaws False T W disk) (LH : HostLaws W disk)
    args w cf w1 addr :
  config_file args w cf w1 →
  match cf_grpc_addr cf with Some a => parse_addr a = Ok addr | None => addr = arg_addr args end →
  let node_id := default (arg_node_id args) (cf_node_id cf) in
  let data_dir := default (arg_data_dir args) (cf_storage_path cf) in
  let core := stored_core 1 (disk data_dir w) in
  let '(r, w') := node_main args w in
  disk data_dir w' = disk data_dir w ∧
  match raw_node_of node_id core with
  | Err _ => r = Panicked
  | Ok raw => ∃ se ns,
      r = Serving (mkServerConfig node_id addr data_dir 100 StorageConfig_default) se ns ∧
      opened (keyspace_config data_dir StorageConfig_default) se ∧
      node_reach (Fjall0 := engine_ops se) node_id 0 ns ∧
      ns_raft_nodes ns = {[1 := mkMultiRaftNode 1 raw core]}
  end.
Proof.
  intros Hcf Ha node_id data_dir core. destruct (resolve_args_ok disk LH _ _ _ _ _ Hcf Ha) as [Hres Ev1].
  unfold node_main. rewrite Hres. unfold ServerConfig_default.
  destruct (parse_addr_builtin (disk := disk)) as [a0 ->]. cbn [sc_raft_tick_ms sc_storage_config].
  fold node_id data_dir. unfold NodeState_start. cbn [sc_data_dir sc_storage_config sc_node_id].
  pose proof (open_with_config_spec False T disk LO data_dir StorageConfig_default w1) as Ho.
  destruct (StorageEngine_open_with_config _ _ w1) as [r w2].
  destruct Ho as [Ev2 [(se & -> & Hse)|[[] _]]]. cbn [try_on].
  pose proof (opened_laws False T disk LO _ _ _ Hse) as L.
  assert (disk data_dir w2 = disk data_dir w) as Ew by (by rewrite Ev2, Ev1).
  destruct (run (NodeState_new node_id) w2) as [ns w3] eqn:Hr.
  destruct (run_wp False T (disk data_dir) L _ _ _ _ _ Hr (wp_NodeState_new T node_id _)) as [Ev3 Hns].
  rewrite Ew in Ev3, Hns. fold core in Hns. cbn [id].
  destruct (raw_node_of node_id core) as [raw|e].
  - destruct Hns as (ns0 & -> & Hn). split; [done|]. exists se, ns0. split_and!; [done..| |done].
    by eapply NR_new.
  - by subst.
Qed.
End Main.

(** The settings Fjall is opened with stay within their types: for every
    memtable size (a [u32]) neither product overflows, the write buffer is four
    memtables, the journal holds at least two write buffers and never less than
    the 24 MiB Fjall requires, and a flush interval below [2^16] ms is passed on
    as it is. *)
Theorem keyspace_settings_bounds path config :
  u32 (max_memtable_size_bytes config) →
  let kc := keyspace_config path config in
  u64 (kc_max_write_buffer_size kc) ∧ u64 (kc_max_journaling_size kc) ∧
  kc_max_write_buffer_size kc = 4 * max_memtable_size_bytes config ∧
  2 * kc_max_write_buffer_size kc ≤ kc_max_journaling_size kc ∧
  24 * 1024 * 1024 ≤ kc_max_journaling_size kc ∧
  (∀ ms, async_journal_flush_ms config = Some ms → u16 ms → kc_fsync_ms kc = Some ms) ∧
  (∀ ms, kc_fsync_ms kc = Some ms → u16 ms).
Proof.
  intros Hm kc. unfold u32 in Hm. unfold kc, keyspace_config. cbn [kc_max_write_buffer_size kc_max_journaling_size kc_fsync_ms].
  rewrite !u64_wrap_id by (unfold u64; lia). unfold u64.
  split_and!; try lia; intros ms.
  - intros -> Hu. cbn. f_equal. by apply Z.mod_small.
  - rewrite fmap_Some. intros (x & _ & ->). by apply Z.mod_pos_bound.
Qed.

(** ** Concrete starts

    Directories of in-memory stores: a handle is a keyspace and a name, and an
    operation goes to the partition of that name in the keyspace's directory. *)
Abbreviation Disks := (gmap bytes Store).
Definition ex_disk (dir : bytes) (w : Disks) : Store := default empty_engine (w !! dir).

Definition named (name : string) : Partition :=
  if decide (name = "lock") then PARTITION_LOCK
  else if decide (name = "write") then PARTITION_WRITE else PARTITION_DEFAULT.

Definition renamed_op (f : Partition → Partition) (o : BatchOp) : BatchOp :=
  match o with
  | BInsert p k v => BInsert (f p) k v
  | BRemove p k => BRemove (f p) k
  end.

Definition dir_ops (h : Partition → KeyspaceConfig * string) : Fjall Mem_err Disks :=
  let dir := kc_path (h PARTITION_DEFAULT).1 in
  let to p := named (h p).2 in
  {|
    fj_get p k w := (Ok (part (to p) (ex_disk dir w) !! k), w);
    fj_range p from w := (Ok <$> range_from (part (to p) (ex_disk dir w)) from, w);
    fj_commit b w := (Ok tt, <[dir := apply_batch (renamed_op to <$> b) (ex_disk dir w)]> w);
    fj_time w := (Some 0, w)
  |}.

#[export] Instance ex_open : FjallOpen Mem_err Disks := {|
  Keyspace := KeyspaceConfig;
  PartitionHandle := KeyspaceConfig * string;
  keyspace_settings ks := ks;
  handle_keyspace h := h.1;
  handle_name h := h.2;
  keyspace_open c w := (Ok c, w);
  open_partition ks name _ w := (Ok (ks, name), w);
  handle_ops := dir_ops
|}.

Lemma renamed_batch f (b : Batch) : (∀ p, f p = p) → renamed_op f <$> b = b.
Proof.
  intros Hf. induction b as [|o b IH]; csimpl; [done|]. rewrite IH. by destruct o; cbn; rewrite Hf.
Qed.

Lemma ex_open_laws : FjallOpenLaws False (λ _, True) Disks ex_disk.
Proof.
  split; cbn; [by eauto|by eauto 10|]. intros ks h Hh.
  assert (∀ p, named (h p).2 = p) as Hn by (intros p; destruct (Hh p) as [_ ->]; by destruct p).
  destruct (Hh PARTITION_DEFAULT) as [Hd _].
  split; cbn; intros; rewrite ?Hd, ?Hn; auto using yields_all.
  left. split; [done|]. unfold ex_disk at 1. rewrite lookup_insert_eq. cbn. by rewrite renamed_batch.
Qed.

(** One file, which sets the node id and the address. *)
#[export] Instance ex_host : Host Disks := {|
  SocketAddr := bytes;
  IoError := unit;
  TomlError := unit;
  AddrParseError := unit;
  parse_addr a := if decide (a = []) then Err tt else Ok a;
  read_to_string path w :=
    (if decide (path = of_str "node-2.toml") then Ok (of_str "node_id = 2") else Err tt, w);
  toml_from_str content :=
    if decide (content = of_str "node_id = 2")
    then Ok (mkConfigFile (Some 2) (Some (of_str "127.0.0.1:50052")) None) else Err tt
|}.

Lemma ex_host_laws : HostLaws Disks ex_disk.
Proof. split; [done|]. by eexists. Qed.

Definition ex_main_args (config : option bytes) : @Args Disks ex_host :=
  @mkArgs Disks ex_host 1 (of_str "127.0.0.1:50051") (of_str "./data/node-1") config.
Definition ex_server : @ServerConfig Disks ex_host :=
  @mkServerConfig Disks ex_host 2 (of_str "127.0.0.1:50052") (of_str "./data/node-1") 100
    StorageConfig_default.
(** Two directories; a Raft log of two entries is stored in the node's. *)
Definition ex_disks : Disks :=
  <[of_str "./data/node-1" :=
      apply_batch (append_ops 1 [mkEntry 1 1 [] : Entry; mkEntry 2 1 [] : Entry]) empty_engine]>
  {[of_str "./data/node-2" := empty_engine]}.
Definition ex_main (config : option bytes) : Started * Disks :=
  @node_main Mem_err ex_pb ex_raw Disks ex_open ex_host (ex_main_args config) ex_disks.

Lemma node_main_serves_witness :
  ∃ se ns w', ex_main (Some (of_str "node-2.toml")) = (Serving ex_server se ns, w') ∧
    keyspace_settings (se_keyspace se) = keyspace_config (of_str "./data/node-1") StorageConfig_default ∧
    handle_name (engine_partition PARTITION_WRITE se) = "write" ∧
    ∃ n, ns_raft_nodes ns !! 1 = Some n ∧ RaftStorage_last_index (mn_storage n) = Some 2.
Proof.
  pose proof (node_main_serves (RN := ex_raw) (λ _, True) ex_disk
    ex_open_laws ex_host_laws (ex_main_args (Some (of_str "node-2.toml"))) ex_disks
    (mkConfigFile (Some 2) (Some (of_str "127.0.0.1:50052")) None) ex_disks
    (of_str "127.0.0.1:50052")) as H. cbv zeta in H.
  unfold ex_main. destruct (node_main _ ex_disks) as [r w'].
  destruct H as (_ & se & ns & -> & [Hs Hp] & _ & Hn).
  - by exists (of_str "node_id = 2").
  - done.
  - exists se, ns, w'. split_and!; [done|exact Hs|apply (Hp PARTITION_WRITE)|].
    rewrite Hn, lookup_singleton_eq. eexists. split; [done|]. by vm_compute.
Defined.

(** An error stops the start before the engine is opened. *)
Example node_main_missing_file :
  ex_main (Some (of_str "missing.toml")) = (Failed (MainError_Io tt), ex_disks).
Proof. done. Qed.

Lemma keyspace_settings_bounds_witness :
  kc_max_write_buffer_size (keyspace_config [] (mkStorageConfig (2 ^ 32 - 1) 1 1 None)) =
    4 * (2 ^ 32 - 1) ∧
  24 * 1024 * 1024 ≤ kc_max_journaling_size (keyspace_config [] (mkStorageConfig 0 1 1 None)).
Proof.
  split.
  - apply (keyspace_settings_bounds [] (mkStorageConfig (2 ^ 32 - 1) 1 1 None)). cbn. unfold u32. lia.
  - apply (keyspace_settings_bounds [] (mkStorageConfig 0 1 1 None)). cbn. unfold u32. lia.
Defined.

(** The flush interval is a [u64] cut to sixteen bits: a little more than a
    minute becomes zero. *)
Example flush_interval_truncated :
  kc_fsync_ms (keyspace_config [] (mkStorageConfig 0 1 1 (Some 65536))) = Some 0.
Proof. done. Qed.
