(* ===== verification/Utf8.v ===== *)
(** * Text: UTF-8 as the command line tool prints it

    [String::from_utf8_lossy] of the standard library, which [kv-cli] applies to
    the keys and values it prints: well-formed sequences are kept, and each
    maximal ill-formed prefix is replaced by one U+FFFD.  A Rust [String] is the
    encoding of a list of scalar values; the lemmas say that printing such a
    string changes nothing, and that what is printed is always well formed. *)

From stdpp Require Import base list.
From Stdlib Require Import ZArith Lia Strings.Byte.
From S2P Require Import Prelude.

(** ** Encoding *)

(** A Unicode scalar value: a [char]. *)
Definition scalar (c : Z) : Prop := 0 ≤ c < 0xD800 ∨ 0xE000 ≤ c < 0x110000.

(** [char::encode_utf8]. *)
Definition encode_utf8 (c : Z) : bytes :=
  if decide (c < 0x80) then [z2b c]
  else if decide (c < 0x800) then [z2b (0xC0 + c / 2 ^ 6); z2b (0x80 + c mod 2 ^ 6)]
  else if decide (c < 0x10000) then
    [z2b (0xE0 + c / 2 ^ 12); z2b (0x80 + (c / 2 ^ 6) mod 2 ^ 6); z2b (0x80 + c mod 2 ^ 6)]
  else
    [z2b (0xF0 + c / 2 ^ 18); z2b (0x80 + (c / 2 ^ 12) mod 2 ^ 6);
     z2b (0x80 + (c / 2 ^ 6) mod 2 ^ 6); z2b (0x80 + c mod 2 ^ 6)].

(** The bytes of a [String]. *)
Definition is_string (bs : bytes) : Prop :=
  ∃ cs, Forall scalar cs ∧ bs = cs ≫= encode_utf8.

(** ** Lossy decoding *)
Definition replacement : bytes := [z2b 0xEF; z2b 0xBF; z2b 0xBD].

(** A continuation byte, and the second bytes allowed after a lead byte of a
    sequence of three or four. *)
Definition continuation (b : byte) : bool := bool_decide (0x80 ≤ b2z b < 0xC0).
Definition second_of_three (a b : byte) : bool :=
  bool_decide (
    (b2z a = 0xE0 ∧ 0xA0 ≤ b2z b ≤ 0xBF) ∨
    (0xE1 ≤ b2z a ≤ 0xEC ∧ 0x80 ≤ b2z b ≤ 0xBF) ∨
    (b2z a = 0xED ∧ 0x80 ≤ b2z b ≤ 0x9F) ∨
    (0xEE ≤ b2z a ≤ 0xEF ∧ 0x80 ≤ b2z b ≤ 0xBF)).
Definition second_of_four (a b : byte) : bool :=
  bool_decide (
    (b2z a = 0xF0 ∧ 0x90 ≤ b2z b ≤ 0xBF) ∨
    (0xF1 ≤ b2z a ≤ 0xF3 ∧ 0x80 ≤ b2z b ≤ 0xBF) ∨
    (b2z a = 0xF4 ∧ 0x80 ≤ b2z b ≤ 0x8F)).

(** [utf8_char_width] on bytes that are not ASCII; 0 is no lead byte. *)
Definition utf8_char_width (b : byte) : nat :=
  if decide (0xC2 ≤ b2z b ≤ 0xDF) then 2
  else if decide (0xE0 ≤ b2z b ≤ 0xEF) then 3
  else if decide (0xF0 ≤ b2z b ≤ 0xF4) then 4
  else 0.

Fixpoint from_utf8_lossy (bs : bytes) : bytes :=
  match bs with
  | [] => []
  | a :: r0 =>
      if decide (b2z a < 0x80) then a :: from_utf8_lossy r0
      else match utf8_char_width a with
      | 2%nat =>
          match r0 with
          | b :: r1 => if continuation b then a :: b :: from_utf8_lossy r1
                       else replacement ++ from_utf8_lossy r0
          | [] => replacement
          end
      | 3%nat =>
          match r0 with
          | b :: r1 =>
              if second_of_three a b then
                match r1 with
                | c :: r2 => if continuation c then a :: b :: c :: from_utf8_lossy r2
                             else replacement ++ from_utf8_lossy r1
                | [] => replacement
                end
              else replacement ++ from_utf8_lossy r0
          | [] => replacement
          end
      | 4%nat =>
          match r0 with
          | b :: r1 =>
              if second_of_four a b then
                match r1 with
                | c :: r2 =>
                    if continuation c then
                      match r2 with
                      | d :: r3 => if continuation d then a :: b :: c :: d :: from_utf8_lossy r3
                                   else replacement ++ from_utf8_lossy r2
                      | [] => replacement
                      end
                    else replacement ++ from_utf8_lossy r1
                | [] => replacement
                end
              else replacement ++ from_utf8_lossy r0
          | [] => replacement
          end
      | _ => replacement ++ from_utf8_lossy r0
      end
  end.

(** ** Lemmas *)
Lemma b2z_z2b_small z : 0 ≤ z < 256 → b2z (z2b z) = z.
Proof. intros. rewrite b2z_z2b. by apply Z.mod_small. Qed.

(** Decoding one encoded character. *)
Lemma lossy_encode c rest :
  scalar c → from_utf8_lossy (encode_utf8 c ++ rest) = encode_utf8 c ++ from_utf8_lossy rest.
Proof.
  intros Hc. assert (0 ≤ c < 0x110000) as Hr by (unfold scalar in Hc; lia). unfold encode_utf8.
  pose proof (Z.mod_pos_bound c (2 ^ 6) ltac:(lia)).
  pose proof (Z.mod_pos_bound (c / 2 ^ 6) (2 ^ 6) ltac:(lia)).
  pose proof (Z.mod_pos_bound (c / 2 ^ 12) (2 ^ 6) ltac:(lia)).
  case_decide as D1; [|case_decide as D2; [|case_decide as D3]]; cbn [app from_utf8_lossy].
  - rewrite b2z_z2b_small by lia. by rewrite decide_True.
  - assert (2 ≤ c / 2 ^ 6 < 32) by (split; [apply Z.div_le_lower_bound|apply Z.div_lt_upper_bound]; lia).
    unfold utf8_char_width, continuation. rewrite !b2z_z2b_small by lia.
    rewrite decide_False by lia. rewrite decide_True by lia. rewrite bool_decide_true by lia. done.
  - assert (0 ≤ c / 2 ^ 12 < 16) by (split; [apply Z.div_le_lower_bound|apply Z.div_lt_upper_bound]; lia).
    assert (c / 2 ^ 6 = 64 * (c / 2 ^ 12) + (c / 2 ^ 6) mod 2 ^ 6) as E.
    { rewrite (Z.div_mod (c / 2 ^ 6) (2 ^ 6)) at 1 by lia. by rewrite Z.div_div by lia. }
    assert (c = 64 * (c / 2 ^ 6) + c mod 2 ^ 6) as E2 by (apply (Z.div_mod c (2 ^ 6)); lia).
    unfold utf8_char_width, continuation, second_of_three. rewrite !b2z_z2b_small by lia.
    rewrite decide_False by lia. rewrite decide_False by lia. rewrite decide_True by lia.
    rewrite !bool_decide_true; [done|lia|]. unfold scalar in Hc. lia.
  - assert (0 ≤ c / 2 ^ 18 < 5) by (split; [apply Z.div_le_lower_bound|apply Z.div_lt_upper_bound]; lia).
    assert (c / 2 ^ 12 = 64 * (c / 2 ^ 18) + (c / 2 ^ 12) mod 2 ^ 6) as E.
    { rewrite (Z.div_mod (c / 2 ^ 12) (2 ^ 6)) at 1 by lia. by rewrite Z.div_div by lia. }
    assert (c = 2 ^ 12 * (c / 2 ^ 12) + c mod 2 ^ 12) as E2 by (apply (Z.div_mod c (2 ^ 12)); lia).
    pose proof (Z.mod_pos_bound c (2 ^ 12) ltac:(lia)).
    unfold utf8_char_width, continuation, second_of_four. rewrite !b2z_z2b_small by lia.
    do 3 rewrite decide_False by lia. rewrite decide_True by lia.
    rewrite !bool_decide_true; [done|lia|lia|lia].
Qed.

(** Printing a [String] prints its bytes. *)
Lemma lossy_string bs : is_string bs → from_utf8_lossy bs = bs.
Proof.
  intros (cs & Hcs & ->). induction Hcs as [|c cs Hc _ IH]; [done|].
  rewrite bind_cons, lossy_encode by done. by rewrite IH.
Qed.

Lemma is_string_nil : is_string [].
Proof. by exists []. Qed.

Lemma is_string_app x y : is_string x → is_string y → is_string (x ++ y).
Proof.
  intros (cs & Hcs & ->) (ds & Hds & ->). exists (cs ++ ds).
  rewrite bind_app. split; [by apply Forall_app|done].
Qed.

Lemma is_string_encode c : scalar c → is_string (encode_utf8 c).
Proof. intros Hc. exists [c]. csimpl. rewrite app_nil_r. split; [by apply Forall_singleton|done]. Qed.

(** Sequences the decoder accepts are encodings. *)
Lemma z2b_eq a z : b2z a = z → z2b z = a.
Proof. intros <-. apply z2b_b2z. Qed.

(** Splitting off the low six bits. *)
Lemma div64 q r : 0 ≤ r < 64 → (64 * q + r) / 2 ^ 6 = q ∧ (64 * q + r) mod 2 ^ 6 = r.
Proof.
  intros Hr. change (2 ^ 6) with 64. rewrite Z.mul_comm. split.
  - rewrite Z.div_add_l, Z.div_small by lia. lia.
  - rewrite Z.add_comm, Z.mod_add by lia. by apply Z.mod_small.
Qed.

Lemma div4096 q r : (64 * q + r) / 2 ^ 12 = ((64 * q + r) / 2 ^ 6) / 2 ^ 6.
Proof. by rewrite Z.div_div by lia. Qed.
Lemma div262144 q r : (64 * q + r) / 2 ^ 18 = ((64 * q + r) / 2 ^ 6) / 2 ^ 6 / 2 ^ 6.
Proof. by rewrite !Z.div_div by lia. Qed.

Lemma two_is_string a b :
  utf8_char_width a = 2%nat → continuation b = true → is_string [a; b].
Proof.
  unfold utf8_char_width. repeat case_decide; try done. intros _ Hb%bool_decide_eq_true.
  set (c := 64 * (b2z a - 0xC0) + (b2z b - 0x80)).
  destruct (div64 (b2z a - 0xC0) (b2z b - 0x80) ltac:(lia)) as [E1 E2]. fold c in E1, E2.
  assert ([a; b] = encode_utf8 c) as ->; [|apply is_string_encode; unfold scalar; lia].
  unfold encode_utf8. rewrite decide_False, decide_True by lia. rewrite E1, E2.
  by rewrite (z2b_eq a), (z2b_eq b) by lia.
Qed.

Lemma three_is_string a b c :
  utf8_char_width a = 3%nat → second_of_three a b = true → continuation c = true →
  is_string [a; b; c].
Proof.
  unfold utf8_char_width. repeat case_decide; try done. intros _ Hb%bool_decide_eq_true Hc%bool_decide_eq_true.
  set (q := 64 * (b2z a - 0xE0) + (b2z b - 0x80)). set (x := 64 * q + (b2z c - 0x80)).
  destruct (div64 (b2z a - 0xE0) (b2z b - 0x80) ltac:(lia)) as [E1 E2]. fold q in E1, E2.
  destruct (div64 q (b2z c - 0x80) ltac:(lia)) as [E3 E4]. fold x in E3, E4.
  assert ([a; b; c] = encode_utf8 x) as ->; [|apply is_string_encode; unfold scalar; lia].
  unfold encode_utf8. rewrite decide_False, decide_False, decide_True by lia.
  unfold x at 1. rewrite div4096. fold x. rewrite E3, E1, E2, E4.
  by rewrite (z2b_eq a), (z2b_eq b), (z2b_eq c) by lia.
Qed.

Lemma four_is_string a b c d :
  utf8_char_width a = 4%nat → second_of_four a b = true → continuation c = true →
  continuation d = true → is_string [a; b; c; d].
Proof.
  unfold utf8_char_width. repeat case_decide; try done.
  intros _ Hb%bool_decide_eq_true Hc%bool_decide_eq_true Hd%bool_decide_eq_true.
  set (p := 64 * (b2z a - 0xF0) + (b2z b - 0x80)). set (q := 64 * p + (b2z c - 0x80)).
  set (x := 64 * q + (b2z d - 0x80)).
  destruct (div64 (b2z a - 0xF0) (b2z b - 0x80) ltac:(lia)) as [E1 E2]. fold p in E1, E2.
  destruct (div64 p (b2z c - 0x80) ltac:(lia)) as [E3 E4]. fold q in E3, E4.
  destruct (div64 q (b2z d - 0x80) ltac:(lia)) as [E5 E6]. fold x in E5, E6.
  assert ([a; b; c; d] = encode_utf8 x) as ->; [|apply is_string_encode; unfold scalar; lia].
  unfold encode_utf8. do 3 rewrite decide_False by lia.
  assert (x / 2 ^ 12 = p) as E7 by (unfold x; rewrite div4096; fold x; by rewrite E5).
  assert (x / 2 ^ 18 = b2z a - 0xF0) as E8 by (unfold x; rewrite div262144; fold x; by rewrite E5, E3).
  rewrite E8, E7, E5, E2, E4, E6.
  by rewrite (z2b_eq a), (z2b_eq b), (z2b_eq c), (z2b_eq d) by lia.
Qed.

Lemma replacement_is_string : is_string replacement.
Proof. apply (is_string_encode 0xFFFD). unfold scalar. lia. Qed.

Lemma ascii_is_string a : b2z a < 0x80 → is_string [a].
Proof.
  intros Ha. pose proof (b2z_range a). assert ([a] = encode_utf8 (b2z a)) as ->.
  - unfold encode_utf8. rewrite decide_True by done. by rewrite z2b_b2z.
  - apply is_string_encode. unfold scalar. lia.
Qed.

Lemma lossy_is_string bs : is_string (from_utf8_lossy bs).
Proof.
  remember (length bs) as n eqn:En. revert bs En. induction n as [n IH] using lt_wf_ind.
  intros bs ->. destruct bs as [|a r0]; [apply is_string_nil|].
  assert (∀ r, (length r ≤ length r0)%nat → is_string (from_utf8_lossy r)) as IHr.
  { intros r Hr. apply (IH (length r)); [cbn; lia|done]. }
  assert (∀ r, (length r ≤ length r0)%nat → is_string (replacement ++ from_utf8_lossy r)) as Hbad.
  { intros r Hr. apply is_string_app; [apply replacement_is_string|auto]. }
  assert (∀ p r, is_string p → (length r ≤ length r0)%nat → is_string (p ++ from_utf8_lossy r)) as Hok.
  { intros p r Hp Hr. apply is_string_app; auto. }
  clear IH. cbn [from_utf8_lossy].
  case_decide; [apply (Hok [a]); [by apply ascii_is_string|lia]|].
  destruct (utf8_char_width a) as [|[|[|[|[|?]]]]] eqn:Ew; try (by apply Hbad);
    destruct r0 as [|b r1]; try apply replacement_is_string; cbn [length] in *.
  - destruct (continuation b) eqn:Eb; [|apply Hbad; cbn; lia].
    apply (Hok [a; b]); [by apply two_is_string|lia].
  - destruct (second_of_three a b) eqn:Eb; [|apply Hbad; cbn; lia].
    destruct r1 as [|c r2]; [apply replacement_is_string|]; cbn [length] in *.
    destruct (continuation c) eqn:Ec; [|apply Hbad; cbn; lia].
    apply (Hok [a; b; c]); [by apply three_is_string|lia].
  - destruct (second_of_four a b) eqn:Eb; [|apply Hbad; cbn; lia].
    destruct r1 as [|c r2]; [apply replacement_is_string|]; cbn [length] in *.
    destruct (continuation c) eqn:Ec; [|apply Hbad; cbn; lia].
    destruct r2 as [|d r3]; [apply replacement_is_string|]; cbn [length] in *.
    destruct (continuation d) eqn:Ed; [|apply Hbad; cbn; lia].
    apply (Hok [a; b; c; d]); [by apply four_is_string|lia].
Qed.
