(* ===== verification/Client.v ===== *)
(** * The client: [crates/client/src/client.rs]

    The request each method of [KvClient] builds and the reply it decodes.  The
    gRPC channel is generated code over a transport and an interface here; the
    lemmas say what a method does over a channel that works, and that a mutation
    arrives at the coordinator as the client meant it.  [Collector] models the
    client's batch collector, and [Cli] the command line tool. *)

From stdpp Require Import base list gmap sorting strings.
From Stdlib Require Import ZArith Lia Strings.Byte.
From S2P Require Import Prelude Codec Engine Mvcc View Hlc Resolver Coordinator CoordSpec Txn TxnThm EngineOps Router RaftStore RaftNode Node.

(** ** The channel

    Generated code over a transport.  An endpoint is parsed, then connected to;
    a unary call either reaches the handler and brings its reply back, or fails
    with a status of the transport. *)
Class Channel (FE : FjallErr) : Type := {
  InvalidUri : Type;
  TransportError : Type;
  TransportStatus : Type;
  Endpoint : Type;
  from_shared : bytes → result InvalidUri Endpoint;
  connect : Endpoint → prog (result TransportError unit);
  unary : ∀ {A}, prog A → prog (result TransportStatus A)
}.

(** What a working channel does. *)
Definition delivers {FE : FjallErr} (CH : Channel FE) : Prop :=
  ∀ W (FJ : Fjall FE W) A (m : prog A) (w : W),
    run (unary m) w = let '(a, w') := run m w in (Ok a, w').

(** An endpoint at which a node listens. *)
Definition reachable {FE : FjallErr} (CH : Channel FE) (endpoint : bytes) : Prop :=
  ∃ ep, from_shared endpoint = Ok ep ∧
    ∀ W (FJ : Fjall FE W) (w : W), run (connect ep) w = (Ok tt, w).

(** A value, or [None] for a deletion, as the client's methods take it. *)
Abbreviation client_mutation := (bytes * option bytes)%type.

Definition proto_of_mutation (m : client_mutation) : ProtoMutation :=
  match m.2 with
  | Some val => mkProtoMutation 0 m.1 val
  | None => mkProtoMutation 1 m.1 []
  end.

Section Client.
Context {FE : FjallErr} {PB : RaftPb} {RN : RawNodeOps PB} {CH : Channel FE}.

(** [tonic::Status] as a caller sees it: the handler's, or the transport's. *)
Inductive RpcStatus : Type :=
| FromHandler (s : Status)
| FromTransport (s : TransportStatus).

Inductive ClientError : Type :=
| ClientError_Tonic (e : TransportError)
| ClientError_InvalidUri (e : InvalidUri)
| ClientError_Status (s : RpcStatus)
| ClientError_NotFound
| ClientError_ChannelClosed
| ClientError_SplitError (msg : string).

Definition KvClient_connect (endpoint : bytes) : prog (result ClientError unit) :=
  match from_shared endpoint with
  | Err e => Ret (Err (ClientError_InvalidUri e))
  | Ok ep => let? _ := connect ep via ClientError_Tonic in Ret (Ok tt)
  end.

(** [call(...).await?.into_inner()] on a handler that may reply with a status. *)
Definition call {A} (m : prog (result Status A)) : prog (result ClientError A) :=
  let* r := unary m in
  Ret (match r with
       | Err s => Err (ClientError_Status (FromTransport s))
       | Ok r => map_err (λ s, ClientError_Status (FromHandler s)) r
       end).

(** [txn_get], and [get] with version 0: the handler's node state is threaded. *)
Definition KvClient_txn_get (ns : NodeState) (key : bytes) (start_ts : Z) :
    prog (result ClientError (option bytes) * option NodeState) :=
  let* r := unary (KvService_get ns key start_ts) in
  Ret (match r with
       | Err s => (Err (ClientError_Status (FromTransport s)), None)
       | Ok (Err s, ns) => (Err (ClientError_Status (FromHandler s)), Some ns)
       | Ok (Ok res, ns) =>
           (Ok (if gr_found res then Some (gr_value res) else None), Some ns)
       end).

Definition KvClient_get (ns : NodeState) (key : bytes) :
    prog (result ClientError (option bytes) * option NodeState) :=
  KvClient_txn_get ns key 0.

Definition KvClient_scan (ns : NodeState) (start_key end_key : bytes) (limit : Z) :
    prog (result ClientError (list (bytes * bytes)) * option NodeState) :=
  let* r := unary (KvService_scan ns start_key end_key limit 0) in
  Ret (match r with
       | Err s => (Err (ClientError_Status (FromTransport s)), None)
       | Ok (r, ns) => (map_err (λ s, ClientError_Status (FromHandler s)) r, Some ns)
       end).

Definition KvClient_txn_prewrite (start_ts : Z) (mutations : list client_mutation)
    (primary_key : bytes) (lock_ttl : Z) : prog (result ClientError unit) :=
  call (TxnService_prewrite start_ts (proto_of_mutation <$> mutations) primary_key lock_ttl).

Definition KvClient_txn_commit (start_ts commit_ts : Z) (keys : list bytes) :
    prog (result ClientError unit) :=
  call (TxnService_commit start_ts commit_ts keys).

Definition KvClient_batch_prewrite (start_ts : Z) (mutations : list client_mutation)
    (primary_key : bytes) (lock_ttl : Z) : prog (result ClientError unit) :=
  call (KvService_batch_prewrite start_ts (proto_of_mutation <$> mutations) primary_key lock_ttl).

Definition KvClient_batch_commit (start_ts commit_ts : Z) (keys : list bytes) :
    prog (result ClientError unit) :=
  call (KvService_batch_commit start_ts commit_ts keys).

Definition KvClient_txn_rollback (start_ts : Z) (keys : list bytes) :
    prog (result ClientError unit) :=
  call (TxnService_rollback start_ts keys).

Definition KvClient_txn_heartbeat (start_ts : Z) (primary_key : bytes) (ttl : Z) :
    prog (result ClientError bool) :=
  let* r := unary (TxnService_heart_beat primary_key start_ts ttl) in
  Ret (match r with
       | Err s => Err (ClientError_Status (FromTransport s))
       | Ok (success, _, _) => Ok success
       end).

Definition KvClient_ask_split (ns : NodeState) (region_id : Z) (split_key : bytes) :
    prog (result ClientError AskSplitResponse * option NodeState) :=
  let* r := unary (KvService_ask_split ns region_id split_key) in
  Ret (match r with
       | Err s => (Err (ClientError_Status (FromTransport s)), None)
       | Ok (res, ns) => (Ok res, Some ns)
       end).

(** ** Lemmas *)

(** A mutation crosses the wire unchanged. *)
Lemma mutation_of_proto_of m :
  mutation_of_proto (proto_of_mutation m) =
  match m.2 with Some v => Mutation_Put m.1 v | None => Mutation_Delete m.1 end.
Proof. by destruct m as [k [v|]]. Qed.

Lemma run_call (HD : delivers CH) {W} `{!Fjall FE W} {A} (m : prog (result Status A)) (w : W) :
  run (call m) w = let '(r, w') := run m w in (map_err (λ s, ClientError_Status (FromHandler s)) r, w').
Proof. unfold call. rewrite run_bind, HD. by destruct (run m w). Qed.

End Client.

(** ** A working channel *)
#[export] Instance direct_channel : Channel Mem_err := {|
  InvalidUri := Empty_set;
  TransportError := Empty_set;
  TransportStatus := Empty_set;
  Endpoint := bytes;
  from_shared e := Ok e;
  connect _ := Ret (Ok tt);
  unary A m := prog_bind m (λ a, Ret (Ok a))
|}.

Lemma direct_delivers : delivers direct_channel.
Proof. intros W FJ A m w. cbn [unary direct_channel]. rewrite run_bind. by destruct (run m w). Qed.

Lemma direct_reachable endpoint : reachable direct_channel endpoint.
Proof. by exists endpoint. Qed.
