(* ===== verification/Cli.v ===== *)
(** * The command line tool: [crates/client/src/bin/kv-cli.rs]

    [main] once the arguments are parsed: it connects, runs one command through
    the client, and prints.  What it prints is the list of its lines, as bytes;
    [from_utf8_lossy] is [Utf8]'s.  The theorem: a [put] followed by a [get] in a
    later millisecond prints the value; the execution at the end shows what
    happens within the same millisecond. *)

From stdpp Require Import base list gmap sorting strings.
From Stdlib Require Import ZArith Lia Strings.Byte.
From S2P Require Import Prelude Codec Engine Mvcc View Hlc Resolver Coordinator CoordSpec Txn TxnThm EngineOps Router RaftStore RaftNode Node Utf8 Client.

(** ** Arguments *)
Inductive Commands : Type :=
| Commands_Get (key : bytes)
| Commands_Put (key value : bytes)
| Commands_Scan (start_key end_key : bytes) (limit : Z).

Record Cli : Type := mkCli { cli_endpoint : bytes; cli_command : Commands }.

(** The values of the options that were not given. *)
Definition default_endpoint : bytes := of_str "http://127.0.0.1:50051".
Definition default_limit : Z := 100.

Section Cli.
Context {FE : FjallErr} {PB : RaftPb} {RN : RawNodeOps PB} {CH : Channel FE}.

(** What [main] boxes as its error: a client's, or that of a clock before the
    epoch. *)
Inductive CliError : Type :=
| CliError_Client (e : ClientError)
| CliError_SystemTime.

(** ** Commands *)
Definition cli_get (ns : NodeState) (key : bytes) :
    prog (result CliError (list bytes) * option NodeState) :=
  let* p := KvClient_get ns key in
  let '(r, ns) := p in
  Ret (match r with
       | Err e => Err (CliError_Client e)
       | Ok (Some val) => Ok [from_utf8_lossy val]
       | Ok None => Ok [of_str "(nil)"]
       end, ns).

Definition cli_put (key value : bytes) : prog (result CliError (list bytes)) :=
  PTime (λ d,
    match d with
    | None => Ret (Err CliError_SystemTime)
    | Some ms =>
        let physical_now := u64_wrap ms in
        let start_ts := u64_wrap (Z.shiftl physical_now 16) in
        let? _ := KvClient_txn_prewrite start_ts [(key, Some value)] key 3000
          via CliError_Client in
        let commit_ts := u64_add start_ts 1 in
        let? _ := KvClient_txn_commit start_ts commit_ts [key] via CliError_Client in
        Ret (Ok [of_str "OK"])
    end).

Definition scan_line (kv : bytes * bytes) : bytes :=
  from_utf8_lossy kv.1 ++ of_str ": " ++ from_utf8_lossy kv.2.

Definition cli_scan (ns : NodeState) (start_key end_key : bytes) (limit : Z) :
    prog (result CliError (list bytes) * option NodeState) :=
  let* p := KvClient_scan ns start_key end_key limit in
  let '(r, ns) := p in
  Ret (match r with
       | Err e => Err (CliError_Client e)
       | Ok results => Ok (scan_line <$> results)
       end, ns).

(** [main] against a node in state [ns]; [None] when the reply of a handler that
    may have changed that state was lost. *)
Definition cli_main (ns : NodeState) (cli : Cli) :
    prog (result CliError (list bytes) * option NodeState) :=
  let* c := KvClient_connect (cli_endpoint cli) in
  match c with
  | Err e => Ret (Err (CliError_Client e), Some ns)
  | Ok _ =>
      match cli_command cli with
      | Commands_Get key => cli_get ns key
      | Commands_Put key value => let* r := cli_put key value in Ret (r, Some ns)
      | Commands_Scan start_key end_key limit => cli_scan ns start_key end_key limit
      end
  end.

(** ** Lemmas *)
Lemma run_connect {W} `{!Fjall FE W} endpoint (w : W) :
  reachable CH endpoint → run (KvClient_connect endpoint) w = (Ok tt, w).
Proof.
  intros (ep & He & Hc). unfold KvClient_connect. rewrite He. unfold prog_try.
  by rewrite run_bind, Hc.
Qed.

(** The timestamp of a [put], and its commit timestamp, which does not overflow:
    the low sixteen bits of the former are zero. *)
Definition put_ts (ms : Z) : Z := u64_wrap (Z.shiftl (u64_wrap ms) 16).

Lemma put_ts_range ms : u64 (put_ts ms) ∧ put_ts ms + 1 < 2 ^ 64.
Proof.
  pose proof (u64_wrap_range (Z.shiftl (u64_wrap ms) 16)) as Hr. split; [done|].
  fold (put_ts ms) in Hr. unfold u64 in Hr. assert (put_ts ms mod 2 = 0) as Hev; [|].
  - unfold put_ts, u64_wrap at 1. rewrite Z.shiftl_mul_pow2 by lia.
    change (2 ^ 64) with (2 * 2 ^ 63). change (2 ^ 16) with (2 * 2 ^ 15).
    rewrite Z.mul_assoc, (Z.mul_comm _ 2), <-Z.mul_assoc, Z.mul_mod_distr_l by lia.
    rewrite Z.mul_comm. apply Z.mod_mul. lia.
  - pose proof (Z.div_mod (put_ts ms) 2 ltac:(lia)). lia.
Qed.

Lemma put_ts_small ms : 0 ≤ ms < 2 ^ 48 → put_ts ms = ms * 2 ^ 16.
Proof.
  intros. unfold put_ts. rewrite (u64_wrap_id ms) by (unfold u64; lia).
  rewrite Z.shiftl_mul_pow2 by lia. apply u64_wrap_id. unfold u64. lia.
Qed.

Lemma put_commit_ts ms : u64_add (put_ts ms) 1 = put_ts ms + 1.
Proof. pose proof (put_ts_range ms). apply u64_wrap_id. unfold u64 in *. lia. Qed.

(** The timestamp a clock issues is at least the millisecond it read. *)
Lemma hlc_now_at_least pn i ts i' :
  hlc_now_at pn i = (ts, i') → hlc_ok i' → u64 ts ∧ pn * 2 ^ 16 ≤ ts.
Proof.
  unfold hlc_now_at. intros [= <- <-] Hok. fold (hlc_ts
    (if decide (latest_physical i < pn) then mkHlcInner pn 0
     else mkHlcInner (latest_physical i) (u32_add (logical i) 1))).
  rewrite hlc_ts_ok by done. unfold hlc_ok in Hok. unfold u64.
  case_decide; cbn [latest_physical logical] in *; lia.
Qed.

(** What the put command does over a working channel: it prints [OK], and the
    value is read from then on at any timestamp above the command's. *)
Lemma run_cli_put (HD : delivers CH) T {W} `{!Fjall FE W} (view : W → Store)
    (L : FjallLaws False T W view) K (HK : prefix_free K) key value ms (w w0 : W) :
  inv K (view w) → K key → u32 (Z.of_nat (length key)) → fj_time w = (Some ms, w0) →
  lock_at (view w) key = None → no_conflict (view w) key (put_ts ms) →
  ∃ w2, run (cli_put key value) w = (Ok [of_str "OK"], w2) ∧
    ∀ version w3, u64 version → put_ts ms < version → view w3 = view w2 →
      (run (Coordinator_get key version) w3).1 = Ok (Some value).
Proof.
  intros Hi Hk Hlen Ht Hlock Hnc. destruct (put_ts_range ms) as [Hst Hst1].
  assert (view w0 = view w) as Ev.
  { pose proof (fj_time_law w) as Hl. rewrite Ht in Hl. by destruct Hl. }
  destruct (run_transaction T view L K HK (put_ts ms) (put_ts ms + 1) [Mutation_Put key value] key
    3000 w0) as (w1 & w2 & Hr1 & Hr2 & Hget).
  - by rewrite Ev.
  - unfold prewrite_args. split_and!; try done. by repeat constructor.
  - unfold u64 in *. lia.
  - lia.
  - apply NoDup_singleton.
  - intros m ->%list_elem_of_singleton. by rewrite Ev.
  - exists w2. split.
    + unfold cli_put. cbn [run]. rewrite Ht. fold (put_ts ms). unfold prog_try. rewrite run_bind.
      unfold KvClient_txn_prewrite. rewrite run_call by done. unfold TxnService_prewrite.
      rewrite run_bind. cbn [fmap list_fmap].
      change (mutation_of_proto (proto_of_mutation (key, Some value))) with (Mutation_Put key value).
      rewrite Hr1. cbn [run map_err]. rewrite run_bind. unfold KvClient_txn_commit.
      rewrite run_call by done. unfold TxnService_commit. rewrite run_bind, put_commit_ts.
      change [key] with (Mutation_key <$> [Mutation_Put key value]). by rewrite Hr2.
    + intros version w3 Hv Hlt Ev3.
      apply (Hget (Mutation_Put key value) version w3 ltac:(by left)); [done|lia|done].
Qed.

(** What the get command prints, given what the coordinator reads. *)
Lemma run_cli_get (HD : delivers CH) {W} `{!Fjall FE W} ns key (w w1 : W) t ts h v :
  fj_time w = (t, w1) → hlc_now_at (millis_of t) (ns_hlc ns) = (ts, h) →
  (run (Coordinator_get key ts) w1).1 = Ok v →
  (run (cli_get ns key) w).1 =
    (Ok [match v with Some val => from_utf8_lossy val | None => of_str "(nil)" end],
     Some (set_hlc ns h)).
Proof.
  intros Ht Eh Hget. unfold cli_get, KvClient_get, KvClient_txn_get. rewrite run_bind, run_bind, HD.
  rewrite (run_kv_get_now ns key w t w1 ts h Ht Eh).
  destruct (run (Coordinator_get key ts) w1) as [r w2]. cbn [fst] in Hget. rewrite Hget.
  by destruct v.
Qed.

(** ** Theorems *)

(** C21: the tool prints what it wrote.  Over a working channel to a node with a
    reliable engine, when the key carries no lock and nothing was written to it
    at or after the millisecond of the command, [kv-cli put] prints [OK]; and
    from then on, as long as nobody changes the store, a [kv-cli get] of the key
    in a later millisecond prints the value, byte for byte, whatever the clock
    of the node was (as long as it fits its encoding). *)
Theorem cli_put_then_get (HD : delivers CH) T {W} `{!Fjall FE W} (view : W → Store)
    (L : FjallLaws False T W view) K (HK : prefix_free K) endpoint ns key value ms (w w0 : W) :
  reachable CH endpoint → inv K (view w) → K key → u32 (Z.of_nat (length key)) → is_string value →
  fj_time w = (Some ms, w0) →
  lock_at (view w) key = None → no_conflict (view w) key (put_ts ms) →
  ∃ w2, run (cli_main ns (mkCli endpoint (Commands_Put key value))) w =
      ((Ok [of_str "OK"], Some ns), w2) ∧
    ∀ ns' w3 w4 ms' ts h, view w3 = view w2 → fj_time w3 = (Some ms', w4) → 0 ≤ ms → ms < ms' < 2 ^ 48 →
      hlc_now_at ms' (ns_hlc ns') = (ts, h) → hlc_ok h →
      (run (cli_main ns' (mkCli endpoint (Commands_Get key))) w3).1 =
        (Ok [value], Some (set_hlc ns' h)).
Proof.
  intros Hep Hi Hk Hlen Hstr Ht Hlock Hnc.
  destruct (run_cli_put HD T view L K HK key value ms w w0 Hi Hk Hlen Ht Hlock Hnc) as (w2 & Hr & Hget).
  exists w2. split.
  - unfold cli_main. rewrite run_bind, run_connect by done. cbn [cli_command].
    by rewrite run_bind, Hr.
  - intros ns' w3 w4 ms' ts h Ev Ht' Hms0 Hms Eh Hok.
    destruct (hlc_now_at_least _ _ _ _ Eh Hok) as [Hts Hge].
    assert (millis_of (Some ms') = ms') as Em by (cbn; apply u64_wrap_id; unfold u64; lia).
    unfold cli_main. rewrite run_bind, run_connect by done. cbn [cli_command].
    rewrite (run_cli_get HD ns' key w3 w4 (Some ms') ts h (Some value)); [|done|by rewrite Em|].
    + by rewrite lossy_string.
    + apply Hget; [done|rewrite put_ts_small by lia; lia|].
      pose proof (fj_time_law w3) as Hl. rewrite Ht' in Hl. destruct Hl as [Hl _]. by rewrite Hl.
Qed.
End Cli.

(** ** Concrete runs

    An engine in memory whose clock advances by a millisecond at every reading,
    starting at the one given. *)
Definition Ticking : Fjall Mem_err (Store * Z) := {|
  fj_get p k w := (Ok (part p w.1 !! k), w);
  fj_range p from w := (Ok <$> range_from (part p w.1) from, w);
  fj_commit b w := (Ok tt, (apply_batch b w.1, w.2));
  fj_time w := (Some w.2, (w.1, w.2 + 1))
|}.

Lemma Ticking_laws F : @FjallLaws Mem_err F (λ _, True) (Store * Z) Ticking fst.
Proof. split; simpl; intros; auto using yields_all. Qed.

Definition ex_ns (h : HlcInner) : @NodeState ex_pb ex_raw :=
  mkNodeState 1 h (RegionRouter_insert_region RegionRouter_new (Region_new 1 [] [] [1])) ∅ 2.

Definition ex_cli (h : HlcInner) (c : Commands) :
    prog (result (@CliError _ direct_channel) (list bytes) * option (@NodeState ex_pb ex_raw)) :=
  cli_main (ex_ns h) (mkCli default_endpoint c).

Definition ex_value : bytes := encode_utf8 0x3BB ++ encode_utf8 0x1F600.
Definition ex_put : Commands := Commands_Put key_a ex_value.

Lemma cli_put_then_get_witness :
  ∃ w2, @run _ _ Ticking _ (ex_cli (mkHlcInner 5 0) ex_put) (empty_store, 1) =
      ((Ok [of_str "OK"], Some (ex_ns (mkHlcInner 5 0))), w2) ∧
    (@run _ _ Ticking _ (ex_cli (mkHlcInner 5 0) (Commands_Get key_a)) w2).1 =
      (Ok [ex_value], Some (ex_ns (mkHlcInner 5 1))).
Proof.
  destruct (cli_put_then_get (RN := ex_raw) direct_delivers (λ _, True) fst (Ticking_laws False) one_byte
    (prefix_free_length 1) default_endpoint (ex_ns (mkHlcInner 5 0)) key_a ex_value 1
    (empty_store, 1) (empty_store, 2)) as (w2 & Hr & Hget).
  - apply direct_reachable.
  - apply inv_empty.
  - done.
  - done.
  - exists [0x3BB; 0x1F600]. split; [|done]. repeat constructor; unfold scalar; lia.
  - done.
  - done.
  - done.
  - exists w2. split; [exact Hr|]. destruct w2 as [s c].
    assert (c = 2) as ->.
    { apply (f_equal (λ p, p.2.2)) in Hr. vm_compute in Hr. by rewrite <-Hr. }
    apply (Hget (ex_ns (mkHlcInner 5 0)) (s, 2) (s, 3) 2 (5 * 2 ^ 16 + 1)); try done; lia.
Defined.

(** Within one millisecond the tool may miss its own write: the put commits at
    its millisecond's timestamp plus one, above the first timestamp the node's
    clock issues in that millisecond.  Here the clock stays at 1. *)
Example cli_get_misses_put_in_same_millisecond :
  let '(put, w1) := @run _ _ (Mem 1) _ (ex_cli (mkHlcInner 0 0) ex_put) empty_store in
  let '(get, w2) := @run _ _ (Mem 1) _ (ex_cli (mkHlcInner 0 0) (Commands_Get key_a)) w1 in
  put.1 = Ok [of_str "OK"] ∧ get.1 = Ok [of_str "(nil)"].
Proof. by vm_compute. Qed.

(** A scan prints a line for each pair; ill-formed text is replaced. *)
Example cli_scan_prints :
  let put v := @run _ _ (Mem 1) _ (ex_cli (mkHlcInner 0 0) (Commands_Put key_a v)) empty_store in
  let scan := ex_cli (mkHlcInner 1 0) (Commands_Scan [] [] default_limit) in
  (@run _ _ (Mem 1) _ scan (put (of_str "1")).2).1.1 = Ok [of_str "a: 1"] ∧
  (@run _ _ (Mem 1) _ scan (put [z2b 0xFF]).2).1.1 = Ok [of_str "a: " ++ replacement].
Proof. by vm_compute. Qed.
