(* ===== verification/Collector.v ===== *)
(** * The batch collector: [BatchCollector] of [crates/client/src/client.rs]

    A collector owns two tasks, one for prewrites and one for commits, each fed
    by a bounded channel.  [submit_prewrite] and [submit_commit] put an item with
    a reply channel into the channel and wait; a task gathers items until it has
    a batch or its timer elapses, then forwards them one by one and answers each.
    Both are instances of one transition system here: the values of the collector
    that are alive, the submissions under way, the channel, the task, and the
    world the calls run in.

    The theorems: whatever the interleaving, with submissions cancelled at any
    time, items are forwarded at most once, in the order they were sent, and one
    that never is was abandoned: its submitter had given up before the task
    returned and dropped what it had gathered; the channel and the batches stay
    within their bounds; a submission that is not cancelled is never lost and
    never sees [ChannelClosed], and what it gets is the reply to its own request;
    and the task answers everything that was sent within a bounded number of its
    own steps, not counting timers that elapse with nothing gathered. *)

From stdpp Require Import base list gmap sorting strings relations.
From Stdlib Require Import ZArith Lia Strings.Byte.
From S2P Require Import Prelude Codec Engine Mvcc View Hlc Resolver Coordinator CoordSpec Txn TxnThm Node Client RaftStore RaftNode.

Section Collector.
Context {FE : FjallErr} {W : Type} {FJ : Fjall FE W}.
(** The items of a channel, the replies to them, and how one is forwarded. *)
Context {I R : Type} (send : I → prog R) (batch_size : nat).

(** The capacity of [mpsc::channel]. *)
Definition capacity : nat := 1024.

(** Where the task is in its loop. *)
Inductive Task : Type :=
| Collecting (items : list (nat * I))
| Flushing (items : list (nat * I))
| Returned.

(** What a submission came to. *)
Inductive Outcome : Type :=
| Reply (r : R)
| ChannelClosed.

(** Submissions are numbered; [col_sent] and [col_forwarded] record the order in
    which items entered the channel and were forwarded. *)
Record Collector : Type := mkCollector {
  col_handles : nat;
  col_sending : gmap nat I;
  col_channel : list (nat * I);
  col_task : Task;
  col_awaiting : gset nat;
  col_outcomes : gmap nat Outcome;
  col_next : nat;
  col_world : W;
  col_sent : list (nat * I);
  col_forwarded : list (nat * I * R)
}.

(** [BatchCollector::new]: one value of it, empty channel, the task at the start
    of its loop. *)
Definition Collector_new (w : W) : Collector :=
  mkCollector 1 ∅ [] (Collecting []) ∅ ∅ 0 w [] [].

Inductive CollectorEvent : Type :=
| Clone                    (* [BatchCollector::clone] *)
| Drop                     (* a value of the collector goes out of scope *)
| Submit (it : I)          (* [submit_*] is called *)
| Send (id : nat)          (* its [send(..).await] completes *)
| Cancel (id : nat)        (* its future is dropped *)
| Recv                     (* the task's [recv] returns an item *)
| RecvClosed               (* the task's [recv] returns [None] *)
| Timeout                  (* the task's timer elapses *)
| Forward                  (* the next item of a batch is forwarded and answered *)
| FlushDone                (* the batch is done, the task starts over *)
| Wake (id : nat)          (* a submission learns that its reply channel is gone *)
| Elsewhere (w : W).       (* other clients change the world *)

Definition with_task (c : Collector) (t : Task) : Collector :=
  mkCollector (col_handles c) (col_sending c) (col_channel c) t (col_awaiting c) (col_outcomes c)
    (col_next c) (col_world c) (col_sent c) (col_forwarded c).

(** The submission [id] ends with [o], if its future is still there. *)
Definition settle (id : nat) (o : Outcome) (c : Collector) : Collector :=
  if decide (id ∈ col_awaiting c) then
    mkCollector (col_handles c) (col_sending c) (col_channel c) (col_task c)
      (col_awaiting c ∖ {[id]}) (<[id := o]> (col_outcomes c)) (col_next c) (col_world c)
      (col_sent c) (col_forwarded c)
  else c.

(** The items the task and the channel hold. *)
Definition task_items (t : Task) : list (nat * I) :=
  match t with Collecting items | Flushing items => items | Returned => [] end.
Definition pending (c : Collector) : list (nat * I) :=
  task_items (col_task c) ++ col_channel c.

(** One event, when it is possible. *)
Definition collector_step (ev : CollectorEvent) (c : Collector) : option Collector :=
  match ev with
  | Clone =>
      if decide (0 < col_handles c)%nat then
        Some (mkCollector (S (col_handles c)) (col_sending c) (col_channel c) (col_task c)
          (col_awaiting c) (col_outcomes c) (col_next c) (col_world c) (col_sent c) (col_forwarded c))
      else None
  | Drop =>
      (* a submission borrows the value it was called on *)
      if decide (1 < col_handles c ∨
                 (col_handles c = 1 ∧ col_sending c = ∅ ∧ col_awaiting c = ∅))%nat then
        Some (mkCollector (pred (col_handles c)) (col_sending c) (col_channel c) (col_task c)
          (col_awaiting c) (col_outcomes c) (col_next c) (col_world c) (col_sent c) (col_forwarded c))
      else None
  | Submit it =>
      if decide (0 < col_handles c)%nat then
        Some (mkCollector (col_handles c) (<[col_next c := it]> (col_sending c)) (col_channel c)
          (col_task c) (col_awaiting c) (col_outcomes c) (S (col_next c)) (col_world c)
          (col_sent c) (col_forwarded c))
      else None
  | Send id =>
      match col_sending c !! id with
      | None => None
      | Some it =>
          match col_task c with
          | Returned =>
              Some (mkCollector (col_handles c) (delete id (col_sending c)) (col_channel c)
                (col_task c) (col_awaiting c) (<[id := ChannelClosed]> (col_outcomes c))
                (col_next c) (col_world c) (col_sent c) (col_forwarded c))
          | _ =>
              if decide (length (col_channel c) < capacity)%nat then
                Some (mkCollector (col_handles c) (delete id (col_sending c))
                  (col_channel c ++ [(id, it)]) (col_task c) ({[id]} ∪ col_awaiting c)
                  (col_outcomes c) (col_next c) (col_world c) (col_sent c ++ [(id, it)])
                  (col_forwarded c))
              else None
          end
      end
  | Cancel id =>
      Some (mkCollector (col_handles c) (delete id (col_sending c)) (col_channel c) (col_task c)
        (col_awaiting c ∖ {[id]}) (col_outcomes c) (col_next c) (col_world c) (col_sent c)
        (col_forwarded c))
  | Recv =>
      match col_task c, col_channel c with
      | Collecting items, x :: rest =>
          let items := items ++ [x] in
          Some (mkCollector (col_handles c) (col_sending c) rest
            (if decide (batch_size ≤ length items)%nat then Flushing items else Collecting items)
            (col_awaiting c) (col_outcomes c) (col_next c) (col_world c) (col_sent c)
            (col_forwarded c))
      | _, _ => None
      end
  | RecvClosed =>
      match col_task c, col_channel c, col_handles c with
      | Collecting _, [], O => Some (with_task c Returned)
      | _, _, _ => None
      end
  | Timeout =>
      match col_task c with
      | Collecting [] => Some c
      | Collecting items => Some (with_task c (Flushing items))
      | _ => None
      end
  | Forward =>
      match col_task c with
      | Flushing ((id, it) :: rest) =>
          let '(r, w') := run (send it) (col_world c) in
          Some (settle id (Reply r)
            (mkCollector (col_handles c) (col_sending c) (col_channel c) (Flushing rest)
              (col_awaiting c) (col_outcomes c) (col_next c) w' (col_sent c)
              (col_forwarded c ++ [(id, it, r)])))
      | _ => None
      end
  | FlushDone =>
      match col_task c with
      | Flushing [] => Some (with_task c (Collecting []))
      | _ => None
      end
  | Wake id =>
      match col_task c with
      | Returned => Some (settle id ChannelClosed c)
      | _ => None
      end
  | Elsewhere w =>
      Some (mkCollector (col_handles c) (col_sending c) (col_channel c) (col_task c)
        (col_awaiting c) (col_outcomes c) (col_next c) w (col_sent c) (col_forwarded c))
  end.

Definition steps_to (c c' : Collector) : Prop := ∃ ev, collector_step ev c = Some c'.

(** ** Invariant *)
Definition batch_bound (t : Task) : Prop :=
  match t with
  | Collecting items => (length items < max batch_size 1)%nat
  | Flushing items => (length items ≤ max batch_size 1)%nat
  | Returned => True
  end.

Definition forwarded_items (c : Collector) : list (nat * I) := (col_forwarded c).*1.

Record col_ok (c : Collector) : Prop := {
  co_borrow : col_sending c ≠ ∅ ∨ col_awaiting c ≠ ∅ → (0 < col_handles c)%nat;
  co_returned : col_task c = Returned → col_handles c = 0%nat ∧ col_channel c = [];
  co_capacity : (length (col_channel c) ≤ capacity)%nat;
  co_batch : batch_bound (col_task c);
  co_prefix : forwarded_items c `prefix_of` col_sent c;
  co_fifo : col_task c ≠ Returned → col_sent c = forwarded_items c ++ pending c;
  co_nodup : NoDup (col_sent c).*1;
  co_sent id : id ∈ (col_sent c).*1 → (id < col_next c)%nat ∧ col_sending c !! id = None;
  co_sending id it : col_sending c !! id = Some it → (id < col_next c)%nat;
  co_await id : id ∈ col_awaiting c → id ∈ (pending c).*1;
  co_outcome id o : col_outcomes c !! id = Some o →
    ∃ it r, o = Reply r ∧ (id, it, r) ∈ col_forwarded c;
  co_reply id it r : (id, it, r) ∈ col_forwarded c → ∃ w, (run (send it) w).1 = r
}.

Lemma col_ok_new w : col_ok (Collector_new w).
Proof.
  split; cbn -[Nat.max capacity]; try done; try set_solver.
  - lia.
  - lia.
  - constructor.
Qed.

(** Events that leave the queue alone. *)
Lemma col_ok_queue c c' :
  col_ok c →
  col_channel c' = col_channel c → col_task c' = col_task c → col_sent c' = col_sent c →
  col_forwarded c' = col_forwarded c →
  (col_sending c' ≠ ∅ ∨ col_awaiting c' ≠ ∅ → (0 < col_handles c')%nat) →
  (col_task c = Returned → col_handles c' = 0%nat) →
  (∀ id, id ∈ (col_sent c).*1 → (id < col_next c')%nat ∧ col_sending c' !! id = None) →
  (∀ id it, col_sending c' !! id = Some it → (id < col_next c')%nat) →
  (∀ id, id ∈ col_awaiting c' → id ∈ col_awaiting c) →
  (∀ id o, col_outcomes c' !! id = Some o → col_outcomes c !! id = Some o) →
  col_ok c'.
Proof.
  intros [H1 H2 H3 H4 H5 H6 H7 H8 H9 H10 H11 H12] Ec Et Es Ef Hb Hr Hs Hn Ha Ho.
  unfold forwarded_items, pending in *.
  split; unfold forwarded_items, pending; rewrite ?Ec, ?Et, ?Es, ?Ef; auto.
  - intros E. split; [by apply Hr|by apply H2].
Qed.

Lemma settle_fields id o c :
  col_handles (settle id o c) = col_handles c ∧ col_sending (settle id o c) = col_sending c ∧
  col_channel (settle id o c) = col_channel c ∧ col_task (settle id o c) = col_task c ∧
  col_next (settle id o c) = col_next c ∧ col_sent (settle id o c) = col_sent c ∧
  col_forwarded (settle id o c) = col_forwarded c ∧
  col_awaiting (settle id o c) = col_awaiting c ∖ {[id]} ∧
  (∀ id' o', col_outcomes (settle id o c) !! id' = Some o' →
     (id' = id ∧ o' = o ∧ id ∈ col_awaiting c) ∨ col_outcomes c !! id' = Some o').
Proof.
  unfold settle. case_decide as D; cbn; split_and!; try done.
  - intros id' o'. destruct (decide (id' = id)) as [->|Hne].
    + rewrite lookup_insert_eq. intros [= <-]. auto.
    + rewrite lookup_insert_ne by done. auto.
  - set_solver.
  - auto.
Qed.

Lemma elem_of_nonempty_map (m : gmap nat I) k x : m !! k = Some x → m ≠ ∅.
Proof. intros Hk ->. by rewrite lookup_empty in Hk. Qed.

(** Forwarding moves the head of the pending items to the forwarded ones. *)
Lemma col_ok_forward c id it rest r w' :
  col_ok c → col_task c = Flushing ((id, it) :: rest) → run (send it) (col_world c) = (r, w') →
  col_ok (settle id (Reply r)
    (mkCollector (col_handles c) (col_sending c) (col_channel c) (Flushing rest)
      (col_awaiting c) (col_outcomes c) (col_next c) w' (col_sent c)
      (col_forwarded c ++ [(id, it, r)]))).
Proof.
  intros [H1 H2 H3 H4 H5 H6 H7 H8 H9 H10 H11 H12] Et Hrun. rewrite Et in H4.
  set (c1 := mkCollector _ _ _ _ _ _ _ _ _ _).
  destruct (settle_fields id (Reply r) c1) as (E1 & E2 & E3 & E4 & E5 & E6 & E7 & E8 & E9).
  assert (col_sent c = (forwarded_items c ++ [(id, it)]) ++ rest ++ col_channel c) as Efifo.
  { rewrite <-app_assoc. specialize (H6 ltac:(by rewrite Et)). unfold pending in H6.
    by rewrite Et in H6. }
  assert (forwarded_items (settle id (Reply r) c1) = forwarded_items c ++ [(id, it)]) as Efwd.
  { unfold forwarded_items. rewrite E7. cbn. by rewrite fmap_app. }
  assert (pending (settle id (Reply r) c1) = rest ++ col_channel c) as Epend.
  { unfold pending. by rewrite E3, E4. }
  split; rewrite ?Efwd, ?Epend, ?E1, ?E2, ?E3, ?E4, ?E5, ?E6; cbn [col_handles col_sending col_channel col_task col_next col_sent c1].
  - rewrite E8. cbn. intros Hb. apply H1. set_solver.
  - done.
  - done.
  - cbn in H4 |- *. lia.
  - rewrite Efifo. by eexists.
  - done.
  - done.
  - done.
  - done.
  - intros id'. rewrite E8. cbn. intros [Hin Hne]%elem_of_difference.
    apply H10 in Hin. unfold pending in Hin. rewrite Et in Hin. cbn in Hin.
    apply elem_of_cons in Hin as [->|Hin]; [set_solver|done].
  - intros id' o Hid. rewrite E7. cbn. destruct (E9 id' o Hid) as [(-> & -> & _)|Ho].
    + exists it, r. split; [done|]. set_solver.
    + destruct (H11 id' o Ho) as (it' & r' & -> & ?). exists it', r'. split; [done|]. set_solver.
  - intros id' it' r'. rewrite E7. cbn. rewrite elem_of_app, list_elem_of_singleton.
    intros [?|[= -> -> ->]]; [by eapply H12|]. exists (col_world c). by rewrite Hrun.
Qed.

(** A step of the task that moves items without forwarding any. *)
Lemma col_ok_task c c' :
  col_ok c → col_task c ≠ Returned → pending c' = pending c → batch_bound (col_task c') →
  col_task c' ≠ Returned → (length (col_channel c') ≤ capacity)%nat →
  col_handles c' = col_handles c → col_sending c' = col_sending c →
  col_awaiting c' = col_awaiting c → col_outcomes c' = col_outcomes c →
  col_next c' = col_next c → col_sent c' = col_sent c → col_forwarded c' = col_forwarded c →
  col_ok c'.
Proof.
  intros [H1 H2 H3 H4 H5 H6 H7 H8 H9 H10 H11 H12] Hn Ep Hb Hr Hl Eh Es Ea Eo En Est Ef.
  unfold forwarded_items in *.
  split; unfold forwarded_items; rewrite ?Ep, ?Eh, ?Es, ?Ea, ?Eo, ?En, ?Est, ?Ef; auto. by intros ?.
Qed.

Lemma col_ok_send c id it :
  col_ok c → col_sending c !! id = Some it → col_task c ≠ Returned →
  (length (col_channel c) < capacity)%nat →
  col_ok (mkCollector (col_handles c) (delete id (col_sending c)) (col_channel c ++ [(id, it)])
    (col_task c) ({[id]} ∪ col_awaiting c) (col_outcomes c) (col_next c) (col_world c)
    (col_sent c ++ [(id, it)]) (col_forwarded c)).
Proof.
  intros [H1 H2 H3 H4 H5 H6 H7 H8 H9 H10 H11 H12] Hid Hn Hlen.
  assert (id ∉ (col_sent c).*1) as Hnew by (intros Hin; apply H8 in Hin as [_ ?]; congruence).
  split; unfold forwarded_items, pending in *; cbn.
  - intros _. apply H1. left. by eapply elem_of_nonempty_map.
  - done.
  - rewrite length_app. cbn. lia.
  - done.
  - etrans; [done|]. by eexists.
  - intros _. rewrite H6 by done. by rewrite !app_assoc.
  - rewrite fmap_app. apply NoDup_app. split_and!; [done| |apply NoDup_singleton].
    intros id' Hin ->%list_elem_of_singleton. done.
  - intros id'. rewrite fmap_app, elem_of_app. cbn. rewrite list_elem_of_singleton.
    intros [Hin| ->].
    + apply H8 in Hin as [? ?]. split; [done|]. by apply lookup_delete_None; right.
    + split; [by eapply H9|apply lookup_delete_eq].
  - intros id' it' [_ ?]%lookup_delete_Some. by eapply H9.
  - intros id'. rewrite app_assoc, fmap_app, elem_of_app. cbn. rewrite list_elem_of_singleton.
    intros [->%elem_of_singleton|Hin]%elem_of_union; [by right|left]. by apply H10.
  - done.
  - done.
Qed.

(** The events of the task's loop. *)
Definition task_event (ev : CollectorEvent) : bool :=
  match ev with Recv | RecvClosed | Timeout | Forward | FlushDone => true | _ => false end.

Lemma client_step_ok ev c c' :
  task_event ev = false → collector_step ev c = Some c' → col_ok c → col_ok c'.
Proof.
  intros Hev Hst Hok. pose proof Hok as [H1 H2 H3 H4 H5 H6 H7 H8 H9 H10 H11 H12].
  destruct ev as [| |it|id|id| | | | | |id|w]; try done; cbn [collector_step] in Hst.
  - case_decide; simplify_eq. eapply col_ok_queue; try done; cbn; intros; [lia|].
    destruct H2; [done|lia].
  - case_decide as D; simplify_eq. eapply col_ok_queue; try done; cbn; intros E.
    + destruct D as [?|(_ & E1 & E2)]; [lia|]. destruct E as [[]|[]]; done.
    + destruct (H2 E) as [-> _]. done.
  - case_decide; simplify_eq. eapply col_ok_queue; try done; cbn.
    + intros E. destruct (H2 E). lia.
    + intros id Hid. destruct (H8 id Hid). split; [lia|]. rewrite lookup_insert_ne by lia. done.
    + intros id it'. rewrite lookup_insert_Some. intros [[<- _]|[_ Hid]]; [lia|]. apply H9 in Hid. lia.
  - destruct (col_sending c !! id) as [it|] eqn:Hid; [|done].
    destruct (col_task c) as [items|items|] eqn:Et.
    + case_decide; simplify_eq. rewrite <-Et. apply col_ok_send; try done. by rewrite Et.
    + case_decide; simplify_eq. rewrite <-Et. apply col_ok_send; try done. by rewrite Et.
    + exfalso. destruct (H2 eq_refl) as [E _]. rewrite E in H1.
      assert (0 < 0)%nat; [|lia]. apply H1. left. by eapply elem_of_nonempty_map.
  - simplify_eq. eapply col_ok_queue; try done; cbn.
    + intros E. apply H1. destruct E as [E|E]; [left|right]; [|set_solver].
      intros E0. apply E. by rewrite E0, delete_empty.
    + intros E. by destruct (H2 E).
    + intros id' Hid. destruct (H8 id' Hid). split; [done|]. by apply lookup_delete_None; right.
    + intros id' it [_ ?]%lookup_delete_Some. by eapply H9.
    + set_solver.
  - destruct (col_task c) eqn:Et; [done..|]. simplify_eq. destruct (H2 eq_refl) as [E Ec].
    assert (id ∉ col_awaiting c) as Hni.
    { intros Hin. assert (0 < 0)%nat; [|lia]. rewrite E in H1. apply H1. set_solver. }
    unfold settle. by rewrite decide_False.
  - simplify_eq. eapply col_ok_queue; try done; cbn. intros E. by destruct (H2 E).
Qed.

Lemma task_step_ok ev c c' :
  task_event ev = true → collector_step ev c = Some c' → col_ok c → col_ok c'.
Proof.
  intros Hev Hst Hok. pose proof Hok as [H1 H2 H3 H4 H5 H6 H7 H8 H9 H10 H11 H12].
  destruct ev; try done; cbn [collector_step] in Hst.
  - destruct (col_task c) as [items| |] eqn:Et; [|done..]. destruct (col_channel c) as [|x rest] eqn:Ec; [done|].
    simplify_eq. cbn in H3, H4. eapply col_ok_task; try done; cbn.
    + by rewrite Et.
    + unfold pending. cbn. rewrite Et, Ec. case_decide; cbn; by rewrite <-app_assoc.
    + case_decide as D; cbn; rewrite length_app in *; cbn in *; lia.
    + by case_decide.
    + lia.
  - destruct (col_task c) as [items| |] eqn:Et; [|done..].
    destruct (col_channel c) eqn:Ec; [|done]. destruct (col_handles c) eqn:Eh; [|done]. simplify_eq.
    assert (col_awaiting c = ∅) as Ea.
    { destruct (decide (col_awaiting c = ∅)) as [?|Hne]; [done|]. specialize (H1 (or_intror Hne)). lia. }
    split; unfold forwarded_items, pending in *; cbn; rewrite ?Ec, ?Ea, ?Eh; try done.
    + intros [Hs|[]]; [|done]. specialize (H1 (or_introl Hs)). lia.
  - destruct (col_task c) as [items| |] eqn:Et; [|done..].
    destruct items as [|x items]; simplify_eq; [done|].
    eapply col_ok_task; try done; cbn; [by rewrite Et| |].
    + unfold pending. cbn. by rewrite Et.
    + cbn in H4. lia.
  - destruct (col_task c) as [|items|] eqn:Et; [done| |done].
    destruct items as [|[id it] rest]; [done|].
    destruct (run (send it) (col_world c)) as [r w'] eqn:Hrun. simplify_eq. by eapply col_ok_forward.
  - destruct (col_task c) as [|items|] eqn:Et; [done| |done]. destruct items; simplify_eq.
    eapply col_ok_task; try done; cbn; [by rewrite Et| |lia].
    unfold pending. cbn. by rewrite Et.
Qed.

Lemma collector_step_ok ev c c' :
  collector_step ev c = Some c' → col_ok c → col_ok c'.
Proof.
  destruct (task_event ev) eqn:E; [by apply task_step_ok|by apply client_step_ok].
Qed.

Lemma reachable_ok w c : rtc steps_to (Collector_new w) c → col_ok c.
Proof.
  intros Hst. remember (Collector_new w) as c0 eqn:E. assert (col_ok c0) as H0 by (subst; apply col_ok_new).
  clear E. induction Hst as [|x y z [ev Hev] _ IH]; [done|]. by apply IH, (collector_step_ok ev x).
Qed.

(** Where an item that was sent is. *)
Lemma sent_item_cases c id it :
  col_ok c → (id, it) ∈ col_sent c →
  (id, it) ∈ (col_forwarded c).*1 ∨ (id, it) ∈ pending c ∨
  col_task c = Returned ∧ id ∉ col_awaiting c ∧ col_outcomes c !! id = None.
Proof.
  intros Hok Hin. destruct (col_task c) as [items|items|] eqn:Et.
  - rewrite (co_fifo _ Hok) in Hin by by rewrite Et. apply elem_of_app in Hin. naive_solver.
  - rewrite (co_fifo _ Hok) in Hin by by rewrite Et. apply elem_of_app in Hin. naive_solver.
  - destruct (co_prefix _ Hok) as [rest E]. pose proof (co_nodup _ Hok) as Hnd. rewrite E in Hin, Hnd.
    apply elem_of_app in Hin as [?|Hin]; [by left|]. right; right. split; [done|].
    rewrite fmap_app in Hnd. apply NoDup_app in Hnd as (_ & Hnd & _). split.
    + intros Hw%(co_await _ Hok). unfold pending in Hw. rewrite Et in Hw.
      destruct (co_returned _ Hok Et) as [_ Ec]. rewrite Ec in Hw. by apply elem_of_nil in Hw.
    + destruct (col_outcomes c !! id) as [o|] eqn:Eo; [|done].
      destruct (co_outcome _ Hok id o Eo) as (it' & r & _ & Hf). destruct (Hnd id).
      * unfold forwarded_items. by do 2 (apply (list_elem_of_fmap_2 fst) in Hf).
      * by apply (list_elem_of_fmap_2 fst) in Hin.
Qed.

(** ** Progress *)

(** What the task still has to do: every item is received, put in a batch and
    forwarded, and every batch is closed. *)
Definition work (c : Collector) : nat :=
  4 * length (col_channel c) +
  match col_task c with
  | Collecting items => 3 * length items
  | Flushing items => S (length items)
  | Returned => 0
  end.

(** A timer that elapses with nothing gathered: the task starts over. *)
Definition idle (ev : CollectorEvent) (c : Collector) : bool :=
  match ev, col_task c with
  | Timeout, Collecting [] => true
  | _, _ => false
  end.

(** A step of the task that is not idle. *)
Definition working_step (c c' : Collector) : Prop :=
  ∃ ev, task_event ev = true ∧ collector_step ev c = Some c' ∧ idle ev c = false.

(** [task_trace i n c c']: [n] steps of the task, idle ones included, lead from
    [c] to [c'], and [i] of them are idle. *)
Inductive task_trace : nat → nat → Collector → Collector → Prop :=
| TT_nil c : task_trace 0 0 c c
| TT_step ev i n c c1 c' :
    task_event ev = true → collector_step ev c = Some c1 → task_trace i n c1 c' →
    task_trace (if idle ev c then S i else i) (S n) c c'.

Lemma idle_step ev c c' : idle ev c = true → collector_step ev c = Some c' → c' = c.
Proof. destruct ev; try done. cbn. destruct (col_task c) as [[|]| |]; try done. by intros _ [= <-]. Qed.

Lemma working_step_work c c' :
  working_step c c' → (work c' < work c)%nat ∨ col_task c' = Returned.
Proof.
  intros (ev & Hev & Hst & Hidle). unfold work.
  destruct ev; try done; cbn [collector_step] in Hst.
  - destruct (col_task c) as [items| |]; [|done..]. destruct (col_channel c) as [|x rest]; [done|].
    simplify_eq. left. cbn. case_decide; rewrite ?length_app; cbn; lia.
  - right. destruct (col_task c), (col_channel c), (col_handles c); by simplify_eq.
  - cbn in Hidle. destruct (col_task c) as [items| |]; [|done..]. destruct items as [|x items]; [done|].
    simplify_eq. left. cbn. lia.
  - destruct (col_task c) as [|items|] eqn:Et; [done| |done]. destruct items as [|[id it] rest]; [done|].
    destruct (run (send it) (col_world c)) as [r w']. simplify_eq. left.
    match goal with |- context [settle id ?o ?x] => destruct (settle_fields id o x) as (_ & _ & E3 & E4 & _) end.
    rewrite E3, E4. cbn. lia.
  - destruct (col_task c) as [|[]|]; [done| |done|done]. simplify_eq. left. cbn. lia.
Qed.

Lemma working_step_progress c :
  col_ok c → (pending c ≠ [] ∨ ∃ items, col_task c = Flushing items) →
  ∃ c', working_step c c'.
Proof.
  intros Hok Hp. destruct (col_task c) as [items|items|] eqn:Et.
  - destruct (col_channel c) as [|x rest] eqn:Ec.
    + destruct Hp as [Hp|[? ?]]; [|done]. unfold pending in Hp. rewrite Et, Ec in Hp. cbn in Hp.
      rewrite app_nil_r in Hp. eexists. exists Timeout. cbn. rewrite Et.
      destruct items; [done|]. by split_and!.
    + eexists. exists Recv. cbn. rewrite Et, Ec. by split_and!.
  - destruct items as [|[id it] rest].
    + eexists. exists FlushDone. cbn. rewrite Et. by split_and!.
    + destruct (run (send it) (col_world c)) as [r w'] eqn:Hr.
      eexists. exists Forward. cbn. rewrite Et, Hr. by split_and!.
  - exfalso. destruct Hp as [Hp|[? ?]]; [|done]. apply Hp. unfold pending. rewrite Et.
    by destruct (co_returned _ Hok Et) as [_ ->].
Qed.

Lemma returned_no_step ev c c' :
  col_task c = Returned → task_event ev = true → collector_step ev c ≠ Some c'.
Proof. intros E Hev Hst. destruct ev; cbn in Hst; rewrite ?E in Hst; done. Qed.

Lemma task_trace_bound i n c c' : task_trace i n c c' → (n ≤ i + S (work c))%nat.
Proof.
  induction 1 as [|ev i n c c1 c' Hev Hst Htr IH]; [lia|]. destruct (idle ev c) eqn:Ei.
  - apply idle_step in Hst as ->; [lia|done].
  - destruct (working_step_work c c1) as [Hlt|Hr]; [by exists ev|lia|].
    destruct Htr as [|ev' ? ? ? ? ? Hev' Hst' _]; [lia|]. by apply returned_no_step in Hst'.
Qed.

Lemma task_trace_reachable w i n c c' :
  rtc steps_to (Collector_new w) c → task_trace i n c c' → rtc steps_to (Collector_new w) c'.
Proof.
  intros Hc Htr. revert Hc. induction Htr as [|ev i n c c1 c' _ Hst _ IH]; intros Hc; [done|].
  apply IH. eapply rtc_r; [done|by exists ev].
Qed.

(** ** Theorems *)

(** C22: the collector forwards at most once and in order.  Along any interleaving
    of submissions, cancellations, clones and drops of the collector, timers and
    other clients: the forwarded items are the first ones that were sent, in that
    order, no submission twice.  Every other item that was sent is in the task's
    batch or in the channel, in order, or was dropped when the task returned, and
    then its submitter had given up: nobody waits for it and it got no answer.
    The channel never exceeds its capacity nor a batch the batch size (one item,
    when the batch size is zero). *)
Theorem collector_forwards_in_order w c :
  rtc steps_to (Collector_new w) c →
  (col_forwarded c).*1 `prefix_of` col_sent c ∧ NoDup (col_sent c).*1 ∧
  (col_task c ≠ Returned → col_sent c = (col_forwarded c).*1 ++ pending c) ∧
  (∀ id it, (id, it) ∈ col_sent c →
     (id, it) ∈ (col_forwarded c).*1 ∨ (id, it) ∈ pending c ∨
     col_task c = Returned ∧ id ∉ col_awaiting c ∧ col_outcomes c !! id = None) ∧
  (length (col_channel c) ≤ capacity)%nat ∧
  (length (task_items (col_task c)) ≤ max batch_size 1)%nat.
Proof.
  intros Hok%reachable_ok. split_and!; try apply Hok.
  - intros id it. by apply sent_item_cases.
  - pose proof (co_batch _ Hok) as Hb. destruct (col_task c); cbn in *; lia.
Qed.

(** C23: no submission is lost.  A submission that has not been cancelled and
    waits for its reply has its item in the batch or in the channel; one that
    waits for room in the channel finds the task alive; so no submission ever
    ends with [ChannelClosed], and what one ends with is the reply to a call for
    the item it sent. *)
Theorem collector_answers_submitters w c :
  rtc steps_to (Collector_new w) c →
  (∀ id, id ∈ col_awaiting c → id ∈ (pending c).*1) ∧
  (∀ id it, col_sending c !! id = Some it → col_task c ≠ Returned) ∧
  (∀ id o, col_outcomes c !! id = Some o →
     ∃ it w', (id, it) ∈ col_sent c ∧ o = Reply (run (send it) w').1).
Proof.
  intros Hok%reachable_ok. split_and!.
  - apply Hok.
  - intros id it Hid E. destruct (co_returned _ Hok E) as [Eh _].
    assert (0 < col_handles c)%nat; [|lia]. apply (co_borrow _ Hok). left. by eapply elem_of_nonempty_map.
  - intros id o Ho. destruct (co_outcome _ Hok id o Ho) as (it & r & -> & Hin).
    destruct (co_reply _ Hok _ _ _ Hin) as [w' <-]. exists it, w'. split; [|done].
    destruct (co_prefix _ Hok) as [rest ->]. apply elem_of_app. left. unfold forwarded_items.
    by apply (list_elem_of_fmap_2 fst _ (id, it, (run (send it) w').1)).
Qed.

(** C24: the collector makes progress.  However the task is scheduled, it takes at
    most four steps for every item in the channel, three for every item of the
    batch it gathers and one for every item it is forwarding, two more at the
    end, besides the idle steps in which its timer elapses with nothing gathered.
    The number of those is not bounded, with items in the channel either, but
    they change nothing; while anything is pending the task has another step to
    take, and when it has none, every submission has been answered.  So every
    submission is answered provided the runtime does not let the timer win for
    ever. *)
Theorem collector_drains w c :
  rtc steps_to (Collector_new w) c →
  (∀ i n c', task_trace i n c c' → (n ≤ i + S (work c))%nat) ∧
  (∀ i n c', task_trace i n c c' →
     (∀ ev c'', idle ev c' = true → collector_step ev c' = Some c'' → c'' = c') ∧
     (pending c' ≠ [] → ∃ c'', working_step c' c'') ∧
     ((∀ c'', ¬ working_step c' c'') → pending c' = [] ∧ col_awaiting c' = ∅)).
Proof.
  intros Hc. split; [intros i n c'; apply task_trace_bound|]. intros i n c' Htr.
  pose proof (reachable_ok w c' (task_trace_reachable w i n c c' Hc Htr)) as Hok.
  assert (pending c' ≠ [] → ∃ c'', working_step c' c'') as Hprog.
  { intros Hp. apply working_step_progress; [done|by left]. }
  split_and!; [intros ev c''; apply idle_step|done|]. intros Hend.
  assert (pending c' = []) as Hp.
  { destruct (pending c') as [|x l]; [done|]. destruct Hprog as [c'' ?]; [done|]. by destruct (Hend c''). }
  split; [done|]. apply set_eq. intros id. split; [|set_solver].
  intros Hid%(co_await _ Hok). rewrite Hp in Hid. set_solver.
Qed.
End Collector.

(** ** The two tasks of a collector *)
Section Batch.
Context {FE : FjallErr} {PB : RaftPb} {RN : RawNodeOps PB} {CH : Channel FE}.

Record PrewriteItem : Type := mkPrewriteItem {
  pi_start_ts : Z;
  pi_mutations : list client_mutation;
  pi_primary_key : bytes;
  pi_lock_ttl : Z
}.
Record CommitItem : Type := mkCommitItem {
  ci_start_ts : Z;
  ci_commit_ts : Z;
  ci_keys : list bytes
}.

(** What the tasks do with an item. *)
Definition forward_prewrite (it : PrewriteItem) : prog (result ClientError unit) :=
  KvClient_batch_prewrite (pi_start_ts it) (pi_mutations it) (pi_primary_key it) (pi_lock_ttl it).
Definition forward_commit (it : CommitItem) : prog (result ClientError unit) :=
  KvClient_batch_commit (ci_start_ts it) (ci_commit_ts it) (ci_keys it).

(** [submit_prewrite] and [submit_commit]: the events of a submission that runs
    to its end, and how its outcome reads to the caller. *)
Definition submit_prewrite {W} (start_ts : Z) (mutations : list client_mutation)
    (primary_key : bytes) (lock_ttl : Z) : @CollectorEvent W PrewriteItem :=
  Submit (mkPrewriteItem start_ts mutations primary_key lock_ttl).
Definition submit_commit {W} (start_ts commit_ts : Z) (keys : list bytes) :
    @CollectorEvent W CommitItem :=
  Submit (mkCommitItem start_ts commit_ts keys).
Definition submit_result {A} (o : @Outcome (result ClientError A)) : result ClientError A :=
  match o with Reply r => r | ChannelClosed => Err ClientError_ChannelClosed end.

(** A collector has one value of the system for each of its channels.  They run
    side by side in one world; cloning and dropping concern both. *)
Record BatchCollector {W : Type} : Type := mkBatchCollector {
  bc_prewrites : @Collector W PrewriteItem (result ClientError unit);
  bc_commits : @Collector W CommitItem (result ClientError unit)
}.

Inductive BatchEvent {W : Type} : Type :=
| BatchClone
| BatchDrop
| OnPrewrites (ev : @CollectorEvent W PrewriteItem)
| OnCommits (ev : @CollectorEvent W CommitItem).

Definition BatchCollector_new {W} (w : W) : BatchCollector :=
  mkBatchCollector _ (Collector_new w) (Collector_new w).

Definition is_handle_event {W I} (ev : @CollectorEvent W I) : bool :=
  match ev with Clone | Drop => true | _ => false end.

Definition batch_step {W} `{!Fjall FE W} (batch_size : nat) (ev : BatchEvent) (bc : BatchCollector) :
    option BatchCollector :=
  let step_pw := collector_step forward_prewrite batch_size in
  let step_cm := collector_step forward_commit batch_size in
  match ev with
  | BatchClone =>
      pw ← step_pw Clone (bc_prewrites bc); cm ← step_cm Clone (bc_commits bc);
      Some (mkBatchCollector _ pw cm)
  | BatchDrop =>
      pw ← step_pw Drop (bc_prewrites bc); cm ← step_cm Drop (bc_commits bc);
      Some (mkBatchCollector _ pw cm)
  | OnPrewrites ev =>
      if is_handle_event ev then None else
      pw ← step_pw ev (bc_prewrites bc); cm ← step_cm (Elsewhere (col_world pw)) (bc_commits bc);
      Some (mkBatchCollector _ pw cm)
  | OnCommits ev =>
      if is_handle_event ev then None else
      cm ← step_cm ev (bc_commits bc); pw ← step_pw (Elsewhere (col_world cm)) (bc_prewrites bc);
      Some (mkBatchCollector _ pw cm)
  end.

(** Each part of a collector is one of the systems above, so that the theorems
    hold of both. *)
Lemma batch_collector_parts {W} `{!Fjall FE W} bs (w : W) bc :
  rtc (λ x y, ∃ ev, batch_step bs ev x = Some y) (BatchCollector_new w) bc →
  rtc (steps_to forward_prewrite bs) (Collector_new w) (bc_prewrites bc) ∧
  rtc (steps_to forward_commit bs) (Collector_new w) (bc_commits bc).
Proof.
  revert bc. apply rtc_ind_r; [done|]. intros bc bc' _ [ev Hev] [IH1 IH2].
  assert (∃ e1 e2, collector_step forward_prewrite bs e1 (bc_prewrites bc) = Some (bc_prewrites bc') ∧
    collector_step forward_commit bs e2 (bc_commits bc) = Some (bc_commits bc')) as (e1 & e2 & H1 & H2).
  { unfold batch_step in Hev.
    destruct ev as [| |ev|ev]; try destruct (is_handle_event ev); try done;
      apply bind_Some in Hev as (x & Hx & Hev); apply bind_Some in Hev as (y & Hy & Hev);
      injection Hev as <-; by eexists _, _. }
  split; (eapply rtc_r; [done|]); by eexists.
Qed.
End Batch.

(** A run of the events, as far as they are possible. *)
Fixpoint play_events {FE : FjallErr} {W} `{!Fjall FE W} {I R} (send : I → prog R) (bs : nat)
    (evs : list CollectorEvent) (c : @Collector W I R) : @Collector W I R :=
  match evs with
  | [] => c
  | ev :: evs' => match collector_step send bs ev c with
                  | Some c' => play_events send bs evs' c'
                  | None => c
                  end
  end.

Lemma play_events_steps {FE : FjallErr} {W} `{!Fjall FE W} {I R} (send : I → prog R) bs evs c :
  rtc (steps_to send bs) c (play_events send bs evs c).
Proof.
  revert c. induction evs as [|ev evs IH]; intros c; cbn [play_events]; [done|].
  destruct (collector_step send bs ev c) as [c'|] eqn:E; [|done].
  eapply rtc_l; [by exists ev|apply IH].
Qed.

(** Three prewrites, one of them cancelled, a batch size of two; a commit for
    each; a clone and its drop. *)
Definition ex_item (ts : Z) (k v : bytes) : PrewriteItem :=
  mkPrewriteItem ts [(k, Some v)] k 3000.
Definition ex_forward : PrewriteItem → prog (result (@ClientError Mem_err direct_channel) unit) :=
  forward_prewrite.
Definition ex_events : list (@CollectorEvent Store PrewriteItem) :=
  [Clone; Submit (ex_item 65536 key_a (of_str "1")); Submit (ex_item 65537 key_b (of_str "2"));
   Submit (ex_item 65538 key_a (of_str "3")); Send 0; Send 1; Recv; Send 2; Cancel 2; Recv; Drop;
   Forward; Forward].
Definition ex_collector : Collector :=
  play_events (Fjall0 := Mem 0) ex_forward 2 ex_events (Collector_new empty_store).

Lemma collector_forwards_in_order_witness :
  (col_forwarded ex_collector).*1.*1 = [0; 1]%nat ∧ (pending ex_collector).*1 = [2%nat] ∧
  (col_forwarded ex_collector).*1 `prefix_of` col_sent ex_collector.
Proof.
  split; [by vm_compute|]. split; [by vm_compute|].
  apply (collector_forwards_in_order (FJ := Mem 0) ex_forward 2 empty_store ex_collector).
  apply play_events_steps.
Defined.

Lemma collector_answers_submitters_witness :
  ∃ it w', (0%nat, it) ∈ col_sent ex_collector ∧
    Reply (Ok tt) = Reply (@run _ _ (Mem 0) _ (ex_forward it) w').1.
Proof.
  apply (collector_answers_submitters (FJ := Mem 0) ex_forward 2 empty_store ex_collector
    (play_events_steps _ _ _ _)).
  by vm_compute.
Defined.

Lemma collector_drains_witness :
  work ex_collector = 5%nat ∧
  ∀ i n c', task_trace (FJ := Mem 0) ex_forward 2 i n ex_collector c' → (n ≤ i + 6)%nat.
Proof.
  assert (work ex_collector = 5%nat) as E by by vm_compute. split; [exact E|].
  rewrite <-E. apply (collector_drains (FJ := Mem 0) ex_forward 2 empty_store ex_collector).
  apply play_events_steps.
Defined.

(** A submission that is cancelled after its item was gathered: when the last
    value of the collector goes, the task returns and the item is never
    forwarded. *)
Example returning_task_drops_batch :
  let c := play_events (Fjall0 := Mem 0) ex_forward 2
    [Submit (ex_item 65536 key_a (of_str "1")); Send 0; Recv; Cancel 0; Drop; RecvClosed]
    (Collector_new empty_store) in
  (col_sent c).*1 = [0%nat] ∧ length (col_forwarded c) = 0%nat ∧ pending c = [] ∧
  col_task c = Returned.
Proof. by vm_compute. Qed.

(** An idle step with an item in the channel changes nothing. *)
Example idle_timer_with_item_waiting :
  let c := play_events (Fjall0 := Mem 0) ex_forward 2
    [Submit (ex_item 65536 key_a (of_str "1")); Send 0] (Collector_new empty_store) in
  (col_channel c).*1 = [0%nat] ∧
  collector_step (FJ := Mem 0) ex_forward 2 Timeout c = Some c.
Proof. split; by vm_compute. Qed.
